(* ===== verification/_CoqProject ===== *)
-Q . S2P
Prelude.v
RustStr.v
Messages.v
Startup.v
Scanner.v
Config.v
Monitor.v
Notify.v
Pool.v
PoolSys.v
PoolThms.v
PoolLife.v
MonitorRun.v
Io.v
Backend.v
Proxy.v
Session.v
System.v
SystemThms.v
Login.v
Metrics.v
Dashboard.v
Admin.v
AdminThms.v
Tls.v
Main.v
