(* ===== verification/Prelude.v ===== *)
(** * pgmux: a verification development

    pgmux is a multi-tenant connection multiplexer for PostgreSQL.  A client
    connects with the PostgreSQL wire protocol; [handle_client]
    (src/protocol/frontend.rs) reads its startup message and password, acquires
    a backend connection from the pool (src/pool/mod.rs), which reuses an idle
    one or opens and authenticates a new one (src/protocol/backend.rs), and then
    proxies bytes in two modes.  The fast loop copies bytes and only scans the
    server's stream for ReadyForQuery (the [MessageBoundaryScanner] of
    src/protocol/messages.rs); the slow loop parses messages and rewrites queries
    to read-only ones.  A background task (src/monitor/mod.rs) measures database
    sizes and raises a flag per session that is over its limit; the flag and the
    transaction status decide when the loops switch.

    ** Files

    - Prelude.v (this file): results ([Ok], [Err], [Panic]), loops with fuel and
      their unfolding lemmas, bytes and machine integers, slices, counting over
      finite maps, sums; hint databases and tactics.
    - RustStr.v: [str] as a list of code points, UTF-8, and the methods of [str]
      the program uses; [UnicodeUpper] is the class of upper-case tables.
    - Messages.v: src/protocol/messages.rs up to the query inspection: encoder,
      the two incremental readers, builders; [drain] is the loop
      [while let Some(..) = try_read_message..] all consumers run.
    - Startup.v: [parse_startup_params] (its index loop) and
      [build_startup_message].
    - Scanner.v: [MessageBoundaryScanner::scan] and the byte-at-a-time framing
      automaton it refines.
    - Config.v: src/config.rs, defaults, layering of file, command line and
      environment, [parse_size_limit].
    - Monitor.v: src/monitor/mod.rs, session registry and size checks, with a
      heap for the shared [Arc<AtomicBool>] flags and a step relation for the
      interleavings of the check (its connection, one step per database, one per
      session) with session calls; [check_all_sizes] is the run of these steps
      with nothing in between.
    - Notify.v: tokio's [Notify], which is not in the repository, as a class of
      calls with the laws tokio documents, and an instance for the examples.
    - Pool.v, PoolSys.v, PoolThms.v: src/pool/mod.rs over any [Notify].  Pool.v
      has the operations
      of [acquire] and [release] between two suspension points (the awaited
      [connect_backend] ends with a connection, an error or a panic); PoolSys.v
      composes them for any number of concurrent calls, as the step relation
      [pstep] and as the function [exec] of the scheduler's choices (proved
      equivalent), and proves the invariant [pinv]; PoolThms.v has the theorems.
    - Io.v: reads and writes of a socket.  A function is a state that waits for
      the next read; the environment chooses the reads (any cut of the bytes,
      end of file, errors) and when writes fail.
    - Backend.v: src/protocol/backend.rs, [connect_backend] as a machine whose
      phases are its reads, [reset_connection], [parse_error_fields]; the
      postgres-protocol crate is the class [PgProto].
    - Proxy.v: [fast_proxy_loop], [slow_proxy_loop] and their alternation.
    - Session.v: [handle_client] as a whole; the calls on pool and monitor are
      its output.
    - PoolLife.v: the lifetime of the pool: accounting, the end of the wait in
      [acquire], growth of the table.
    - MonitorRun.v: the timer loop [run] over the class [Interval] of tokio's
      timer, and the steps of a check as a function of the environment's
      choices.
    - System.v, SystemThms.v: src/main.rs from its accept loop on.  One state
      holds the session tasks, the pool, the monitor and the client metrics; a
      step [sexec] runs one task to its next suspension point, and the calls
      that Session.v outputs are performed on the pool and the monitor of that
      state.  System.v proves the invariant [sinv] that ties each session to its
      task in the pool and its entry in the monitor; SystemThms.v has the
      theorems.  Sessions use the two components through the classes
      [ConnectionLender] and [LimitFlags] that these instantiate.
    - Login.v: the steps of one client from [accept] to [acquire], and to the
      proxy loop on a pooled connection, in any state of the server.
    - Metrics.v: src/admin/metrics.rs, the registrations and what a scrape reads
      while the server runs; the encoder of prometheus-client is a class.
    - Dashboard.v, Admin.v, AdminThms.v: src/admin/server.rs: the text of the
      page, the routes and handlers (each read of a shared object may find the
      server in a later state), their reports in reachable states.
    - Tls.v: src/tls/mod.rs over the class [TlsLibrary], and the session of a
      client that starts TLS.
    - Main.v: the command line and the start of the server.

    ** What the theorems show

    Whole server: tenants never share a connection or a flag; a session without
    a limit is passed through untouched whatever others register; a flag that was
    raised is enforced after one idle report; the registry of the monitor and the
    client metrics are exact, leaks of abnormal ends included; while the pool has
    a usable connection of a user and a database, any password is good for a
    login.  The invariant of the composition says that the pool and the monitor
    are in states their own transition systems reach, so their theorems hold in
    it.

    Wire format: encoding and both readers are inverse; each outcome of the
    reader (a message, more data, an error for a length outside 4 .. 64 MB) is
    characterised exactly, and it never panics; draining is independent of how a
    stream is cut; startup packets and error texts survive their round trips.
    Scanner: each call follows the automaton and reports the ReadyForQuery
    messages whose status byte is in the same read as the end of their header;
    the status byte of one that is split there is lost.  On any stream without
    such a split the scanner ends with the last status.

    Pool: in every interleaving connections are conserved, owned by one session
    at a time and never cross keys; the active counts are exact; the metrics and
    the per-pool statistics balance; the wait in [acquire] ends; the global limit
    holds up to the number of concurrent attempts; a clean return wakes the first
    waiter; and counterexample runs (limit race, password bypass, lifetime reset,
    stranded waiter, leaks, growth by refused logins).

    Backend: password and SCRAM flows reach the right result for every cut of
    the server's messages into reads; SCRAM checks the signature only if the
    server sends one; reset follows the first ReadyForQuery, also a stale one.
    Proxy: nothing is lost, duplicated or reordered across modes; in the slow
    loop, over the limit, every simple query that reaches the server is an allowed
    shrinking operation or read-only (the fast loop enforces nothing, and the
    extended protocol passes); switches happen only at an idle status, and say
    what of the triggering read was passed on; no step panics.  Session: startup
    works for every cut; the calls on pool and monitor come once and in order,
    are balanced on normal ends and not on errors or panics.

    Monitor and configuration: between two checks, in any interleaving, flags
    are set exactly for the sessions over their limit; checks follow the
    documented schedule, defaults are never enforced; sizes are parsed as number
    times unit below 2^64, and panics of the parser are characterised; layering
    has the documented precedence.  Admin: the reports agree with the pool and
    with the metrics at the moments they read them; clients can put any text on
    the dashboard for ever; counters are exposed with a doubled suffix; printed
    keys are ambiguous.  Start: when the server serves, and when a TLS acceptor is
    built.

    ** Bounds and fuel

    Machine integers keep their width: [i32] length words, [u64] counters and
    sizes (wrap-around in release builds, [BuildProfile] for overflow checks),
    [usize] as 64 bits.  Loops whose recursion is not structural use [loop] with
    fuel computed from the input; for each of them a measure shows that the
    fuel is enough ([drain_total], [scan_terminates], [parse_params_total],
    [fields_loop_total]), so no result below is "out of fuel".

    Session ids of the monitor wrap at 2^64: the theorems about the composition
    hold while fewer than 2^64 clients have connected ([few]).  Runs of the
    whole server are sequences of steps of any length; only [acquire_terminates]
    bounds one, by three steps of the session itself.

    ** What is not modelled

    Logging, clap, axum (what it answers on other paths and methods), serde_json's
    printer, the script of the dashboard (it is text of the page and is not
    executed), and what rustls does: these are outside, or classes with the
    calls the code makes.  [HashMap] iteration order, Unicode tables, sockets,
    timers, the postgres-protocol crate and the answers of the PostgreSQL server
    are parameters.  src/auth/mod.rs holds comments only.

    Concurrency is at the granularity of the steps named in PoolSys.v, Monitor.v
    and System.v; relaxed atomics are read and written in program order.  A
    session runs from one read to the next in one step of System.v, its calls
    included; an event of a proxy loop sees one value of the over-limit flag and
    of the database size.  A handler of the admin server may see another state of
    the server at each of its reads, but [get_stats] and [get_all_db_info] are
    one read each, where the code goes from entry to entry.  A failed [accept]
    ends the server.  In System.v the pool's connection attempts succeed, fail or
    panic by a choice of the environment (they succeed only with passwords the
    server accepts), not by running the machine of Backend.v; with it the
    settings of the configuration that no code reads ([require_tls],
    [upstream_tls], [max_queue_size], [health_check_interval_secs]) have no
    counterpart beyond their fields.

    tokio's [Notify] and interval, rustls and the crates named above are
    classes whose laws state what their documentation says; the theorems that
    use the laws name them as hypotheses, and their witnesses instantiate them. *)

From stdpp Require Export base tactics list strings gmap sorting.
From Stdlib Require Export ZArith Lia.
From Stdlib Require Strings.Byte.
Export Corelib.Init.Byte (byte(..)).
Export Corelib.Init.Byte.ByteSyntaxNotations.
Delimit Scope byte_scope with byte.

#[global] Open Scope Z_scope.

(** ** Scopes, hint databases, tactics *)

Declare Scope pgmux_scope.
Delimit Scope pgmux_scope with pgmux.
#[global] Open Scope pgmux_scope.

Create HintDb pgmux.
Create Rewrite HintDb pgmux_len.

(** ** Results of Rust code

    [Ok] and [Err] are the two variants of [anyhow::Result]; [Panic] is a
    panic (an out-of-range slice, a failed [assert!], ...), which unwinds the
    task and is caught by nobody in this program. *)

(** An [anyhow::Error]: a message formatted by [bail!], a UTF-8 validation
    error, an I/O error of a socket, or an error value of a third-party crate. *)
Inductive error :=
  | Bail (msg : list Z)
  | Utf8Error
  | IoError
  | ExtError (tag : list Z).

Inductive outcome (A : Type) :=
  | Ok (a : A)
  | Err (e : error)
  | Panic.
Arguments Ok {A} a.
Arguments Err {A} e.
Arguments Panic {A}.

#[export] Instance error_eq_dec : EqDecision error.
Proof. solve_decision. Defined.
#[export] Instance outcome_eq_dec `{EqDecision A} : EqDecision (outcome A).
Proof. solve_decision. Defined.

#[export] Instance outcome_ret : MRet outcome := @Ok.
#[export] Instance outcome_bind : MBind outcome := fun A B k m =>
  match m with Ok a => k a | Err e => Err e | Panic => Panic end.
#[export] Instance outcome_fmap : FMap outcome := fun A B f m =>
  match m with Ok a => Ok (f a) | Err e => Err e | Panic => Panic end.

Definition is_panic {A} (m : outcome A) : bool :=
  match m with Panic => true | _ => false end.

(** An indexing or slicing expression: the [None] of a checked access is a
    panic of the unchecked one. *)
Definition unwrap {A} (o : option A) : outcome A :=
  match o with Some a => Ok a | None => Panic end.

Lemma bind_Ok {A B} (m : outcome A) (k : A → outcome B) b :
  (m ≫= k) = Ok b ↔ ∃ a, m = Ok a ∧ k a = Ok b.
Proof. destruct m; simpl; naive_solver. Qed.

Lemma bind_Panic {A B} (m : outcome A) (k : A → outcome B) :
  (m ≫= k) = Panic ↔ m = Panic ∨ ∃ a, m = Ok a ∧ k a = Panic.
Proof. destruct m; simpl; naive_solver. Qed.

Lemma unwrap_Ok {A} (o : option A) a : unwrap o = Ok a ↔ o = Some a.
Proof. destruct o; simpl; naive_solver. Qed.

(** Invert every bind that is known to have returned [Ok]. *)
Ltac outcome_inv :=
  repeat match goal with
  | H : (_ ≫= _) = Ok _ |- _ =>
      let a := fresh "a" in apply bind_Ok in H as (a & ? & H)
  | H : unwrap _ = Ok _ |- _ => apply unwrap_Ok in H
  | H : Ok _ = Ok _ |- _ => injection H as H
  | H : Err _ = Ok _ |- _ => discriminate H
  | H : Panic = Ok _ |- _ => discriminate H
  end.

(** ** Loops

    A Rust [while]/[loop] is the iteration of its body, which either goes on
    with the next state or leaves the loop with a result.  [loop] takes fuel;
    [loop_total] shows that a body whose [Continue] decreases a measure never
    runs out of it, and [loop_unfold] is then the loop's recursion equation. *)

Inductive ctrl (S R : Type) :=
  | Continue (s : S)
  | Break (r : R).
Arguments Continue {S R} s.
Arguments Break {S R} r.

Fixpoint loop {S R} (fuel : nat) (body : S → ctrl S R) (s : S) : option R :=
  match fuel with
  | O => None
  | S fuel' =>
      match body s with
      | Break r => Some r
      | Continue s' => loop fuel' body s'
      end
  end.

Section loop.
Context {S R : Type} (body : S → ctrl S R) (m : S → nat).

Lemma loop_S fuel s :
  loop (Datatypes.S fuel) body s =
    match body s with Break r => Some r | Continue s' => loop fuel body s' end.
Proof using Type. done. Qed.

Lemma loop_mono fuel fuel' s r :
  loop fuel body s = Some r → (fuel ≤ fuel')%nat → loop fuel' body s = Some r.
Proof using Type.
  revert fuel' s; induction fuel as [|fuel IH]; intros fuel' s Hl Hle; [done|].
  destruct fuel' as [|fuel']; [lia|]. simpl in *.
  destruct (body s); [|done]. apply IH; [done|lia].
Qed.

Hypothesis Hdec : ∀ s s', body s = Continue s' → (m s' < m s)%nat.

Lemma loop_total fuel s : (m s < fuel)%nat → is_Some (loop fuel body s).
Proof using Hdec.
  revert s; induction fuel as [|fuel IH]; intros s Hlt; [lia|]. simpl.
  destruct (body s) eqn:Hb; [|eauto]. apply IH. apply Hdec in Hb. lia.
Qed.

Lemma loop_unfold fuel s :
  (m s < fuel)%nat →
  loop fuel body s =
    match body s with
    | Break r => Some r
    | Continue s' => loop (Datatypes.S (m s')) body s'
    end.
Proof using Hdec.
  intros Hlt. destruct fuel as [|fuel]; [lia|]. rewrite loop_S.
  destruct (body s) as [s'|r] eqn:Hb; [|done].
  destruct (loop_total (Datatypes.S (m s')) s') as [r Hr]; [lia|].
  rewrite Hr. apply (loop_mono (Datatypes.S (m s'))); [done|].
  apply Hdec in Hb; lia.
Qed.
End loop.

(** ** Bytes and machine integers *)

Abbreviation bytes := (list byte).

#[export] Instance byte_eq_dec : EqDecision byte := Strings.Byte.byte_eq_dec.

Definition byte_Z (b : byte) : Z := Z.of_N (Strings.Byte.to_N b).
Definition Z_byte (z : Z) : byte :=
  default x00 (Strings.Byte.of_N (Z.to_N (z mod 256))).

Lemma byte_Z_range b : 0 ≤ byte_Z b < 256.
Proof. unfold byte_Z. pose proof (Strings.Byte.to_N_bounded b). lia. Qed.

Lemma byte_Z_Z_byte z : byte_Z (Z_byte z) = z mod 256.
Proof.
  unfold byte_Z, Z_byte.
  pose proof (Z.mod_pos_bound z 256 eq_refl) as Hz.
  destruct (Strings.Byte.of_N _) as [b|] eqn:Hb; simpl.
  - apply Strings.Byte.to_of_N in Hb. rewrite Hb. lia.
  - apply Strings.Byte.of_N_None_iff in Hb. lia.
Qed.

#[export] Instance byte_Z_inj : Inj (=) (=) byte_Z.
Proof.
  intros a b Hab. unfold byte_Z in Hab. apply N2Z.inj in Hab.
  apply (inj Some). by rewrite <-!Strings.Byte.of_to_N, Hab.
Qed.

Lemma Z_byte_byte_Z b : Z_byte (byte_Z b) = b.
Proof.
  apply (inj byte_Z). rewrite byte_Z_Z_byte. apply Z.mod_small, byte_Z_range.
Qed.

(** Two's-complement and unsigned wrap-around. *)
Definition i32_wrap (z : Z) : Z := (z + 2^31) mod 2^32 - 2^31.
Definition u64_wrap (z : Z) : Z := z mod 2^64.
(** [x as usize] on a 64-bit target: sign extension of a negative [i32]. *)
Definition as_usize (z : Z) : Z := z mod 2^64.
Definition is_u64 (z : Z) : Prop := 0 ≤ z < 2^64.
Definition is_i32 (z : Z) : Prop := -2^31 ≤ z < 2^31.

(** [BufMut::put_i32] and [Buf::get_i32]: four bytes, big-endian. *)
Definition put_i32 (z : Z) : bytes :=
  [Z_byte (z / 2^24); Z_byte (z / 2^16); Z_byte (z / 2^8); Z_byte z].

Definition i32_from_be_bytes (b0 b1 b2 b3 : byte) : Z :=
  i32_wrap (byte_Z b0 * 2^24 + byte_Z b1 * 2^16 + byte_Z b2 * 2^8 + byte_Z b3).

(** [(&buf[0..4]).get_i32()]: the slice panics on a shorter buffer. *)
Definition get_i32 (buf : bytes) : option Z :=
  match buf with
  | b0 :: b1 :: b2 :: b3 :: _ => Some (i32_from_be_bytes b0 b1 b2 b3)
  | _ => None
  end.

Lemma put_i32_length z : length (put_i32 z) = 4%nat.
Proof. done. Qed.

Lemma i32_wrap_range z : is_i32 (i32_wrap z).
Proof. unfold is_i32, i32_wrap. pose proof (Z.mod_pos_bound (z + 2^31) (2^32)). lia. Qed.

Lemma i32_wrap_small z : is_i32 z → i32_wrap z = z.
Proof. unfold is_i32, i32_wrap. intros. rewrite Z.mod_small; lia. Qed.

Lemma be_bytes_mod z :
  byte_Z (Z_byte (z / 2^24)) * 2^24 + byte_Z (Z_byte (z / 2^16)) * 2^16 +
  byte_Z (Z_byte (z / 2^8)) * 2^8 + byte_Z (Z_byte z) = z mod 2^32.
Proof.
  rewrite !byte_Z_Z_byte.
  change (2^24) with 16777216. change (2^16) with 65536.
  change (2^8) with 256. change (2^32) with 4294967296.
  Z.div_mod_to_equations. lia.
Qed.

Lemma get_put_i32 z rest : is_i32 z → get_i32 (put_i32 z ++ rest) = Some z.
Proof.
  intros Hz. unfold put_i32, get_i32; simpl. f_equal.
  unfold i32_from_be_bytes. rewrite be_bytes_mod.
  unfold i32_wrap, is_i32 in *. rewrite Zplus_mod_idemp_l. rewrite Z.mod_small; lia.
Qed.

Lemma put_get_i32 b0 b1 b2 b3 :
  put_i32 (i32_from_be_bytes b0 b1 b2 b3) = [b0; b1; b2; b3].
Proof.
  unfold put_i32, i32_from_be_bytes, i32_wrap.
  pose proof (byte_Z_range b0); pose proof (byte_Z_range b1).
  pose proof (byte_Z_range b2); pose proof (byte_Z_range b3).
  change (2^24) with 16777216. change (2^16) with 65536.
  change (2^8) with 256. change (2^32) with 4294967296. change (2^31) with 2147483648.
  repeat f_equal; apply (inj byte_Z); rewrite byte_Z_Z_byte;
    Z.div_mod_to_equations; lia.
Qed.

Lemma get_i32_range buf z : get_i32 buf = Some z → is_i32 z.
Proof.
  destruct buf as [|b0 [|b1 [|b2 [|b3 ?]]]]; simpl; try done.
  intros [= <-]. apply i32_wrap_range.
Qed.

Lemma get_i32_app buf rest z : get_i32 buf = Some z → get_i32 (buf ++ rest) = Some z.
Proof. by destruct buf as [|b0 [|b1 [|b2 [|b3 ?]]]]. Qed.

Lemma get_i32_is_Some buf : (4 ≤ length buf)%nat → is_Some (get_i32 buf).
Proof. destruct buf as [|b0 [|b1 [|b2 [|b3 ?]]]]; simpl; intros; [lia..|eauto]. Qed.

Lemma as_usize_nonneg z : 0 ≤ z < 2^31 → as_usize z = z.
Proof. unfold as_usize. intros. apply Z.mod_small. lia. Qed.
Lemma as_usize_neg z : -2^31 ≤ z < 0 → as_usize z = z + 2^64.
Proof.
  unfold as_usize. intros. rewrite <-(Z_mod_plus_full z 1), Z.mod_small; lia.
Qed.

(** ** Slices *)

(** [buf.len()] as a [usize]. *)
Definition len {A} (l : list A) : Z := Z.of_nat (length l).

Lemma len_nil {A} : len (@nil A) = 0.
Proof. done. Qed.
Lemma len_cons {A} (x : A) l : len (x :: l) = 1 + len l.
Proof. unfold len; simpl; lia. Qed.
Lemma len_app {A} (l1 l2 : list A) : len (l1 ++ l2) = len l1 + len l2.
Proof. unfold len. rewrite length_app. lia. Qed.
Lemma len_nonneg {A} (l : list A) : 0 ≤ len l.
Proof. unfold len. lia. Qed.
Lemma len_put_i32 z : len (put_i32 z) = 4.
Proof. done. Qed.

#[export] Hint Rewrite @len_nil @len_cons @len_app len_put_i32 : pgmux_len.

(** Normalise list lengths, then arithmetic. *)
Ltac len_lia :=
  autorewrite with pgmux_len in *; unfold len in *; simpl in *; lia.

(** [&s[a..]] with the bounds check of the slice operator. *)
Definition slice_from {A} (s : list A) (a : nat) : option (list A) :=
  if decide (a ≤ length s)%nat then Some (drop a s) else None.
(** [&s[a..b]]. *)
Definition slice {A} (s : list A) (a b : nat) : option (list A) :=
  if decide (a ≤ b ≤ length s)%nat then Some (take (b - a) (drop a s)) else None.
(** [BytesMut::split_to]: panics when [at > len]. *)
Definition split_to {A} (s : list A) (at_ : Z) : option (list A * list A) :=
  if decide (0 ≤ at_ ≤ len s)
  then Some (take (Z.to_nat at_) s, drop (Z.to_nat at_) s) else None.

Lemma split_to_app {A} (l r : list A) : split_to (l ++ r) (len l) = Some (l, r).
Proof.
  unfold split_to. rewrite decide_True by len_lia.
  unfold len. rewrite Nat2Z.id, take_app_length, drop_app_length. done.
Qed.

Lemma split_to_Some {A} (s : list A) n l r :
  split_to s n = Some (l, r) → s = l ++ r ∧ len l = n.
Proof.
  unfold split_to. case_decide; [|done]. intros [= <- <-].
  rewrite take_drop. split; [done|]. unfold len in *. rewrite length_take. lia.
Qed.

(** ** Counting entries of a finite map *)

Definition cnt `{Countable K} {A} (f : A → bool) (m : gmap K A) : Z :=
  Z.of_nat (size (filter (λ ka : K * A, f ka.2 = true) m)).
Definition b2z (b : bool) : Z := if b then 1 else 0.

Section cnt.
Context `{Countable K} {A : Type} (f : A → bool).
Implicit Types m : gmap K A.

Lemma cnt_empty : cnt f (∅ : gmap K A) = 0.
Proof using Type. unfold cnt. by rewrite map_filter_empty, map_size_empty. Qed.

Lemma cnt_nonneg m : 0 ≤ cnt f m.
Proof using Type. unfold cnt. lia. Qed.

Lemma cnt_insert_fresh m i x : m !! i = None → cnt f (<[i := x]> m) = cnt f m + b2z (f x).
Proof using Type.
  intros Hi. unfold cnt. destruct (f x) eqn:E.
  - rewrite map_filter_insert_True by done.
    rewrite map_size_insert_None; [simpl; lia|]. apply map_lookup_filter_None. by left.
  - rewrite map_filter_insert_False by (simpl; congruence).
    rewrite delete_id by done. simpl. lia.
Qed.

Lemma cnt_delete m i x : m !! i = Some x → cnt f (delete i m) = cnt f m - b2z (f x).
Proof using Type.
  intros Hi. rewrite <-(insert_delete_id m i x Hi) at 2.
  rewrite cnt_insert_fresh by apply lookup_delete_eq. lia.
Qed.

Lemma cnt_update m i x y :
  m !! i = Some x → cnt f (<[i := y]> m) = cnt f m - b2z (f x) + b2z (f y).
Proof using Type.
  intros Hi. rewrite <-insert_delete_eq.
  rewrite cnt_insert_fresh by apply lookup_delete_eq. by rewrite (cnt_delete m i x).
Qed.

Lemma cnt_le m g : (∀ x, g x = true) → cnt f m ≤ cnt g m.
Proof using Type.
  intros Hg. unfold cnt. apply inj_le, map_subseteq_size, map_subseteq_spec.
  intros i x. rewrite !map_lookup_filter_Some. naive_solver.
Qed.

Lemma cnt_insert m i x :
  cnt f (<[i := x]> m) = cnt f m - from_option (λ y, b2z (f y)) 0 (m !! i) + b2z (f x).
Proof using Type.
  destruct (m !! i) as [y|] eqn:E; simpl; [by apply cnt_update|]. rewrite cnt_insert_fresh by done. lia.
Qed.

Lemma cnt_subseteq m m' : m ⊆ m' → cnt f m ≤ cnt f m'.
Proof using Type.
  intros Hm. unfold cnt. apply inj_le, map_subseteq_size. by apply map_filter_subseteq_mono.
Qed.

Lemma cnt_list m (ks : list K) :
  NoDup ks → (∀ i, i ∈ ks ↔ ∃ x, m !! i = Some x ∧ f x = true) → cnt f m = len ks.
Proof using Type.
  intros Hnd Hks. unfold cnt, len. rewrite <-size_dom. f_equal.
  rewrite <-(size_list_to_set (C := gset K) ks Hnd). f_equal. apply set_eq. intros i.
  rewrite elem_of_list_to_set, Hks, elem_of_dom. unfold is_Some.
  setoid_rewrite map_lookup_filter_Some. simpl. naive_solver.
Qed.
End cnt.

(** Sums over lists. *)
Definition zsum {A} (f : A → Z) (l : list A) : Z := foldr (λ x a, f x + a) 0 l.
Lemma zsum_add {A} (f g : A → Z) l : zsum (λ x, f x + g x) l = zsum f l + zsum g l.
Proof. induction l as [|x l IH]; simpl; [done|]. rewrite IH. lia. Qed.
Lemma zsum_ext {A} (f g : A → Z) l : (∀ x, x ∈ l → f x = g x) → zsum f l = zsum g l.
Proof.
  induction l as [|x l IH]; intros H; simpl; [done|].
  rewrite (H x), IH; [done| |left]. intros y Hy. apply H. by right.
Qed.
Lemma zsum_fmap {A B} (f : B → Z) (g : A → B) l : zsum f (g <$> l) = zsum (λ x, f (g x)) l.
Proof. induction l as [|x l IH]; [done|]. cbn. by f_equal. Qed.
Lemma zsum_zero {A} (l : list A) : zsum (λ _, 0) l = 0.
Proof. by induction l. Qed.
(** Exactly one element of a duplicate-free list is [k]. *)
Lemma zsum_one `{EqDecision A} (k : A) l :
  NoDup l → k ∈ l → zsum (λ x, b2z (bool_decide (x = k))) l = 1.
Proof.
  induction 1 as [|x l Hx Hnd IH]; intros Hk; [by apply not_elem_of_nil in Hk|]. simpl.
  apply elem_of_cons in Hk as [->|Hk].
  - rewrite bool_decide_eq_true_2 by done. rewrite (zsum_ext _ (λ _, 0)), zsum_zero; [done|].
    intros y Hy. rewrite bool_decide_eq_false_2; [done|]. by intros ->.
  - rewrite IH, bool_decide_eq_false_2; [done| |done]. intros ->. done.
Qed.

Lemma u64_wrap_add n k : u64_wrap (u64_wrap n + k) = u64_wrap (n + k).
Proof. unfold u64_wrap. by rewrite Zplus_mod_idemp_l. Qed.
Lemma u64_wrap_small n : 0 ≤ n < 2^64 → u64_wrap n = n.
Proof. apply Z.mod_small. Qed.

(** ** Counters that wrap at 64 bits

    Equality of the counters modulo 2^64: what remains of a sum when
    [fetch_add] and [fetch_sub] wrap around. *)
Definition cong64 (a b : Z) : Prop := a mod 2^64 = b mod 2^64.
Infix "≡₆₄" := cong64 (at level 70, no associativity) : pgmux_scope.

#[export] Instance cong64_equiv : Equivalence cong64.
Proof. split; [by intros a|by intros a b|intros a b c H1 H2; by transitivity (b mod 2^64)]. Qed.
#[export] Instance cong64_add : Proper (cong64 ==> cong64 ==> cong64) Z.add.
Proof. intros a a' Ha b b' Hb. unfold cong64 in *. by rewrite Zplus_mod, Ha, Hb, <-Zplus_mod. Qed.
#[export] Instance cong64_sub : Proper (cong64 ==> cong64 ==> cong64) Z.sub.
Proof. intros a a' Ha b b' Hb. unfold cong64 in *. by rewrite Zminus_mod, Ha, Hb, <-Zminus_mod. Qed.

Lemma cong64_eq a b : a = b → a ≡₆₄ b.
Proof. by intros ->. Qed.
Lemma cong64_u64 z : u64_wrap z ≡₆₄ z.
Proof. apply Zmod_mod. Qed.
Lemma cong64_wrap a b : a ≡₆₄ b → u64_wrap a = u64_wrap b.
Proof. done. Qed.
Lemma cong64_move a b c : a - b ≡₆₄ c → a ≡₆₄ b + c.
Proof. intros H. rewrite <-H. apply cong64_eq. lia. Qed.
Lemma u64_wrap_range z : is_u64 (u64_wrap z).
Proof. by apply Z.mod_pos_bound. Qed.

(** Sums over the values of a finite map. *)
Definition msum `{Countable K} {A} (f : A → Z) (m : gmap K A) : Z := zsum (λ ka, f ka.2) (map_to_list m).

Section msum.
Context `{Countable K} {A : Type} (f : A → Z).
Implicit Types m : gmap K A.

Lemma msum_empty : msum f (∅ : gmap K A) = 0.
Proof using Type. unfold msum. by rewrite map_to_list_empty. Qed.

Lemma zsum_perm {B} (g : B → Z) l l' : l ≡ₚ l' → zsum g l = zsum g l'.
Proof using Type. induction 1; simpl; lia. Qed.

Lemma msum_insert_fresh m i x : m !! i = None → msum f (<[i := x]> m) = f x + msum f m.
Proof using Type. intros Hi. unfold msum. by rewrite (zsum_perm _ _ _ (map_to_list_insert m i x Hi)). Qed.

Lemma msum_insert m i x : msum f (<[i := x]> m) = msum f m - from_option f 0 (m !! i) + f x.
Proof using Type.
  destruct (m !! i) as [y|] eqn:E; simpl; [|rewrite msum_insert_fresh by done; lia].
  rewrite <-insert_delete_eq, msum_insert_fresh by apply lookup_delete_eq.
  rewrite <-(insert_delete_id m i y E) at 2. rewrite msum_insert_fresh by apply lookup_delete_eq. lia.
Qed.
End msum.
