(* ===== verification/RustStr.v ===== *)
(** * Rust strings

    The part of Rust's [str]/[String] the program uses.  A string is the list
    of its Unicode scalar values ([char]s, as [Z]); its UTF-8 bytes are
    [as_bytes], and [from_utf8] is the standard library's validating decoder.
    Byte offsets ([&s[..k]]) go through the UTF-8 lengths of the characters,
    so that a slice inside a character is the panic it is in Rust. *)

From S2P Require Import Prelude.

Abbreviation str := (list Z).

(** ASCII literals. *)
Definition lit (s : string) : str :=
  (λ a, Z.of_nat (Ascii.nat_of_ascii a)) <$> String.list_ascii_of_string s.
(** Byte-string literals, [b"..."]. *)
Definition blit (s : string) : bytes := String.list_byte_of_string s.

(** ** UTF-8 *)

Definition is_scalar (c : Z) : Prop := 0 ≤ c < 55296 ∨ 57344 ≤ c < 1114112.
Definition str_ok (s : str) : Prop := Forall is_scalar s.

Definition encode_char (c : Z) : bytes :=
  if c <? 128 then [Z_byte c]
  else if c <? 2048 then [Z_byte (192 + c / 64); Z_byte (128 + c mod 64)]
  else if c <? 65536 then
    [Z_byte (224 + c / 4096); Z_byte (128 + (c / 64) mod 64); Z_byte (128 + c mod 64)]
  else
    [Z_byte (240 + c / 262144); Z_byte (128 + (c / 4096) mod 64);
     Z_byte (128 + (c / 64) mod 64); Z_byte (128 + c mod 64)].

(** [str::as_bytes]. *)
Definition as_bytes (s : str) : bytes := s ≫= encode_char.

Definition in_range (lo hi x : Z) : bool := (lo <=? x) && (x <=? hi).
(** A continuation byte [10xxxxxx]. *)
Definition cont (x : Z) : bool := in_range 128 191 x.

(** [std::str::from_utf8]: the well-formed byte sequences of the Unicode
    standard (no overlong forms, no surrogates, nothing above U+10FFFF). *)
Fixpoint from_utf8 (b : bytes) : option str :=
  match b with
  | [] => Some []
  | b0 :: r0 =>
      let x0 := byte_Z b0 in
      if x0 <? 128 then cons x0 <$> from_utf8 r0
      else match r0 with
      | [] => None
      | b1 :: r1 =>
          let x1 := byte_Z b1 in
          if in_range 194 223 x0 && cont x1 then
            cons ((x0 - 192) * 64 + (x1 - 128)) <$> from_utf8 r1
          else match r1 with
          | [] => None
          | b2 :: r2 =>
              let x2 := byte_Z b2 in
              let ok3 := (x0 =? 224) && in_range 160 191 x1
                      || in_range 225 236 x0 && cont x1
                      || (x0 =? 237) && in_range 128 159 x1
                      || in_range 238 239 x0 && cont x1 in
              if ok3 && cont x2 then
                cons ((x0 - 224) * 4096 + (x1 - 128) * 64 + (x2 - 128)) <$> from_utf8 r2
              else match r2 with
              | [] => None
              | b3 :: r3 =>
                  let x3 := byte_Z b3 in
                  let ok4 := (x0 =? 240) && in_range 144 191 x1
                          || in_range 241 243 x0 && cont x1
                          || (x0 =? 244) && in_range 128 143 x1 in
                  if ok4 && cont x2 && cont x3 then
                    cons ((x0 - 240) * 262144 + (x1 - 128) * 4096 + (x2 - 128) * 64 + (x3 - 128))
                      <$> from_utf8 r3
                  else None
              end
          end
      end
  end.

(** ** White space, trimming, splitting *)

(** [char::is_whitespace]: the Unicode property White_Space. *)
Definition is_whitespace (c : Z) : bool :=
  in_range 9 13 c || (c =? 32) || (c =? 133) || (c =? 160) || (c =? 5760)
  || in_range 8192 8202 c || (c =? 8232) || (c =? 8233) || (c =? 8239)
  || (c =? 8287) || (c =? 12288).

Fixpoint trim_start (s : str) : str :=
  match s with
  | c :: r => if is_whitespace c then trim_start r else s
  | [] => []
  end.
Definition trim_end (s : str) : str := reverse (trim_start (reverse s)).
(** [str::trim]. *)
Definition trim (s : str) : str := trim_end (trim_start s).

(** [str::split_whitespace]: the maximal runs of non-space characters. *)
Fixpoint split_ws_aux (s cur : str) : list str :=
  match s with
  | [] => if decide (cur = []) then [] else [reverse cur]
  | c :: r =>
      if is_whitespace c
      then (if decide (cur = []) then [] else [reverse cur]) ++ split_ws_aux r []
      else split_ws_aux r (c :: cur)
  end.
Definition split_whitespace (s : str) : list str := split_ws_aux s [].

Definition starts_with (s p : str) : bool := bool_decide (p `prefix_of` s).
Definition ends_with (s p : str) : bool := bool_decide (p `suffix_of` s).
Definition strip_prefix (s p : str) : option str :=
  if decide (p `prefix_of` s) then Some (drop (length p) s) else None.

(** ** Upper case

    [str::to_uppercase] maps every character by the Unicode upper-case tables.
    ASCII letters and the characters whose upper case contains an ASCII letter
    are written out ([ascii_upper], [special_upper]: the complete list of the
    Unicode data); the tables for all other characters are the parameter
    [upper_rest] of the class, whose law is what those tables satisfy. *)
Class UnicodeUpper := {
  upper_rest : Z → str;
  upper_rest_nonascii : ∀ c, 128 ≤ c → Forall (λ d, 128 ≤ d) (upper_rest c);
  upper_rest_nonempty : ∀ c, upper_rest c ≠ []
}.

Definition ascii_upper (c : Z) : Z := if in_range 97 122 c then c - 32 else c.

Definition special_upper (c : Z) : option str :=
  if c =? 223 then Some [83; 83]              (* sharp s *)
  else if c =? 305 then Some [73]             (* dotless i *)
  else if c =? 329 then Some [700; 78]
  else if c =? 383 then Some [83]             (* long s *)
  else if c =? 496 then Some [74; 780]
  else if c =? 7830 then Some [72; 817]
  else if c =? 7831 then Some [84; 776]
  else if c =? 7832 then Some [87; 778]
  else if c =? 7833 then Some [89; 778]
  else if c =? 7834 then Some [65; 702]
  else if c =? 64256 then Some [70; 70]       (* ligatures ff fi fl ffi ffl *)
  else if c =? 64257 then Some [70; 73]
  else if c =? 64258 then Some [70; 76]
  else if c =? 64259 then Some [70; 70; 73]
  else if c =? 64260 then Some [70; 70; 76]
  else if c =? 64261 then Some [83; 84]       (* ligatures long-s-t, st *)
  else if c =? 64262 then Some [83; 84]
  else None.

Definition char_upper `{UnicodeUpper} (c : Z) : str :=
  if c <? 128 then [ascii_upper c]
  else match special_upper c with
       | Some u => u
       | None => upper_rest c
       end.

Definition to_uppercase `{UnicodeUpper} (s : str) : str := s ≫= char_upper.

(** The identity table satisfies the laws; it serves in evaluated examples. *)
Definition upper_id : UnicodeUpper.
Proof.
  refine {| upper_rest c := [c] |}; [|done].
  intros c Hc. by repeat constructor.
Defined.

(** [str::eq_ignore_ascii_case]. *)
Definition eq_ignore_ascii_case (s t : str) : bool :=
  bool_decide (ascii_upper <$> s = ascii_upper <$> t).

(** ** Byte lengths and byte slices *)

Definition len_utf8 (c : Z) : Z :=
  if c <? 128 then 1 else if c <? 2048 then 2 else if c <? 65536 then 3 else 4.

(** [s.len()]: the number of UTF-8 bytes. *)
Definition str_len (s : str) : Z := foldr (λ c n, len_utf8 c + n) 0 s.

(** [&s[..k]]: panics when [k] is past the end or inside a character. *)
Fixpoint str_slice_to (s : str) (k : Z) : option str :=
  if k =? 0 then Some []
  else match s with
       | [] => None
       | c :: r =>
           if k <? len_utf8 c then None
           else cons c <$> str_slice_to r (k - len_utf8 c)
       end.

(** ** Numbers *)

Definition digit (c : Z) : option Z :=
  if in_range 48 57 c then Some (c - 48) else None.

(** The checked accumulation of [from_str_radix]: an overflow is an error. *)
Fixpoint parse_digits (bound acc : Z) (s : str) : option Z :=
  match s with
  | [] => Some acc
  | c :: r =>
      d ← digit c;
      let acc' := acc * 10 + d in
      if acc' <? bound then parse_digits bound acc' r else None
  end.

(** [str::parse::<uN>]: an optional plus sign, then at least one digit. *)
Definition parse_uint (bits : Z) (s : str) : option Z :=
  let ds := match s with c :: r => if c =? 43 then r else s | [] => [] end in
  if decide (ds = []) then None else parse_digits (2 ^ bits) 0 ds.

(** [Display] for the unsigned and signed integer types. *)
Fixpoint fmt_digits (fuel : nat) (n : Z) (acc : str) : str :=
  match fuel with
  | O => acc
  | S fuel' =>
      let acc' := (48 + n mod 10) :: acc in
      if n <? 10 then acc' else fmt_digits fuel' (n / 10) acc'
  end.
Definition fmt_uint (n : Z) : str := fmt_digits (S (Z.to_nat (Z.log2 n))) n [].
Definition fmt_int (n : Z) : str := if n <? 0 then 45 :: fmt_uint (- n) else fmt_uint n.

(** [str::parse::<bool>]. *)
Definition parse_bool (s : str) : option bool :=
  if decide (s = lit "true") then Some true
  else if decide (s = lit "false") then Some false else None.

(** ** Lemmas: UTF-8 *)

Lemma in_range_true lo hi x : in_range lo hi x = true ↔ lo ≤ x ≤ hi.
Proof. unfold in_range. lia. Qed.
Lemma in_range_false lo hi x : in_range lo hi x = false ↔ x < lo ∨ hi < x.
Proof. unfold in_range. lia. Qed.

(** Case analysis on the range tests of the decoder, closed by arithmetic. *)
Ltac range_lia := unfold cont, in_range in *; lia.
Ltac if_true := match goal with |- context [if ?b then _ else _] =>
  replace b with true by (symmetry; range_lia) end.
Ltac if_false := match goal with |- context [if ?b then _ else _] =>
  replace b with false by (symmetry; range_lia) end.

Lemma from_utf8_cons c b :
  is_scalar c → from_utf8 (encode_char c ++ b) = cons c <$> from_utf8 b.
Proof.
  intros Hc. unfold encode_char, is_scalar in *.
  destruct (c <? 128) eqn:H1; [|destruct (c <? 2048) eqn:H2; [|destruct (c <? 65536) eqn:H3]].
  - simpl. rewrite byte_Z_Z_byte, Z.mod_small by lia. by rewrite H1.
  - simpl. rewrite !byte_Z_Z_byte.
    rewrite !(Z.mod_small (_ + _)) by (Z.div_mod_to_equations; lia).
    assert (2 ≤ c / 64 ≤ 31 ∧ 0 ≤ c mod 64 < 64 ∧ c = 64 * (c / 64) + c mod 64)
      by (Z.div_mod_to_equations; lia).
    if_false. if_true. f_equal. f_equal. lia.
  - simpl. rewrite !byte_Z_Z_byte.
    rewrite !(Z.mod_small (_ + _)) by (Z.div_mod_to_equations; lia).
    assert (0 ≤ c / 4096 ≤ 15 ∧ 0 ≤ (c / 64) mod 64 < 64 ∧ 0 ≤ c mod 64 < 64 ∧
      c = 4096 * (c / 4096) + 64 * ((c / 64) mod 64) + c mod 64)
      by (Z.div_mod_to_equations; lia).
    if_false. if_false. if_true. f_equal. f_equal. lia.
  - simpl. rewrite !byte_Z_Z_byte.
    rewrite !(Z.mod_small (_ + _)) by (Z.div_mod_to_equations; lia).
    assert (0 ≤ c / 262144 ≤ 4 ∧ 0 ≤ (c / 4096) mod 64 < 64 ∧ 0 ≤ (c / 64) mod 64 < 64 ∧
      0 ≤ c mod 64 < 64 ∧
      c = 262144 * (c / 262144) + 4096 * ((c / 4096) mod 64) + 64 * ((c / 64) mod 64) + c mod 64)
      by (Z.div_mod_to_equations; lia).
    if_false. if_false. if_false. if_true. f_equal. f_equal. lia.
Qed.

(** Decoding what was encoded gives the string back. *)
Lemma from_utf8_as_bytes s : str_ok s → from_utf8 (as_bytes s) = Some s.
Proof.
  induction 1 as [|c s Hc _ IH]; [done|].
  change (as_bytes (c :: s)) with (encode_char c ++ as_bytes s).
  by rewrite from_utf8_cons, IH.
Qed.

Lemma Z_byte_eq z b : z = byte_Z b → Z_byte z = b.
Proof. intros ->. apply Z_byte_byte_Z. Qed.

(** The bytes of an encoded character, read back from its decoding. *)
Ltac encode_back :=
  unfold encode_char; repeat if_false; try if_true; simpl;
  repeat f_equal; apply Z_byte_eq; unfold cont, in_range in *;
  Z.div_mod_to_equations; lia.

Lemma from_utf8_sound_aux n b s :
  (length b ≤ n)%nat → from_utf8 b = Some s → as_bytes s = b ∧ str_ok s.
Proof.
  revert b s. induction n as [|n IH]; intros b s Hn Hb.
  { destruct b; simpl in *; [|lia]. simplify_eq. split; [done|constructor]. }
  assert (Hstep : ∀ c r b', cons c <$> from_utf8 r = Some s → is_scalar c →
    (length r ≤ n)%nat → encode_char c ++ r = b' → as_bytes s = b' ∧ str_ok s).
  { intros c r b' (s' & Hr & ->)%fmap_Some Hc Hlen <-. destruct (IH r s' Hlen Hr) as [<- ?].
    split; [done|by constructor]. }
  destruct b as [|b0 r0]; [simplify_eq/=; split; [done|constructor]|]. simpl in Hb, Hn.
  pose proof (byte_Z_range b0).
  destruct (byte_Z b0 <? 128) eqn:E0.
  { refine (Hstep _ _ _ Hb _ _ _); [unfold is_scalar; lia|lia|encode_back]. }
  destruct r0 as [|b1 r1]; [done|]. pose proof (byte_Z_range b1). simpl in Hn.
  destruct (in_range 194 223 (byte_Z b0) && cont (byte_Z b1)) eqn:E1.
  { refine (Hstep _ _ _ Hb _ _ _); [unfold is_scalar; range_lia|lia|encode_back]. }
  destruct r1 as [|b2 r2]; [done|]. pose proof (byte_Z_range b2). simpl in Hn.
  match type of Hb with (if ?b then _ else _) = _ => destruct b eqn:E2 end.
  { refine (Hstep _ _ _ Hb _ _ _); [unfold is_scalar; range_lia|lia|encode_back]. }
  destruct r2 as [|b3 r3]; [done|]. pose proof (byte_Z_range b3). simpl in Hn.
  match type of Hb with (if ?b then _ else _) = _ => destruct b eqn:E3 end; [|done].
  refine (Hstep _ _ _ Hb _ _ _); [unfold is_scalar; range_lia|lia|encode_back].
Qed.

(** Encoding what was decoded gives the bytes back. *)
Lemma from_utf8_sound b s : from_utf8 b = Some s → as_bytes s = b ∧ str_ok s.
Proof. by apply (from_utf8_sound_aux (length b)). Qed.

(** ** Lemmas: upper case against ASCII patterns

    The letters that no multi-character or non-ASCII upper case can produce at
    a place where an ASCII pattern could match: S, I and F occur in the special
    mappings on their own, and T, A, J, H, W, Y start one. *)
Definition plain_letter (c : Z) : Prop :=
  65 ≤ c ≤ 90 ∧ c ≠ 83 ∧ c ≠ 73 ∧ c ≠ 70.
Definition plain_last (c : Z) : Prop :=
  c ≠ 84 ∧ c ≠ 65 ∧ c ≠ 74 ∧ c ≠ 72 ∧ c ≠ 87 ∧ c ≠ 89.
(** Patterns such as DELETE: plain letters, and the last one starts no special
    mapping. *)
Definition plain_pattern (p : str) : Prop :=
  Forall plain_letter p ∧ ∀ c, last p = Some c → plain_last c.

Lemma plain_pattern_cons c p : plain_pattern (c :: p) → plain_pattern p.
Proof.
  intros [Hf Hl]. split; [by inversion Hf|]. intros d Hd. apply Hl.
  destruct p; [done|]. by rewrite last_cons_cons.
Qed.

Ltac special_cases :=
  unfold special_upper in *;
  repeat match goal with
  | H : (if ?b then _ else _) = _ |- _ => destruct b eqn:?
  end; simplify_eq.

Lemma special_upper_no_plain c u a p r :
  special_upper c = Some u → plain_pattern (a :: p) → ¬ a :: p `prefix_of` u ++ r.
Proof.
  intros Hu [Hf Hlast] [k Hk].
  inversion Hf as [|? ? Ha Hp]; subst. unfold plain_letter in Ha.
  destruct p as [|a' p].
  - specialize (Hlast a eq_refl). unfold plain_last in Hlast.
    special_cases; simplify_eq/=; lia.
  - inversion Hp as [|? ? Ha' _]; subst. unfold plain_letter in Ha'.
    special_cases; simplify_eq/=; lia.
Qed.

Lemma to_uppercase_prefix `{UnicodeUpper} s p :
  plain_pattern p → p `prefix_of` to_uppercase s ↔ p `prefix_of` (ascii_upper <$> s).
Proof.
  revert p. induction s as [|c s IH]; intros p Hp; [done|].
  destruct p as [|a p]; [split; intros _; apply prefix_nil|].
  change (to_uppercase (c :: s)) with (char_upper c ++ to_uppercase s).
  rewrite fmap_cons. unfold char_upper. destruct (c <? 128) eqn:Hc.
  - cbn [app]. apply plain_pattern_cons in Hp.
    split; intros Hpre; pose proof (prefix_cons_inv_1 _ _ _ _ Hpre) as ->;
      apply prefix_cons_inv_2 in Hpre; apply prefix_cons; by apply IH.
  - apply Z.ltb_ge in Hc. assert (Ha : 65 ≤ a ≤ 90).
    { destruct Hp as [Hf _]. inversion Hf; subst. unfold plain_letter in *. lia. }
    assert (¬ a :: p `prefix_of` ascii_upper c :: (ascii_upper <$> s)) as Hno.
    { intros Hpre. apply prefix_cons_inv_1 in Hpre. unfold ascii_upper, in_range in *.
      destruct ((97 <=? c) && (c <=? 122)) eqn:?; lia. }
    split; [|done]. intros Hpre. exfalso. destruct (special_upper c) as [u|] eqn:Hu.
    + by eapply special_upper_no_plain.
    + pose proof (upper_rest_nonascii c Hc) as Hr. pose proof (upper_rest_nonempty c) as Hne.
      destruct (upper_rest c) as [|d u]; [done|]. inversion Hr; subst.
      apply prefix_cons_inv_1 in Hpre. lia.
Qed.

Lemma starts_with_uppercase `{UnicodeUpper} s p :
  plain_pattern p → starts_with (to_uppercase s) p = starts_with (ascii_upper <$> s) p.
Proof. intros Hp. apply bool_decide_ext, to_uppercase_prefix, Hp. Qed.

(** ** Lemmas: NUL bytes and lengths *)

Lemma byte_neq_Z z b : z mod 256 ≠ byte_Z b → Z_byte z ≠ b.
Proof. intros Hne <-. by rewrite byte_Z_Z_byte in Hne. Qed.

Lemma encode_char_no_nul c : is_scalar c → c ≠ 0 → x00 ∉ encode_char c.
Proof.
  intros Hc Hne. unfold encode_char, is_scalar in *.
  assert (byte_Z x00 = 0) as H0 by done.
  repeat case_match; rewrite ?not_elem_of_cons; repeat split;
    try apply not_elem_of_nil; apply not_eq_sym, byte_neq_Z; rewrite H0;
    Z.div_mod_to_equations; lia.
Qed.

Lemma as_bytes_no_nul s : str_ok s → 0 ∉ s → x00 ∉ as_bytes s.
Proof.
  induction 1 as [|c s Hc _ IH]; intros H0; [apply not_elem_of_nil|].
  change (as_bytes (c :: s)) with (encode_char c ++ as_bytes s).
  rewrite not_elem_of_app. split; [apply encode_char_no_nul; set_solver|apply IH; set_solver].
Qed.

Lemma as_bytes_nonempty s : s ≠ [] → as_bytes s ≠ [].
Proof.
  destruct s as [|c s]; [done|]. intros _.
  change (as_bytes (c :: s)) with (encode_char c ++ as_bytes s).
  unfold encode_char. by repeat case_match.
Qed.

Lemma len_encode_char c : len (encode_char c) = len_utf8 c.
Proof. unfold encode_char, len_utf8. by repeat case_match. Qed.

(** [s.len()] is the number of bytes of the encoding. *)
Lemma str_len_as_bytes s : str_len s = len (as_bytes s).
Proof.
  induction s as [|c s IH]; [done|].
  change (as_bytes (c :: s)) with (encode_char c ++ as_bytes s).
  rewrite len_app, len_encode_char, <-IH. done.
Qed.

(** ** Lemmas: upper case at the end of a string *)

Lemma to_uppercase_app `{UnicodeUpper} s t :
  to_uppercase (s ++ t) = to_uppercase s ++ to_uppercase t.
Proof. apply bind_app. Qed.

Lemma to_uppercase_singleton `{UnicodeUpper} c : to_uppercase [c] = char_upper c.
Proof. unfold to_uppercase. simpl. by rewrite app_nil_r. Qed.

Lemma char_upper_nonempty `{UnicodeUpper} c : char_upper c ≠ [].
Proof.
  unfold char_upper. destruct (c <? 128); [done|]. destruct (special_upper c) eqn:E.
  - special_cases; done.
  - apply upper_rest_nonempty.
Qed.

(** The two ligatures whose upper case is "ST". *)
Definition st_ligature (c : Z) : bool := in_range 64261 64262 c.

(** The characters whose upper case ends in the unit letter [a]. *)
Definition upper_ends_in (a c : Z) : bool :=
  (ascii_upper c =? a) || ((a =? 84) && st_ligature c).

Lemma ascii_upper_big c : 128 ≤ c → ascii_upper c = c.
Proof.
  unfold ascii_upper, in_range. intros. by replace ((97 <=? c) && (c <=? 122)) with false by lia.
Qed.

Lemma last_char_upper `{UnicodeUpper} a c :
  a ∈ [66; 71; 75; 77; 84] →
  last (char_upper c) = Some a ↔ upper_ends_in a c = true.
Proof.
  intros Ha. assert (Hr : 66 ≤ a ≤ 84 ∧ a ≠ 83 ∧ a ≠ 73 ∧ a ≠ 78 ∧ a ≠ 70 ∧ a ≠ 76) by set_solver by lia.
  unfold char_upper, upper_ends_in, st_ligature. destruct (c <? 128) eqn:Hc.
  - apply Z.ltb_lt in Hc. simpl. unfold in_range. split; [intros [= <-]; lia|].
    intros Ht. f_equal. lia.
  - apply Z.ltb_ge in Hc. rewrite (ascii_upper_big c Hc).
    destruct (special_upper c) as [u|] eqn:E.
    + special_cases; simpl; unfold in_range; split; intros Hx; simplify_eq; try lia; f_equal; lia.
    + split.
      * intros Hl. pose proof (upper_rest_nonascii c Hc) as Hall. apply last_Some in Hl as [l' Hl].
        rewrite Hl, Forall_app, Forall_singleton in Hall. lia.
      * unfold in_range. intros Ht. exfalso.
        assert (64261 ≤ c ≤ 64262) as Hl by lia.
        assert (c = 64261 ∨ c = 64262) as [->| ->] by lia; discriminate.
Qed.

(** A two-letter unit [a]B at the end of the upper-cased string, read off the
    last two characters. *)
Definition ends_in_unit (a : Z) (s : str) : bool :=
  match reverse s with
  | c2 :: c1 :: _ => (ascii_upper c2 =? 66) && upper_ends_in a c1
  | _ => false
  end.

Lemma suffix_snoc {A} (p l : list A) x y :
  p ++ [x] `suffix_of` l ++ [y] ↔ x = y ∧ p `suffix_of` l.
Proof.
  split.
  - intros Hs. split; [by eapply suffix_snoc_inv_1|by eapply suffix_snoc_inv_2].
  - intros [-> Hs]. by apply suffix_app.
Qed.

Lemma suffix_singleton_last {A} (x : A) l : [x] `suffix_of` l ↔ last l = Some x.
Proof. rewrite last_Some. unfold suffix. naive_solver. Qed.

Lemma last_to_uppercase `{UnicodeUpper} s c :
  last (to_uppercase (s ++ [c])) = last (char_upper c).
Proof.
  rewrite to_uppercase_app, to_uppercase_singleton, last_app.
  destruct (last (char_upper c)) eqn:E; [done|]. apply last_None in E.
  by apply char_upper_nonempty in E.
Qed.

(** Only an ASCII b or B has an upper case that ends in B. *)
Lemma upper_ends_in_B `{UnicodeUpper} c :
  last (char_upper c) = Some 66 ↔ ascii_upper c = 66.
Proof.
  rewrite last_char_upper by set_solver. unfold upper_ends_in. simpl. lia.
Qed.

Lemma char_upper_B `{UnicodeUpper} c : ascii_upper c = 66 → char_upper c = [66].
Proof.
  intros Hc. unfold char_upper. destruct (c <? 128) eqn:E; [by rewrite Hc|].
  rewrite ascii_upper_big in Hc by lia. lia.
Qed.

Lemma ends_with_unit `{UnicodeUpper} a s :
  a ∈ [71; 75; 77; 84] → ends_with (to_uppercase s) [a; 66] = ends_in_unit a s.
Proof.
  intros Ha. unfold ends_with, ends_in_unit. apply Bool.eq_iff_eq_true. rewrite bool_decide_eq_true.
  destruct s as [|c2 s _] using rev_ind.
  { simpl. split; [intros [k Hk]; by destruct k as [|? [|]]|done]. }
  rewrite reverse_snoc. rewrite to_uppercase_app, to_uppercase_singleton.
  assert (H66 : [a; 66] `suffix_of` to_uppercase s ++ char_upper c2 ↔
    ascii_upper c2 = 66 ∧ [a] `suffix_of` to_uppercase s).
  { change [a; 66] with ([a] ++ [66]). split.
    - intros Hs. assert (Hl : last (to_uppercase s ++ char_upper c2) = Some 66).
      { destruct Hs as [k ->]. by rewrite (assoc_L (++)), last_snoc. }
      rewrite <-to_uppercase_singleton, <-to_uppercase_app, last_to_uppercase in Hl.
      apply upper_ends_in_B in Hl. split; [done|].
      rewrite (char_upper_B _ Hl) in Hs. by apply suffix_snoc in Hs as [_ ?].
    - intros [Hc Hs]. rewrite (char_upper_B _ Hc). by apply suffix_snoc. }
  rewrite H66, suffix_singleton_last. destruct s as [|c1 s _] using rev_ind.
  { simpl. naive_solver. }
  rewrite reverse_snoc, last_to_uppercase, last_char_upper by set_solver.
  rewrite andb_true_iff. split; (intros [? ?]; split; [lia|done]).
Qed.

(** ** Lemmas: byte slices, trimming, numbers *)

Lemma len_utf8_pos c : 0 < len_utf8 c.
Proof. unfold len_utf8. repeat case_match; lia. Qed.

Lemma str_len_app s t : str_len (s ++ t) = str_len s + str_len t.
Proof. rewrite !str_len_as_bytes. unfold as_bytes. by rewrite bind_app, len_app. Qed.

Lemma str_len_nonneg s : 0 ≤ str_len s.
Proof. rewrite str_len_as_bytes. apply len_nonneg. Qed.

Lemma str_slice_to_app s t k :
  0 ≤ k → str_slice_to (s ++ t) (str_len s + k) = app s <$> str_slice_to t k.
Proof.
  intros Hk. induction s as [|c s IH].
  { change (str_len []) with 0. rewrite Z.add_0_l, app_nil_l. by destruct (str_slice_to t k). }
  simpl. pose proof (len_utf8_pos c). pose proof (str_len_nonneg s). fold (str_len s).
  rewrite (proj2 (Z.eqb_neq _ _)) by lia. rewrite (proj2 (Z.ltb_ge _ _)) by lia.
  replace (len_utf8 c + str_len s + k - len_utf8 c) with (str_len s + k) by lia.
  rewrite IH. by destruct (str_slice_to t k).
Qed.

Lemma trim_start_id s : Forall (λ c, is_whitespace c = false) s → trim_start s = s.
Proof. destruct 1 as [|c s Hc]; [done|]. simpl. by rewrite Hc. Qed.

Lemma trim_id s : Forall (λ c, is_whitespace c = false) s → trim s = s.
Proof.
  intros Hs. unfold trim, trim_end. rewrite (trim_start_id s Hs).
  rewrite trim_start_id by by apply Forall_reverse. apply reverse_involutive.
Qed.

Lemma parse_fmt_digits bound fuel n acc :
  0 ≤ n < bound → n < 2 ^ Z.of_nat fuel →
  parse_digits bound 0 (fmt_digits fuel n acc) = parse_digits bound n acc.
Proof.
  revert n acc. induction fuel as [|fuel IH]; intros n acc Hn Hf.
  { simpl in Hf. by replace n with 0 by lia. }
  assert (Hd : ∀ m d, m * 10 + d = n → 0 ≤ d < 10 →
    parse_digits bound m ((48 + d) :: acc) = parse_digits bound n acc).
  { intros m d Hm Hd10. simpl. unfold digit, in_range.
    replace ((48 <=? 48 + d) && (48 + d <=? 57)) with true by lia. simpl.
    replace (m * 10 + (48 + d - 48)) with n by lia.
    by rewrite (proj2 (Z.ltb_lt _ _)) by lia. }
  cbn [fmt_digits]. destruct (n <? 10) eqn:E.
  - apply Hd; [|apply Z.mod_pos_bound; lia]. rewrite Z.mod_small; lia.
  - rewrite IH; [|Z.div_mod_to_equations; lia|].
    + apply Hd; Z.div_mod_to_equations; lia.
    + rewrite Nat2Z.inj_succ, Z.pow_succ_r in Hf by lia. Z.div_mod_to_equations; lia.
Qed.

Lemma fmt_digits_digits fuel n acc :
  Forall (λ c, 48 ≤ c ≤ 57) acc → Forall (λ c, 48 ≤ c ≤ 57) (fmt_digits fuel n acc).
Proof.
  revert n acc. induction fuel as [|fuel IH]; intros n acc Hacc; [done|].
  assert (Forall (λ c, 48 ≤ c ≤ 57) ((48 + n mod 10) :: acc)).
  { constructor; [|done]. pose proof (Z.mod_pos_bound n 10). lia. }
  simpl. destruct (n <? 10); auto.
Qed.

Lemma fmt_uint_digits n : Forall (λ c, 48 ≤ c ≤ 57) (fmt_uint n).
Proof. apply fmt_digits_digits. constructor. Qed.

Lemma fmt_digits_nonempty fuel n acc : acc ≠ [] → fmt_digits fuel n acc ≠ [].
Proof.
  revert n acc. induction fuel as [|fuel IH]; intros n acc Hacc; [done|].
  simpl. destruct (n <? 10); [done|]. by apply IH.
Qed.
Lemma fmt_uint_nonempty n : fmt_uint n ≠ [].
Proof.
  unfold fmt_uint. simpl. destruct (n <? 10); [done|]. by apply fmt_digits_nonempty.
Qed.

(** Parsing what [Display] printed. *)
Lemma parse_fmt_uint bits n :
  0 ≤ n < 2 ^ bits → parse_uint bits (fmt_uint n) = Some n.
Proof.
  intros Hn. pose proof (fmt_uint_digits n) as Hd. pose proof (fmt_uint_nonempty n) as Hne.
  unfold parse_uint.
  assert (match fmt_uint n with c :: r => if c =? 43 then r else fmt_uint n | [] => [] end
    = fmt_uint n) as ->.
  { destruct (fmt_uint n) as [|c r]; [done|]. inversion Hd; subst.
    by rewrite (proj2 (Z.eqb_neq _ _)) by lia. }
  rewrite decide_False by done. unfold fmt_uint. rewrite parse_fmt_digits; [done|lia|].
  destruct (decide (n = 0)) as [->|]; [done|].
  rewrite Nat2Z.inj_succ, Z2Nat.id by apply Z.log2_nonneg. apply Z.log2_spec. lia.
Qed.

(** Decides [str_ok] and the other side conditions on a literal. *)
Ltac str_literal :=
  repeat match goal with
  | |- Forall _ [] => constructor
  | |- Forall _ (_ :: _) => constructor
  | |- is_scalar _ => unfold is_scalar; lia
  | |- str_ok ?l => let l' := eval vm_compute in l in change l with l'; unfold str_ok
  | |- ¬ (0 ∈ _) => vm_compute; set_solver
  end.

(** A NUL character is a NUL byte. *)
Lemma nul_as_bytes s : 0 ∈ s → x00 ∈ as_bytes s.
Proof.
  induction s as [|c s IH]; intros H; [by apply not_elem_of_nil in H|].
  change (as_bytes (c :: s)) with (encode_char c ++ as_bytes s). apply elem_of_app.
  apply elem_of_cons in H as [<-|H]; [left|right; auto]. vm_compute. apply list_elem_of_here.
Qed.
