(* ===== verification/Messages.v ===== *)
(** * Wire messages (src/protocol/messages.rs)

    The typed message [PgMessage], its encoder, the two incremental readers
    over a receive buffer, the message builders and the query inspection of
    the slow path.  A [&mut BytesMut] argument is an explicit buffer that the
    function returns; the [BytesMut] a builder returns is its byte list. *)

From S2P Require Import Prelude RustStr.

(** Maximum message size to prevent OOM (64MB). *)
Definition MAX_MESSAGE_SIZE : Z := 64 * 1024 * 1024.

Record PgMessage := mk_PgMessage {
  msg_type : byte;
  payload : bytes
}.

(** [PgMessage::new]. *)
Definition PgMessage_new (t : byte) (p : bytes) : PgMessage := mk_PgMessage t p.

#[export] Instance PgMessage_eq_dec : EqDecision PgMessage.
Proof. solve_decision. Defined.

(** [PgMessage::encode]: appends to [buf]. *)
Definition encode (m : PgMessage) (buf : bytes) : bytes :=
  let buf := if decide (msg_type m ≠ x00) then buf ++ [msg_type m] else buf in
  let buf := buf ++ put_i32 (i32_wrap (len (payload m) + 4)) in
  buf ++ payload m.

Definition bad_length (l : Z) (t : byte) : error :=
  Bail (lit "Invalid message length: " ++ fmt_uint l ++ lit " for type '"
        ++ [byte_Z t] ++ lit "'").

(** [try_read_message]: [Ok (None, buf)] asks for more data. *)
Definition try_read_message (buf : bytes) (is_startup : bool)
    : outcome (option PgMessage * bytes) :=
  if is_startup then
    if len buf <? 4 then Ok (None, buf) else
    l32 ← unwrap (get_i32 buf);
    let l := as_usize l32 in
    if negb (in_range 4 MAX_MESSAGE_SIZE l)
    then Err (Bail (lit "Invalid startup message length: " ++ fmt_uint l)) else
    if len buf <? l then Ok (None, buf) else
    buf ← unwrap (slice_from buf 4);
    '(p, buf) ← unwrap (split_to buf (l - 4));
    Ok (Some (mk_PgMessage x00 p), buf)
  else
    if len buf <? 5 then Ok (None, buf) else
    t ← unwrap (head buf);
    l32 ← unwrap (get_i32 (drop 1 buf));
    let l := as_usize l32 in
    if negb (in_range 4 MAX_MESSAGE_SIZE l) then Err (bad_length l t) else
    let total_len := 1 + l in
    if len buf <? total_len then Ok (None, buf) else
    buf ← unwrap (slice_from buf 5);
    '(p, buf) ← unwrap (split_to buf (l - 4));
    Ok (Some (mk_PgMessage t p), buf).

(** [try_read_message_with_raw]: the message and the bytes it was read from. *)
Definition try_read_message_with_raw (buf : bytes)
    : outcome (option (PgMessage * bytes) * bytes) :=
  if len buf <? 5 then Ok (None, buf) else
  t ← unwrap (head buf);
  l32 ← unwrap (get_i32 (drop 1 buf));
  let l := as_usize l32 in
  if negb (in_range 4 MAX_MESSAGE_SIZE l) then Err (bad_length l t) else
  let total_len := 1 + l in
  if len buf <? total_len then Ok (None, buf) else
  '(raw, buf) ← unwrap (split_to buf total_len);
  p ← unwrap (slice_from raw 5);
  Ok (Some (mk_PgMessage t p, raw), buf).

(** ** Builders *)

(** A typed frame: type byte, length word, payload. *)
Definition frame (t : byte) (p : bytes) : bytes :=
  [t] ++ put_i32 (i32_wrap (len p + 4)) ++ p.

Definition response_fields (severity code message : str) : bytes :=
  ["S"%byte] ++ as_bytes severity ++ [x00] ++
  ["V"%byte] ++ as_bytes severity ++ [x00] ++
  ["C"%byte] ++ as_bytes code ++ [x00] ++
  ["M"%byte] ++ as_bytes message ++ [x00] ++ [x00].

Definition build_error_response (severity code message : str) : bytes :=
  frame "E"%byte (response_fields severity code message).
Definition build_notice_response (severity code message : str) : bytes :=
  frame "N"%byte (response_fields severity code message).
Definition build_auth_ok : bytes := ["R"%byte] ++ put_i32 8 ++ put_i32 0.
Definition build_auth_cleartext_request : bytes := ["R"%byte] ++ put_i32 8 ++ put_i32 3.
Definition build_ready_for_query (status : byte) : bytes :=
  ["Z"%byte] ++ put_i32 5 ++ [status].
Definition build_parameter_status (name value : str) : bytes :=
  frame "S"%byte (as_bytes name ++ [x00] ++ as_bytes value ++ [x00]).
Definition build_backend_key_data (pid secret : Z) : bytes :=
  ["K"%byte] ++ put_i32 12 ++ put_i32 pid ++ put_i32 secret.

(** ** Query inspection *)

(** [iter().position(|&b| b == 0)]. *)
Fixpoint position_nul (p : bytes) : option nat :=
  match p with
  | [] => None
  | b :: r => if decide (b = x00) then Some O else S <$> position_nul r
  end.

Definition extract_query_text (m : PgMessage) : option str :=
  if decide (msg_type m = "Q"%byte) then
    match position_nul (payload m) with
    | Some null_pos => from_utf8 (take null_pos (payload m))
    | None => None
    end
  else None.

Definition is_shrink_operation `{UnicodeUpper} (query : str) : bool :=
  let upper := to_uppercase (trim query) in
  starts_with upper (lit "DELETE") || starts_with upper (lit "TRUNCATE")
  || starts_with upper (lit "DROP") || starts_with upper (lit "VACUUM").

Definition SSL_REQUEST_CODE : Z := 80877103.
Definition CANCEL_REQUEST_CODE : Z := 80877102.

(** ** Draining a receive buffer

    [while let Some(..) = try_read_message_with_raw(&mut buf)? { body }]: the
    loop every consumer of a stream runs.  The body maps the state and a
    message to the next state ([inl]) or leaves the function ([inr]). *)
Definition drain_body {St R} (body : St → PgMessage → bytes → outcome (St + R))
    (sb : St * bytes) : ctrl (St * bytes) (outcome ((St + R) * bytes)) :=
  let '(s, buf) := sb in
  match try_read_message_with_raw buf with
  | Err e => Break (Err e)
  | Panic => Break Panic
  | Ok (None, buf) => Break (Ok (inl s, buf))
  | Ok (Some (m, raw), buf) =>
      match body s m raw with
      | Ok (inl s') => Continue (s', buf)
      | Ok (inr r) => Break (Ok (inr r, buf))
      | Err e => Break (Err e)
      | Panic => Break Panic
      end
  end.

Definition drain {St R} (body : St → PgMessage → bytes → outcome (St + R))
    (s : St) (buf : bytes) : option (outcome ((St + R) * bytes)) :=
  loop (S (length buf)) (drain_body body) (s, buf).

(** ** The readers on a buffer with a complete header *)

(** What both readers do with a header [t b0 b1 b2 b3], whose length word is
    [l], followed by [r]. *)
Definition read_spec (l : Z) (t b0 b1 b2 b3 : byte) (r : bytes)
    : outcome (option (PgMessage * bytes) * bytes) :=
  if negb (in_range 4 MAX_MESSAGE_SIZE l) then Err (bad_length l t) else
  if len r <? l - 4 then Ok (None, t :: b0 :: b1 :: b2 :: b3 :: r) else
  Ok (Some (mk_PgMessage t (take (Z.to_nat (l - 4)) r),
            [t; b0; b1; b2; b3] ++ take (Z.to_nat (l - 4)) r),
      drop (Z.to_nat (l - 4)) r).

(** The length word of a header. *)
Definition frame_len (b0 b1 b2 b3 : byte) : Z := as_usize (i32_from_be_bytes b0 b1 b2 b3).

Lemma take_cons5 {A} (a b c d e : A) n l :
  take (5 + n) (a :: b :: c :: d :: e :: l) = [a; b; c; d; e] ++ take n l.
Proof. done. Qed.

Lemma read_raw_spec t b0 b1 b2 b3 r :
  try_read_message_with_raw (t :: b0 :: b1 :: b2 :: b3 :: r) =
    read_spec (frame_len b0 b1 b2 b3) t b0 b1 b2 b3 r.
Proof.
  unfold try_read_message_with_raw, read_spec, frame_len.
  rewrite (proj2 (Z.ltb_ge _ _)) by len_lia.
  cbn [unwrap head get_i32 drop mbind outcome_bind].
  generalize (as_usize (i32_from_be_bytes b0 b1 b2 b3)) as l; intros l.
  destruct (in_range 4 MAX_MESSAGE_SIZE l) eqn:Hl; cbn [negb]; [|done].
  apply in_range_true in Hl.
  destruct (len r <? l - 4) eqn:Hlen.
  { rewrite (proj2 (Z.ltb_lt _ _)) by (apply Z.ltb_lt in Hlen; len_lia). done. }
  apply Z.ltb_ge in Hlen. rewrite (proj2 (Z.ltb_ge _ _)) by len_lia.
  unfold split_to. rewrite decide_True by len_lia. cbn [unwrap mbind outcome_bind].
  replace (Z.to_nat (1 + l)) with (5 + Z.to_nat (l - 4))%nat by lia.
  rewrite take_cons5. unfold slice_from. rewrite decide_True by (simpl; lia).
  generalize (Z.to_nat (l - 4)) as n; intros n. done.
Qed.

(** Forget the raw bytes of a read. *)
Definition forget_raw (x : outcome (option (PgMessage * bytes) * bytes))
    : outcome (option PgMessage * bytes) :=
  (λ ob : option (PgMessage * bytes) * bytes, (option_map fst ob.1, ob.2)) <$> x.

Lemma read_spec_plain t b0 b1 b2 b3 r :
  try_read_message (t :: b0 :: b1 :: b2 :: b3 :: r) false =
    forget_raw (read_spec (frame_len b0 b1 b2 b3) t b0 b1 b2 b3 r).
Proof.
  unfold try_read_message, read_spec, frame_len.
  rewrite (proj2 (Z.ltb_ge _ _)) by len_lia.
  cbn [unwrap head get_i32 drop mbind outcome_bind].
  generalize (as_usize (i32_from_be_bytes b0 b1 b2 b3)) as l; intros l.
  destruct (in_range 4 MAX_MESSAGE_SIZE l) eqn:Hl; cbn [negb]; [|done].
  apply in_range_true in Hl.
  destruct (len r <? l - 4) eqn:Hlen.
  { rewrite (proj2 (Z.ltb_lt _ _)) by (apply Z.ltb_lt in Hlen; len_lia). done. }
  apply Z.ltb_ge in Hlen. rewrite (proj2 (Z.ltb_ge _ _)) by len_lia.
  unfold slice_from. rewrite decide_True by (simpl; lia). cbn [drop unwrap mbind outcome_bind].
  unfold split_to. rewrite drop_0, decide_True by len_lia. done.
Qed.

(** A buffer is either shorter than a header or splits into one. *)
Lemma header_cases (buf : bytes) :
  (length buf < 5)%nat ∨ ∃ t b0 b1 b2 b3 r, buf = t :: b0 :: b1 :: b2 :: b3 :: r.
Proof.
  destruct buf as [|t [|b0 [|b1 [|b2 [|b3 r]]]]]; simpl; [left; lia..|right; eauto 10].
Qed.

Lemma read_raw_short buf :
  (length buf < 5)%nat → try_read_message_with_raw buf = Ok (None, buf).
Proof.
  intros. unfold try_read_message_with_raw. by rewrite (proj2 (Z.ltb_lt _ _)) by len_lia.
Qed.

Lemma read_plain_short buf :
  (length buf < 5)%nat → try_read_message buf false = Ok (None, buf).
Proof.
  intros. unfold try_read_message. by rewrite (proj2 (Z.ltb_lt _ _)) by len_lia.
Qed.

(** Split on the three results of [read_spec]. *)
Ltac read_cases :=
  unfold read_spec in *;
  destruct (in_range 4 MAX_MESSAGE_SIZE _) eqn:?; cbn [negb] in *;
  [destruct (len _ <? _) eqn:?|].

(** The length word of a message that fits an [i32], read back. *)
Lemma length_word n :
  0 ≤ n → n + 4 < 2^31 →
  ∃ b0 b1 b2 b3, put_i32 (i32_wrap (n + 4)) = [b0; b1; b2; b3] ∧
    frame_len b0 b1 b2 b3 = n + 4.
Proof.
  unfold frame_len. intros. do 4 eexists. split; [reflexivity|].
  pose proof (get_put_i32 (n + 4) []) as Hg. unfold put_i32 in Hg. simpl in Hg.
  rewrite i32_wrap_small by (unfold is_i32; lia).
  injection (Hg ltac:(unfold is_i32; lia)) as ->. apply as_usize_nonneg. lia.
Qed.

(** The messages that fit the reader's limit. *)
Definition msg_fits (m : PgMessage) : Prop := len (payload m) + 4 ≤ MAX_MESSAGE_SIZE.
(** The bytes of a message on the wire, in typed framing. *)
Definition wire (m : PgMessage) : bytes := frame (msg_type m) (payload m).

Lemma encode_wire m buf : msg_type m ≠ x00 → encode m buf = buf ++ wire m.
Proof.
  intros Ht. unfold encode, wire, frame. rewrite decide_True by done.
  by rewrite <-!(assoc_L (++)).
Qed.

Lemma len_wire m : len (wire m) = 5 + len (payload m).
Proof. unfold wire, frame. len_lia. Qed.

Lemma read_raw_wire m rest :
  msg_fits m → try_read_message_with_raw (wire m ++ rest) = Ok (Some (m, wire m), rest).
Proof.
  intros Hm. destruct m as [t p]. unfold msg_fits, wire, frame in *; cbn [msg_type payload] in *.
  destruct (length_word (len p)) as (b0 & b1 & b2 & b3 & -> & Hl);
    [apply len_nonneg|unfold MAX_MESSAGE_SIZE in Hm; lia|].
  rewrite <-!(assoc_L (++)). simpl. rewrite read_raw_spec. unfold read_spec. rewrite Hl.
  pose proof (len_nonneg p).
  replace (in_range _ _ _) with true by (symmetry; apply in_range_true; lia). cbn [negb].
  rewrite (proj2 (Z.ltb_ge _ _)) by len_lia.
  replace (Z.to_nat _) with (length p) by (unfold len; lia).
  by rewrite take_app_length, drop_app_length.
Qed.

(** A length word in the accepted range is the word of that length. *)
Lemma frame_len_word b0 b1 b2 b3 :
  frame_len b0 b1 b2 b3 ≤ MAX_MESSAGE_SIZE →
  put_i32 (i32_wrap (frame_len b0 b1 b2 b3)) = [b0; b1; b2; b3].
Proof.
  unfold frame_len, MAX_MESSAGE_SIZE. pose proof (put_get_i32 b0 b1 b2 b3) as Hput. revert Hput.
  assert (Hw : is_i32 (i32_from_be_bytes b0 b1 b2 b3)) by apply i32_wrap_range. revert Hw.
  generalize (i32_from_be_bytes b0 b1 b2 b3) as w. unfold is_i32. intros w Hw Hput Hl.
  destruct (decide (w < 0)); [rewrite as_usize_neg in Hl; lia|].
  rewrite as_usize_nonneg by lia. by rewrite i32_wrap_small.
Qed.

Lemma read_spec_Some t b0 b1 b2 b3 r m raw rest :
  read_spec (frame_len b0 b1 b2 b3) t b0 b1 b2 b3 r = Ok (Some (m, raw), rest) →
  t :: b0 :: b1 :: b2 :: b3 :: r = raw ++ rest ∧ raw = wire m ∧ msg_fits m.
Proof.
  pose proof (frame_len_word b0 b1 b2 b3) as Hw.
  generalize dependent (frame_len b0 b1 b2 b3). intros l Hw.
  read_cases; [discriminate| |discriminate]. intros [= <- <- <-].
  rename select (in_range _ _ _ = true) into Hl. apply in_range_true in Hl.
  rename select (_ = false) into Hlen. apply Z.ltb_ge in Hlen.
  assert (Hp : len (take (Z.to_nat (l - 4)) r) = l - 4) by (unfold len in *; rewrite length_take; lia).
  split; [cbn [app]; by rewrite take_drop|].
  unfold wire, frame, msg_fits; cbn [msg_type payload].
  rewrite Hp. replace (l - 4 + 4) with l by lia. rewrite Hw by lia. split; [done|lia].
Qed.

#[local] Opaque frame_len.

(** The outcome of [try_read_message_with_raw], case by case. *)
Lemma read_raw_inv buf :
  match try_read_message_with_raw buf with
  | Ok (Some (m, raw), rest) => buf = raw ++ rest ∧ raw = wire m ∧ msg_fits m
  | Ok (None, rest) => rest = buf ∧
      ((length buf < 5)%nat ∨
       ∃ t b0 b1 b2 b3 r, buf = t :: b0 :: b1 :: b2 :: b3 :: r ∧
         4 ≤ frame_len b0 b1 b2 b3 ≤ MAX_MESSAGE_SIZE ∧
         len r < frame_len b0 b1 b2 b3 - 4)
  | Err e => ∃ t b0 b1 b2 b3 r, buf = t :: b0 :: b1 :: b2 :: b3 :: r ∧
      ¬ 4 ≤ frame_len b0 b1 b2 b3 ≤ MAX_MESSAGE_SIZE ∧
      e = bad_length (frame_len b0 b1 b2 b3) t
  | Panic => False
  end.
Proof.
  destruct (header_cases buf) as [Hs|(t & b0 & b1 & b2 & b3 & r & ->)].
  { rewrite read_raw_short by done. auto. }
  rewrite read_raw_spec. destruct (read_spec (frame_len b0 b1 b2 b3) t b0 b1 b2 b3 r) as [[[[m raw]|] rest]| |] eqn:E.
  - by apply read_spec_Some in E.
  - read_cases; [|discriminate..]. injection E as <-. split; [done|right].
    rename select (in_range _ _ _ = true) into Hl. apply in_range_true in Hl.
    rename select ((_ <? _) = true) into Hlt. apply Z.ltb_lt in Hlt.
    exists t, b0, b1, b2, b3, r. done.
  - read_cases; [discriminate..|]. injection E as <-.
    rename select (in_range _ _ _ = false) into Hl. apply in_range_false in Hl.
    exists t, b0, b1, b2, b3, r. split; [done|]. split; [lia|done].
  - read_cases; discriminate.
Qed.

Lemma read_raw_Some buf m raw rest :
  try_read_message_with_raw buf = Ok (Some (m, raw), rest) →
  buf = wire m ++ rest ∧ raw = wire m ∧ msg_fits m.
Proof. intros E. pose proof (read_raw_inv buf) as H. rewrite E in H. naive_solver. Qed.

Lemma read_raw_None buf rest :
  try_read_message_with_raw buf = Ok (None, rest) → rest = buf.
Proof. intros E. pose proof (read_raw_inv buf) as H. rewrite E in H. naive_solver. Qed.

Lemma readers_agree buf :
  try_read_message buf false = forget_raw (try_read_message_with_raw buf).
Proof.
  destruct (header_cases buf) as [Hs|(t & b0 & b1 & b2 & b3 & r & ->)].
  - by rewrite read_raw_short, read_plain_short.
  - by rewrite read_raw_spec, read_spec_plain.
Qed.

Lemma read_raw_app_Some buf more m raw rest :
  try_read_message_with_raw buf = Ok (Some (m, raw), rest) →
  try_read_message_with_raw (buf ++ more) = Ok (Some (m, raw), rest ++ more).
Proof.
  intros (-> & -> & Hm)%read_raw_Some. rewrite <-(assoc_L (++)). by apply read_raw_wire.
Qed.

Lemma read_raw_app_Err buf more e :
  try_read_message_with_raw buf = Err e → try_read_message_with_raw (buf ++ more) = Err e.
Proof.
  intros E. pose proof (read_raw_inv buf) as H. rewrite E in H.
  destruct H as (t & b0 & b1 & b2 & b3 & r & -> & Hl & ->).
  simpl. rewrite read_raw_spec. unfold read_spec.
  replace (in_range _ _ _) with false; [done|]. symmetry. apply in_range_false. lia.
Qed.

(** ** NUL-terminated text *)

Lemma position_nul_app k r : x00 ∉ k → position_nul (k ++ x00 :: r) = Some (length k).
Proof.
  induction k as [|b k IH]; intros Hk; simpl; [done|].
  rewrite not_elem_of_cons in Hk. destruct Hk as [Hb Hk]. rewrite decide_False by done. by rewrite IH.
Qed.
Lemma position_nul_take p n : position_nul p = Some n → x00 ∉ take n p.
Proof.
  revert n. induction p as [|b p IH]; intros n; simpl; [done|]. case_decide as Hb.
  - intros [= <-]. apply not_elem_of_nil.
  - destruct (position_nul p) as [k|] eqn:E; [|done]. intros [= <-]. simpl.
    rewrite not_elem_of_cons. split; [done|by apply IH].
Qed.

(** ** The drain loop *)

Section drain.
Context {St R : Type} (body : St → PgMessage → bytes → outcome (St + R)).

Lemma drain_body_decreases sb sb' :
  drain_body body sb = Continue sb' → (length sb'.2 < length sb.2)%nat.
Proof using Type.
  destruct sb as [s buf]; simpl.
  destruct (try_read_message_with_raw buf) as [[[[m raw]|] rest]| |] eqn:E; try done.
  destruct (body s m raw) as [[s'|r]| |]; try done. intros [= <-].
  apply read_raw_Some in E as (-> & _). simpl.
  pose proof (len_wire m). pose proof (len_nonneg (payload m)).
  rewrite length_app. unfold len in *. lia.
Qed.

Lemma drain_unfold s buf :
  drain body s buf =
    match drain_body body (s, buf) with
    | Break r => Some r
    | Continue (s', rest) => drain body s' rest
    end.
Proof using Type.
  unfold drain. rewrite (loop_unfold _ (λ sb, length sb.2) drain_body_decreases) by (simpl; lia).
  by destruct (drain_body body (s, buf)) as [[s' rest]|].
Qed.

(** Every drain loop terminates. *)
Lemma drain_total s buf : is_Some (drain body s buf).
Proof using Type.
  apply (loop_total _ (λ sb, length sb.2) drain_body_decreases). simpl. lia.
Qed.

Lemma drain_wire s m rest :
  msg_fits m →
  drain body s (wire m ++ rest) =
    match body s m (wire m) with
    | Ok (inl s') => drain body s' rest
    | Ok (inr r) => Some (Ok (inr r, rest))
    | Err e => Some (Err e)
    | Panic => Some Panic
    end.
Proof using Type.
  intros Hm. rewrite drain_unfold. unfold drain_body. rewrite read_raw_wire by done.
  by destruct (body s m (wire m)) as [[]| |].
Qed.

(** Rule of induction for [drain]: on the length of the buffer. *)
Lemma drain_ind (P : St → bytes → Prop) :
  (∀ s buf, (∀ s' m rest, buf = wire m ++ rest → msg_fits m →
     try_read_message_with_raw buf = Ok (Some (m, wire m), rest) → P s' rest) → P s buf) →
  ∀ s buf, P s buf.
Proof using Type.
  intros Hstep s buf. remember (length buf) as n eqn:Hn. revert s buf Hn.
  induction n as [n IH] using lt_wf_ind. intros s buf ->. apply Hstep.
  intros s' m rest -> Hm _. apply (IH (length rest)); [|done].
  pose proof (len_wire m). pose proof (len_nonneg (payload m)).
  rewrite length_app. unfold len in *. lia.
Qed.

(** Draining is independent of how the stream was cut: what is left of the
    first chunk is prepended to the next one. *)
Lemma drain_app s b1 b2 :
  drain body s (b1 ++ b2) =
    match drain body s b1 with
    | Some (Ok (inl s', rest)) => drain body s' (rest ++ b2)
    | Some (Ok (inr r, rest)) => Some (Ok (inr r, rest ++ b2))
    | o => o
    end.
Proof using Type.
  revert s b1. apply drain_ind. intros s b1 IH.
  rewrite (drain_unfold s b1). unfold drain_body.
  destruct (try_read_message_with_raw b1) as [[[[m raw]|] rest]|e|] eqn:E.
  - rewrite (drain_unfold s (b1 ++ b2)). unfold drain_body.
    rewrite (read_raw_app_Some _ _ _ _ _ E).
    destruct (read_raw_Some _ _ _ _ E) as (-> & -> & Hm).
    destruct (body s m (wire m)) as [[s'|r]| |]; [|done..]. by eapply IH.
  - by apply read_raw_None in E as ->.
  - rewrite (drain_unfold s (b1 ++ b2)). unfold drain_body.
    by rewrite (read_raw_app_Err _ _ _ E).
  - pose proof (read_raw_inv b1) as H. by rewrite E in H.
Qed.
End drain.

(** ** Properties *)

(** C10. Round trip of the wire format: a message with a type byte and a payload
    within the 64 MB limit, encoded in front of any further bytes, is read back
    by both readers as the same message; exactly its own bytes are consumed
    and the raw reader hands out exactly the encoded bytes. *)
Theorem encode_read_roundtrip (m : PgMessage) (rest : bytes) :
  msg_type m ≠ x00 → len (payload m) + 4 ≤ MAX_MESSAGE_SIZE →
  try_read_message (encode m [] ++ rest) false = Ok (Some m, rest) ∧
  try_read_message_with_raw (encode m [] ++ rest) = Ok (Some (m, encode m []), rest).
Proof.
  intros Ht Hm. rewrite encode_wire by done. cbn [app].
  rewrite readers_agree, read_raw_wire by done. done.
Qed.

Lemma encode_read_roundtrip_witness :
  let m := mk_PgMessage "Q"%byte (blit "SELECT 1" ++ [x00]) in
  try_read_message (encode m [] ++ [x41]) false = Ok (Some m, [x41]).
Proof.
  apply (encode_read_roundtrip (mk_PgMessage "Q"%byte (blit "SELECT 1" ++ [x00])) [x41]).
  - discriminate.
  - vm_compute. discriminate.
Defined.

(** The raw reader forwards bytes exactly: when it returns a message, the
    buffer was the raw bytes followed by what is left, and the raw bytes are
    the type byte, the big-endian length and the payload of that message. *)
Theorem read_raw_exact (buf raw rest : bytes) (m : PgMessage) :
  try_read_message_with_raw buf = Ok (Some (m, raw), rest) →
  buf = raw ++ rest ∧
  raw = [msg_type m] ++ put_i32 (len (payload m) + 4) ++ payload m ∧
  len (payload m) + 4 ≤ MAX_MESSAGE_SIZE.
Proof.
  intros (-> & -> & Hm)%read_raw_Some. split; [done|]. split; [|done].
  unfold wire, frame. rewrite i32_wrap_small; [done|].
  unfold msg_fits, MAX_MESSAGE_SIZE, is_i32 in *. pose proof (len_nonneg (payload m)). lia.
Qed.

Lemma read_raw_exact_witness :
  let buf := ["D"%byte; x00; x00; x00; x06; x07; x08; x5a] in
  buf = ["D"%byte; x00; x00; x00; x06; x07; x08] ++ [x5a].
Proof.
  apply (read_raw_exact ["D"%byte; x00; x00; x00; x06; x07; x08; x5a] _ [x5a]
           (mk_PgMessage "D"%byte [x07; x08])).
  vm_compute. reflexivity.
Defined.

(** The copying reader and the zero-copy reader are the same parser on
    every buffer: same message, same remaining buffer, same error. *)
Theorem readers_equivalent (buf : bytes) :
  try_read_message buf false =
    match try_read_message_with_raw buf with
    | Ok (o, rest) => Ok (option_map fst o, rest)
    | Err e => Err e
    | Panic => Panic
    end.
Proof.
  rewrite readers_agree. by destruct (try_read_message_with_raw buf) as [[]| |].
Qed.

(** The buffer ends inside a message whose announced length, if it is there
    already, is acceptable. *)
Definition incomplete (buf : bytes) : Prop :=
  (length buf < 5)%nat ∨
  ∃ t b0 b1 b2 b3 r, buf = t :: b0 :: b1 :: b2 :: b3 :: r ∧
    4 ≤ frame_len b0 b1 b2 b3 ≤ MAX_MESSAGE_SIZE ∧ len buf < 1 + frame_len b0 b1 b2 b3.

Lemma incomplete_read buf : incomplete buf → try_read_message_with_raw buf = Ok (None, buf).
Proof.
  intros [Hs|(t & b0 & b1 & b2 & b3 & r & -> & Hl & Hr)]; [by apply read_raw_short|].
  rewrite read_raw_spec. unfold read_spec.
  replace (in_range _ _ _) with true by (symmetry; apply in_range_true; lia). cbn [negb].
  by rewrite (proj2 (Z.ltb_lt _ _)) by len_lia.
Qed.

(** C25. The reader on every input, each outcome characterised exactly.  It
    never panics.  It returns a message (with its raw bytes) if and only if the
    buffer starts with the wire form of that message and the announced length is
    within 4..64MB, and then leaves exactly the bytes that follow.  It asks for
    more data if and only if the buffer is shorter than a header, or than an
    announced length within 4..64MB, and then leaves the buffer alone.  It fails if
    and only if the header is there and announces a length outside 4..64MB. *)
Theorem read_raw_total (buf : bytes) :
  try_read_message_with_raw buf ≠ Panic
  ∧ (∀ m raw rest, try_read_message_with_raw buf = Ok (Some (m, raw), rest)
       ↔ buf = raw ++ rest ∧ raw = wire m ∧ len (payload m) + 4 ≤ MAX_MESSAGE_SIZE)
  ∧ (∀ rest, try_read_message_with_raw buf = Ok (None, rest) ↔ rest = buf ∧ incomplete buf)
  ∧ (∀ e, try_read_message_with_raw buf = Err e
       ↔ ∃ t b0 b1 b2 b3 r, buf = t :: b0 :: b1 :: b2 :: b3 :: r
           ∧ ¬ 4 ≤ frame_len b0 b1 b2 b3 ≤ MAX_MESSAGE_SIZE
           ∧ e = bad_length (frame_len b0 b1 b2 b3) t).
Proof.
  pose proof (read_raw_inv buf) as H. split_and!.
  - intros E. by rewrite E in H.
  - intros m raw rest. split; [intros E; by rewrite E in H|].
    intros (-> & -> & Hm). by apply read_raw_wire.
  - intros rest. split; [|intros [-> Hi]; by apply incomplete_read].
    intros E. rewrite E in H. destruct H as (-> & [H|(t & b0 & b1 & b2 & b3 & r & -> & Hl & Hr)]); [by split; [|left]|].
    split; [done|right]. exists t, b0, b1, b2, b3, r. do 2 (split; [done|]). len_lia.
  - intros e. split; [intros E; by rewrite E in H|].
    intros (t & b0 & b1 & b2 & b3 & r & -> & Hl & ->). rewrite read_raw_spec. unfold read_spec.
    by replace (in_range _ _ _) with false by (symmetry; apply in_range_false; lia).
Qed.

(** C24. The message loop of every stream consumer is independent of how TCP
    cuts the stream: draining the concatenation of two reads is draining the
    first, then the unread rest followed by the second (or leaving at the same
    message, or failing with the same error); and it always terminates. *)
Theorem drain_chunking {St R : Type} (body : St → PgMessage → bytes → outcome (St + R))
    (s : St) (chunk1 chunk2 : bytes) :
  is_Some (drain body s chunk1) ∧
  drain body s (chunk1 ++ chunk2) =
    match drain body s chunk1 with
    | Some (Ok (inl s', rest)) => drain body s' (rest ++ chunk2)
    | Some (Ok (inr r, rest)) => Some (Ok (inr r, rest ++ chunk2))
    | o => o
    end.
Proof. split; [apply drain_total|apply drain_app]. Qed.

(** The four keywords of [is_shrink_operation] match plainly. *)
Ltac plain_keyword :=
  split; [match goal with |- Forall _ ?l => let l' := eval vm_compute in l in change l with l' end;
          repeat (apply Forall_cons_2; [unfold plain_letter; lia|]); apply Forall_nil_2
         |intros c Hc; vm_compute in Hc; injection Hc as <-; unfold plain_last; lia].

(** The shrink test is an ASCII prefix test: whatever the Unicode
    upper-case tables are, a query is taken for a shrink operation exactly when
    its text, leading and trailing white space removed and ASCII letters raised
    to upper case, starts with DELETE, TRUNCATE, DROP or VACUUM. *)
Theorem is_shrink_operation_spec `{UnicodeUpper} (q : str) :
  is_shrink_operation q =
    existsb (λ kw, bool_decide (kw `prefix_of` (ascii_upper <$> trim q)))
      [lit "DELETE"; lit "TRUNCATE"; lit "DROP"; lit "VACUUM"].
Proof.
  unfold is_shrink_operation. cbv zeta.
  rewrite !starts_with_uppercase by plain_keyword. cbn [existsb].
  by rewrite orb_false_r, !orb_assoc.
Qed.
