(* ===== verification/Startup.v ===== *)
(** * Startup packets (src/protocol/messages.rs)

    [parse_startup_params] and [build_startup_message].  The parser is the
    index loop of the source: [pos] walks over the payload, the two inner
    [while] loops are [skip_to_nul], every slice carries its bounds check, and
    the [HashMap] is a [gmap]. *)

From S2P Require Import Prelude RustStr Messages.

(** The number of bytes before the first NUL (or before the end). *)
Fixpoint nul_run (l : bytes) : nat :=
  match l with
  | [] => O
  | b :: r => if decide (b = x00) then O else S (nul_run r)
  end.

(** [while pos < payload.len() && payload[pos] != 0 { pos += 1; }] *)
Definition skip_to_nul (payload : bytes) (pos : nat) : nat :=
  (pos + nul_run (drop pos payload))%nat.

(** [std::str::from_utf8(..)?.to_string()] *)
Definition utf8_or_err (b : bytes) : outcome str :=
  match from_utf8 b with Some s => Ok s | None => Err Utf8Error end.

(** One iteration of the key/value loop. *)
Definition params_body (payload : bytes) (st : nat * gmap str str)
    : ctrl (nat * gmap str str) (outcome (gmap str str)) :=
  let '(pos, params) := st in
  if decide (pos < length payload)%nat then
    if decide (payload !! pos = Some x00) then Break (Ok params) else
    let key_start := pos in
    let pos := skip_to_nul payload pos in
    match (k ← unwrap (slice payload key_start pos); utf8_or_err k) with
    | Err e => Break (Err e)
    | Panic => Break Panic
    | Ok key =>
        let pos := S pos in
        let val_start := pos in
        let pos := skip_to_nul payload pos in
        match (v ← unwrap (slice payload val_start pos); utf8_or_err v) with
        | Err e => Break (Err e)
        | Panic => Break Panic
        | Ok val => Continue (S pos, <[key := val]> params)
        end
    end
  else Break (Ok params).

Definition parse_params (payload : bytes) (pos : nat) (params : gmap str str)
    : option (outcome (gmap str str)) :=
  loop (2 + length payload) (params_body payload) (pos, params).

(** [parse_startup_params]; the outer [option] is the fuel of the loop. *)
Definition parse_startup_params (payload : bytes) : option (outcome (Z * gmap str str)) :=
  if decide (length payload < 4)%nat then Some (Err (Bail (lit "Startup payload too short"))) else
  match payload with
  | b0 :: b1 :: b2 :: b3 :: _ =>
      let protocol_version := i32_from_be_bytes b0 b1 b2 b3 in
      match parse_params payload 4 ∅ with
      | Some (Ok params) => Some (Ok (protocol_version, params))
      | Some (Err e) => Some (Err e)
      | Some Panic => Some Panic
      | None => None
      end
  | _ => Some Panic
  end.

(** A NUL-terminated key and its NUL-terminated value. *)
Definition cpair (kv : str * str) : bytes :=
  as_bytes kv.1 ++ [x00] ++ as_bytes kv.2 ++ [x00].

(** The payload [build_startup_message] assembles. *)
Definition startup_payload (user database : str) (extra_params : list (str * str)) : bytes :=
  put_i32 196608 ++ blit "user" ++ [x00] ++ as_bytes user ++ [x00] ++
  blit "database" ++ [x00] ++ as_bytes database ++ [x00] ++
  (extra_params ≫= cpair) ++ [x00].

Definition build_startup_message (user database : str) (extra_params : list (str * str)) : bytes :=
  let payload := startup_payload user database extra_params in
  put_i32 (i32_wrap (len payload + 4)) ++ payload.

(** ** The loop body on a payload split at the current position *)

Lemma nul_run_le l : (nul_run l ≤ length l)%nat.
Proof. induction l; simpl; [done|]. case_decide; lia. Qed.
Lemma nul_run_app k r : x00 ∉ k → nul_run (k ++ x00 :: r) = length k.
Proof.
  induction k as [|b k IH]; intros Hk; [done|]. simpl.
  rewrite decide_False by set_solver. f_equal. apply IH. set_solver.
Qed.

Lemma nul_run_all k : x00 ∉ k → nul_run k = length k.
Proof.
  induction k as [|b k IH]; intros Hk; [done|]. simpl.
  rewrite decide_False by set_solver. f_equal. apply IH. set_solver.
Qed.

(** Every byte string is NUL-free or splits at its first NUL. *)
Lemma nul_split (l : bytes) :
  x00 ∉ l ∨ ∃ k r, l = k ++ x00 :: r ∧ x00 ∉ k.
Proof.
  destruct (decide (x00 ∈ l)) as [Hin|]; [right|by left].
  induction l as [|b l IH]; [by apply not_elem_of_nil in Hin|].
  destruct (decide (b = x00)) as [->|Hb].
  - exists [], l. split; [done|]. apply not_elem_of_nil.
  - apply elem_of_cons in Hin as [Heq|Hin]; [congruence|].
    destruct (IH Hin) as (k & r & -> & Hk). exists (b :: k), r. set_solver.
Qed.

Lemma slice_mid {A} (pre k post : list A) :
  slice (pre ++ k ++ post) (length pre) (length pre + length k) = Some k.
Proof.
  unfold slice. rewrite decide_True by (rewrite !length_app; lia).
  rewrite drop_app_length. replace (_ + _ - _)%nat with (length k) by lia.
  by rewrite take_app_length.
Qed.

Lemma slice_past {A} (l : list A) a b : (length l < b)%nat → slice l a b = None.
Proof. intros. unfold slice. by rewrite decide_False by lia. Qed.

Lemma params_body_end payload params :
  params_body payload (length payload, params) = Break (Ok params).
Proof. simpl. by rewrite decide_False by lia. Qed.

Lemma params_body_past payload params :
  params_body payload (S (length payload), params) = Break (Ok params).
Proof. simpl. by rewrite decide_False by lia. Qed.

Lemma params_body_nul pre r params :
  params_body (pre ++ x00 :: r) (length pre, params) = Break (Ok params).
Proof.
  simpl. rewrite decide_True by (rewrite length_app; simpl; lia).
  by rewrite decide_True by by rewrite list_lookup_middle.
Qed.

(** Reading the NUL-free run [k] at the current position. *)
Lemma skip_run pre k post :
  x00 ∉ k → (post = [] ∨ ∃ r, post = x00 :: r) →
  skip_to_nul (pre ++ k ++ post) (length pre) = (length pre + length k)%nat.
Proof.
  intros Hk Hpost. unfold skip_to_nul. rewrite drop_app_length. f_equal.
  destruct Hpost as [->|[r ->]]; [rewrite app_nil_r; by apply nul_run_all|by apply nul_run_app].
Qed.

(** The two halves of an iteration that starts at a non-empty, NUL-free key. *)
Lemma params_body_key pre k post params :
  k ≠ [] → x00 ∉ k → (post = [] ∨ ∃ r, post = x00 :: r) →
  params_body (pre ++ k ++ post) (length pre, params) =
    match utf8_or_err k with
    | Err e => Break (Err e)
    | Panic => Break Panic
    | Ok key =>
        let vpos := S (length pre + length k) in
        let pos := skip_to_nul (pre ++ k ++ post) vpos in
        match (v ← unwrap (slice (pre ++ k ++ post) vpos pos); utf8_or_err v) with
        | Err e => Break (Err e)
        | Panic => Break Panic
        | Ok val => Continue (S pos, <[key := val]> params)
        end
    end.
Proof.
  intros Hne Hk Hpost. unfold params_body.
  destruct k as [|b k]; [done|].
  rewrite decide_True by (rewrite !length_app; simpl; lia).
  rewrite decide_False.
  2:{ change (pre ++ (b :: k) ++ post) with (pre ++ b :: (k ++ post)).
      rewrite list_lookup_middle by done. set_solver. }
  rewrite skip_run, slice_mid by done. done.
Qed.

(** A complete pair: both strings NUL-terminated. *)
Lemma params_body_pair pre k v r params :
  k ≠ [] → x00 ∉ k → x00 ∉ v →
  params_body (pre ++ k ++ x00 :: v ++ x00 :: r) (length pre, params) =
    match utf8_or_err k with
    | Err e => Break (Err e)
    | Panic => Break Panic
    | Ok key =>
        match utf8_or_err v with
        | Err e => Break (Err e)
        | Panic => Break Panic
        | Ok val => Continue (length (pre ++ k ++ x00 :: v ++ [x00]), <[key := val]> params)
        end
    end.
Proof.
  intros Hne Hk Hv. rewrite params_body_key by eauto. cbv zeta.
  replace (pre ++ k ++ x00 :: v ++ x00 :: r) with ((pre ++ k ++ [x00]) ++ v ++ x00 :: r)
    by (by rewrite <-!(assoc_L (++))).
  replace (S (length pre + length k)) with (length (pre ++ k ++ [x00]))
    by (rewrite !length_app; simpl; lia).
  rewrite skip_run, slice_mid by eauto. cbn [unwrap mbind outcome_bind].
  destruct (utf8_or_err k); [|done..]. destruct (utf8_or_err v); [|done..].
  do 3 f_equal. rewrite !length_app; simpl; rewrite length_app; simpl; lia.
Qed.

(** The last value runs to the end of the packet: accepted. *)
Lemma params_body_open_value pre k v params :
  k ≠ [] → x00 ∉ k → x00 ∉ v →
  params_body (pre ++ k ++ x00 :: v) (length pre, params) =
    match utf8_or_err k with
    | Err e => Break (Err e)
    | Panic => Break Panic
    | Ok key =>
        match utf8_or_err v with
        | Err e => Break (Err e)
        | Panic => Break Panic
        | Ok val => Continue (S (length (pre ++ k ++ x00 :: v)), <[key := val]> params)
        end
    end.
Proof.
  intros Hne Hk Hv. rewrite params_body_key by eauto. cbv zeta.
  replace (pre ++ k ++ x00 :: v) with ((pre ++ k ++ [x00]) ++ v ++ [])
    by (by rewrite <-!(assoc_L (++)), app_nil_r).
  replace (S (length pre + length k)) with (length (pre ++ k ++ [x00]))
    by (rewrite !length_app; simpl; lia).
  rewrite skip_run, slice_mid by eauto. cbn [unwrap mbind outcome_bind].
  destruct (utf8_or_err k); [|done..]. destruct (utf8_or_err v); [|done..].
  do 3 f_equal. rewrite !length_app; simpl; lia.
Qed.

(** A key that runs to the end of the packet: the value slice starts one past
    the end. *)
Lemma params_body_open_key pre k params :
  k ≠ [] → x00 ∉ k →
  params_body (pre ++ k) (length pre, params) =
    match utf8_or_err k with
    | Err e => Break (Err e)
    | _ => Break Panic
    end.
Proof.
  intros Hne Hk. rewrite <-(app_nil_r k) at 1. rewrite params_body_key by eauto. cbv zeta.
  rewrite (slice_past _ _ (skip_to_nul _ _)).
  - by destruct (utf8_or_err k).
  - unfold skip_to_nul. rewrite !length_app. simpl. lia.
Qed.

(** ** The loop *)

Lemma params_body_decreases payload st st' :
  params_body payload st = Continue st' →
  (S (length payload) - st'.1 < S (length payload) - st.1)%nat.
Proof.
  destruct st as [pos params]. unfold params_body.
  case_decide as Hpos; [|done]. case_decide; [done|].
  set (p1 := skip_to_nul payload pos). assert (pos ≤ p1)%nat by (unfold p1, skip_to_nul; lia).
  destruct (_ ≫= utf8_or_err) as [key| |]; [|done..].
  set (p2 := skip_to_nul payload (S p1)). assert (p1 < p2)%nat by (unfold p2, skip_to_nul; lia).
  destruct (_ ≫= utf8_or_err) as [val| |]; [|done..].
  intros [= <-]. simpl. lia.
Qed.

Lemma parse_params_unfold payload pos params :
  parse_params payload pos params =
    match params_body payload (pos, params) with
    | Break r => Some r
    | Continue (pos', params') => parse_params payload pos' params'
    end.
Proof.
  unfold parse_params. change (2 + length payload)%nat with (S (S (length payload))).
  destruct (params_body payload (pos, params)) as [[pos' params']|r] eqn:Hb.
  2:{ rewrite loop_S, Hb. done. }
  pose proof (params_body_decreases _ _ _ Hb) as Hd. simpl in Hd.
  rewrite loop_S, Hb.
  destruct (loop_total _ (λ st, S (length payload) - st.1)%nat (params_body_decreases payload)
    (S (length payload)) (pos', params')) as [r Hr]; [simpl; lia|].
  rewrite Hr. symmetry. apply (loop_mono _ (S (length payload))); [done|lia].
Qed.

Lemma parse_params_total payload pos params : is_Some (parse_params payload pos params).
Proof.
  apply (loop_total _ (λ st, S (length payload) - st.1)%nat (params_body_decreases payload)).
  simpl. lia.
Qed.

(** ** Packets as sequences of pairs *)

(** A pair as it lies on the wire, before UTF-8 validation. *)
Definition raw_pair (kv : bytes * bytes) : bytes := kv.1 ++ x00 :: kv.2 ++ [x00].
Definition raw_pair_ok (kv : bytes * bytes) : Prop :=
  kv.1 ≠ [] ∧ (x00 ∉ kv.1) ∧ (x00 ∉ kv.2) ∧ is_Some (from_utf8 kv.1) ∧ is_Some (from_utf8 kv.2).

(** The map after inserting pairs in order (a later key overwrites). *)
Definition insert_all (params : gmap str str) (kvs : list (str * str)) : gmap str str :=
  foldl (λ m kv, <[kv.1 := kv.2]> m) params kvs.

Lemma utf8_or_err_Some k s : from_utf8 k = Some s → utf8_or_err k = Ok s.
Proof. unfold utf8_or_err. by intros ->. Qed.

Lemma parse_params_raw_pair pre kv tail params :
  raw_pair_ok kv → ∃ params',
  parse_params (pre ++ raw_pair kv ++ tail) (length pre) params =
    parse_params (pre ++ raw_pair kv ++ tail) (length (pre ++ raw_pair kv)) params' ∧
  ∀ k v, from_utf8 kv.1 = Some k → from_utf8 kv.2 = Some v → params' = <[k := v]> params.
Proof.
  destruct kv as [kb vb]. intros (Hne & Hk & Hv & [k Ek] & [v Ev]); cbn [fst snd] in *.
  exists (<[k := v]> params). split; [|naive_solver].
  rewrite parse_params_unfold. unfold raw_pair; cbn [fst snd].
  replace (pre ++ (kb ++ x00 :: vb ++ [x00]) ++ tail) with (pre ++ kb ++ x00 :: vb ++ x00 :: tail)
    by (by rewrite <-!(assoc_L (++)); simpl; rewrite <-!(assoc_L (++))).
  rewrite params_body_pair by done.
  by rewrite (utf8_or_err_Some _ _ Ek), (utf8_or_err_Some _ _ Ev).
Qed.

Definition param_ok (kv : str * str) : Prop :=
  kv.1 ≠ [] ∧ (0 ∉ kv.1) ∧ (0 ∉ kv.2) ∧ str_ok kv.1 ∧ str_ok kv.2.

Lemma parse_params_cpairs pre kvs tail params :
  Forall param_ok kvs →
  parse_params (pre ++ (kvs ≫= cpair) ++ tail) (length pre) params =
    parse_params (pre ++ (kvs ≫= cpair) ++ tail) (length (pre ++ (kvs ≫= cpair)))
      (insert_all params kvs).
Proof.
  intros Hkvs. revert pre params. induction Hkvs as [|[k v] kvs (Hne & Hk & Hv & Hok & Hov) _ IH];
    intros pre params; [by rewrite app_nil_r|]. cbn [fst snd] in *.
  change (((k, v) :: kvs) ≫= cpair) with (cpair (k, v) ++ (kvs ≫= cpair)).
  assert (Hraw : cpair (k, v) = raw_pair (as_bytes k, as_bytes v)) by done.
  rewrite Hraw, <-(assoc_L (++)).
  destruct (parse_params_raw_pair pre (as_bytes k, as_bytes v) ((kvs ≫= cpair) ++ tail) params)
    as (params' & -> & Hp).
  { repeat split; cbn [fst snd]; rewrite ?from_utf8_as_bytes by done;
      eauto using as_bytes_nonempty, as_bytes_no_nul. }
  rewrite (Hp k v) by (by apply from_utf8_as_bytes).
  rewrite (assoc_L (++) pre), IH, (assoc_L (++) pre). done.
Qed.

(** The packet ends in a key that has no NUL: a panic, if all before it is
    well formed. *)
Definition open_key_tail (rest : bytes) : Prop :=
  ∃ kvs k, rest = (kvs ≫= raw_pair) ++ k ∧ Forall raw_pair_ok kvs ∧
    k ≠ [] ∧ (x00 ∉ k) ∧ is_Some (from_utf8 k).

Lemma open_key_panics kvs pre k params :
  Forall raw_pair_ok kvs → k ≠ [] → (x00 ∉ k) → is_Some (from_utf8 k) →
  parse_params (pre ++ (kvs ≫= raw_pair) ++ k) (length pre) params = Some Panic.
Proof.
  intros Hkvs Hne Hk [s Hs]. revert pre params. induction Hkvs as [|kv kvs Hkv _ IH]; intros pre params.
  - simpl. rewrite parse_params_unfold, params_body_open_key by done.
    by rewrite (utf8_or_err_Some _ _ Hs).
  - change ((kv :: kvs) ≫= raw_pair) with (raw_pair kv ++ (kvs ≫= raw_pair)).
    rewrite <-(assoc_L (++)).
    destruct (parse_params_raw_pair pre kv ((kvs ≫= raw_pair) ++ k) params Hkv) as (params' & -> & _).
    rewrite (assoc_L (++) pre). apply IH.
Qed.

Lemma open_key_tail_cons kv rest :
  raw_pair_ok kv → open_key_tail rest → open_key_tail (raw_pair kv ++ rest).
Proof.
  intros Hkv (kvs & k & -> & Hkvs & Hk). exists (kv :: kvs), k. split; [|by auto].
  by rewrite (assoc_L (++)).
Qed.

(** What stands at a parsing position: nothing, a terminator, a pair, a pair
    with an unterminated value, or an unterminated key. *)
Lemma rest_cases (rest : bytes) :
  rest = [] ∨ (∃ r, rest = x00 :: r) ∨
  (∃ k v r, rest = raw_pair (k, v) ++ r ∧ k ≠ [] ∧ (x00 ∉ k) ∧ (x00 ∉ v)) ∨
  (∃ k v, rest = k ++ x00 :: v ∧ k ≠ [] ∧ (x00 ∉ k) ∧ (x00 ∉ v)) ∨
  (rest ≠ [] ∧ (x00 ∉ rest)).
Proof.
  destruct (nul_split rest) as [Hk|(k & r & -> & Hk)].
  { destruct rest; [by left|]. naive_solver. }
  destruct k as [|b k]; [eauto|]. destruct (nul_split r) as [Hv|(v & r' & -> & Hv)].
  - do 3 right. left. by exists (b :: k), r.
  - do 2 right. left. exists (b :: k), v, r'. split; [|done].
    unfold raw_pair; cbn [fst snd]. by rewrite <-!(assoc_L (++)); simpl; rewrite <-!(assoc_L (++)).
Qed.

Lemma panic_open_key n pre rest params :
  (length rest ≤ n)%nat →
  parse_params (pre ++ rest) (length pre) params = Some Panic → open_key_tail rest.
Proof.
  revert pre rest params. induction n as [|n IH]; intros pre rest params Hn;
    destruct (rest_cases rest) as [->|[[r ->]|[(k & v & r & -> & Hne & Hk & Hv)|
      [(k & v & -> & Hne & Hk & Hv)|[Hne Hk]]]]];
    rewrite parse_params_unfold;
    rewrite ?app_nil_r, ?params_body_end, ?params_body_nul; try discriminate;
    try (destruct rest; simpl in Hn; [done|lia]);
    try (unfold raw_pair in Hn; cbn [fst snd] in Hn; rewrite !length_app in Hn; simpl in Hn; lia).
  - unfold raw_pair; cbn [fst snd].
    replace (pre ++ (k ++ x00 :: v ++ [x00]) ++ r) with (pre ++ k ++ x00 :: v ++ x00 :: r)
      by (by rewrite <-!(assoc_L (++)); simpl; rewrite <-!(assoc_L (++))).
    rewrite params_body_pair by done. unfold utf8_or_err.
    destruct (from_utf8 k) eqn:Ek; [|done]. destruct (from_utf8 v) eqn:Ev; [|done].
    replace (pre ++ k ++ x00 :: v ++ x00 :: r) with ((pre ++ k ++ x00 :: v ++ [x00]) ++ r)
      by (rewrite <-!(assoc_L (++)); simpl; by rewrite <-!(assoc_L (++))).
    intros Hp. apply (open_key_tail_cons (k, v)); [by repeat split; eauto|].
    eapply IH, Hp. unfold raw_pair in Hn. rewrite !length_app in Hn. simpl in Hn. lia.
  - rewrite params_body_open_value by done. unfold utf8_or_err.
    destruct (from_utf8 k) eqn:Ek; [|done]. destruct (from_utf8 v) eqn:Ev; [|done].
    rewrite parse_params_unfold, params_body_past. done.
  - rewrite params_body_open_key by done. unfold utf8_or_err.
    destruct (from_utf8 rest) eqn:Ek; [|done]. intros _.
    exists [], rest. repeat split; eauto.
Qed.

(** The typed reader in startup mode on an untyped frame. *)
Lemma read_startup_frame p :
  len p + 4 ≤ MAX_MESSAGE_SIZE →
  try_read_message (put_i32 (i32_wrap (len p + 4)) ++ p) true = Ok (Some (mk_PgMessage x00 p), []).
Proof.
  intros Hp. pose proof (len_nonneg p). assert (Hi : is_i32 (len p + 4)).
  { unfold is_i32, MAX_MESSAGE_SIZE in *. lia. }
  unfold try_read_message. rewrite (proj2 (Z.ltb_ge _ _)) by len_lia.
  rewrite i32_wrap_small, get_put_i32 by done. cbn [unwrap mbind outcome_bind].
  rewrite as_usize_nonneg by (unfold is_i32 in Hi; lia).
  replace (in_range _ _ _) with true by (symmetry; apply in_range_true; lia). cbn [negb].
  rewrite (proj2 (Z.ltb_ge _ _)) by len_lia.
  unfold slice_from. rewrite decide_True by (rewrite length_app, put_i32_length; lia).
  change 4%nat with (length (put_i32 (len p + 4))). rewrite drop_app_length.
  cbn [unwrap mbind outcome_bind]. replace (len p + 4 - 4) with (len p) by lia.
  rewrite <-(app_nil_r p) at 1. by rewrite split_to_app.
Qed.

Lemma parse_startup_split b0 b1 b2 b3 rest :
  parse_startup_params (b0 :: b1 :: b2 :: b3 :: rest) =
    match parse_params ([b0; b1; b2; b3] ++ rest) 4 ∅ with
    | Some (Ok params) => Some (Ok (i32_from_be_bytes b0 b1 b2 b3, params))
    | Some (Err e) => Some (Err e)
    | Some Panic => Some Panic
    | None => None
    end.
Proof. unfold parse_startup_params. by rewrite decide_False by (simpl; lia). Qed.

(** The payload parses back to its parameters. *)
Lemma startup_payload_parse user database extra :
  str_ok user → 0 ∉ user → str_ok database → 0 ∉ database → Forall param_ok extra →
  parse_startup_params (startup_payload user database extra) =
    Some (Ok (196608, insert_all ∅ ((lit "user", user) :: (lit "database", database) :: extra))).
Proof.
  intros Hu Hu0 Hd Hd0 He.
  set (kvs := (lit "user", user) :: (lit "database", database) :: extra).
  assert (Hkvs : Forall param_ok kvs).
  { repeat constructor; simpl; try done; try (by vm_compute; set_solver).
    all: apply Forall_forall; intros c Hc; vm_compute in Hc; unfold is_scalar; set_solver by lia. }
  assert (Hpay : startup_payload user database extra = [x00; x03; x00; x00] ++ (kvs ≫= cpair) ++ [x00]).
  { unfold startup_payload, kvs. cbn [mbind list_bind]. unfold cpair at 2 3; cbn [fst snd].
    rewrite <-!(assoc_L (++)). done. }
  rewrite Hpay. cbn [app]. rewrite parse_startup_split.
  change 4%nat with (length [x00; x03; x00; x00]).
  rewrite parse_params_cpairs by done. rewrite (assoc_L (++)).
  rewrite parse_params_unfold, params_body_nul. done.
Qed.

(** C38. Round trip of the startup packet: what [build_startup_message] sends
    for a user, a database and extra parameters (valid, NUL-free strings,
    non-empty extra keys, within the size limit) is framed as one startup
    message, and parsing its payload gives protocol 3.0 and exactly the
    parameters inserted in order. *)
Theorem startup_roundtrip (user database : str) (extra : list (str * str)) :
  str_ok user → 0 ∉ user → str_ok database → 0 ∉ database → Forall param_ok extra →
  len (startup_payload user database extra) + 4 ≤ MAX_MESSAGE_SIZE →
  try_read_message (build_startup_message user database extra) true =
    Ok (Some (mk_PgMessage x00 (startup_payload user database extra)), []) ∧
  parse_startup_params (startup_payload user database extra) =
    Some (Ok (196608, insert_all ∅ ((lit "user", user) :: (lit "database", database) :: extra))).
Proof.
  intros. split; [by apply read_startup_frame|by apply startup_payload_parse].
Qed.

Lemma startup_roundtrip_witness :
  parse_startup_params (startup_payload (lit "alice") (lit "shop") [(lit "app", lit "x")]) =
    Some (Ok (196608, insert_all ∅ [(lit "user", lit "alice"); (lit "database", lit "shop");
                                    (lit "app", lit "x")])).
Proof.
  apply (startup_roundtrip (lit "alice") (lit "shop") [(lit "app", lit "x")]); str_literal.
  - by repeat split; cbn [fst snd]; str_literal.
  - vm_compute. discriminate.
Defined.

(** The startup parser terminates on every payload, and it panics (instead
    of returning an error) exactly when the packet, after the version and a
    possibly empty run of well-formed pairs, ends in a non-empty valid UTF-8
    key without its NUL terminator: the value slice then starts one past the
    end of the payload. *)
Theorem parse_startup_panics_iff (payload : bytes) :
  is_Some (parse_startup_params payload) ∧
  (parse_startup_params payload = Some Panic ↔
   ∃ version rest, length version = 4%nat ∧ payload = version ++ rest ∧ open_key_tail rest).
Proof.
  destruct (decide (length payload < 4)%nat) as [Hlt|Hge].
  { unfold parse_startup_params. rewrite decide_True by done. split; [eauto|]. split; [done|].
    intros (version & rest & Hv & -> & _). rewrite length_app in Hlt. lia. }
  destruct payload as [|b0 [|b1 [|b2 [|b3 rest]]]]; simpl in Hge; try lia.
  rewrite parse_startup_split. set (hd := [b0; b1; b2; b3]).
  destruct (parse_params_total (hd ++ rest) 4 ∅) as [r Hr]. rewrite Hr.
  split; [destruct r; eauto|]. split.
  - intros Hp. assert (r = Panic) as -> by (by destruct r).
    exists hd, rest. split_and!; [done..|]. by eapply (panic_open_key (length rest) hd), Hr.
  - intros (version & rest' & Hv & Heq & kvs & k & -> & Hkvs & Hne & Hk & Hs).
    assert (version = hd ∧ rest = (kvs ≫= raw_pair) ++ k) as [-> ->].
    { symmetry in Heq. change (b0 :: b1 :: b2 :: b3 :: rest) with (hd ++ rest) in Heq.
      by apply app_inj_1 in Heq as [-> ->]. }
    pose proof (open_key_panics kvs hd k ∅ Hkvs Hne Hk Hs) as Hp.
    change (length hd) with 4%nat in Hp. rewrite Hp in Hr. by simplify_eq.
Qed.

Example unterminated_key_panics :
  parse_startup_params (put_i32 196608 ++ blit "user") = Some Panic.
Proof. vm_compute. reflexivity. Qed.
