(* ===== verification/Scanner.v ===== *)
(** * The message-boundary scanner (src/protocol/messages.rs)

    [MessageBoundaryScanner], the state machine the fast proxy path runs over
    raw server bytes.  [scan] is the source's loop: [data] is the slice that is
    left at [pos].  [frun] is the abstract specification: a byte-at-a-time
    framing automaton that reports the status byte of every ReadyForQuery. *)

From S2P Require Import Prelude RustStr Messages.

Record MessageBoundaryScanner := mk_scanner {
  remaining_skip : Z;
  header_buf : bytes;
  header_len : nat;
  transaction_status : byte
}.

#[export] Instance scanner_eq_dec : EqDecision MessageBoundaryScanner.
Proof. solve_decision. Defined.

(** [MessageBoundaryScanner::new]. *)
Definition scanner_new : MessageBoundaryScanner :=
  mk_scanner 0 (replicate 5 x00) 0 "I"%byte.

(** Phase 2: copy header bytes from [data] behind the ones already buffered. *)
Definition fill_header (s : MessageBoundaryScanner) (data : bytes)
    : MessageBoundaryScanner * bytes :=
  let need := (5 - header_len s)%nat in
  let avail := Nat.min need (length data) in
  let hb := take (header_len s) (header_buf s) ++ take avail data
            ++ drop (header_len s + avail) (header_buf s) in
  (mk_scanner (remaining_skip s) hb (header_len s + avail) (transaction_status s),
   drop avail data).

(** [header_buf[i]]: the array has five elements. *)
Definition hb_at (hb : bytes) (i : nat) : byte := nth i hb x00.

(** Phase 3: a full header is buffered. *)
Definition finish_header (s : MessageBoundaryScanner) (data : bytes) (saw_idle : bool)
    : MessageBoundaryScanner * bytes * bool :=
  let hb := header_buf s in
  let t := hb_at hb 0 in
  let l := as_usize (i32_from_be_bytes (hb_at hb 1) (hb_at hb 2) (hb_at hb 3) (hb_at hb 4)) in
  let payload_len := Z.max 0 (l - 4) in
  if decide (t = "Z"%byte ∧ payload_len = 1) then
    match data with
    | status :: rest =>
        (mk_scanner 0 hb 0 status, rest, bool_decide (status = "I"%byte))
    | [] => (mk_scanner 1 hb 0 (transaction_status s), data, saw_idle)
    end
  else (mk_scanner payload_len hb 0 (transaction_status s), data, saw_idle).

(** One iteration of [while pos < data.len()]. *)
Definition scan_body (st : MessageBoundaryScanner * bytes * bool)
    : ctrl (MessageBoundaryScanner * bytes * bool) (MessageBoundaryScanner * bool) :=
  let '(s, data, saw_idle) := st in
  if decide (data = []) then Break (s, saw_idle)
  else if 0 <? remaining_skip s then
    let skip := Z.min (remaining_skip s) (len data) in
    Continue (mk_scanner (remaining_skip s - skip) (header_buf s) (header_len s)
                (transaction_status s),
              drop (Z.to_nat skip) data, saw_idle)
  else if decide (header_len s < 5)%nat then
    let '(s, data) := fill_header s data in
    if decide (header_len s < 5)%nat then Break (s, saw_idle)
    else Continue (finish_header s data saw_idle)
  else Continue (finish_header s data saw_idle).

(** [MessageBoundaryScanner::scan]; two iterations per byte are enough. *)
Definition scan (s : MessageBoundaryScanner) (data : bytes)
    : option (MessageBoundaryScanner * bool) :=
  loop (2 + 2 * length data) scan_body (s, data, false).

(** A sequence of reads, each scanned by its own call. *)
Fixpoint scan_all (s : MessageBoundaryScanner) (chunks : list bytes)
    : option MessageBoundaryScanner :=
  match chunks with
  | [] => Some s
  | c :: cs => match scan s c with Some (s', _) => scan_all s' cs | None => None end
  end.

(** ** Specification: the framing automaton *)

Inductive fstate :=
  | Hdr (h : bytes)                  (* inside a header, [h] received *)
  | Pay (n : Z) (rfq : bool).        (* [n] payload bytes to come; a ReadyForQuery? *)

(** The state after a complete header. *)
Definition after_header (t b0 b1 b2 b3 : byte) : fstate :=
  let p := Z.max 0 (frame_len b0 b1 b2 b3 - 4) in
  if decide (p = 0) then Hdr [] else Pay p (bool_decide (t = "Z"%byte ∧ p = 1)).

Definition fstep (st : fstate) (b : byte) : fstate * list byte :=
  match st with
  | Hdr [t; b0; b1; b2] => (after_header t b0 b1 b2 b, [])
  | Hdr h => (Hdr (h ++ [b]), [])
  | Pay n rfq =>
      (if decide (n ≤ 1) then Hdr [] else Pay (n - 1) rfq, if rfq then [b] else [])
  end.

(** The final state and the reported statuses, in order. *)
Fixpoint frun (st : fstate) (data : bytes) : fstate * list byte :=
  match data with
  | [] => (st, [])
  | b :: r => let '(st1, o1) := fstep st b in
              let '(st2, o2) := frun st1 r in (st2, o1 ++ o2)
  end.

(** The state of the automaton a scanner stands for; a scanner cannot say that
    the payload it skips is the status byte of a ReadyForQuery. *)
Definition abs (s : MessageBoundaryScanner) : fstate :=
  if 0 <? remaining_skip s then Pay (remaining_skip s) false
  else Hdr (take (header_len s) (header_buf s)).
Definition erase (st : fstate) : fstate :=
  match st with Pay n _ => Pay n false | Hdr h => Hdr h end.

(** The invariant between calls. *)
Record scanner_wf (s : MessageBoundaryScanner) : Prop := {
  wf_skip : 0 ≤ remaining_skip s < 2^64;
  wf_buf : length (header_buf s) = 5%nat;
  wf_len : (header_len s < 5)%nat;
  wf_excl : 0 < remaining_skip s → header_len s = O
}.

(** ** The automaton *)

Lemma frun_app st d1 d2 :
  frun st (d1 ++ d2) =
    ((frun (frun st d1).1 d2).1, (frun st d1).2 ++ (frun (frun st d1).1 d2).2).
Proof.
  revert st. induction d1 as [|b d1 IH]; intros st; simpl.
  - by destruct (frun st d2).
  - destruct (fstep st b) as [st1 o1]. rewrite IH.
    destruct (frun st1 d1) as [st2 o2]; simpl. destruct (frun st2 d2); simpl.
    by rewrite (assoc_L (++)).
Qed.

Lemma frun_pay_short n rfq data :
  len data < n → frun (Pay n rfq) data = (Pay (n - len data) rfq, if rfq then data else []).
Proof.
  revert n. induction data as [|b data IH]; intros n Hn; simpl.
  - rewrite len_nil, Z.sub_0_r. by destruct rfq.
  - rewrite len_cons in *. pose proof (len_nonneg data).
    rewrite decide_False by lia. rewrite IH by lia.
    f_equal; [f_equal; lia|by destruct rfq].
Qed.

Lemma frun_pay_exact rfq data :
  data ≠ [] → frun (Pay (len data) rfq) data = (Hdr [], if rfq then data else []).
Proof.
  intros Hne. destruct (exists_last Hne) as (d & b & ->).
  rewrite frun_app, frun_pay_short by len_lia. cbn [fst snd frun fstep].
  rewrite decide_True by len_lia. by destruct rfq; rewrite ?app_nil_r.
Qed.

Lemma fstep_hdr h b : (length h < 4)%nat → fstep (Hdr h) b = (Hdr (h ++ [b]), []).
Proof. destruct h as [|? [|? [|? [|? ?]]]]; simpl; intros; [done..|lia]. Qed.

Lemma frun_hdr_short h data :
  (length h + length data < 5)%nat → frun (Hdr h) data = (Hdr (h ++ data), []).
Proof.
  revert h. induction data as [|b data IH]; intros h Hl; cbn [frun]; [by rewrite app_nil_r|].
  simpl in Hl. rewrite fstep_hdr by lia. rewrite IH by (rewrite length_app; simpl; lia).
  by rewrite <-(assoc_L (++)).
Qed.

Lemma frun_hdr_full h data t b0 b1 b2 b3 :
  data ≠ [] → h ++ data = [t; b0; b1; b2; b3] →
  frun (Hdr h) data = (after_header t b0 b1 b2 b3, []).
Proof.
  intros Hne Heq. destruct (exists_last Hne) as (d & b & ->).
  rewrite (assoc_L (++)) in Heq. change [t; b0; b1; b2; b3] with ([t; b0; b1; b2] ++ [b3]) in Heq.
  apply app_inj_2 in Heq as [Heq [= ->]]; [|done].
  rewrite frun_app, frun_hdr_short, Heq; [done|].
  rewrite <-length_app, Heq. simpl. lia.
Qed.

Lemma five_bytes (h : bytes) : length h = 5%nat → ∃ t b0 b1 b2 b3, h = [t; b0; b1; b2; b3].
Proof. destruct h as [|t [|b0 [|b1 [|b2 [|b3 [|]]]]]]; try done. eauto 10. Qed.

(** ** Refinement of one iteration *)

(** The effect of reported statuses on [saw_idle]. *)
Definition idle_after (saw_idle : bool) (o : list byte) : bool :=
  match last o with Some b => bool_decide (b = "I"%byte) | None => saw_idle end.
Definition status_after (s : MessageBoundaryScanner) (o : list byte) : byte :=
  default (transaction_status s) (last o).

Lemma fill_header_spec s data :
  length (header_buf s) = 5%nat → (header_len s < 5)%nat →
  let '(s', rest) := fill_header s data in
  let k := Nat.min (5 - header_len s) (length data) in
  remaining_skip s' = remaining_skip s ∧ length (header_buf s') = 5%nat ∧
  header_len s' = (header_len s + k)%nat ∧ transaction_status s' = transaction_status s ∧
  take (header_len s') (header_buf s') = take (header_len s) (header_buf s) ++ take k data ∧
  rest = drop k data.
Proof.
  intros Hb Hl. unfold fill_header; cbv zeta.
  cbn [remaining_skip header_buf header_len transaction_status].
  set (k := Nat.min _ _). split_and!; try done.
  - rewrite !length_app, !length_take, length_drop. lia.
  - rewrite (assoc_L (++)).
    assert (length (take (header_len s) (header_buf s) ++ take k data) = (header_len s + k)%nat) as <-.
    { rewrite length_app, !length_take. lia. }
    by rewrite take_app_length.
Qed.

(** Phase 3 against [after_header]. *)
Lemma finish_header_spec s data saw_idle t b0 b1 b2 b3 :
  header_buf s = [t; b0; b1; b2; b3] →
  let '(s', rest, idle') := finish_header s data saw_idle in
  scanner_wf s' ∧ (length rest ≤ length data)%nat ∧
  ∃ d o st, data = d ++ rest ∧ frun (after_header t b0 b1 b2 b3) d = (st, o) ∧
    (abs s' = st ∨ (rest = [] ∧ abs s' = erase st)) ∧
    transaction_status s' = status_after s o ∧ idle' = idle_after saw_idle o.
Proof.
  intros Hb. unfold finish_header, after_header. rewrite Hb. cbv zeta.
  change (as_usize _) with (frame_len b0 b1 b2 b3).
  assert (Hl : 0 ≤ frame_len b0 b1 b2 b3 < 2^64) by (apply Z.mod_pos_bound; lia).
  generalize dependent (frame_len b0 b1 b2 b3). intros l Hl.
  change (hb_at [t; b0; b1; b2; b3] 0) with t. case_decide as HZ.
  - destruct HZ as [-> ->]. rewrite decide_False, bool_decide_true by done.
    destruct data as [|status rest].
    + split; [by constructor; simpl; try lia|]. split; [done|].
      exists [], [], (Pay 1 true). split_and!; try done. by right.
    + split; [by constructor; simpl; try lia|]. split; [simpl; lia|].
      exists [status], [status], (Hdr []). split_and!; try done. by left.
  - split; [by constructor; simpl; try lia|]. split; [done|].
    exists [], [], (if decide (Z.max 0 (l - 4) = 0) then Hdr [] else Pay (Z.max 0 (l - 4)) false).
    split_and!; try done; [by rewrite (bool_decide_false _ HZ)|]. left. unfold abs; simpl.
    case_decide as Hz; [by rewrite Hz|]. by rewrite (proj2 (Z.ltb_lt _ _)) by lia.
Qed.

(** What one iteration of the loop on non-empty data achieves: it consumes a
    non-empty prefix [d] of the data as the automaton does. *)
Definition iteration_ok (s : MessageBoundaryScanner) (data : bytes) (saw_idle : bool)
    (s' : MessageBoundaryScanner) (rest : bytes) (idle' : bool) : Prop :=
  scanner_wf s' ∧ (length rest < length data)%nat ∧
  ∃ d o st, data = d ++ rest ∧ frun (abs s) d = (st, o) ∧
    (abs s' = st ∨ (rest = [] ∧ abs s' = erase st)) ∧
    transaction_status s' = status_after s o ∧ idle' = idle_after saw_idle o.

Lemma scan_body_skip s data saw_idle :
  scanner_wf s → data ≠ [] → 0 < remaining_skip s →
  ∃ s' rest, scan_body (s, data, saw_idle) = Continue (s', rest, saw_idle) ∧
    iteration_ok s data saw_idle s' rest saw_idle.
Proof.
  intros [Hs Hb Hl Hx] Hne Hpos. specialize (Hx Hpos). unfold scan_body.
  rewrite decide_False, (proj2 (Z.ltb_lt _ _)) by done. cbv zeta.
  do 2 eexists. split; [done|]. set (k := Z.to_nat (Z.min (remaining_skip s) (len data))).
  assert (0 < len data) by (destruct data; [done|]; len_lia).
  split; [|split].
  - constructor; simpl; lia.
  - rewrite length_drop. unfold len in *. lia.
  - unfold abs. rewrite (proj2 (Z.ltb_lt _ _)) by done. cbn [remaining_skip header_buf header_len].
    exists (take k data), [].
    exists (if 0 <? remaining_skip s - Z.min (remaining_skip s) (len data)
            then Pay (remaining_skip s - Z.min (remaining_skip s) (len data)) false else Hdr []).
    split_and!; try done; [by rewrite take_drop| |].
    + assert (Hk : len (take k data) = Z.min (remaining_skip s) (len data)).
      { unfold len in *. rewrite length_take. lia. }
      destruct (0 <? _) eqn:E.
      * apply Z.ltb_lt in E. rewrite frun_pay_short, Hk by lia. done.
      * apply Z.ltb_ge in E. replace (remaining_skip s) with (len (take k data)) by lia.
        apply frun_pay_exact. intros Hnil. rewrite Hnil in Hk. unfold len in *. simpl in Hk. lia.
    + left. rewrite Hx. by destruct (0 <? _).
Qed.

Lemma scan_body_header s data saw_idle :
  scanner_wf s → data ≠ [] → remaining_skip s = 0 →
  (∃ s', scan_body (s, data, saw_idle) = Break (s', saw_idle) ∧ scanner_wf s' ∧
     frun (abs s) data = (abs s', []) ∧ transaction_status s' = transaction_status s) ∨
  (∃ s' rest idle', scan_body (s, data, saw_idle) = Continue (s', rest, idle') ∧
     iteration_ok s data saw_idle s' rest idle').
Proof.
  intros [Hs Hb Hl Hx] Hne H0.
  assert (Habs_s : abs s = Hdr (take (header_len s) (header_buf s))) by (unfold abs; by rewrite H0).
  unfold iteration_ok. rewrite Habs_s. unfold scan_body.
  rewrite decide_False, H0, decide_True by done. cbn [Z.ltb Z.compare].
  pose proof (fill_header_spec s data Hb Hl) as Hf.
  destruct (fill_header s data) as [s1 rest1]. set (k := Nat.min _ _) in Hf.
  destruct Hf as (Hs1 & Hb1 & Hl1 & Ht1 & Htake & Hrest).
  assert (Hk : (0 < k)%nat) by (destruct data; simpl in *; [done|lia]).
  case_decide as H5.
  - left. exists s1. split; [done|]. assert (Hkd : take k data = data) by (apply take_ge; lia).
    split; [constructor; lia|]. split; [|done].
    unfold abs. rewrite Hs1, H0, Htake, Hkd. cbn [Z.ltb Z.compare].
    apply frun_hdr_short. rewrite length_take. lia.
  - right. destruct (five_bytes (header_buf s1) Hb1) as (t & b0 & b1 & b2 & b3 & E5).
    pose proof (finish_header_spec s1 rest1 saw_idle t b0 b1 b2 b3 E5) as Hfin.
    destruct (finish_header s1 rest1 saw_idle) as [[s2 rest2] idle2].
    destruct Hfin as (Hwf & Hlen & d & o & st & Hd & Hrun & Habs & Hst & Hid).
    exists s2, rest2, idle2. split; [done|].
    assert (Hrl : length rest1 = (length data - k)%nat) by (by rewrite Hrest, length_drop).
    split; [done|]. split; [lia|].
    exists (take k data ++ d), o, st.
    split; [by rewrite <-(assoc_L (++)), <-Hd, Hrest, take_drop|]. split.
    + rewrite frun_app, (frun_hdr_full _ _ t b0 b1 b2 b3).
      * cbn [fst snd]. by rewrite Hrun.
      * intros Hn. apply (f_equal length) in Hn. rewrite length_take in Hn. simpl in Hn. lia.
      * rewrite <-Htake, <-E5. apply take_ge. lia.
    + split; [done|]. split; [|done]. rewrite Hst. unfold status_after. by rewrite Ht1.
Qed.

(** ** Refinement of the whole scan *)

Lemma last_app_default {A} (o1 o2 : list A) (x : A) :
  default x (last (o1 ++ o2)) = default (default x (last o1)) (last o2).
Proof. rewrite last_app. by destruct (last o2). Qed.

Lemma scan_loop_spec n s data saw_idle fuel :
  scanner_wf s → (length data ≤ n)%nat → (n < fuel)%nat →
  ∃ s', loop fuel scan_body (s, data, saw_idle) =
          Some (s', idle_after saw_idle (frun (abs s) data).2) ∧
    scanner_wf s' ∧ abs s' = erase (frun (abs s) data).1 ∧
    transaction_status s' = status_after s (frun (abs s) data).2.
Proof.
  revert s data saw_idle fuel. induction n as [n IH] using lt_wf_ind.
  intros s data saw_idle fuel Hwf Hn Hfuel. destruct fuel as [|fuel]; [lia|]. rewrite loop_S.
  destruct (decide (data = [])) as [->|Hne].
  { exists s. simpl. split_and!; try done. unfold abs. by destruct (0 <? _). }
  assert (Hcont : ∀ s1 rest idle1, iteration_ok s data saw_idle s1 rest idle1 →
    ∃ s', loop fuel scan_body (s1, rest, idle1) =
          Some (s', idle_after saw_idle (frun (abs s) data).2) ∧
    scanner_wf s' ∧ abs s' = erase (frun (abs s) data).1 ∧
    transaction_status s' = status_after s (frun (abs s) data).2).
  { intros s1 rest idle1 (Hwf1 & Hlen & d & o & st & -> & Hrun & Habs & Hst & Hid).
    destruct (IH (length rest) ltac:(lia) s1 rest idle1 fuel) as (s' & Hloop & Hwf' & Habs' & Hst');
      [done|lia|lia|].
    exists s'. rewrite frun_app, Hrun. cbn [fst snd].
    assert (Hsame : frun st rest = frun (abs s1) rest ∨ (rest = [] ∧ abs s1 = erase st)).
    { destruct Habs as [->|]; auto. }
    destruct Hsame as [->|[-> He]].
    - rewrite Hloop. split; [|split_and!; try done].
      + rewrite Hid. unfold idle_after. rewrite last_app. by destruct (last (frun _ _).2).
      + rewrite Hst'. unfold status_after. by rewrite Hst, last_app_default.
    - rewrite Hloop. simpl in *. rewrite app_nil_r. split; [by rewrite Hid|].
      split; [done|]. split; [by rewrite Habs', He; destruct st|]. by rewrite Hst'. }
  destruct (decide (0 < remaining_skip s)) as [Hpos|Hz].
  - destruct (scan_body_skip s data saw_idle Hwf Hne Hpos) as (s1 & rest & -> & Hit). eauto.
  - destruct (scan_body_header s data saw_idle Hwf Hne) as
      [(s1 & -> & Hwf1 & Hrun & Hst)|(s1 & rest & idle1 & -> & Hit)]; [|eauto..].
    { destruct Hwf. lia. }
    exists s1. rewrite Hrun. simpl. split_and!; try done. unfold abs. by destruct (0 <? _).
Qed.

Lemma scan_spec s data :
  scanner_wf s →
  ∃ s', scan s data = Some (s', idle_after false (frun (abs s) data).2) ∧
    scanner_wf s' ∧ abs s' = erase (frun (abs s) data).1 ∧
    transaction_status s' = status_after s (frun (abs s) data).2.
Proof. intros Hwf. apply (scan_loop_spec (length data)); [done|lia|lia]. Qed.

Lemma scanner_new_wf : scanner_wf scanner_new.
Proof. constructor; simpl; lia. Qed.
#[export] Hint Resolve scanner_new_wf : pgmux.

(** ** Chunking *)

Lemma fstep_erase st b : erase (fstep (erase st) b).1 = erase (fstep st b).1.
Proof.
  destruct st as [h|n rfq]; [done|]. simpl. by case_decide.
Qed.

(** Framing does not depend on knowing that a payload is a status byte. *)
Lemma frun_erase st d : erase (frun (erase st) d).1 = erase (frun st d).1.
Proof.
  revert st. induction d as [|b d IH]; intros st; [by destruct st|]. cbn [frun].
  destruct (fstep st b) as [st1 o1] eqn:E1, (fstep (erase st) b) as [st2 o2] eqn:E2.
  pose proof (fstep_erase st b) as He. rewrite E1, E2 in He. cbn [fst] in He.
  pose proof (IH st1) as H1. pose proof (IH st2) as H2.
  destruct (frun st1 d), (frun st2 d); cbn [fst] in *. by rewrite <-H2, He, H1.
Qed.

(** The automaton is about to read the status byte of a ReadyForQuery. *)
Definition at_status (st : fstate) : bool :=
  match st with Pay _ rfq => rfq | Hdr _ => false end.

(** A ReadyForQuery has one status byte. *)
Definition status_wf (st : fstate) : Prop :=
  match st with Pay n true => n = 1 | _ => True end.

Lemma frun_status_wf st d : status_wf st → status_wf (frun st d).1.
Proof.
  revert st. induction d as [|b d IH]; intros st Hst; [done|]. cbn [frun].
  assert (H1 : status_wf (fstep st b).1).
  { destruct st as [h|n rfq]; simpl.
    - destruct h as [|t [|b0 [|b1 [|b2 [|]]]]]; simpl; try done. unfold after_header.
      case_decide; [done|]. simpl. by destruct (bool_decide_reflect (t = "Z"%byte ∧ Z.max 0 (frame_len b0 b1 b2 b - 4) = 1)); [naive_solver|].
    - case_decide; [done|]. destruct rfq; simpl in *; [lia|done]. }
  destruct (fstep st b) as [st1 o1]. specialize (IH st1 H1). by destruct (frun st1 d).
Qed.

(** What is lost with the knowledge that a payload is a status byte. *)
Lemma frun_erase_reports st d :
  status_wf st → (frun (erase st) d).2 = (if at_status st then drop 1 else id) (frun st d).2.
Proof.
  destruct st as [h|n []]; [done| |done]. intros ->. destruct d as [|b d]; [done|]. simpl.
  by destruct (frun (Hdr []) d).
Qed.

(** No read ends between the header and the status byte of a ReadyForQuery. *)
Fixpoint clean_cuts (st : fstate) (chunks : list bytes) : bool :=
  match chunks with
  | [] | [_] => true
  | c :: cs => negb (at_status (frun st c).1) && clean_cuts (frun st c).1 cs
  end.

Lemma erase_not_at_status st : at_status st = false → erase st = st.
Proof. destruct st as [|? []]; simpl; done. Qed.

Lemma abs_not_at_status s : at_status (abs s) = false.
Proof. unfold abs. by destruct (0 <? _). Qed.

Lemma scan_all_spec chunks s :
  scanner_wf s →
  ∃ s', scan_all s chunks = Some s' ∧ scanner_wf s' ∧
    abs s' = erase (frun (abs s) (concat chunks)).1 ∧
    (clean_cuts (abs s) chunks = true →
     transaction_status s' = status_after s (frun (abs s) (concat chunks)).2).
Proof.
  revert s. induction chunks as [|c cs IH]; intros s Hwf; cbn [scan_all concat].
  { exists s. split_and!; try done. simpl. by rewrite erase_not_at_status by apply abs_not_at_status. }
  destruct (scan_spec s c Hwf) as (s1 & -> & Hwf1 & Habs1 & Hst1).
  destruct (IH s1 Hwf1) as (s2 & -> & Hwf2 & Habs2 & Hst2).
  exists s2. split_and!; try done; rewrite frun_app; cbn [fst snd].
  - by rewrite Habs2, Habs1, frun_erase.
  - intros Hclean. destruct cs as [|c' cs].
    { rewrite (Hst2 eq_refl). simpl. by rewrite app_nil_r. }
    cbn [clean_cuts] in Hclean. apply andb_true_iff in Hclean as [Hat Hclean].
    apply negb_true_iff, erase_not_at_status in Hat. rewrite Hat in Habs1.
    rewrite Habs1 in Hst2. rewrite (Hst2 Hclean). unfold status_after.
    by rewrite Hst1, last_app_default.
Qed.

(** ** Streams of messages *)

(** The status a message reports: the byte of a one-byte ReadyForQuery. *)
Definition rfq_status (m : PgMessage) : list byte :=
  if decide (msg_type m = "Z"%byte) then
    match payload m with [b] => [b] | _ => [] end
  else [].

(** The bytes of a message sequence on the wire. *)
Definition wire_all (ms : list PgMessage) : bytes := ms ≫= wire.
(** The statuses of its ReadyForQuery messages. *)
Definition statuses (ms : list PgMessage) : list byte := ms ≫= rfq_status.

Definition msg_i32 (m : PgMessage) : Prop := len (payload m) + 4 < 2^31.

Lemma frun_wire m : msg_i32 m → frun (Hdr []) (wire m) = (Hdr [], rfq_status m).
Proof.
  destruct m as [t p]. unfold msg_i32, wire, frame, rfq_status; cbn [msg_type payload]. intros Hm.
  destruct (length_word (len p)) as (b0 & b1 & b2 & b3 & -> & Hl); [apply len_nonneg|lia|].
  rewrite (assoc_L (++)), frun_app, (frun_hdr_full _ _ t b0 b1 b2 b3) by done. cbn [fst snd app].
  unfold after_header. rewrite Hl. replace (Z.max 0 (len p + 4 - 4)) with (len p).
  2:{ pose proof (len_nonneg p). lia. }
  case_decide as Hp.
  - destruct p; [|len_lia]. simpl. by case_decide.
  - assert (p ≠ []) by (by intros ->). rewrite frun_pay_exact by done. f_equal.
    destruct (decide (t = "Z"%byte)) as [->|Ht].
    + destruct p as [|b [|b' p]]; [done|done|]. rewrite bool_decide_false; [done|].
      intros [_ H1]. len_lia.
    + by rewrite bool_decide_false by naive_solver.
Qed.

Lemma frun_wire_all ms :
  Forall msg_i32 ms → frun (Hdr []) (wire_all ms) = (Hdr [], statuses ms).
Proof.
  induction 1 as [|m ms Hm _ IH]; [done|].
  change (wire_all (m :: ms)) with (wire m ++ wire_all ms).
  rewrite frun_app, frun_wire by done. cbn [fst snd]. by rewrite IH.
Qed.

Lemma scan_body_decreases st st' :
  scan_body st = Continue st' →
  (2 * length st'.1.2 + (if decide (5 ≤ header_len st'.1.1)%nat then 1 else 0) <
   2 * length st.1.2 + (if decide (5 ≤ header_len st.1.1)%nat then 1 else 0))%nat.
Proof.
  destruct st as [[s data] idle]. unfold scan_body. case_decide as Hne; [done|].
  assert (Hd : (0 < length data)%nat) by (destruct data; [done|simpl; lia]).
  assert (Hfin : ∀ s data, (length (finish_header s data idle).1.2 ≤ length data)%nat ∧
    header_len (finish_header s data idle).1.1 = O).
  { intros s1 d1. unfold finish_header; cbv zeta. case_decide; [|done]. destruct d1; simpl; lia. }
  destruct (0 <? remaining_skip s) eqn:E.
  { intros [= <-]. cbn [fst snd header_len]. apply Z.ltb_lt in E. rewrite length_drop.
    unfold len. case_decide; lia. }
  case_decide as Hl.
  - destruct (fill_header s data) as [s1 d1] eqn:Hf. case_decide as Hl1; [done|].
    injection 1 as <-. destruct (Hfin s1 d1) as [Hlen ->].
    unfold fill_header in Hf. injection Hf as <- <-. cbn [fst snd header_len] in *.
    rewrite length_drop in Hlen. simpl. case_decide; lia.
  - injection 1 as <-. destruct (Hfin s data) as [Hlen ->]. cbn [fst snd]. simpl.
    case_decide; lia.
Qed.

(** ** Properties *)

(** C11. The scanner against the framing automaton, call by call.  A new scanner
    that has been given any sequence of reads, and is then given one more,
    returns; the automaton, run over all the bytes at once, is in the framing
    state [st] when that last read begins.  The scanner keeps the automaton's
    framing position; it takes its status from the last ReadyForQuery whose
    status byte is [reported], and returns true exactly when that one is idle.
    [reported] are the status bytes in the read, except that when the
    previous read ended just after the header of a ReadyForQuery, its status
    byte, the first of this read, is not reported but skipped like any
    payload. *)
Theorem scan_refines (reads : list bytes) (data : bytes) :
  let st := (frun (Hdr []) (concat reads)).1 in
  let reported := (if at_status st then drop 1 else id) (frun st data).2 in
  ∃ s s' saw_idle,
    scan_all scanner_new reads = Some s ∧ abs s = erase st
    ∧ scan s data = Some (s', saw_idle) ∧ abs s' = erase (frun st data).1
    ∧ transaction_status s' = default (transaction_status s) (last reported)
    ∧ saw_idle = bool_decide (last reported = Some "I"%byte).
Proof.
  intros st reported.
  destruct (scan_all_spec reads scanner_new scanner_new_wf) as (s & Hs & Hwf & Habs & _).
  change (abs scanner_new) with (Hdr []) in Habs. fold st in Habs.
  assert (Hrep : (frun (abs s) data).2 = reported).
  { rewrite Habs. apply frun_erase_reports. apply frun_status_wf. by simpl. }
  destruct (scan_spec s data Hwf) as (s' & Hs' & _ & Habs' & Hst). rewrite Hrep in Hs', Hst.
  exists s, s', (idle_after false reported). split_and!; try done.
  - by rewrite Habs', Habs, frun_erase.
  - unfold idle_after. destruct (last reported) as [b|]; [|done]. apply bool_decide_ext. naive_solver.
Qed.

(** Every call of [scan] terminates, in any scanner state, well formed or
    not: an iteration consumes input or empties a full header buffer. *)
Lemma scan_terminates (s : MessageBoundaryScanner) (data : bytes) : is_Some (scan s data).
Proof.
  unfold scan. apply (loop_total _ _ scan_body_decreases). cbn [fst snd]. case_decide; lia.
Qed.

(** C23. The scanner against the message stream, however TCP cuts it: for any
    sequence of messages and any sequence of reads that deliver their bytes, no
    read ending between a ReadyForQuery header and its status byte, a fresh
    scanner ends at a message boundary, with the status of the last
    ReadyForQuery message (idle if there was none).  No byte pattern inside a
    payload is ever taken for a message. *)
Theorem scan_stream (ms : list PgMessage) (chunks : list bytes) :
  Forall (λ m, len (payload m) + 4 < 2^31) ms →
  concat chunks = wire_all ms →
  clean_cuts (Hdr []) chunks = true →
  ∃ s, scan_all scanner_new chunks = Some s ∧
    remaining_skip s = 0 ∧ header_len s = O ∧
    transaction_status s = default "I"%byte (last (statuses ms)).
Proof.
  intros Hms Hcat Hclean.
  destruct (scan_all_spec chunks scanner_new scanner_new_wf) as (s & Hs & Hwf & Habs & Hst).
  change (abs scanner_new) with (Hdr []) in *. specialize (Hst Hclean).
  rewrite Hcat, (frun_wire_all ms Hms) in Habs, Hst. cbn [fst snd erase] in *.
  exists s. split; [done|].
  unfold abs in Habs. destruct (0 <? remaining_skip s) eqn:E; [done|]. injection Habs as Hnil.
  destruct Hwf. apply Z.ltb_ge in E. split; [lia|]. split; [|done].
  apply (f_equal length) in Hnil. rewrite length_take in Hnil. simpl in Hnil. lia.
Qed.

(** Framing survives every cut: whatever the reads are, scanning them one
    by one leaves the scanner at the same position in the message structure
    (same partial header, same bytes to skip) as scanning all bytes at once. *)
Theorem scan_framing_chunk_independent (s : MessageBoundaryScanner) (chunks : list bytes) :
  scanner_wf s →
  ∃ s1 s2 b, scan_all s chunks = Some s1 ∧ scan s (concat chunks) = Some (s2, b) ∧
    remaining_skip s1 = remaining_skip s2 ∧ header_len s1 = header_len s2 ∧
    take (header_len s1) (header_buf s1) = take (header_len s2) (header_buf s2).
Proof.
  intros Hwf.
  destruct (scan_all_spec chunks s Hwf) as (s1 & H1 & Hwf1 & Habs1 & _).
  destruct (scan_spec s (concat chunks) Hwf) as (s2 & H2 & Hwf2 & Habs2 & _).
  rewrite <-Habs2 in Habs1. exists s1, s2. eexists. split; [done|]. split; [done|].
  unfold abs in Habs1. destruct Hwf1 as [? ? ? X1], Hwf2 as [? ? ? X2].
  destruct (0 <? remaining_skip s1) eqn:E1, (0 <? remaining_skip s2) eqn:E2; try done;
    rewrite ?Z.ltb_lt, ?Z.ltb_ge in *; injection Habs1 as Heq.
  - by rewrite X1, X2.
  - split; [lia|]. pose proof (f_equal length Heq) as Hl. rewrite !length_take in Hl.
    split; [lia|done].
Qed.

(** The status of a ReadyForQuery is lost when a read ends between its
    header and its status byte: the two reads leave the status unchanged and
    report no idle boundary, while the same bytes in one read set the status.
    (The design document claims that split ReadyForQuery messages are
    handled.) *)
Theorem scan_split_status_lost (status : byte) :
  ∃ s1 s2 s3 i3,
    scan scanner_new ["Z"%byte; x00; x00; x00; x05] = Some (s1, false) ∧
    scan s1 [status] = Some (s2, false) ∧
    transaction_status s2 = "I"%byte ∧
    scan scanner_new (build_ready_for_query status) = Some (s3, i3) ∧
    transaction_status s3 = status ∧ i3 = bool_decide (status = "I"%byte).
Proof. do 4 eexists. split_and!; reflexivity. Qed.

Lemma scan_stream_witness :
  let ms := [mk_PgMessage "D"%byte ["Z"%byte; x00]; mk_PgMessage "Z"%byte ["T"%byte]] in
  ∃ s, scan_all scanner_new [["D"%byte; x00; x00]; [x00; x06; "Z"%byte]; [x00; "Z"%byte; x00];
                             [x00; x00; x05; "T"%byte]] = Some s ∧
    remaining_skip s = 0 ∧ header_len s = O ∧ transaction_status s = "T"%byte.
Proof.
  apply (scan_stream [mk_PgMessage "D"%byte ["Z"%byte; x00]; mk_PgMessage "Z"%byte ["T"%byte]]).
  - repeat constructor.
  - vm_compute. reflexivity.
  - vm_compute. reflexivity.
Defined.

Lemma scan_framing_chunk_independent_witness :
  ∃ s1 s2 b, scan_all scanner_new [["Z"%byte; x00; x00; x00; x05]; ["I"%byte; "D"%byte]] = Some s1 ∧
    scan scanner_new ["Z"%byte; x00; x00; x00; x05; "I"%byte; "D"%byte] = Some (s2, b) ∧
    remaining_skip s1 = remaining_skip s2 ∧ header_len s1 = header_len s2 ∧
    take (header_len s1) (header_buf s1) = take (header_len s2) (header_buf s2).
Proof.
  apply (scan_framing_chunk_independent scanner_new
           [["Z"%byte; x00; x00; x00; x05]; ["I"%byte; "D"%byte]]).
  apply scanner_new_wf.
Defined.
