(* ===== verification/Config.v ===== *)
(** * Configuration (src/config.rs)

    The configuration records with their defaults, [Config::load] with its
    file, command-line and environment layers, and [parse_size_limit].  The
    file system and the process environment are fields of [LoadEnv], as is the
    [toml] crate's parser, which is third-party code. *)

From S2P Require Import Prelude RustStr.

Record PoolConfig := mk_PoolConfig {
  max_connections_per_pool : Z;
  max_total_connections : Z;
  acquire_timeout_ms : Z;
  idle_timeout_secs : Z;
  health_check_interval_secs : Z;
  max_queue_size : Z;
  max_connection_lifetime_secs : Z
}.

Record TlsConfig := mk_TlsConfig {
  tls_enabled : bool;
  cert_path : str;
  key_path : str;
  require_tls : bool;
  upstream_tls : bool;
  upstream_tls_accept_invalid : bool
}.

Record MonitorConfig := mk_MonitorConfig {
  check_interval_secs : Z;
  default_max_db_size_bytes : Z;
  allow_shrink_operations_when_overlimit : bool
}.

Record Config := mk_Config {
  listen_addr : str;
  admin_listen_addr : str;
  upstream_host : str;
  upstream_port : Z;
  cfg_pool : PoolConfig;
  cfg_tls : TlsConfig;
  cfg_monitor : MonitorConfig
}.

Definition TlsConfig_default : TlsConfig := mk_TlsConfig false [] [] false true false.
Definition PoolConfig_default : PoolConfig := mk_PoolConfig 20 500 5000 300 30 1000 3600.
Definition MonitorConfig_default : MonitorConfig := mk_MonitorConfig 60 0 true.
Definition Config_default : Config :=
  mk_Config (lit "0.0.0.0:5433") (lit "0.0.0.0:9090") (lit "localhost") 5432
    PoolConfig_default TlsConfig_default MonitorConfig_default.

(** What [Config::load] reads from outside the program. *)
Record LoadEnv := mk_LoadEnv {
  path_exists : str → bool;
  read_to_string : str → outcome str;
  toml_from_str : str → outcome Config;
  env_var : str → option str
}.

(** [.with_context(..)?]: the context replaces the displayed message. *)
Definition with_context {A} (m : outcome A) (ctx : str) : outcome A :=
  match m with Err _ => Err (Bail ctx) | _ => m end.

Definition with_listen_addr (c : Config) (v : str) : Config :=
  mk_Config v (admin_listen_addr c) (upstream_host c) (upstream_port c)
    (cfg_pool c) (cfg_tls c) (cfg_monitor c).
Definition with_admin_listen_addr (c : Config) (v : str) : Config :=
  mk_Config (listen_addr c) v (upstream_host c) (upstream_port c)
    (cfg_pool c) (cfg_tls c) (cfg_monitor c).
Definition with_upstream_host (c : Config) (v : str) : Config :=
  mk_Config (listen_addr c) (admin_listen_addr c) v (upstream_port c)
    (cfg_pool c) (cfg_tls c) (cfg_monitor c).
Definition with_upstream_port (c : Config) (p : Z) : Config :=
  mk_Config (listen_addr c) (admin_listen_addr c) (upstream_host c) p
    (cfg_pool c) (cfg_tls c) (cfg_monitor c).
Definition with_tls (c : Config) (t : TlsConfig) : Config :=
  mk_Config (listen_addr c) (admin_listen_addr c) (upstream_host c) (upstream_port c)
    (cfg_pool c) t (cfg_monitor c).
Definition tls_with_cert (t : TlsConfig) (v : str) : TlsConfig :=
  mk_TlsConfig true v (key_path t) (require_tls t) (upstream_tls t) (upstream_tls_accept_invalid t).
Definition tls_with_key (t : TlsConfig) (v : str) : TlsConfig :=
  mk_TlsConfig (tls_enabled t) (cert_path t) v (require_tls t) (upstream_tls t)
    (upstream_tls_accept_invalid t).
Definition tls_with_upstream (t : TlsConfig) (b : bool) : TlsConfig :=
  mk_TlsConfig (tls_enabled t) (cert_path t) (key_path t) (require_tls t) b
    (upstream_tls_accept_invalid t).

(** [if let Some(v) = o { cfg = f(cfg, v) }]. *)
Definition if_some {A} (o : option A) (f : Config → A → Config) (c : Config) : Config :=
  match o with Some v => f c v | None => c end.

(** The value of PG_MUX_UPSTREAM_TLS. *)
Definition upstream_tls_value (v : str) : bool :=
  default (bool_decide (v = lit "1") || eq_ignore_ascii_case v (lit "true")) (parse_bool v).

(** The command-line overrides. *)
Definition apply_cli (listen admin : option str) (c : Config) : Config :=
  let c := if_some listen with_listen_addr c in
  if_some admin with_admin_listen_addr c.

(** The environment overrides. *)
Definition apply_env (var : str → option str) (c : Config) : Config :=
  let c := if_some (var (lit "PG_MUX_LISTEN")) with_listen_addr c in
  let c := if_some (var (lit "PG_MUX_ADMIN_LISTEN")) with_admin_listen_addr c in
  let c := if_some (var (lit "PG_MUX_UPSTREAM_HOST")) with_upstream_host c in
  let c := if_some (var (lit "PG_MUX_UPSTREAM_PORT"))
             (λ c v, if_some (parse_uint 16 v) with_upstream_port c) c in
  let c := if_some (var (lit "PG_MUX_TLS_CERT"))
             (λ c v, with_tls c (tls_with_cert (cfg_tls c) v)) c in
  let c := if_some (var (lit "PG_MUX_TLS_KEY"))
             (λ c v, with_tls c (tls_with_key (cfg_tls c) v)) c in
  if_some (var (lit "PG_MUX_UPSTREAM_TLS"))
    (λ c v, with_tls c (tls_with_upstream (cfg_tls c) (upstream_tls_value v))) c.

(** [Config::load]. *)
Definition load (e : LoadEnv) (path : str) (listen_override admin_override : option str)
    : outcome Config :=
  cfg ← (if path_exists e path then
           contents ← with_context (read_to_string e path) (lit "Reading config " ++ path);
           with_context (toml_from_str e contents) (lit "Parsing config " ++ path)
         else Ok Config_default);
  Ok (apply_env (env_var e) (apply_cli listen_override admin_override cfg)).

(** ** Size limits *)

(** Whether the build checks arithmetic for overflow: [cargo build] does, the
    release profile of Cargo.toml does not. *)
Class BuildProfile := { overflow_checks : bool }.
Definition release_profile : BuildProfile := {| overflow_checks := false |}.
Definition dev_profile : BuildProfile := {| overflow_checks := true |}.

(** [a * b] on [u64]. *)
Definition mul_u64 `{BuildProfile} (a b : Z) : outcome Z :=
  if a * b <? 2^64 then Ok (a * b)
  else if overflow_checks then Panic else Ok (u64_wrap (a * b)).

(** The split of the text into number and unit; the slice is by bytes. *)
Definition split_unit `{UnicodeUpper} (s : str) : outcome (str * Z) :=
  let s_upper := to_uppercase s in
  let cut m := n ← unwrap (str_slice_to s (str_len s - 2)); Ok (n, m) in
  if ends_with s_upper (lit "TB") then cut (1024 * 1024 * 1024 * 1024)
  else if ends_with s_upper (lit "GB") then cut (1024 * 1024 * 1024)
  else if ends_with s_upper (lit "MB") then cut (1024 * 1024)
  else if ends_with s_upper (lit "KB") then cut 1024
  else Ok (s, 1).

(** [parse_size_limit]. *)
Definition parse_size_limit `{UnicodeUpper, BuildProfile} (s : str) : outcome (option Z) :=
  let s := trim s in
  if decide (s = [] ∨ s = lit "0") then Ok None else
  '(num_str, multiplier) ← split_unit s;
  match parse_uint 64 (trim num_str) with
  | None => Ok None
  | Some n => v ← mul_u64 n multiplier; Ok (Some v)
  end.

(** ** [split_unit] read off the last two characters *)

(** The multiplier of a unit letter, in either case. *)
Definition unit_multiplier (c : Z) : option Z :=
  let u := ascii_upper c in
  if u =? 84 then Some (1024 * 1024 * 1024 * 1024)
  else if u =? 71 then Some (1024 * 1024 * 1024)
  else if u =? 77 then Some (1024 * 1024)
  else if u =? 75 then Some 1024
  else None.

(** A ligature before the B: the text "ends in TB" but its last two bytes cut
    the ligature. *)
Definition split_unit_spec (s : str) : outcome (str * Z) :=
  match reverse s with
  | c2 :: c1 :: r =>
      if ascii_upper c2 =? 66 then
        if st_ligature c1 then Panic
        else match unit_multiplier c1 with
             | Some m => Ok (reverse r, m)
             | None => Ok (s, 1)
             end
      else Ok (s, 1)
  | _ => Ok (s, 1)
  end.

Lemma ascii_letter_len c a : ascii_upper c = a → a < 128 → len_utf8 c = 1.
Proof.
  intros <- Ha. unfold len_utf8. destruct (c <? 128) eqn:E; [done|].
  rewrite ascii_upper_big in Ha by lia. lia.
Qed.

(** The slice before two ASCII characters. *)
Lemma cut_two s c1 c2 :
  len_utf8 c1 = 1 → len_utf8 c2 = 1 →
  str_slice_to (s ++ [c1; c2]) (str_len (s ++ [c1; c2]) - 2) = Some s.
Proof.
  intros H1 H2. rewrite str_len_app. simpl. rewrite H1, H2.
  replace (str_len s + (1 + (1 + 0)) - 2) with (str_len s + 0) by lia.
  rewrite str_slice_to_app by lia. simpl. by rewrite app_nil_r.
Qed.

(** The slice that cuts a three-byte character. *)
Lemma cut_inside s c1 c2 :
  len_utf8 c1 = 3 → len_utf8 c2 = 1 →
  str_slice_to (s ++ [c1; c2]) (str_len (s ++ [c1; c2]) - 2) = None.
Proof.
  intros H1 H2. rewrite str_len_app. simpl. rewrite H1, H2.
  replace (str_len s + (3 + (1 + 0)) - 2) with (str_len s + 2) by lia.
  rewrite str_slice_to_app by lia. simpl. by rewrite H1.
Qed.

Lemma split_unit_eq `{UnicodeUpper} s : split_unit s = split_unit_spec s.
Proof.
  unfold split_unit, split_unit_spec. cbv zeta.
  change (lit "TB") with [84; 66]. change (lit "GB") with [71; 66].
  change (lit "MB") with [77; 66]. change (lit "KB") with [75; 66].
  rewrite !ends_with_unit by set_solver. unfold ends_in_unit.
  destruct (reverse s) as [|c2 [|c1 r]] eqn:Hr; [done..|].
  assert (s = reverse r ++ [c1; c2]) as ->.
  { rewrite <-(reverse_involutive s), Hr, !reverse_cons. by rewrite <-(assoc_L (++)). }
  destruct (ascii_upper c2 =? 66) eqn:H2; [|done]. cbn [andb].
  apply Z.eqb_eq in H2. pose proof (ascii_letter_len c2 66 H2 ltac:(lia)) as L2.
  unfold upper_ends_in. cbn [Z.eqb Pos.eqb andb]. rewrite !orb_false_r.
  destruct (st_ligature c1) eqn:Hst.
  { rewrite orb_true_r, cut_inside; [done| |done].
    unfold st_ligature, in_range in Hst. unfold len_utf8.
    by replace (c1 <? 128) with false by lia; replace (c1 <? 2048) with false by lia;
       replace (c1 <? 65536) with true by lia. }
  rewrite orb_false_r. unfold unit_multiplier. cbv zeta.
  repeat match goal with
  | |- context [ascii_upper c1 =? ?a] => destruct (ascii_upper c1 =? a) eqn:?
  end; try done;
    rewrite cut_two; try done;
    match goal with H : (ascii_upper c1 =? ?a) = true |- _ =>
      by apply (ascii_letter_len c1 a); lia end.
Qed.

Lemma ascii_upper_letter c a : ascii_upper c = a → 65 ≤ a ≤ 90 → 65 ≤ c ≤ 122.
Proof. unfold ascii_upper, in_range. intros <-. destruct ((97 <=? c) && (c <=? 122)) eqn:?; lia. Qed.

Lemma unit_multiplier_Some c m : unit_multiplier c = Some m → 65 ≤ c ≤ 122 ∧ 1 ≤ m.
Proof.
  unfold unit_multiplier. cbv zeta. intros Hm.
  assert (65 ≤ ascii_upper c ≤ 90 ∧ 1 ≤ m) as [Ha ?] by (repeat case_match; simplify_eq; lia).
  split; [|done]. by eapply ascii_upper_letter.
Qed.

Lemma letter_not_ws c : 48 ≤ c ≤ 122 → is_whitespace c = false.
Proof. unfold is_whitespace, in_range. lia. Qed.

Lemma fmt_uint_no_ws n : Forall (λ c, is_whitespace c = false) (fmt_uint n).
Proof.
  eapply Forall_impl; [apply fmt_uint_digits|]. intros c Hc. apply letter_not_ws. simpl in Hc. lia.
Qed.

(** A number alone has no unit. *)
Lemma split_unit_spec_digits s :
  Forall (λ c, 48 ≤ c ≤ 57) s → split_unit_spec s = Ok (s, 1).
Proof.
  intros Hs%Forall_reverse. unfold split_unit_spec.
  destruct (reverse s) as [|d2 [|d1 r]]; [done..|]. inversion Hs; subst.
  destruct (ascii_upper d2 =? 66) eqn:E; [|done]. apply Z.eqb_eq, ascii_upper_letter in E; lia.
Qed.

(** A number with a unit. *)
Lemma split_unit_spec_unit s c1 c2 m :
  unit_multiplier c1 = Some m → ascii_upper c2 = 66 →
  split_unit_spec (s ++ [c1; c2]) = Ok (s, m).
Proof.
  intros Hm HB. unfold split_unit_spec. rewrite reverse_app.
  change (reverse [c1; c2]) with [c2; c1]. cbn [app]. rewrite HB, Hm, Z.eqb_refl.
  apply unit_multiplier_Some in Hm as [Hc _].
  replace (st_ligature c1) with false by (unfold st_ligature, in_range; lia).
  by rewrite reverse_involutive.
Qed.

Lemma fmt_uint_not_zero n : 0 < n < 2^64 → fmt_uint n ≠ lit "0".
Proof.
  intros Hn Hz. pose proof (parse_fmt_uint 64 n ltac:(lia)) as Hp. rewrite Hz in Hp.
  vm_compute in Hp. simplify_eq. lia.
Qed.

(** From the split to the result. *)
Lemma parse_size_limit_split `{UnicodeUpper, BuildProfile} s n m :
  trim s = s → s ≠ [] → s ≠ lit "0" → split_unit_spec s = Ok (fmt_uint n, m) →
  0 ≤ n < 2^64 → n * m < 2^64 → parse_size_limit s = Ok (Some (n * m)).
Proof.
  intros Ht Hne Hz Hs Hn Hfit. unfold parse_size_limit. rewrite Ht.
  rewrite decide_False by tauto. rewrite split_unit_eq, Hs. cbn [mbind outcome_bind].
  rewrite (trim_id _ (fmt_uint_no_ws n)), parse_fmt_uint by done.
  unfold mul_u64. by rewrite (proj2 (Z.ltb_lt _ _)).
Qed.

(** ** Properties *)

(** C40. What [parse_size_limit] accepts: a decimal number that fits a [u64]
    followed by KB, MB, GB or TB in any mix of case is read as the product with
    the unit, and a positive number alone as itself, on every build profile and
    whatever the Unicode tables, as long as the product fits a [u64]. *)
Theorem parse_size_limit_units `{UnicodeUpper, BuildProfile} (n c1 c2 m : Z) :
  0 ≤ n → n * m < 2^64 → unit_multiplier c1 = Some m → ascii_upper c2 = 66 →
  parse_size_limit (fmt_uint n ++ [c1; c2]) = Ok (Some (n * m)) ∧
  (0 < n → parse_size_limit (fmt_uint n) = Ok (Some n)).
Proof.
  intros Hn Hfit Hm HB. pose proof (unit_multiplier_Some _ _ Hm) as [Hc1 Hm1].
  pose proof (ascii_upper_letter _ _ HB ltac:(lia)) as Hc2.
  pose proof (fmt_uint_no_ws n) as Hws. pose proof (fmt_uint_nonempty n) as Hne.
  assert (Hn64 : n < 2^64) by nia. split.
  - apply parse_size_limit_split; try done.
    + apply trim_id, Forall_app. split; [done|]. repeat constructor; apply letter_not_ws; lia.
    + by destruct (fmt_uint n).
    + destruct (fmt_uint n) as [|d [|]]; by simpl.
    + by apply split_unit_spec_unit.
  - intros Hpos. rewrite <-(Z.mul_1_r n) at 2.
    apply parse_size_limit_split; try done; try lia.
    + by apply trim_id.
    + by apply fmt_uint_not_zero.
    + apply split_unit_spec_digits, fmt_uint_digits.
Qed.

Lemma parse_size_limit_units_witness :
  @parse_size_limit upper_id release_profile (lit "5gB") = Ok (Some (5 * (1024 * 1024 * 1024))).
Proof.
  apply (@parse_size_limit_units upper_id release_profile 5 103 66 (1024 * 1024 * 1024)).
  - lia.
  - lia.
  - reflexivity.
  - reflexivity.
Defined.

(** C37. [parse_size_limit] panics exactly in two cases: the trimmed text ends
    in one of the two "st" ligatures followed by b or B (its upper case ends in
    "TB", but cutting two bytes lands inside the three-byte ligature), on every
    build; or, on a build with overflow checks, the number times its unit does
    not fit a [u64]. *)
Theorem parse_size_limit_panics_iff `{UnicodeUpper, BuildProfile} (s : str) :
  parse_size_limit s = Panic ↔
  (∃ t c1 c2, trim s = t ++ [c1; c2] ∧ st_ligature c1 = true ∧ ascii_upper c2 = 66) ∨
  (overflow_checks = true ∧ ∃ num m n, split_unit_spec (trim s) = Ok (num, m) ∧
     trim s ≠ lit "0" ∧ parse_uint 64 (trim num) = Some n ∧ 2^64 ≤ n * m).
Proof.
  unfold parse_size_limit. set (t := trim s). case_decide as Ht.
  { split; [done|]. intros [(t' & c1 & c2 & Ht' & _)|(_ & num & m & n & Hs & Hz & Hp & Hov)].
    - destruct Ht as [->| ->]; [by destruct t'|]. by destruct t' as [|? [|]].
    - destruct Ht as [->|]; [|done]. injection Hs as <- <-. done. }
  rewrite split_unit_eq. split.
  - destruct (split_unit_spec t) as [[num m]| |] eqn:Hs; cbn [mbind outcome_bind]; [| |].
    + destruct (parse_uint 64 (trim num)) as [n|] eqn:Hp; [|done].
      unfold mul_u64. destruct (n * m <? 2^64) eqn:Hov; [done|].
      destruct overflow_checks eqn:Hoc; [|done]. intros _. right. split; [done|].
      exists num, m, n. apply Z.ltb_ge in Hov. split_and!; try done. tauto.
    + done.
    + intros _. left. unfold split_unit_spec in Hs.
      destruct (reverse t) as [|c2 [|c1 r]] eqn:Hr; [done..|].
      destruct (ascii_upper c2 =? 66) eqn:H2; [|done].
      destruct (st_ligature c1) eqn:Hst; [|by destruct (unit_multiplier c1)].
      exists (reverse r), c1, c2. split; [|split; [done|lia]].
      rewrite <-(reverse_involutive t), Hr, !reverse_cons. by rewrite <-(assoc_L (++)).
  - intros [(t' & c1 & c2 & Ht' & Hst & H2)|(Hoc & num & m & n & Hs & _ & Hp & Hov)].
    + unfold split_unit_spec. rewrite Ht', reverse_app.
      change (reverse [c1; c2]) with [c2; c1]. cbn [app]. by rewrite H2, Hst.
    + rewrite Hs. cbn [mbind outcome_bind]. rewrite Hp. unfold mul_u64.
      rewrite (proj2 (Z.ltb_ge _ _)), Hoc by done. done.
Qed.

(** A limit is silently lost on overflow: on the release profile, whatever
    the Unicode tables, 2^24 terabytes wraps around to a limit of 0 bytes,
    which the session code treats as "no limit". *)
Theorem parse_size_limit_wraps `{UnicodeUpper} :
  @parse_size_limit _ release_profile (lit "16777216TB") = Ok (Some 0) ∧
  @parse_size_limit _ dev_profile (lit "16777216TB") = Panic.
Proof.
  unfold parse_size_limit. rewrite split_unit_eq. split; vm_compute; reflexivity.
Qed.

(** The configuration a file (or its absence) provides. *)
Definition base_config (e : LoadEnv) (path : str) (base : Config) : Prop :=
  if path_exists e path
  then ∃ text, read_to_string e path = Ok text ∧ toml_from_str e text = Ok base
  else base = Config_default.

Lemma with_context_Ok {A} (m : outcome A) ctx a : with_context m ctx = Ok a ↔ m = Ok a.
Proof. by destruct m. Qed.

(** The layers of [Config::load]: when it succeeds, every setting comes
    from its environment variable if that is set (and parses, for the port),
    else from the command line (the two listen addresses), else from the file
    or the defaults; setting a certificate enables TLS; pool and monitor
    settings come from the file or the defaults alone. *)
Theorem load_precedence (e : LoadEnv) (path : str) (listen admin : option str) (cfg : Config) :
  load e path listen admin = Ok cfg →
  ∃ base, base_config e path base ∧
    listen_addr cfg = default (default (listen_addr base) listen) (env_var e (lit "PG_MUX_LISTEN")) ∧
    admin_listen_addr cfg =
      default (default (admin_listen_addr base) admin) (env_var e (lit "PG_MUX_ADMIN_LISTEN")) ∧
    upstream_host cfg = default (upstream_host base) (env_var e (lit "PG_MUX_UPSTREAM_HOST")) ∧
    upstream_port cfg =
      default (upstream_port base) (env_var e (lit "PG_MUX_UPSTREAM_PORT") ≫= parse_uint 16) ∧
    cfg_pool cfg = cfg_pool base ∧ cfg_monitor cfg = cfg_monitor base ∧
    cfg_tls cfg = mk_TlsConfig
      (bool_decide (is_Some (env_var e (lit "PG_MUX_TLS_CERT"))) || tls_enabled (cfg_tls base))
      (default (cert_path (cfg_tls base)) (env_var e (lit "PG_MUX_TLS_CERT")))
      (default (key_path (cfg_tls base)) (env_var e (lit "PG_MUX_TLS_KEY")))
      (require_tls (cfg_tls base))
      (default (upstream_tls (cfg_tls base))
         (upstream_tls_value <$> env_var e (lit "PG_MUX_UPSTREAM_TLS")))
      (upstream_tls_accept_invalid (cfg_tls base)).
Proof.
  unfold load. intros (base & Hbase & Hcfg)%bind_Ok. injection Hcfg as <-.
  exists base. split.
  { unfold base_config. destruct (path_exists e path); [|by injection Hbase as <-].
    apply bind_Ok in Hbase as (text & Hr%with_context_Ok & Ht%with_context_Ok). eauto. }
  unfold apply_env, apply_cli. cbv zeta. destruct base as [? ? ? ? ? [] ?].
  generalize (env_var e (lit "PG_MUX_LISTEN")) (env_var e (lit "PG_MUX_ADMIN_LISTEN"))
    (env_var e (lit "PG_MUX_UPSTREAM_HOST")) (env_var e (lit "PG_MUX_UPSTREAM_PORT"))
    (env_var e (lit "PG_MUX_TLS_CERT")) (env_var e (lit "PG_MUX_TLS_KEY"))
    (env_var e (lit "PG_MUX_UPSTREAM_TLS")).
  intros o1 o2 o3 o4 o5 o6 o7.
  split_and!; destruct o1, o2, o3, o4 as [pv|], o5, o6, o7, listen, admin; simpl;
    try destruct (parse_uint 16 pv); done.
Qed.

Lemma load_precedence_witness :
  let e := mk_LoadEnv (λ _, false) (λ _, Err IoError) (λ _, Err IoError)
             (λ v, if decide (v = lit "PG_MUX_UPSTREAM_PORT") then Some (lit "6000") else None) in
  ∃ cfg base, load e (lit "config.toml") (Some (lit "l")) None = Ok cfg ∧
    base_config e (lit "config.toml") base ∧ upstream_port cfg = 6000 ∧ listen_addr cfg = lit "l".
Proof.
  intros e. destruct (load e (lit "config.toml") (Some (lit "l")) None) as [cfg| |] eqn:E;
    [|discriminate..].
  destruct (load_precedence e (lit "config.toml") (Some (lit "l")) None cfg E)
    as (base & Hb & Hl & _ & _ & Hp & _).
  exists cfg, base. split; [reflexivity|]. split; [exact Hb|].
  unfold base_config in Hb; simpl in Hb. subst base. split; [rewrite Hp; reflexivity|].
  rewrite Hl. reflexivity.
Defined.

(** ** Limits are [u64] *)

Definition limit_typed (o : option Z) : Prop := ∀ n, o = Some n → is_u64 n.

Lemma parse_digits_range bound acc s n : 0 ≤ acc < bound → parse_digits bound acc s = Some n → 0 ≤ n < bound.
Proof.
  revert acc. induction s as [|c s IH]; intros acc Ha; simpl; [by intros [= <-]|].
  unfold digit, in_range. case_match; simpl; [|done]. case_match; [|done]. apply IH. lia.
Qed.

Lemma parse_size_limit_typed `{UnicodeUpper, BuildProfile} s o : parse_size_limit s = Ok o → limit_typed o.
Proof.
  unfold parse_size_limit. case_decide; [by intros [= <-] n|].
  rewrite split_unit_eq. intros H'. outcome_inv. destruct a as [num m].
  destruct (parse_uint 64 (trim num)) as [v|] eqn:E; [|by simplify_eq].
  assert (Hv : 0 ≤ v < 2^64).
  { unfold parse_uint in E. case_decide; [done|]. by eapply parse_digits_range; [|exact E]. }
  assert (Hm : 0 ≤ m).
  { unfold split_unit_spec in *. repeat case_match; simplify_eq; try lia.
    match goal with U : unit_multiplier _ = Some _ |- _ => apply unit_multiplier_Some in U; lia end. }
  outcome_inv. subst. intros n [= <-]. unfold mul_u64 in *. repeat case_match; simplify_eq;
    [unfold is_u64; split; [nia|lia]|apply u64_wrap_range].
Qed.
