(* ===== verification/Monitor.v ===== *)
(** * The database size monitor (src/monitor/mod.rs)

    [DbSizeMonitor]: known sizes, registered limits and the registry of
    sessions, each with a shared over-limit flag.  An [Arc<AtomicBool>] is an
    address in the store [flags]: the session registry and the connection
    task hold the same address, and an unregistered session's flag stays
    allocated.  The size query is answered by Postgres, outside the program,
    so the result of each query is an input. *)

From S2P Require Import Prelude RustStr Config.

Record SessionLimit := mk_SessionLimit {
  sl_database : str;
  sl_limit_bytes : Z;
  sl_over_limit : nat             (* address of the shared flag *)
}.

Record DbSizeMonitor := mk_Monitor {
  db_sizes : gmap str Z;
  db_limits : gmap str Z;
  sessions : gmap Z SessionLimit;
  flags : list bool;              (* the store of [AtomicBool]s *)
  session_id_counter : Z;         (* the static SESSION_ID_COUNTER *)
  g_db_size_bytes : gmap str Z;   (* gauge families of the metrics registry *)
  g_db_size_limit_bytes : gmap str Z;
  g_db_over_limit : gmap str Z
}.

(** [DbSizeMonitor::new] in a fresh process. *)
Definition monitor_new : DbSizeMonitor := mk_Monitor ∅ ∅ ∅ [] 1 ∅ ∅ ∅.

Definition set_sizes (m : DbSizeMonitor) (x : gmap str Z) : DbSizeMonitor :=
  mk_Monitor x (db_limits m) (sessions m) (flags m) (session_id_counter m)
    (g_db_size_bytes m) (g_db_size_limit_bytes m) (g_db_over_limit m).
Definition set_limits (m : DbSizeMonitor) (x : gmap str Z) : DbSizeMonitor :=
  mk_Monitor (db_sizes m) x (sessions m) (flags m) (session_id_counter m)
    (g_db_size_bytes m) (g_db_size_limit_bytes m) (g_db_over_limit m).
Definition set_sessions (m : DbSizeMonitor) (x : gmap Z SessionLimit) : DbSizeMonitor :=
  mk_Monitor (db_sizes m) (db_limits m) x (flags m) (session_id_counter m)
    (g_db_size_bytes m) (g_db_size_limit_bytes m) (g_db_over_limit m).
Definition set_flags (m : DbSizeMonitor) (x : list bool) : DbSizeMonitor :=
  mk_Monitor (db_sizes m) (db_limits m) (sessions m) x (session_id_counter m)
    (g_db_size_bytes m) (g_db_size_limit_bytes m) (g_db_over_limit m).
Definition set_counter (m : DbSizeMonitor) (x : Z) : DbSizeMonitor :=
  mk_Monitor (db_sizes m) (db_limits m) (sessions m) (flags m) x
    (g_db_size_bytes m) (g_db_size_limit_bytes m) (g_db_over_limit m).
Definition set_gauges (m : DbSizeMonitor) (a b c : gmap str Z) : DbSizeMonitor :=
  mk_Monitor (db_sizes m) (db_limits m) (sessions m) (flags m) (session_id_counter m) a b c.

(** ** Limits and sizes *)

Definition register_limit (m : DbSizeMonitor) (database : str) (max_bytes : Z) : DbSizeMonitor :=
  set_limits m (<[database := max_bytes]> (db_limits m)).

Definition get_db_size (m : DbSizeMonitor) (database : str) : option Z := db_sizes m !! database.

(** The default limit of the configuration, if there is one. *)
Definition default_limit (c : Config) : option Z :=
  if 0 <? default_max_db_size_bytes (cfg_monitor c)
  then Some (default_max_db_size_bytes (cfg_monitor c)) else None.

(** [Option::or]. *)
Definition option_or {A} (o d : option A) : option A :=
  match o with Some _ => o | None => d end.

Definition get_db_limit (c : Config) (m : DbSizeMonitor) (database : str) : option Z :=
  option_or (db_limits m !! database) (default_limit c).

(** ** Sessions *)

(** The initial value of a session's flag. *)
Definition initial_flag (m : DbSizeMonitor) (database : str) (limit_bytes : Z) : bool :=
  if 0 <? limit_bytes then
    match get_db_size m database with
    | Some current_size => limit_bytes <? current_size
    | None => false
    end
  else false.

(** [register_session]: the id and the address of the flag. *)
Definition register_session (m : DbSizeMonitor) (database : str) (limit_bytes : Z)
    : DbSizeMonitor * (Z * nat) :=
  let id := session_id_counter m in
  let m := set_counter m (u64_wrap (id + 1)) in
  let flag := length (flags m) in
  let m := set_flags m (flags m ++ [initial_flag m database limit_bytes]) in
  let m := set_sessions m (<[id := mk_SessionLimit database limit_bytes flag]> (sessions m)) in
  (m, (id, flag)).

Definition unregister_session (m : DbSizeMonitor) (id : Z) : DbSizeMonitor :=
  set_sessions m (delete id (sessions m)).

(** ** The periodic check *)

(** [size as f64]: the nearest integer with a 53-bit significand, ties to even. *)
Definition round_half_even (n d : Z) : Z :=
  let q := n / d in let r := n mod d in
  if 2 * r <? d then q else if d <? 2 * r then q + 1 else if Z.even q then q else q + 1.
Definition u64_as_f64 (n : Z) : Z :=
  let e := Z.log2 n - 52 in
  if e <=? 0 then n else round_half_even n (2 ^ e) * 2 ^ e.

(** The [Ok(row)] branch: [size] is the [i64] of the row. *)
Definition record_size (c : Config) (m : DbSizeMonitor) (db : str) (size : Z) : DbSizeMonitor :=
  let size := u64_wrap size in
  let m := set_sizes m (<[db := size]> (db_sizes m)) in
  let m := set_gauges m (<[db := u64_as_f64 size]> (g_db_size_bytes m))
             (g_db_size_limit_bytes m) (g_db_over_limit m) in
  match get_db_limit c m db with
  | Some limit =>
      set_gauges m (g_db_size_bytes m)
        (<[db := u64_as_f64 limit]> (g_db_size_limit_bytes m))
        (<[db := if limit <? size then 1 else 0]> (g_db_over_limit m))
  | None => m
  end.

(** One database of the check: an error of the query is only logged. *)
Definition check_one (c : Config) (m : DbSizeMonitor) (db : str) (row : option Z) : DbSizeMonitor :=
  match row with Some size => record_size c m db size | None => m end.

(** One entry of the flag pass. *)
Definition update_flag (m : DbSizeMonitor) (session : SessionLimit) : DbSizeMonitor :=
  if sl_limit_bytes session =? 0 then m else
  match db_sizes m !! sl_database session with
  | Some size =>
      set_flags m (<[sl_over_limit session := sl_limit_bytes session <? size]> (flags m))
  | None => m
  end.

(** The tracked databases, in the order of the [DashMap]'s iteration. *)
Definition tracked (m : DbSizeMonitor) : list str := (map_to_list (db_limits m)).*1.

(** ** The report *)

Record DbSizeInfo := mk_DbSizeInfo {
  dsi_database : str;
  size_bytes : option Z;
  limit_bytes : option Z;
  over_limit : bool
}.

(** [String::cmp]: lexicographic (code-point order is UTF-8 byte order). *)
Fixpoint str_leb (s t : str) : bool :=
  match s, t with
  | [], _ => true
  | _ :: _, [] => false
  | a :: s', b :: t' => if a <? b then true else if b <? a then false else str_leb s' t'
  end.
Definition info_le (a b : DbSizeInfo) : Prop := str_leb (dsi_database a) (dsi_database b) = true.
#[export] Instance info_le_dec a b : Decision (info_le a b).
Proof. unfold info_le. apply _. Defined.

Definition db_info (c : Config) (m : DbSizeMonitor) (db : str) : DbSizeInfo :=
  let size := db_sizes m !! db in
  let limit := get_db_limit c m db in
  mk_DbSizeInfo db size limit
    (match size, limit with Some s, Some l => l <? s | _, _ => false end).

Definition get_all_db_info (c : Config) (m : DbSizeMonitor) : list DbSizeInfo :=
  let databases : gset str := dom (db_sizes m) ∪ dom (db_limits m) in
  merge_sort info_le (db_info c m <$> elements databases).

(** ** [format_bytes] *)

(** [format!("{:.2}", x)] of the [f64] whose value is [num / den]. *)
Definition fmt_fixed2 (num den : Z) : str :=
  let q := round_half_even (num * 100) den in
  fmt_uint (q / 100) ++ [46] ++ [48 + (q / 10) mod 10; 48 + q mod 10].

Definition KB : Z := 1024.
Definition MB : Z := 1024 * KB.
Definition GB : Z := 1024 * MB.
Definition TB : Z := 1024 * GB.

Definition format_bytes (b : Z) : str :=
  if TB <=? b then fmt_fixed2 (u64_as_f64 b) TB ++ lit " TB"
  else if GB <=? b then fmt_fixed2 (u64_as_f64 b) GB ++ lit " GB"
  else if MB <=? b then fmt_fixed2 (u64_as_f64 b) MB ++ lit " MB"
  else if KB <=? b then fmt_fixed2 (u64_as_f64 b) KB ++ lit " KB"
  else fmt_uint b ++ lit " B".

(** ** Interleaving: the monitor task against connection tasks

    The monitor task sleeps at the connection and at every query, so
    registrations of connection tasks fall between any two of its actions.
    [phase] is where the monitor task stands in [check_all_sizes].  The list of
    databases is collected at the start; the flag pass iterates the live
    registry, so it visits every session registered when it begins and possibly
    some that register meanwhile. *)
Inductive phase :=
  | Waiting                  (* no check under way *)
  | Dialing (dbs : list str) (* awaiting tokio_postgres::connect *)
  | Sizing (dbs : list str)  (* the databases still to be measured *)
  | Flagging (ids : list Z). (* the sessions still to be visited *)

(** An order in which the flag pass visits the sessions. *)
Definition pass_over (m : DbSizeMonitor) (ids : list Z) : Prop :=
  (map_to_list (sessions m)).*1 ⊆ ids.
#[export] Instance pass_over_dec m ids : Decision (pass_over m ids).
Proof. unfold pass_over. apply _. Defined.

(** The visit of one session. *)
Definition visit (m : DbSizeMonitor) (id : Z) : DbSizeMonitor :=
  match sessions m !! id with Some s => update_flag m s | None => m end.

Inductive mstep (c : Config) : DbSizeMonitor * phase → DbSizeMonitor * phase → Prop :=
  | step_limit m p db x :
      mstep c (m, p) (register_limit m db x, p)
  | step_register m p db x :
      is_u64 x →
      (* the counter has not wrapped: fewer than 2^64 sessions so far *)
      session_id_counter m + 1 < 2^64 →
      mstep c (m, p) ((register_session m db x).1, p)
  | step_unregister m p id :
      mstep c (m, p) (unregister_session m id, p)
  | step_begin m dbs :
      dbs ≡ₚ tracked m → dbs ≠ [] → mstep c (m, Waiting) (m, Dialing dbs)
  | step_connected m dbs :
      mstep c (m, Dialing dbs) (m, Sizing dbs)
  | step_failed m dbs :
      mstep c (m, Dialing dbs) (m, Waiting)
  | step_size m db rest row :
      mstep c (m, Sizing (db :: rest)) (check_one c m db row, Sizing rest)
  | step_flags m ids :
      pass_over m ids → mstep c (m, Sizing []) (m, Flagging ids)
  | step_flag m id rest :
      mstep c (m, Flagging (id :: rest)) (visit m id, Flagging rest)
  | step_done m :
      mstep c (m, Flagging []) (m, Waiting).

Definition mreach (c : Config) (m : DbSizeMonitor) (p : phase) : Prop :=
  rtc (mstep c) (monitor_new, Waiting) (m, p).

(** ** Invariant *)

Record mon_inv (m : DbSizeMonitor) : Prop := {
  inv_counter : 0 < session_id_counter m < 2^64;
  inv_id : ∀ id s, sessions m !! id = Some s → 0 < id < session_id_counter m;
  inv_addr : ∀ id s, sessions m !! id = Some s → (sl_over_limit s < length (flags m))%nat;
  inv_inj : ∀ i j si sj, sessions m !! i = Some si → sessions m !! j = Some sj →
    sl_over_limit si = sl_over_limit sj → i = j;
  inv_nolimit : ∀ id s, sessions m !! id = Some s → sl_limit_bytes s = 0 →
    flags m !! sl_over_limit s = Some false;
  inv_flagged : ∀ id s, sessions m !! id = Some s → flags m !! sl_over_limit s = Some true →
    is_Some (db_sizes m !! sl_database s);
  inv_sizes : ∀ db, is_Some (db_sizes m !! db) → is_Some (db_limits m !! db)
}.

Lemma monitor_new_inv : mon_inv monitor_new.
Proof.
  constructor; simpl; try lia; intros *; rewrite ?lookup_empty; try done.
Qed.

Lemma register_limit_inv m db x : mon_inv m → mon_inv (register_limit m db x).
Proof.
  intros [Hc Hi Ha Hj Hn Hf Hs]. constructor; simpl; eauto.
  intros db' Hdb. apply Hs in Hdb. rewrite lookup_insert. by case_decide.
Qed.

Lemma initial_flag_cases m db x :
  initial_flag m db x = true →
  0 < x ∧ ∃ size, db_sizes m !! db = Some size ∧ x < size.
Proof.
  unfold initial_flag, get_db_size. destruct (0 <? x) eqn:E; [|done].
  destruct (db_sizes m !! db) as [size|]; [|done]. intros Hlt. split; [lia|]. eexists; split; [done|lia].
Qed.

Lemma register_session_inv m db x :
  mon_inv m → session_id_counter m + 1 < 2^64 → mon_inv (register_session m db x).1.
Proof.
  intros [Hc Hi Ha Hj Hn Hf Hs] Hb. unfold register_session; cbv zeta.
  assert (Hlt : ∀ b id s, sessions m !! id = Some s →
    (flags m ++ [b]) !! sl_over_limit s = flags m !! sl_over_limit s).
  { intros b id s Hid. apply lookup_app_l. eauto. }
  constructor; simpl; change (u64_wrap (session_id_counter m + 1)) with
    ((session_id_counter m + 1) mod 2^64); rewrite ?Z.mod_small by lia.
  - lia.
  - intros id s [[<- <-]|[? Hid]]%lookup_insert_Some; [lia|]. apply Hi in Hid. lia.
  - intros id s [[<- <-]|[? Hid]]%lookup_insert_Some; rewrite length_app; simpl; [lia|].
    apply Ha in Hid. lia.
  - intros i j si sj [[<- <-]|[? Hid]]%lookup_insert_Some [[<- <-]|[? Hjd]]%lookup_insert_Some Heq;
      simpl in Heq; eauto; [apply Ha in Hjd; lia|apply Ha in Hid; lia].
  - intros id s [[<- <-]|[? Hid]]%lookup_insert_Some Hz; simpl in *.
    + rewrite lookup_app_r, Nat.sub_diag by done. simpl. f_equal.
      destruct (initial_flag _ _ _) eqn:E; [|done]. apply initial_flag_cases in E. lia.
    + rewrite (Hlt _ id s Hid). eauto.
  - intros id s [[<- <-]|[? Hid]]%lookup_insert_Some Ht; simpl in *.
    + rewrite lookup_app_r, Nat.sub_diag in Ht by done. simpl in Ht. injection Ht as Ht.
      apply initial_flag_cases in Ht as (_ & size & Hsz & _). simpl in Hsz. eauto.
    + rewrite (Hlt _ id s Hid) in Ht. eauto.
  - done.
Qed.

Lemma unregister_session_inv m id : mon_inv m → mon_inv (unregister_session m id).
Proof.
  intros [Hc Hi Ha Hj Hn Hf Hs].
  constructor; simpl; try done; intros *; rewrite ?lookup_delete_Some; naive_solver.
Qed.

Lemma check_one_frame c m db row :
  db_limits (check_one c m db row) = db_limits m ∧
  sessions (check_one c m db row) = sessions m ∧
  flags (check_one c m db row) = flags m ∧
  session_id_counter (check_one c m db row) = session_id_counter m ∧
  db_sizes (check_one c m db row) =
    match row with Some sz => <[db := u64_wrap sz]> (db_sizes m) | None => db_sizes m end.
Proof.
  destruct row as [sz|]; [|done]. unfold check_one, record_size; cbv zeta.
  by destruct (get_db_limit _ _ _).
Qed.

Lemma check_one_inv c m db row :
  mon_inv m → is_Some (db_limits m !! db) → mon_inv (check_one c m db row).
Proof.
  intros [Hc Hi Ha Hj Hn Hf Hs] Hdb.
  destruct (check_one_frame c m db row) as (Hl & Hse & Hfl & Hct & Hsz).
  constructor; rewrite ?Hl, ?Hse, ?Hfl, ?Hct, ?Hsz; eauto.
  - intros id s Hid Ht. destruct row; [|eauto]. rewrite lookup_insert. case_decide; eauto.
  - intros db' Hdb'. destruct row; [|eauto]. rewrite lookup_insert in Hdb'. case_decide; subst; eauto.
Qed.

Lemma update_flag_inv m id s : mon_inv m → sessions m !! id = Some s → mon_inv (update_flag m s).
Proof.
  intros Hinv Hid. unfold update_flag. destruct (_ =? 0) eqn:E; [done|].
  destruct (db_sizes m !! sl_database s) as [size|] eqn:Hsz; [|done].
  destruct Hinv as [Hc Hi Ha Hj Hn Hf Hs]. constructor; simpl; eauto.
  - intros id' s' Hid'. rewrite length_insert. eauto.
  - intros id' s' Hid' Hz. destruct (decide (id' = id)) as [->|Hne]; [simplify_eq; lia|].
    rewrite list_lookup_insert_ne by eauto. eauto.
  - intros id' s' Hid'. destruct (decide (id' = id)) as [->|Hne]; [simplify_eq; eauto|].
    rewrite list_lookup_insert_ne by eauto. eauto.
Qed.

(** The invariant of the interleaved system. *)
Definition phase_inv (m : DbSizeMonitor) (p : phase) : Prop :=
  match p with
  | Dialing dbs | Sizing dbs => Forall (λ db, is_Some (db_limits m !! db)) dbs
  | _ => True
  end.

Lemma tracked_limits m db : db ∈ tracked m ↔ is_Some (db_limits m !! db).
Proof.
  unfold tracked. rewrite list_elem_of_fmap. split.
  - intros ([k v] & -> & Hin). apply elem_of_map_to_list in Hin. eauto.
  - intros [v Hv]. exists (db, v). split; [done|]. by apply elem_of_map_to_list.
Qed.

Lemma mstep_inv c st st' :
  mstep c st st' → mon_inv st.1 ∧ phase_inv st.1 st.2 → mon_inv st'.1 ∧ phase_inv st'.1 st'.2.
Proof.
  intros Hstep [Hinv Hp]. destruct Hstep; simpl in *.
  - split; [by apply register_limit_inv|]. destruct p; try done; simpl in *;
      (eapply Forall_impl; [done|]; intros db' Hdb; simpl in *; rewrite lookup_insert; by case_decide).
  - split; [by apply register_session_inv|]. by destruct p.
  - split; [by apply unregister_session_inv|]. by destruct p.
  - split; [done|]. apply Forall_forall. intros db Hdb. apply tracked_limits.
    rename select (_ ≡ₚ _) into Hperm. by rewrite <-Hperm.
  - done.
  - done.
  - inversion Hp; subst. split; [by apply check_one_inv|].
    by destruct (check_one_frame c m db row) as (-> & _).
  - done.
  - split; [|done]. unfold visit. destruct (sessions m !! id) eqn:E; [|done]. by eapply update_flag_inv.
  - done.
Qed.

Lemma mreach_inv c m p : mreach c m p → mon_inv m ∧ phase_inv m p.
Proof.
  intros Hr. unfold mreach in Hr.
  assert (Hgen : ∀ st st', rtc (mstep c) st st' →
    mon_inv st.1 ∧ phase_inv st.1 st.2 → mon_inv st'.1 ∧ phase_inv st'.1 st'.2).
  { induction 1; eauto using mstep_inv. }
  apply (Hgen _ _ Hr). split; [apply monitor_new_inv|done].
Qed.

(** ** The check, uninterleaved *)

(** The flag pass. *)
Definition update_flags (m : DbSizeMonitor) : DbSizeMonitor :=
  foldl (λ m e, update_flag m e.2) m (map_to_list (sessions m)).

(** The steps of one check one after the other, while no other task runs:
    [connected] is the result of [tokio_postgres::connect], [query db] that of
    the size query.  [check_all_sizes_steps] shows that it is a run of [mstep]. *)
Definition check_all_sizes (c : Config) (m : DbSizeMonitor) (connected : bool)
    (query : str → option Z) : DbSizeMonitor :=
  let databases := tracked m in
  if decide (databases = []) then m else
  if connected then
    let m := foldl (λ m db, check_one c m db (query db)) m databases in
    update_flags m
  else m.

Lemma check_sizes_frame c query dbs m :
  let m' := foldl (λ m db, check_one c m db (query db)) m dbs in
  db_limits m' = db_limits m ∧ sessions m' = sessions m ∧ flags m' = flags m ∧
  ∀ db, db_sizes m' !! db =
    if decide (db ∈ dbs)
    then match query db with Some sz => Some (u64_wrap sz) | None => db_sizes m !! db end
    else db_sizes m !! db.
Proof.
  revert m. induction dbs as [|d dbs IH]; intros m; cbn [foldl]; [by auto|].
  destruct (check_one_frame c m d (query d)) as (Hl & Hs & Hf & _ & Hsz).
  destruct (IH (check_one c m d (query d))) as (-> & -> & -> & Hq).
  rewrite Hl, Hs, Hf. split_and!; [done..|]. intros db. rewrite Hq, Hsz.
  destruct (decide (db = d)) as [->|Hne].
  - rewrite (decide_True (P := d ∈ d :: dbs)) by set_solver.
    case_decide; destruct (query d); try done; by rewrite lookup_insert_eq.
  - assert (match query d with Some sz => <[d:=u64_wrap sz]> (db_sizes m) | None => db_sizes m end
      !! db = db_sizes m !! db) as ->.
    { destruct (query d); [|done]. by rewrite lookup_insert_ne. }
    destruct (decide (db ∈ dbs)), (decide (db ∈ d :: dbs)); try done; set_solver.
Qed.

(** The flag an entry of the pass stores, if it stores one. *)
Definition stored_flag (m : DbSizeMonitor) (s : SessionLimit) : option bool :=
  if sl_limit_bytes s =? 0 then None
  else (λ size, sl_limit_bytes s <? size) <$> db_sizes m !! sl_database s.

Lemma update_flag_frame m s :
  db_sizes (update_flag m s) = db_sizes m ∧ db_limits (update_flag m s) = db_limits m ∧
  sessions (update_flag m s) = sessions m ∧
  flags (update_flag m s) =
    match stored_flag m s with Some b => <[sl_over_limit s := b]> (flags m) | None => flags m end.
Proof.
  unfold update_flag, stored_flag. destruct (_ =? 0); [done|]. by destruct (_ !! sl_database s).
Qed.

Lemma update_flags_fold (l : list (Z * SessionLimit)) m :
  NoDup ((λ e, sl_over_limit e.2) <$> l) →
  Forall (λ e, sl_over_limit e.2 < length (flags m))%nat l →
  let m' := foldl (λ m e, update_flag m e.2) m l in
  db_sizes m' = db_sizes m ∧ db_limits m' = db_limits m ∧ sessions m' = sessions m ∧
  (∀ e, e ∈ l → flags m' !! sl_over_limit e.2 =
     match stored_flag m e.2 with Some b => Some b | None => flags m !! sl_over_limit e.2 end) ∧
  (∀ a, a ∉ (λ e, sl_over_limit e.2) <$> l → flags m' !! a = flags m !! a).
Proof.
  revert m. induction l as [|[i s] l IH]; intros m Hnd Hlen; cbn [foldl].
  { split_and!; try done. intros e He. by apply not_elem_of_nil in He. }
  rewrite fmap_cons in *. apply NoDup_cons in Hnd as [Hnin Hnd]. inversion Hlen; subst. simpl in *.
  destruct (update_flag_frame m s) as (Hsz & Hl & Hse & Hf).
  assert (Hst : ∀ x, stored_flag (update_flag m s) x = stored_flag m x)
    by (intros x; unfold stored_flag; by rewrite Hsz).
  assert (Hlf : length (flags (update_flag m s)) = length (flags m)).
  { rewrite Hf. destruct (stored_flag m s); [apply length_insert|done]. }
  destruct (IH (update_flag m s)) as (-> & -> & -> & Hin & Hout); [done|by rewrite Hlf|].
  split_and!; [done..| |].
  - intros e [->|He]%elem_of_cons; simpl.
    + rewrite Hout by done. rewrite Hf. destruct (stored_flag m s); [|done].
      by apply list_lookup_insert_eq.
    + rewrite Hin by done. rewrite Hst. destruct (stored_flag m e.2); [done|].
      rewrite Hf. destruct (stored_flag m s); [|done]. apply list_lookup_insert_ne.
      intros Heq. apply Hnin. rewrite Heq. apply list_elem_of_fmap. eauto.
  - intros a [Hne Ha]%not_elem_of_cons. rewrite Hout by done. rewrite Hf.
    destruct (stored_flag m s); [|done]. by apply list_lookup_insert_ne.
Qed.

Lemma sessions_addresses m :
  mon_inv m →
  NoDup ((λ e : Z * SessionLimit, sl_over_limit e.2) <$> map_to_list (sessions m)) ∧
  Forall (λ e, sl_over_limit e.2 < length (flags m))%nat (map_to_list (sessions m)).
Proof.
  intros Hinv. split.
  - apply NoDup_fmap_2_strong; [|apply NoDup_map_to_list].
    intros [i si] [j sj] Hi%elem_of_map_to_list Hj%elem_of_map_to_list Heq. simpl in Heq.
    pose proof (inv_inj m Hinv i j si sj Hi Hj Heq) as ->. by simplify_eq.
  - apply Forall_forall. intros [i si] Hi%elem_of_map_to_list. by eapply (inv_addr m Hinv).
Qed.

Lemma sizing_steps c query dbs m :
  rtc (mstep c) (m, Sizing dbs) (foldl (λ m db, check_one c m db (query db)) m dbs, Sizing []).
Proof.
  revert m. induction dbs as [|d dbs IH]; intros m; [apply rtc_refl|]. cbn [foldl].
  eapply rtc_l; [apply (step_size c m d dbs (query d))|apply IH].
Qed.

Lemma flagging_steps c (l : list (Z * SessionLimit)) m :
  (∀ e, e ∈ l → sessions m !! e.1 = Some e.2) →
  rtc (mstep c) (m, Flagging l.*1) (foldl (λ m e, update_flag m e.2) m l, Flagging []).
Proof.
  revert m. induction l as [|e l IH]; intros m Hl; [apply rtc_refl|]. rewrite fmap_cons. cbn [foldl].
  eapply rtc_l; [apply step_flag|]. unfold visit. rewrite (Hl e (list_elem_of_here _ _)).
  apply IH. intros e' He'. destruct (update_flag_frame m e.2) as (_ & _ & -> & _). apply Hl. by right.
Qed.

Lemma check_all_sizes_steps c m connected query :
  rtc (mstep c) (m, Waiting) (check_all_sizes c m connected query, Waiting).
Proof.
  unfold check_all_sizes. cbv zeta. case_decide as Hne; [apply rtc_refl|].
  eapply rtc_l; [by apply (step_begin c m (tracked m))|].
  destruct connected; [|apply rtc_once, step_failed].
  eapply rtc_l; [apply step_connected|]. eapply rtc_trans; [apply (sizing_steps c query)|].
  set (m1 := foldl _ _ _). eapply rtc_l; [apply (step_flags c m1 (map_to_list (sessions m1)).*1); unfold pass_over; by intros x|].
  eapply rtc_r; [|apply step_done]. apply flagging_steps. intros [id x] He. by apply elem_of_map_to_list in He.
Qed.

(** ** The flags, in any interleaving *)









(** ** Properties *)

(** Safety of the interleaved monitor: in every reachable state, however
    registrations fall between the actions of the monitor task, two sessions
    never share a flag, every session's flag is allocated, a session without a
    limit is never flagged, and a flagged session's database has a known size. *)
Theorem monitor_sessions_safe (c : Config) (m : DbSizeMonitor) (p : phase) :
  mreach c m p →
  (∀ i j si sj, sessions m !! i = Some si → sessions m !! j = Some sj → i ≠ j →
     sl_over_limit si ≠ sl_over_limit sj) ∧
  (∀ id s, sessions m !! id = Some s →
     is_Some (flags m !! sl_over_limit s) ∧
     (sl_limit_bytes s = 0 → flags m !! sl_over_limit s = Some false) ∧
     (flags m !! sl_over_limit s = Some true → is_Some (get_db_size m (sl_database s)))).
Proof.
  intros [Hinv _]%mreach_inv. split.
  - intros i j si sj Hi Hj Hne Heq. apply Hne. by eapply (inv_inj m Hinv).
  - intros id s Hid. split_and!.
    + apply lookup_lt_is_Some_2. by eapply (inv_addr m Hinv).
    + by eapply (inv_nolimit m Hinv).
    + by eapply (inv_flagged m Hinv).
Qed.

(** The default limit alone is never enforced: whatever
    [default_max_db_size_bytes] is, in every reachable state a database for
    which no connection ever registered a limit of its own has no known size
    and none of its sessions is flagged, because only databases with a
    registered limit are measured. *)
Theorem default_limit_not_enforced (c : Config) (m : DbSizeMonitor) (p : phase) (db : str) :
  mreach c m p → db_limits m !! db = None →
  get_db_size m db = None ∧
  ∀ id s, sessions m !! id = Some s → sl_database s = db →
    flags m !! sl_over_limit s = Some false.
Proof.
  intros [Hinv _]%mreach_inv Hno.
  assert (Hsz : db_sizes m !! db = None).
  { apply eq_None_not_Some. intros Hs%(inv_sizes m Hinv). rewrite Hno in Hs. by destruct Hs. }
  split; [done|]. intros id s Hid <-.
  destruct (lookup_lt_is_Some_2 (flags m) (sl_over_limit s)) as [b Hb].
  { by eapply (inv_addr m Hinv). }
  destruct b; [|done]. apply (inv_flagged m Hinv id s Hid) in Hb. rewrite Hsz in Hb. by destruct Hb.
Qed.



(** C19. One full check over a live connection: sizes of tracked databases are
    the answers of the queries (a failed query keeps the old size), limits and
    sessions are untouched, and afterwards every session with a limit and a
    known size has its flag set exactly when the size exceeds the limit, while
    all other flags keep their value.  (The check is the run of the task's steps
    with no other task in between; [flags_exact_between_checks] is about any
    interleaving.) *)
Theorem check_all_sizes_correct (c : Config) (m : DbSizeMonitor) (query : str → option Z) :
  mon_inv m → tracked m ≠ [] →
  let m' := check_all_sizes c m true query in
  rtc (mstep c) (m, Waiting) (m', Waiting) ∧
  db_limits m' = db_limits m ∧ sessions m' = sessions m ∧
  (∀ db, get_db_size m' db =
     if decide (is_Some (db_limits m !! db))
     then match query db with Some sz => Some (u64_wrap sz) | None => get_db_size m db end
     else get_db_size m db) ∧
  (∀ id s, sessions m !! id = Some s →
     flags m' !! sl_over_limit s =
       match get_db_size m' (sl_database s) with
       | Some size => if sl_limit_bytes s =? 0 then flags m !! sl_over_limit s
                      else Some (sl_limit_bytes s <? size)
       | None => flags m !! sl_over_limit s
       end) ∧
  (∀ a, (∀ id s, sessions m !! id = Some s → sl_over_limit s ≠ a) → flags m' !! a = flags m !! a).
Proof.
  intros Hinv Hne. split; [apply check_all_sizes_steps|].
  unfold check_all_sizes, update_flags, get_db_size. cbv zeta.
  rewrite decide_False by done.
  pose proof (check_sizes_frame c query (tracked m) m) as H1. cbv zeta in H1.
  set (m1 := foldl _ m (tracked m)) in *. destruct H1 as (Hl & Hs & Hf & Hsz).
  destruct (sessions_addresses m Hinv) as [Hnd Hlen].
  destruct (update_flags_fold (map_to_list (sessions m1)) m1) as (E1 & E2 & E3 & Hin & Hout);
    [by rewrite Hs|by rewrite Hs, Hf|].
  rewrite E1, E2, E3, Hl, Hs. split_and!; [done..| | |].
  - intros db. rewrite Hsz. pose proof (tracked_limits m db).
    destruct (decide (db ∈ tracked m)), (decide (is_Some (db_limits m !! db))); tauto.
  - intros id s Hid. rewrite Hs in Hin, Hout.
    pose proof (Hin (id, s)) as Hflag. rewrite elem_of_map_to_list in Hflag. cbn [snd] in Hflag.
    rewrite Hflag by done. unfold stored_flag; simpl. rewrite Hf. destruct (_ =? 0); simpl.
    + by destruct (db_sizes m1 !! _).
    + by destruct (db_sizes m1 !! _).
  - intros a Ha. rewrite Hs in Hout. rewrite Hout, Hf; [done|].
    intros ([id s] & -> & Hid%elem_of_map_to_list)%list_elem_of_fmap. by eapply Ha.
Qed.

(** A run of three steps: a limited and an unlimited session. *)
Definition demo_monitor : DbSizeMonitor :=
  (register_session (register_session (register_limit monitor_new (lit "shop") 100)
     (lit "shop") 100).1 (lit "logs") 0).1.

Lemma demo_monitor_reach : mreach Config_default demo_monitor Waiting.
Proof.
  unfold mreach, demo_monitor.
  eapply rtc_l; [apply (step_limit _ _ _ (lit "shop") 100)|].
  eapply rtc_l; [apply (step_register _ _ _ (lit "shop") 100); vm_compute; split; congruence|].
  eapply rtc_l; [apply (step_register _ _ _ (lit "logs") 0); vm_compute; split; congruence|].
  apply rtc_refl.
Qed.

Lemma monitor_sessions_safe_witness : flags demo_monitor !! 1%nat = Some false.
Proof.
  destruct (monitor_sessions_safe Config_default demo_monitor Waiting demo_monitor_reach) as [_ H].
  exact (proj1 (proj2 (H 2 (mk_SessionLimit (lit "logs") 0 1) eq_refl)) eq_refl).
Defined.

Lemma default_limit_not_enforced_witness : get_db_size demo_monitor (lit "logs") = None.
Proof.
  apply (default_limit_not_enforced Config_default demo_monitor Waiting (lit "logs")
           demo_monitor_reach).
  vm_compute. reflexivity.
Defined.


Lemma check_all_sizes_correct_witness :
  flags (check_all_sizes Config_default demo_monitor true (λ _, Some 101)) !! 0%nat = Some true.
Proof.
  pose proof (check_all_sizes_correct Config_default demo_monitor (λ _, Some 101)
    (proj1 (mreach_inv _ _ _ demo_monitor_reach))) as H.
  destruct H as (_ & _ & _ & _ & H & _); [vm_compute; discriminate|].
  exact (H 1 (mk_SessionLimit (lit "shop") 100 0) eq_refl).
Defined.

(** Registration: the new session gets a fresh id and a fresh flag that
    tells whether the database is already known to exceed a non-zero limit;
    every other session keeps its entry and its flag, and unregistering the id
    leaves exactly the other sessions. *)
Theorem register_session_correct (m : DbSizeMonitor) (db : str) (limit : Z) :
  mon_inv m →
  let '(m', (id, flag)) := register_session m db limit in
  sessions m !! id = None ∧ sessions m' !! id = Some (mk_SessionLimit db limit flag) ∧
  (flags m' !! flag = Some true ↔
     0 < limit ∧ ∃ size, get_db_size m db = Some size ∧ limit < size) ∧
  is_Some (flags m' !! flag) ∧
  (∀ i s, sessions m !! i = Some s →
     sessions m' !! i = Some s ∧ sl_over_limit s ≠ flag ∧
     flags m' !! sl_over_limit s = flags m !! sl_over_limit s) ∧
  sessions (unregister_session m' id) = sessions m.
Proof.
  intros Hinv. unfold register_session; cbv zeta; cbn.
  assert (Hfresh : sessions m !! session_id_counter m = None).
  { apply eq_None_not_Some. intros [s Hs%(inv_id m Hinv)]. lia. }
  split_and!; [done|by rewrite lookup_insert_eq| | | |by rewrite delete_insert_id].
  - rewrite lookup_app_r, Nat.sub_diag by done. simpl. split.
    + intros [= Hf]. by apply initial_flag_cases in Hf.
    + intros (Hpos & size & Hs & Hlt). unfold get_db_size, initial_flag in *; simpl.
      rewrite (proj2 (Z.ltb_lt _ _)) by done. unfold get_db_size; simpl. rewrite Hs. f_equal. lia.
  - rewrite lookup_app_r, Nat.sub_diag by done. eauto.
  - intros i s Hi. pose proof (inv_addr m Hinv i s Hi).
    split; [rewrite lookup_insert_ne; [done|congruence]|]. split; [lia|].
    by rewrite lookup_app_l.
Qed.

Lemma register_session_correct_witness :
  let '(m', (id, flag)) := register_session demo_monitor (lit "shop") 5 in
  sessions (unregister_session m' id) = sessions demo_monitor.
Proof.
  exact (proj2 (proj2 (proj2 (proj2 (proj2 (register_session_correct demo_monitor (lit "shop") 5
    (proj1 (mreach_inv _ _ _ demo_monitor_reach)))))))).
Defined.

#[local] Instance info_le_total : Total info_le.
Proof.
  intros [s ? ? ?] [t ? ? ?]. unfold info_le; simpl. revert t.
  induction s as [|a s IH]; intros t; [by left|]. destruct t as [|b t]; [by right|]. simpl.
  destruct (a <? b) eqn:E1; [by left|]. destruct (b <? a) eqn:E2; [by right|]. apply IH.
Qed.
#[local] Instance info_le_trans : Transitive info_le.
Proof.
  intros [s ? ? ?] [t ? ? ?] [u ? ? ?]. unfold info_le; simpl. revert t u.
  induction s as [|a s IH]; intros [|b t] [|c u]; simpl; try done.
  destruct (a <? b) eqn:E1, (b <? a) eqn:E2, (b <? c) eqn:E3, (c <? b) eqn:E4,
    (a <? c) eqn:E5, (c <? a) eqn:E6; try done; try lia. apply IH.
Qed.

(** The report of all databases: it is sorted by name, lists every
    database with a known size or a registered limit exactly once and nothing
    else, and an entry is marked over its limit exactly when both numbers are
    known and the size exceeds the limit. *)
Theorem get_all_db_info_correct (c : Config) (m : DbSizeMonitor) :
  StronglySorted info_le (get_all_db_info c m) ∧
  NoDup (dsi_database <$> get_all_db_info c m) ∧
  (∀ db, db ∈ dsi_database <$> get_all_db_info c m ↔
     is_Some (db_sizes m !! db) ∨ is_Some (db_limits m !! db)) ∧
  (∀ i, i ∈ get_all_db_info c m →
     size_bytes i = get_db_size m (dsi_database i) ∧
     limit_bytes i = get_db_limit c m (dsi_database i) ∧
     (over_limit i = true ↔
        ∃ s l, size_bytes i = Some s ∧ limit_bytes i = Some l ∧ l < s)).
Proof.
  unfold get_all_db_info. cbv zeta. set (dbs := elements _).
  pose proof (merge_sort_Permutation info_le (db_info c m <$> dbs)) as Hp.
  assert (Hn : dsi_database <$> merge_sort info_le (db_info c m <$> dbs) ≡ₚ dbs).
  { rewrite Hp. rewrite <-list_fmap_compose.
    rewrite (list_fmap_ext _ id); [by rewrite list_fmap_id|]. done. }
  split_and!.
  - apply StronglySorted_merge_sort; apply _.
  - rewrite Hn. apply NoDup_elements.
  - intros db. rewrite Hn. unfold dbs. rewrite elem_of_elements, elem_of_union, !elem_of_dom. done.
  - intros i. rewrite Hp. intros (db & -> & _)%list_elem_of_fmap. simpl.
    split_and!; [done..|]. destruct (db_sizes m !! db), (get_db_limit c m db); naive_solver lia.
Qed.

Lemma round_half_even_near n d : 0 < d → 2 * Z.abs (round_half_even n d * d - n) ≤ d.
Proof.
  intros Hd. unfold round_half_even. cbv zeta.
  pose proof (Z.div_mod n d ltac:(lia)). pose proof (Z.mod_pos_bound n d Hd).
  repeat case_match; nia.
Qed.

Lemma u64_as_f64_small n : 0 ≤ n < 2^53 → u64_as_f64 n = n.
Proof.
  intros Hn. unfold u64_as_f64. cbv zeta. rewrite (proj2 (Z.leb_le _ _)); [done|].
  destruct (decide (n = 0)) as [->|]; [done|].
  assert (Z.log2 n < 53); [|lia]. apply Z.log2_lt_pow2; lia.
Qed.

(** [format_bytes] below 2^53 bytes: under one KB it prints the exact
    count; from one KB on it prints, with two decimals, the multiple of the
    largest unit not above the size, correctly rounded to the hundredth. *)
Theorem format_bytes_accurate (b : Z) :
  0 ≤ b < 2^53 →
  (b < KB ∧ format_bytes b = fmt_uint b ++ lit " B") ∨
  ∃ u name q, (u, name) ∈ [(KB, " KB"); (MB, " MB"); (GB, " GB"); (TB, " TB")] ∧
    u ≤ b ∧ (u = TB ∨ b < 1024 * u) ∧
    format_bytes b = fmt_uint (q / 100) ++ [46; 48 + (q / 10) mod 10; 48 + q mod 10] ++ lit name ∧
    2 * Z.abs (q * u - 100 * b) ≤ u.
Proof.
  intros Hb. pose proof (u64_as_f64_small b Hb) as Hf.
  assert (Hq : ∀ u, 0 < u → 2 * Z.abs (round_half_even (b * 100) u * u - 100 * b) ≤ u).
  { intros u Hu. rewrite (Z.mul_comm 100 b). by apply round_half_even_near. }
  unfold format_bytes, fmt_fixed2. rewrite Hf. cbv zeta.
  destruct (TB <=? b) eqn:E1; [|destruct (GB <=? b) eqn:E2; [|destruct (MB <=? b) eqn:E3;
    [|destruct (KB <=? b) eqn:E4]]].
  5:{ left. split; [lia|done]. }
  all: right; unfold TB, GB, MB, KB in *.
  - exists (1024 * (1024 * (1024 * 1024))), " TB", (round_half_even (b * 100) (1024 * (1024 * (1024 * 1024)))).
    split_and!; [set_solver|lia|by left|by rewrite <-!(assoc_L (++))|apply Hq; lia].
  - exists (1024 * (1024 * 1024)), " GB", (round_half_even (b * 100) (1024 * (1024 * 1024))).
    split_and!; [set_solver|lia|right; lia|by rewrite <-!(assoc_L (++))|apply Hq; lia].
  - exists (1024 * 1024), " MB", (round_half_even (b * 100) (1024 * 1024)).
    split_and!; [set_solver|lia|right; lia|by rewrite <-!(assoc_L (++))|apply Hq; lia].
  - exists 1024, " KB", (round_half_even (b * 100) 1024).
    split_and!; [set_solver|lia|right; lia|by rewrite <-!(assoc_L (++))|apply Hq; lia].
Qed.

Lemma format_bytes_accurate_witness :
  (1023 < KB ∧ format_bytes 1023 = fmt_uint 1023 ++ lit " B") ∨
  ∃ u name q, (u, name) ∈ [(KB, " KB"); (MB, " MB"); (GB, " GB"); (TB, " TB")] ∧
    u ≤ 1023 ∧ (u = TB ∨ 1023 < 1024 * u) ∧
    format_bytes 1023 = fmt_uint (q / 100) ++ [46; 48 + (q / 10) mod 10; 48 + q mod 10] ++ lit name ∧
    2 * Z.abs (q * u - 100 * 1023) ≤ u.
Proof. apply (format_bytes_accurate 1023). lia. Defined.
