(* ===== verification/Notify.v ===== *)
(** * Waiting and waking: tokio's [Notify]

    The pool parks the tasks that find it full on a [tokio::sync::Notify].
    tokio is not part of the repository, so the type and the calls the pool
    makes of it are the class [Notify], and what tokio documents of them is the
    class [NotifyLaws].  [fifo_notify] is a concrete instance that keeps the
    laws; the example runs use it. *)

From S2P Require Import Prelude.

(** A task is its number. *)
Class Notify := {
  notify : Type;
  notify_new : notify;                          (* Notify::new *)
  notified : notify → nat → notify * bool;      (* a task awaits [notified()]; [true]: it goes on at once *)
  notify_one : notify → notify * option nat;    (* [notify_one()] and the task it wakes *)
  withdraw : notify → nat → notify;              (* a future that still waits is dropped *)
  hand_over : notify → notify * option nat      (* a future that was notified is dropped *)
}.

(** What tokio documents: waiting tasks are woken in the order in which they
    came; a notification that finds nobody waiting is kept as one permit, which
    the next task that comes consumes; dropping a future that waits takes it out
    of the queue; dropping one that was notified passes the notification on as
    a call of [notify_one] does. *)
Class NotifyLaws `{Notify} := {
  queue : notify → list nat;
  permit : notify → bool;
  queue_new : queue notify_new = [];
  permit_new : permit notify_new = false;
  notified_now w i : permit w = true →
    (notified w i).2 = true ∧ queue (notified w i).1 = queue w ∧ permit (notified w i).1 = false;
  notified_later w i : permit w = false →
    (notified w i).2 = false ∧ queue (notified w i).1 = queue w ++ [i] ∧ permit (notified w i).1 = false;
  notify_nobody w : queue w = [] →
    (notify_one w).2 = None ∧ queue (notify_one w).1 = [] ∧ permit (notify_one w).1 = true;
  notify_first w i r : queue w = i :: r →
    (notify_one w).2 = Some i ∧ queue (notify_one w).1 = r ∧ permit (notify_one w).1 = permit w;
  withdraw_queue w i : queue (withdraw w i) = filter (λ j, j ≠ i) (queue w) ∧ permit (withdraw w i) = permit w;
  hand_over_notifies w : (hand_over w).2 = (notify_one w).2
    ∧ queue (hand_over w).1 = queue (notify_one w).1 ∧ permit (hand_over w).1 = permit (notify_one w).1
}.

(** ** An instance *)

Definition fifo_notify_one (w : list nat * bool) : (list nat * bool) * option nat :=
  match w.1 with
  | i :: r => ((r, w.2), Some i)
  | [] => (([], true), None)
  end.
Definition fifo_notify : Notify := {|
  notify := list nat * bool;
  notify_new := ([], false);
  notified w i := if w.2 then ((w.1, false), true) else ((w.1 ++ [i], false), false);
  notify_one := fifo_notify_one;
  withdraw w i := (filter (λ j, j ≠ i) w.1, w.2);
  hand_over := fifo_notify_one
|}.
Definition fifo_laws : @NotifyLaws fifo_notify.
Proof.
  refine (@Build_NotifyLaws fifo_notify fst snd eq_refl eq_refl _ _ _ _ _ _);
    [intros [q p] i|intros [q p] i|intros [q p]|intros [q p] i r|intros [q p] i|intros [q p]]; simpl;
    try (by intros ->); done.
Defined.
