(* ===== verification/Pool.v ===== *)
(** * The connection pool (src/pool/mod.rs, src/protocol/mod.rs)

    [PoolManager] with its per-key pools.  The shared-state accesses of
    [acquire] and [release] are the operations below, each the code between two
    suspension points (a lock is held from its [lock()] to the end of the
    block); [pstep] composes them as the [async fn]s do, for any number of
    concurrent tasks.  A [TcpStream] is the number of the connection; time is in
    nanoseconds.  tokio's [Notify] is the class of Notify.v. *)

From S2P Require Import Prelude RustStr Config Notify.

Record PoolKey := mk_PoolKey {
  pk_host : str;
  pk_port : Z;
  pk_database : str;
  pk_user : str
}.

#[export] Instance PoolKey_eq_dec : EqDecision PoolKey.
Proof. solve_decision. Defined.
#[export] Instance PoolKey_countable : Countable PoolKey.
Proof.
  refine (inj_countable' (λ k, (pk_host k, pk_port k, pk_database k, pk_user k))
            (λ '(h, p, d, u), mk_PoolKey h p d u) _).
  by intros [].
Defined.

(** [impl Display for PoolKey]. *)
Definition display_key (k : PoolKey) : str :=
  pk_host k ++ lit ":" ++ fmt_uint (pk_port k) ++ lit "/" ++ pk_database k ++ lit "@" ++ pk_user k.

Record PooledConnection := mk_PooledConnection {
  pc_stream : Z;
  created_at : Z;
  last_used : Z
}.

Section pool.
Context {Nt : Notify}.

Record Pool := mk_Pool {
  idle : list PooledConnection;
  active_count : Z;
  waiters : notify;
  total_acquired : Z;
  total_errors : Z
}.

Definition Pool_new : Pool := mk_Pool [] 0 notify_new 0 0.

(** The pool-related counters of [Metrics]. *)
Record PoolMetrics := mk_PoolMetrics {
  server_connections_total : Z;
  server_connections_active : Z;
  server_connection_errors_total : Z;
  pool_hits_total : Z;
  pool_misses_total : Z;
  pool_timeouts_total : Z
}.

Record PoolManager := mk_PoolManager {
  pools : gmap PoolKey Pool;
  pm_metrics : PoolMetrics;
  total_server_connections : Z
}.

Definition PoolManager_new : PoolManager :=
  mk_PoolManager ∅ (mk_PoolMetrics 0 0 0 0 0 0) 0.

(** [fetch_add(1)] and [fetch_sub(1)] on an [AtomicU64]. *)
Definition fetch_add1 (z : Z) : Z := u64_wrap (z + 1).
Definition fetch_sub1 (z : Z) : Z := u64_wrap (z - 1).
(** [Gauge::inc] and [dec] on an [AtomicI64]. *)
Definition i64_wrap (z : Z) : Z := (z + 2^63) mod 2^64 - 2^63.

(** ** Updates *)

Definition pool_at (m : PoolManager) (k : PoolKey) : Pool := default Pool_new (pools m !! k).
Definition set_pool (m : PoolManager) (k : PoolKey) (p : Pool) : PoolManager :=
  mk_PoolManager (<[k := p]> (pools m)) (pm_metrics m) (total_server_connections m).
Definition set_metrics (m : PoolManager) (x : PoolMetrics) : PoolManager :=
  mk_PoolManager (pools m) x (total_server_connections m).
Definition set_total (m : PoolManager) (t : Z) : PoolManager :=
  mk_PoolManager (pools m) (pm_metrics m) t.

Definition set_idle (p : Pool) (l : list PooledConnection) : Pool :=
  mk_Pool l (active_count p) (waiters p) (total_acquired p) (total_errors p).
Definition set_active (p : Pool) (a : Z) : Pool :=
  mk_Pool (idle p) a (waiters p) (total_acquired p) (total_errors p).
Definition set_waiters (p : Pool) (w : notify) : Pool :=
  mk_Pool (idle p) (active_count p) w (total_acquired p) (total_errors p).
Definition set_acquired (p : Pool) (a : Z) : Pool :=
  mk_Pool (idle p) (active_count p) (waiters p) a (total_errors p).
Definition set_errors (p : Pool) (e : Z) : Pool :=
  mk_Pool (idle p) (active_count p) (waiters p) (total_acquired p) e.

Definition inc_active_gauge (x : PoolMetrics) (d : Z) : PoolMetrics :=
  mk_PoolMetrics (server_connections_total x) (i64_wrap (server_connections_active x + d))
    (server_connection_errors_total x) (pool_hits_total x) (pool_misses_total x) (pool_timeouts_total x).
Definition inc_created (x : PoolMetrics) : PoolMetrics :=
  mk_PoolMetrics (fetch_add1 (server_connections_total x)) (server_connections_active x)
    (server_connection_errors_total x) (pool_hits_total x) (pool_misses_total x) (pool_timeouts_total x).
Definition inc_conn_errors (x : PoolMetrics) : PoolMetrics :=
  mk_PoolMetrics (server_connections_total x) (server_connections_active x)
    (fetch_add1 (server_connection_errors_total x)) (pool_hits_total x) (pool_misses_total x) (pool_timeouts_total x).
Definition inc_hits (x : PoolMetrics) : PoolMetrics :=
  mk_PoolMetrics (server_connections_total x) (server_connections_active x)
    (server_connection_errors_total x) (fetch_add1 (pool_hits_total x)) (pool_misses_total x) (pool_timeouts_total x).
Definition inc_misses (x : PoolMetrics) : PoolMetrics :=
  mk_PoolMetrics (server_connections_total x) (server_connections_active x)
    (server_connection_errors_total x) (pool_hits_total x) (fetch_add1 (pool_misses_total x)) (pool_timeouts_total x).
Definition inc_timeouts (x : PoolMetrics) : PoolMetrics :=
  mk_PoolMetrics (server_connections_total x) (server_connections_active x)
    (server_connection_errors_total x) (pool_hits_total x) (pool_misses_total x) (fetch_add1 (pool_timeouts_total x)).

(** One connection less: the counter and the gauge. *)
Definition drop_connection (m : PoolManager) : PoolManager :=
  let m := set_total m (fetch_sub1 (total_server_connections m)) in
  set_metrics m (inc_active_gauge (pm_metrics m) (-1)).

(** ** [acquire] *)

(** [self.pools.entry(key).or_insert_with(..)]. *)
Definition pool_entry (m : PoolManager) (k : PoolKey) : PoolManager :=
  match pools m !! k with Some _ => m | None => set_pool m k Pool_new end.

Definition secs (s : Z) : Z := s * 1000000000.
Definition millis (ms : Z) : Z := ms * 1000000.

(** Whether a popped connection is evicted: past its lifetime or idle timeout. *)
Definition expired (c : PoolConfig) (now : Z) (x : PooledConnection) : bool :=
  (secs (max_connection_lifetime_secs c) <? now - created_at x)
  || (secs (idle_timeout_secs c) <? now - last_used x).

(** The [while let Some(conn) = idle.pop_front()] loop: how many are evicted,
    the first usable one, and what stays. *)
Fixpoint pop_scan (c : PoolConfig) (now : Z) (l : list PooledConnection)
    : nat * option PooledConnection * list PooledConnection :=
  match l with
  | [] => (O, None, [])
  | x :: r =>
      if expired c now x
      then let '(n, o, l') := pop_scan c now r in (S n, o, l')
      else (O, Some x, r)
  end.

(** The locked block at the top of the loop; [Some s] is an early return of
    the pooled stream. *)
Definition pop_idle (c : PoolConfig) (now : Z) (m : PoolManager) (k : PoolKey)
    : PoolManager * option Z :=
  let p := pool_at m k in
  let '(evicted, o, l) := pop_scan c now (idle p) in
  let m := Nat.iter evicted drop_connection m in
  match o with
  | None => (set_pool m k (set_idle p l), None)
  | Some x =>
      let p := set_idle p l in
      let p := set_active p (fetch_add1 (active_count p)) in
      let p := set_acquired p (fetch_add1 (total_acquired p)) in
      let m := set_pool m k p in
      (set_metrics m (inc_hits (pm_metrics m)), Some (pc_stream x))
  end.

Inductive limit_check := GlobalFull | PoolFull | CanCreate.

(** The two limit tests. *)
Definition check_limits (c : PoolConfig) (m : PoolManager) (k : PoolKey) : limit_check :=
  let total := total_server_connections m in
  let per_pool := u64_wrap (active_count (pool_at m k) + len (idle (pool_at m k))) in
  if max_total_connections c <=? total then GlobalFull
  else if max_connections_per_pool c <=? per_pool then PoolFull
  else CanCreate.

(** The three timeout exits. *)
Definition acquire_timeout (m : PoolManager) (k : PoolKey) : PoolManager :=
  let p := pool_at m k in
  let m := set_pool m k (set_errors p (fetch_add1 (total_errors p))) in
  set_metrics m (inc_timeouts (pm_metrics m)).

Definition start_connect (m : PoolManager) : PoolManager :=
  set_metrics m (inc_misses (pm_metrics m)).

(** [Ok(stream)] of [connect_backend]. *)
Definition connect_ok (m : PoolManager) (k : PoolKey) : PoolManager :=
  let m := set_total m (fetch_add1 (total_server_connections m)) in
  let m := set_metrics m (inc_created (inc_active_gauge (pm_metrics m) 1)) in
  let p := pool_at m k in
  let p := set_active p (fetch_add1 (active_count p)) in
  let p := set_acquired p (fetch_add1 (total_acquired p)) in
  set_pool m k p.

(** [Err(e)] of [connect_backend]. *)
Definition connect_err (m : PoolManager) (k : PoolKey) : PoolManager :=
  let p := pool_at m k in
  let m := set_pool m k (set_errors p (fetch_add1 (total_errors p))) in
  set_metrics m (inc_conn_errors (pm_metrics m)).

(** [pool.waiters.notified()] awaited by a task: [true] if it goes on at once. *)
Definition await_notified (m : PoolManager) (k : PoolKey) (tid : nat) : PoolManager * bool :=
  let p := pool_at m k in
  let '(w, now) := notified (waiters p) tid in
  (set_pool m k (set_waiters p w), now).

(** The other arm of [select!] wins: the future of [notified()] is dropped, and
    had been notified already or not. *)
Definition drop_waiting (m : PoolManager) (k : PoolKey) (tid : nat) : PoolManager :=
  let p := pool_at m k in
  set_pool m k (set_waiters p (withdraw (waiters p) tid)).
Definition drop_notified (m : PoolManager) (k : PoolKey) : PoolManager * option nat :=
  let p := pool_at m k in
  let '(w, woken) := hand_over (waiters p) in
  (set_pool m k (set_waiters p w), woken).

(** ** [release] *)

(** Up to the reset: [None] when the pool is gone (the connection is dropped). *)
Definition release_begin (m : PoolManager) (k : PoolKey) : PoolManager * bool :=
  match pools m !! k with
  | None => (drop_connection m, false)
  | Some p => (set_pool m k (set_active p (fetch_sub1 (active_count p))), true)
  end.

(** The reset succeeded: back into the pool, stamped with the current time. *)
Definition release_ok (now : Z) (m : PoolManager) (k : PoolKey) (s : Z) : PoolManager * option nat :=
  let p := pool_at m k in
  let p := set_idle p (idle p ++ [mk_PooledConnection s now now]) in
  let '(w, woken) := notify_one (waiters p) in
  (set_pool m k (set_waiters p w), woken).

(** The reset failed. *)
Definition release_err (m : PoolManager) : PoolManager := drop_connection m.

(** ** Statistics *)

Record PoolStats := mk_PoolStats {
  ps_key : PoolKey;
  ps_idle : Z;
  ps_active : Z;
  ps_acquired : Z;
  ps_errors : Z
}.

Definition get_stats (m : PoolManager) : list PoolStats :=
  (λ kp : PoolKey * Pool, mk_PoolStats kp.1 (len (idle kp.2)) (active_count kp.2)
                            (total_acquired kp.2) (total_errors kp.2)) <$> map_to_list (pools m).

Definition total_connections (m : PoolManager) : Z := total_server_connections m.
End pool.
