(* ===== verification/PoolSys.v ===== *)
(** * Concurrent use of the pool

    The tasks of [PoolManager::acquire] and [release] as a step relation.
    Every task is at a suspension point of its [async fn]; a step runs one task
    to its next one with the operations of Pool.v.  Two components are there
    for the specification only: [loc], the place of every open backend
    connection, and [origin], the key a connection was opened for.
    [passwords] is the password argument of each call of [acquire], and
    [accepts] the answer of the PostgreSQL server to a key and a password.

    Granularity: the operations between two suspension points are one step.
    On a multi-threaded runtime two such sections can overlap on their atomic
    counters; the counterexamples below do not depend on that. *)

From S2P Require Import Prelude RustStr Config Notify Pool.

Inductive task :=
  | Popping (k : PoolKey) (deadline : Z)     (* top of the acquire loop *)
  | Checking (k : PoolKey) (deadline : Z)    (* no idle connection was usable *)
  | WaitingFor (k : PoolKey) (deadline : Z)  (* in the select over notified and sleep *)
  | Woken (k : PoolKey) (deadline : Z)       (* notified, not polled yet *)
  | Connecting (k : PoolKey)                 (* awaiting connect_backend *)
  | Holding (k : PoolKey) (s : Z)            (* acquire returned Ok *)
  | Resetting (k : PoolKey) (s : Z)          (* release, awaiting reset_connection *)
  | Finished                                 (* acquire returned Err, or release returned *)
  | Panicked.                                (* acquire panicked inside connect_backend *)

Inductive place :=
  | InPool (k : PoolKey)
  | HeldBy (k : PoolKey) (tid : nat)
  | ResetBy (k : PoolKey) (tid : nat)
  | Leaked (k : PoolKey).                    (* dropped without release *)

Definition place_key (p : place) : PoolKey :=
  match p with InPool k | HeldBy k _ | ResetBy k _ | Leaked k => k end.

(** How the awaited [connect_backend] ends (Backend.v has the cases in which it
    panics). *)
Inductive connected := ConnectOk | ConnectErr | ConnectPanic.

Ltac by_rule r := solve [eapply r; first [eassumption | lia | congruence]].

Section steps.
Context {Nt : Notify}.

Record psys := mk_psys {
  passwords : gmap nat str;
  mgr : PoolManager;
  tasks : gmap nat task;
  now : Z;
  next_stream : Z;
  loc : gmap Z place;
  origin : gmap Z PoolKey
}.

Definition psys_new : psys := mk_psys ∅ PoolManager_new ∅ 0 0 ∅ ∅.

(** The streams the pop loop evicts. *)
Definition evicted (c : PoolConfig) (now : Z) (l : list PooledConnection) : list Z :=
  pc_stream <$> take (pop_scan c now l).1.1 l.

(** Forget a list of closed connections. *)
Definition forget (ss : list Z) (l : gmap Z place) : gmap Z place :=
  foldl (λ l s, delete s l) l ss.

(** Delivering a notification to a task that waits. *)
Definition wake (woken : option nat) (ts : gmap nat task) : gmap nat task :=
  match woken with
  | Some t => match ts !! t with
              | Some (WaitingFor k d) => <[t := Woken k d]> ts
              | _ => ts
              end
  | None => ts
  end.

(** A stored permit lets the task go on at once. *)
Definition after_await (k : PoolKey) (d : Z) (permit : bool) : task :=
  if permit then Popping k d else WaitingFor k d.

Inductive pstep (c : PoolConfig) (accepts : PoolKey → str → bool) : psys → psys → Prop :=
  | st_start pw m ts t n l o tid k w :
      ts !! tid = None →
      pstep c accepts (mk_psys pw m ts t n l o)
        (mk_psys (<[tid := w]> pw) (pool_entry m k) (<[tid := Popping k (t + millis (acquire_timeout_ms c))]> ts) t n l o)
  | st_pop_hit pw m m' ts t n l o tid k d s :
      ts !! tid = Some (Popping k d) → pop_idle c t m k = (m', Some s) →
      pstep c accepts (mk_psys pw m ts t n l o)
        (mk_psys pw m' (<[tid := Holding k s]> ts) t n
           (<[s := HeldBy k tid]> (forget (evicted c t (idle (pool_at m k))) l)) o)
  | st_pop_miss pw m m' ts t n l o tid k d :
      ts !! tid = Some (Popping k d) → pop_idle c t m k = (m', None) →
      pstep c accepts (mk_psys pw m ts t n l o)
        (mk_psys pw m' (<[tid := Checking k d]> ts) t n
           (forget (evicted c t (idle (pool_at m k))) l) o)
  | st_create pw m ts t n l o tid k d :
      ts !! tid = Some (Checking k d) → check_limits c m k = CanCreate →
      pstep c accepts (mk_psys pw m ts t n l o)
        (mk_psys pw (start_connect m) (<[tid := Connecting k]> ts) t n l o)
  | st_full_expired pw m ts t n l o tid k d :
      ts !! tid = Some (Checking k d) → check_limits c m k ≠ CanCreate → d ≤ t →
      pstep c accepts (mk_psys pw m ts t n l o)
        (mk_psys pw (acquire_timeout m k) (<[tid := Finished]> ts) t n l o)
  | st_full_wait pw m ts t n l o tid k d :
      ts !! tid = Some (Checking k d) → check_limits c m k ≠ CanCreate → t < d →
      pstep c accepts (mk_psys pw m ts t n l o)
        (mk_psys pw (await_notified m k tid).1
           (<[tid := after_await k d (await_notified m k tid).2]> ts) t n l o)
  | st_timeout pw m ts t n l o tid k d :
      ts !! tid = Some (WaitingFor k d) → d ≤ t →
      pstep c accepts (mk_psys pw m ts t n l o)
        (mk_psys pw (acquire_timeout (drop_waiting m k tid) k) (<[tid := Finished]> ts) t n l o)
  | st_woken pw m ts t n l o tid k d :
      ts !! tid = Some (Woken k d) →
      pstep c accepts (mk_psys pw m ts t n l o) (mk_psys pw m (<[tid := Popping k d]> ts) t n l o)
  | st_woken_timeout pw m ts t n l o tid k d :
      ts !! tid = Some (Woken k d) → d ≤ t →
      pstep c accepts (mk_psys pw m ts t n l o)
        (mk_psys pw (acquire_timeout (drop_notified m k).1 k) (wake (drop_notified m k).2 (<[tid := Finished]> ts)) t n l o)
  | st_connected pw m ts t n l o tid k w :
      ts !! tid = Some (Connecting k) → pw !! tid = Some w → accepts k w = true →
      pstep c accepts (mk_psys pw m ts t n l o)
        (mk_psys pw (connect_ok m k) (<[tid := Holding k n]> ts) t (n + 1)
           (<[n := HeldBy k tid]> l) (<[n := k]> o))
  | st_connect_err pw m ts t n l o tid k :
      ts !! tid = Some (Connecting k) →
      pstep c accepts (mk_psys pw m ts t n l o)
        (mk_psys pw (connect_err m k) (<[tid := Finished]> ts) t n l o)
  | st_connect_panic pw m ts t n l o tid k :
      ts !! tid = Some (Connecting k) →
      pstep c accepts (mk_psys pw m ts t n l o)
        (mk_psys pw m (<[tid := Panicked]> ts) t n l o)
  | st_release pw m m' ts t n l o tid k s :
      ts !! tid = Some (Holding k s) → release_begin m k = (m', true) →
      pstep c accepts (mk_psys pw m ts t n l o)
        (mk_psys pw m' (<[tid := Resetting k s]> ts) t n (<[s := ResetBy k tid]> l) o)
  | st_release_gone pw m m' ts t n l o tid k s :
      ts !! tid = Some (Holding k s) → release_begin m k = (m', false) →
      pstep c accepts (mk_psys pw m ts t n l o)
        (mk_psys pw m' (<[tid := Finished]> ts) t n (delete s l) o)
  | st_drop pw m ts t n l o tid k s :
      ts !! tid = Some (Holding k s) →
      pstep c accepts (mk_psys pw m ts t n l o)
        (mk_psys pw m (<[tid := Finished]> ts) t n (<[s := Leaked k]> l) o)
  | st_reset_ok pw m ts t n l o tid k s :
      ts !! tid = Some (Resetting k s) →
      pstep c accepts (mk_psys pw m ts t n l o)
        (mk_psys pw (release_ok t m k s).1 (wake (release_ok t m k s).2 (<[tid := Finished]> ts)) t n
           (<[s := InPool k]> l) o)
  | st_reset_err pw m ts t n l o tid k s :
      ts !! tid = Some (Resetting k s) →
      pstep c accepts (mk_psys pw m ts t n l o)
        (mk_psys pw (release_err m) (<[tid := Finished]> ts) t n (delete s l) o)
  | st_tick pw m ts t t' n l o :
      t ≤ t' → pstep c accepts (mk_psys pw m ts t n l o) (mk_psys pw m ts t' n l o).

Definition preach (c : PoolConfig) (accepts : PoolKey → str → bool) (σ : psys) : Prop :=
  rtc (pstep c accepts) psys_new σ.

(** ** The same steps as a function of the scheduler's choices *)

Inductive action :=
  | AStart (tid : nat) (k : PoolKey) (w : str)
  | APop (tid : nat)
  | ACheck (tid : nat)
  | AResume (tid : nat)
  | ATimeout (tid : nat)
  | AConnect (tid : nat) (r : connected)
  | ARelease (tid : nat)
  | ADrop (tid : nat)
  | AReset (tid : nat) (clean : bool)
  | ATick (t : Z).

Definition exec (c : PoolConfig) (accepts : PoolKey → str → bool) (a : action) (σ : psys) : option psys :=
  let '(mk_psys pw m ts t n l o) := σ in
  match a with
  | AStart tid k w =>
      match ts !! tid with
      | None => Some (mk_psys (<[tid := w]> pw) (pool_entry m k)
                        (<[tid := Popping k (t + millis (acquire_timeout_ms c))]> ts) t n l o)
      | Some _ => None
      end
  | APop tid =>
      match ts !! tid with
      | Some (Popping k d) =>
          let '(m', q) := pop_idle c t m k in
          let l' := forget (evicted c t (idle (pool_at m k))) l in
          Some match q with
               | Some s => mk_psys pw m' (<[tid := Holding k s]> ts) t n (<[s := HeldBy k tid]> l') o
               | None => mk_psys pw m' (<[tid := Checking k d]> ts) t n l' o
               end
      | _ => None
      end
  | ACheck tid =>
      match ts !! tid with
      | Some (Checking k d) =>
          Some match check_limits c m k with
               | CanCreate => mk_psys pw (start_connect m) (<[tid := Connecting k]> ts) t n l o
               | _ => if d <=? t
                      then mk_psys pw (acquire_timeout m k) (<[tid := Finished]> ts) t n l o
                      else mk_psys pw (await_notified m k tid).1
                             (<[tid := after_await k d (await_notified m k tid).2]> ts)
                             t n l o
               end
      | _ => None
      end
  | AResume tid =>
      match ts !! tid with
      | Some (Woken k d) => Some (mk_psys pw m (<[tid := Popping k d]> ts) t n l o)
      | _ => None
      end
  | ATimeout tid =>
      match ts !! tid with
      | Some (WaitingFor k d) =>
          if d <=? t
          then Some (mk_psys pw (acquire_timeout (drop_waiting m k tid) k) (<[tid := Finished]> ts) t n l o)
          else None
      | Some (Woken k d) =>
          if d <=? t
          then Some (mk_psys pw (acquire_timeout (drop_notified m k).1 k)
                       (wake (drop_notified m k).2 (<[tid := Finished]> ts)) t n l o)
          else None
      | _ => None
      end
  | AConnect tid r =>
      match ts !! tid with
      | Some (Connecting k) =>
          match r with
          | ConnectOk =>
              match pw !! tid with
              | Some w => if accepts k w
                          then Some (mk_psys pw (connect_ok m k) (<[tid := Holding k n]> ts) t (n + 1)
                                       (<[n := HeldBy k tid]> l) (<[n := k]> o))
                          else None
              | None => None
              end
          | ConnectErr => Some (mk_psys pw (connect_err m k) (<[tid := Finished]> ts) t n l o)
          | ConnectPanic => Some (mk_psys pw m (<[tid := Panicked]> ts) t n l o)
          end
      | _ => None
      end
  | ARelease tid =>
      match ts !! tid with
      | Some (Holding k s) =>
          let '(m', known) := release_begin m k in
          Some (if known
                then mk_psys pw m' (<[tid := Resetting k s]> ts) t n (<[s := ResetBy k tid]> l) o
                else mk_psys pw m' (<[tid := Finished]> ts) t n (delete s l) o)
      | _ => None
      end
  | ADrop tid =>
      match ts !! tid with
      | Some (Holding k s) => Some (mk_psys pw m (<[tid := Finished]> ts) t n (<[s := Leaked k]> l) o)
      | _ => None
      end
  | AReset tid clean =>
      match ts !! tid with
      | Some (Resetting k s) =>
          Some (if clean
                then mk_psys pw (release_ok t m k s).1
                       (wake (release_ok t m k s).2 (<[tid := Finished]> ts)) t n (<[s := InPool k]> l) o
                else mk_psys pw (release_err m) (<[tid := Finished]> ts) t n (delete s l) o)
      | _ => None
      end
  | ATick t' => if t <=? t' then Some (mk_psys pw m ts t' n l o) else None
  end.

Fixpoint run (c : PoolConfig) (accepts : PoolKey → str → bool) (l : list action) (σ : psys) : option psys :=
  match l with
  | [] => Some σ
  | a :: r => exec c accepts a σ ≫= run c accepts r
  end.

Lemma exec_sound c acc a σ σ' : exec c acc a σ = Some σ' → pstep c acc σ σ'.
Proof.
  destruct σ as [pw m ts t n l o], a; simpl; intros H; repeat case_match; simplify_eq; try done;
    first [ by_rule st_start | by_rule st_pop_hit | by_rule st_pop_miss | by_rule st_create
          | by_rule st_full_expired | by_rule st_full_wait | by_rule st_timeout | by_rule st_woken
          | by_rule st_woken_timeout | by_rule st_connected | by_rule st_connect_err | by_rule st_connect_panic | by_rule st_release
          | by_rule st_release_gone | by_rule st_drop | by_rule st_reset_ok | by_rule st_reset_err
          | by_rule st_tick ].
Qed.

Lemma exec_complete c acc σ σ' : pstep c acc σ σ' → ∃ a, exec c acc a σ = Some σ'.
Proof.
  destruct 1;
    [exists (AStart tid k w)|exists (APop tid)|exists (APop tid)|exists (ACheck tid)|exists (ACheck tid)
    |exists (ACheck tid)|exists (ATimeout tid)|exists (AResume tid)|exists (ATimeout tid)
    |exists (AConnect tid ConnectOk)|exists (AConnect tid ConnectErr)|exists (AConnect tid ConnectPanic)|exists (ARelease tid)|exists (ARelease tid)
    |exists (ADrop tid)|exists (AReset tid true)|exists (AReset tid false)|exists (ATick t')];
    simpl; repeat match goal with E : _ = _ |- _ => rewrite E end;
    rewrite ?(proj2 (Z.leb_le _ _)) by done; rewrite ?(proj2 (Z.leb_gt _ _)) by done; try done;
    by destruct (check_limits c m k).
Qed.

Lemma run_sound c acc l σ σ' : run c acc l σ = Some σ' → rtc (pstep c acc) σ σ'.
Proof.
  revert σ. induction l as [|a l IH]; intros σ; simpl; [intros [= ->]; apply rtc_refl|].
  destruct (exec c acc a σ) as [σ1|] eqn:E; [|done]. simpl. intros H.
  eapply rtc_l; [by eapply exec_sound|by apply IH].
Qed.

End steps.

(** ** Invariant: pools against places *)

Section invariant.
Context {Nt : Notify}.

Definition streams (p : Pool) : list Z := pc_stream <$> idle p.
(** The connections [active_count] of a key counts. *)
Definition active_at (k : PoolKey) (p : place) : bool :=
  match p with HeldBy k' _ | Leaked k' => bool_decide (k = k') | _ => false end.
Definition anywhere (p : place) : bool := true.

Record pools_ok (t : Z) (m : PoolManager) (l : gmap Z place) : Prop := {
  po_idle : ∀ k s, l !! s = Some (InPool k) ↔ s ∈ streams (pool_at m k);
  po_nodup : ∀ k, NoDup (streams (pool_at m k));
  po_total : total_server_connections m = u64_wrap (cnt anywhere l);
  po_active : ∀ k, active_count (pool_at m k) = u64_wrap (cnt (active_at k) l);
  po_stamp : ∀ k x, x ∈ idle (pool_at m k) → created_at x = last_used x ∧ last_used x ≤ t
}.

(** ** Invariant: tasks against places *)

Definition task_place (tid : nat) (t : task) : option (Z * place) :=
  match t with
  | Holding k s => Some (s, HeldBy k tid)
  | Resetting k s => Some (s, ResetBy k tid)
  | _ => None
  end.

Definition tasks_ok (ts : gmap nat task) (l : gmap Z place) : Prop :=
  ∀ tid t s p, task_place tid t = Some (s, p) → (ts !! tid = Some t ↔ l !! s = Some p).

Record pinv (σ : psys) : Prop := {
  pi_pools : pools_ok (now σ) (mgr σ) (loc σ);
  pi_tasks : tasks_ok (tasks σ) (loc σ);
  pi_fresh : ∀ s, is_Some (loc σ !! s) → s < next_stream σ;
  pi_origin : ∀ s p, loc σ !! s = Some p → origin σ !! s = Some (place_key p);
  pi_known : ∀ s p, loc σ !! s = Some p → is_Some (pools (mgr σ) !! place_key p)
}.

(** ** Preservation: pools against places *)

(** What an operation does to the counters: the pool of [k] now has idle list
    [i] and active count [a], the total is [T], the other pools keep theirs. *)
Record upd (m m' : PoolManager) (k : PoolKey) (i : list PooledConnection) (a T : Z) : Prop := {
  up_idle : idle (pool_at m' k) = i;
  up_active : active_count (pool_at m' k) = a;
  up_total : total_server_connections m' = T;
  up_other : ∀ k', k' ≠ k → idle (pool_at m' k') = idle (pool_at m k')
                            ∧ active_count (pool_at m' k') = active_count (pool_at m k')
}.

Lemma pool_at_set m k p k' :
  pool_at (set_pool m k p) k' = if decide (k' = k) then p else pool_at m k'.
Proof.
  unfold pool_at. simpl. case_decide; subst.
  - by rewrite lookup_insert_eq.
  - by rewrite lookup_insert_ne by congruence.
Qed.
Lemma pool_at_metrics m x k : pool_at (set_metrics m x) k = pool_at m k.
Proof. done. Qed.
Lemma pool_at_total m x k : pool_at (set_total m x) k = pool_at m k.
Proof. done. Qed.
Lemma pool_at_drop m k : pool_at (drop_connection m) k = pool_at m k.
Proof. done. Qed.
End invariant.

Create Rewrite HintDb pool_at.
#[export] Hint Rewrite @pool_at_set @pool_at_metrics @pool_at_total @pool_at_drop : pool_at.

(** Unfolds an operation made of record updates. *)
Ltac pool_simpl :=
  intros; simpl; autorewrite with pool_at; simpl;
  repeat (case_decide; subst; autorewrite with pool_at; simpl);
  try contradiction; try done.

Section same.
Context {Nt : Notify}.


(** Operations that touch neither idle lists nor active counts nor the total. *)
Definition same (m m' : PoolManager) : Prop :=
  total_server_connections m' = total_server_connections m
  ∧ ∀ k, idle (pool_at m' k) = idle (pool_at m k)
         ∧ active_count (pool_at m' k) = active_count (pool_at m k).

Lemma same_trans m m' m'' : same m m' → same m' m'' → same m m''.
Proof.
  intros [E H] [E' H']. split; [congruence|]. intros k.
  destruct (H k), (H' k). split; congruence.
Qed.
Lemma same_refl m : same m m.
Proof. by split. Qed.
Lemma same_set m k p :
  idle p = idle (pool_at m k) → active_count p = active_count (pool_at m k) → same m (set_pool m k p).
Proof. intros Hi Ha. split; [done|]. pool_simpl. Qed.
Lemma pool_entry_same m k : same m (pool_entry m k).
Proof.
  unfold pool_entry. destruct (pools m !! k) eqn:E; [apply same_refl|].
  apply same_set; unfold pool_at; by rewrite E.
Qed.
Lemma acquire_timeout_same m m' k : same m m' → same m (acquire_timeout m' k).
Proof. intros H. eapply same_trans; [exact H|]. by apply (same_set m' k). Qed.
Lemma start_connect_same m : same m (start_connect m).
Proof. by split. Qed.
Lemma connect_err_same m k : same m (connect_err m k).
Proof. by apply (same_set m k). Qed.
Lemma await_notified_same m k t : same m (await_notified m k t).1.
Proof. unfold await_notified. case_match; by apply same_set. Qed.
Lemma drop_waiting_same m k t : same m (drop_waiting m k t).
Proof. by apply same_set. Qed.
Lemma drop_notified_same m k : same m (drop_notified m k).1.
Proof. unfold drop_notified. case_match; by apply same_set. Qed.
End same.

#[export] Hint Resolve same_refl pool_entry_same acquire_timeout_same start_connect_same
  connect_err_same await_notified_same drop_waiting_same drop_notified_same : pgmux.

Section moves.
Context {Nt : Notify}.


Lemma pools_ok_same t t' m m' l : t ≤ t' → same m m' → pools_ok t m l → pools_ok t' m' l.
Proof.
  intros Ht [Htot Hk] [H1 H2 H3 H4 H5]. unfold streams in *. split; unfold streams.
  - intros k s. by rewrite (proj1 (Hk k)).
  - intros k. by rewrite (proj1 (Hk k)).
  - congruence.
  - intros k. rewrite (proj2 (Hk k)). apply H4.
  - intros k x. rewrite (proj1 (Hk k)). intros Hx. destruct (H5 k x Hx). lia.
Qed.

(** The step every other operation makes: one stream [s] changes its place, in
    the pool of [k] at most. *)
Lemma pools_ok_move t m m' l l' k s i a T :
  upd m m' k i a T →
  pools_ok t m l →
  (∀ s', s' ≠ s → l' !! s' = l !! s') →
  (∀ s', s' ≠ s → s' ∈ (pc_stream <$> i) ↔ s' ∈ streams (pool_at m k)) →
  (l' !! s = Some (InPool k) ↔ s ∈ (pc_stream <$> i)) →
  (∀ k', k' ≠ k → l !! s ≠ Some (InPool k') ∧ l' !! s ≠ Some (InPool k')) →
  NoDup (pc_stream <$> i) →
  (∀ x, x ∈ i → created_at x = last_used x ∧ last_used x ≤ t) →
  T = u64_wrap (cnt anywhere l') →
  a = u64_wrap (cnt (active_at k) l') →
  (∀ k', k' ≠ k → cnt (active_at k') l' = cnt (active_at k') l) →
  pools_ok t m' l'.
Proof.
  intros [U1 U2 U3 U4] [H1 H2 H3 H4 H5] Hl Hi Hs Ho Hnd Hst HT Ha Hao.
  split; unfold streams in *.
  - intros k' s'. destruct (decide (k' = k)) as [->|Hk].
    + rewrite U1. destruct (decide (s' = s)) as [->|Hs']; [done|].
      rewrite Hl, Hi by done. apply H1.
    + rewrite (proj1 (U4 _ Hk)). destruct (decide (s' = s)) as [->|Hs'].
      * destruct (Ho _ Hk) as [Ho1 Ho2]. rewrite <-H1. by split.
      * rewrite Hl by done. apply H1.
  - intros k'. destruct (decide (k' = k)) as [->|Hk]; [by rewrite U1|].
    by rewrite (proj1 (U4 _ Hk)).
  - congruence.
  - intros k'. destruct (decide (k' = k)) as [->|Hk]; [congruence|].
    rewrite (proj2 (U4 _ Hk)), Hao by done. apply H4.
  - intros k' x. destruct (decide (k' = k)) as [->|Hk]; [rewrite U1; apply Hst|].
    rewrite (proj1 (U4 _ Hk)). apply H5.
Qed.

(** Counters after one place changed. *)
Lemma wrap_succ z y : y = u64_wrap z → fetch_add1 y = u64_wrap (z + 1).
Proof. intros ->. apply u64_wrap_add. Qed.
Lemma wrap_pred z y : y = u64_wrap z → fetch_sub1 y = u64_wrap (z - 1).
Proof. intros ->. unfold fetch_sub1. rewrite <-Z.add_opp_r. by rewrite u64_wrap_add, Z.add_opp_r. Qed.
Lemma active_at_eq k b : active_at k (HeldBy k b) = true ∧ active_at k (Leaked k) = true.
Proof. simpl. by rewrite bool_decide_eq_true_2. Qed.
Lemma active_at_ne k k' b : k' ≠ k → active_at k' (HeldBy k b) = false ∧ active_at k' (Leaked k) = false.
Proof. intros. simpl. by rewrite bool_decide_eq_false_2. Qed.
End moves.

Ltac active_simpl :=
  repeat first
    [ rewrite (proj1 (active_at_eq _ _)) | rewrite (proj2 (active_at_eq _ O))
    | rewrite (proj1 (active_at_ne _ _ _ ltac:(eassumption)))
    | rewrite (proj2 (active_at_ne _ _ O ltac:(eassumption))) ];
  cbn [active_at anywhere b2z].

Section counted.
Context {Nt : Notify}.


Lemma idle_head t m l k x r :
  idle (pool_at m k) = x :: r → pools_ok t m l →
  l !! pc_stream x = Some (InPool k) ∧ (pc_stream x ∉ pc_stream <$> r) ∧ NoDup (pc_stream <$> r)
  ∧ (∀ y, y ∈ r → created_at y = last_used y ∧ last_used y ≤ t)
  ∧ (∀ s', s' ≠ pc_stream x → s' ∈ (pc_stream <$> r) ↔ s' ∈ streams (pool_at m k)).
Proof.
  intros Hi [H1 H2 _ _ H5]. specialize (H1 k (pc_stream x)). specialize (H2 k). specialize (H5 k).
  unfold streams in *. rewrite Hi in *. simpl in *. apply NoDup_cons in H2 as [? ?].
  split_and!; try done.
  - apply H1, list_elem_of_here.
  - intros y Hy. apply H5. by right.
  - intros. rewrite elem_of_cons. naive_solver.
Qed.

(** The pop loop drops an expired connection. *)
Lemma pools_ok_evict t m l k x r :
  idle (pool_at m k) = x :: r → pools_ok t m l →
  pools_ok t (set_pool (drop_connection m) k (set_idle (pool_at m k) r)) (delete (pc_stream x) l).
Proof.
  intros Hi H. destruct (idle_head _ _ _ _ _ _ Hi H) as (Hp & Hx & Hnd & Hst & Hin).
  apply (pools_ok_move t m _ l _ k (pc_stream x) r (active_count (pool_at m k))
           (fetch_sub1 (total_server_connections m))); try done.
  - unfold connect_ok; split; pool_simpl.
  - intros. by rewrite lookup_delete_ne.
  - by rewrite lookup_delete_eq.
  - rewrite lookup_delete_eq, Hp. naive_solver.
  - rewrite (cnt_delete _ _ _ _ Hp). by apply wrap_pred, (po_total _ _ _ H).
  - rewrite (cnt_delete _ _ _ _ Hp), Z.sub_0_r. apply (po_active _ _ _ H).
  - intros. rewrite (cnt_delete _ _ _ _ Hp). apply Z.sub_0_r.
Qed.

(** [acquire] takes the first usable one. *)
Lemma pools_ok_take t m m' l k x r tid :
  idle (pool_at m k) = x :: r → pools_ok t m l →
  upd m m' k r (fetch_add1 (active_count (pool_at m k))) (total_server_connections m) →
  pools_ok t m' (<[pc_stream x := HeldBy k tid]> l).
Proof.
  intros Hi H Hu. destruct (idle_head _ _ _ _ _ _ Hi H) as (Hp & Hx & Hnd & Hst & Hin).
  apply (pools_ok_move t m _ l _ k (pc_stream x) _ _ _ Hu); try done.
  - intros. by rewrite lookup_insert_ne.
  - by rewrite lookup_insert_eq.
  - rewrite lookup_insert_eq, Hp. naive_solver.
  - rewrite (cnt_update _ _ _ _ _ Hp), (po_total _ _ _ H). f_equal. simpl. lia.
  - rewrite (cnt_update _ _ _ _ _ Hp). active_simpl. rewrite Z.sub_0_r. by apply wrap_succ, (po_active _ _ _ H).
  - intros. rewrite (cnt_update _ _ _ _ _ Hp). active_simpl. lia.
Qed.

(** A new connection. *)
Lemma pools_ok_connect t m l k n tid :
  l !! n = None → pools_ok t m l → pools_ok t (connect_ok m k) (<[n := HeldBy k tid]> l).
Proof.
  intros Hn H.
  assert (Hni : ∀ k', n ∉ streams (pool_at m k')).
  { intros k' Hin. apply (po_idle _ _ _ H) in Hin. congruence. }
  eapply (pools_ok_move t m _ l _ k n (idle (pool_at m k))
           (fetch_add1 (active_count (pool_at m k))) (fetch_add1 (total_server_connections m)));
    try apply H; try done.
  - unfold connect_ok; split; pool_simpl.
  - intros. by rewrite lookup_insert_ne.
  - rewrite lookup_insert_eq. split; [done|]. intros []%Hni.
  - rewrite lookup_insert_eq, Hn. naive_solver.
  - rewrite cnt_insert_fresh by done. apply wrap_succ, (po_total _ _ _ H).
  - rewrite cnt_insert_fresh by done. active_simpl. apply wrap_succ, (po_active _ _ _ H).
  - intros. rewrite cnt_insert_fresh by done. active_simpl. lia.
Qed.

(** A connection outside the pools moves within or out of the program. *)
Lemma pools_ok_outside t m m' l k s p p' a T :
  l !! s = Some p → place_key p = k → (∀ k', p ≠ InPool k') →
  match p' with Some q => place_key q = k ∧ ∀ k', q ≠ InPool k' | None => True end →
  pools_ok t m l →
  upd m m' k (idle (pool_at m k)) a T →
  T = u64_wrap (cnt anywhere (partial_alter (λ _, p') s l)) →
  a = u64_wrap (cnt (active_at k) (partial_alter (λ _, p') s l)) →
  pools_ok t m' (partial_alter (λ _, p') s l).
Proof.
  intros Hp Hk Hno Hq H Hu HT Ha.
  assert (Hni : ∀ k', s ∉ streams (pool_at m k')).
  { intros k' Hin. apply (po_idle _ _ _ H) in Hin. naive_solver. }
  apply (pools_ok_move t m _ l _ k s _ _ _ Hu); try apply H; try done.
  - intros. by rewrite lookup_partial_alter_ne.
  - rewrite lookup_partial_alter_eq. split; [|intros []%Hni]. intros ->. naive_solver.
  - intros k' Hk'. rewrite lookup_partial_alter_eq, Hp. destruct p'; naive_solver.
  - intros k' Hk'. destruct p' as [q|].
    + change (partial_alter (λ _, Some q) s l) with (<[s := q]> l).
      rewrite (cnt_update _ _ _ _ _ Hp). destruct Hq as [Hq _]. subst k.
      destruct p, q; simpl in *; subst; rewrite ?bool_decide_eq_false_2 by done; simpl; lia.
    + change (partial_alter (λ _, None) s l) with (delete s l).
      rewrite (cnt_delete _ _ _ _ Hp). subst k.
      destruct p; simpl in *; rewrite ?bool_decide_eq_false_2 by done; simpl; lia.
Qed.

Lemma pools_ok_begin t m l k s tid p :
  l !! s = Some (HeldBy k tid) → pools m !! k = Some p → pools_ok t m l →
  pools_ok t (set_pool m k (set_active p (fetch_sub1 (active_count p)))) (<[s := ResetBy k tid]> l).
Proof.
  intros Hp Hk H.
  assert (Hpk : p = pool_at m k) by (unfold pool_at; by rewrite Hk). subst p.
  apply (pools_ok_outside t m _ l k s _ _ (fetch_sub1 (active_count (pool_at m k)))
           (total_server_connections m) Hp); try done; try change (partial_alter (λ _, Some (ResetBy k tid)) s l) with (<[s := ResetBy k tid]> l).
  - split; pool_simpl.
  - rewrite (cnt_update _ _ _ _ _ Hp), (po_total _ _ _ H). f_equal. simpl. lia.
  - rewrite (cnt_update _ _ _ _ _ Hp). active_simpl. rewrite Z.add_0_r.
    apply wrap_pred, (po_active _ _ _ H).
Qed.

Lemma pools_ok_leak t m l k s tid :
  l !! s = Some (HeldBy k tid) → pools_ok t m l → pools_ok t m (<[s := Leaked k]> l).
Proof.
  intros Hp H.
  apply (pools_ok_outside t m _ l k s _ _ (active_count (pool_at m k))
           (total_server_connections m) Hp); try done; try change (partial_alter (λ _, Some (Leaked k)) s l) with (<[s := Leaked k]> l).
  - rewrite (cnt_update _ _ _ _ _ Hp), (po_total _ _ _ H). f_equal. simpl. lia.
  - rewrite (cnt_update _ _ _ _ _ Hp), (po_active _ _ _ H). active_simpl. f_equal. lia.
Qed.

Lemma pools_ok_close t m l k s tid :
  l !! s = Some (ResetBy k tid) → pools_ok t m l → pools_ok t (release_err m) (delete s l).
Proof.
  intros Hp H.
  apply (pools_ok_outside t m _ l k s _ _ (active_count (pool_at m k))
           (fetch_sub1 (total_server_connections m)) Hp); try done; try change (partial_alter (λ _, None) s l) with (delete s l).
  - rewrite (cnt_delete _ _ _ _ Hp). apply wrap_pred, (po_total _ _ _ H).
  - rewrite (cnt_delete _ _ _ _ Hp), (po_active _ _ _ H). f_equal. simpl. lia.
Qed.

(** [release] puts the connection at the end of the queue. *)
Lemma pools_ok_return t m l k s tid :
  l !! s = Some (ResetBy k tid) → pools_ok t m l →
  pools_ok t (release_ok t m k s).1 (<[s := InPool k]> l).
Proof.
  intros Hp H.
  assert (Hni : ∀ k', s ∉ streams (pool_at m k')).
  { intros k' Hin. apply (po_idle _ _ _ H) in Hin. congruence. }
  apply (pools_ok_move t m _ l _ k s (idle (pool_at m k) ++ [mk_PooledConnection s t t])
           (active_count (pool_at m k)) (total_server_connections m)); try done.
  - unfold release_ok. case_match. split; pool_simpl.
  - intros. by rewrite lookup_insert_ne.
  - intros s' Hs. rewrite fmap_app, elem_of_app. simpl. rewrite list_elem_of_singleton. naive_solver.
  - rewrite lookup_insert_eq, fmap_app, elem_of_app. split; [|done]. intros _. right. apply list_elem_of_here.
  - intros k' Hk'. rewrite lookup_insert_eq, Hp. naive_solver.
  - rewrite fmap_app. apply NoDup_app. split; [apply (po_nodup _ _ _ H)|]. simpl. split.
    + intros s' Hs ->%list_elem_of_singleton. by apply (Hni k).
    + apply NoDup_singleton.
  - intros x [Hx| ->%list_elem_of_singleton]%elem_of_app; [by apply (po_stamp _ _ _ H k)|done].
  - rewrite (cnt_update _ _ _ _ _ Hp), (po_total _ _ _ H). f_equal. simpl. lia.
  - rewrite (cnt_update _ _ _ _ _ Hp), (po_active _ _ _ H). f_equal. simpl. lia.
  - intros. rewrite (cnt_update _ _ _ _ _ Hp). simpl. lia.
Qed.

(** ** The pop loop *)

Lemma pop_scan_split c t l :
  l = take (pop_scan c t l).1.1 l ++ option_list (pop_scan c t l).1.2 ++ (pop_scan c t l).2
  ∧ (∀ x, x ∈ take (pop_scan c t l).1.1 l → expired c t x = true)
  ∧ match (pop_scan c t l).1.2 with
    | Some x => expired c t x = false
    | None => (pop_scan c t l).2 = []
    end.
Proof.
  induction l as [|x l IH]; simpl; [set_solver|].
  destruct (expired c t x) eqn:E; simpl.
  - destruct (pop_scan c t l) as [[n o] r]. simpl in *. destruct IH as (IH1 & IH2 & IH3).
    split_and!; [by rewrite <-IH1| |done]. intros y [->|Hy]%elem_of_cons; auto.
  - split_and!; [done|set_solver|done].
Qed.

Lemma pop_scan_length c t l : length (take (pop_scan c t l).1.1 l) = (pop_scan c t l).1.1.
Proof.
  induction l as [|x l IH]; [done|]. simpl. case_match; [|done].
  destruct (pop_scan c t l) as [[n o] r]. simpl in *. by rewrite IH.
Qed.

Lemma iter_drop_set n m k p :
  Nat.iter n drop_connection (set_pool m k p) = set_pool (Nat.iter n drop_connection m) k p.
Proof. induction n as [|n IH]; [done|]. simpl. by rewrite IH. Qed.
Lemma set_pool_twice m k p q : set_pool (set_pool m k p) k q = set_pool m k q.
Proof. unfold set_pool. simpl. by rewrite insert_insert_eq. Qed.
Lemma iter_drop_pool_at n m k : pool_at (Nat.iter n drop_connection m) k = pool_at m k.
Proof. by induction n. Qed.
End counted.

#[export] Hint Rewrite @iter_drop_pool_at : pool_at.

Section pop.
Context {Nt : Notify}.



Lemma pools_ok_evict_all t ev m l k rest :
  idle (pool_at m k) = ev ++ rest → pools_ok t m l →
  pools_ok t (set_pool (Nat.iter (length ev) drop_connection m) k (set_idle (pool_at m k) rest))
    (forget (pc_stream <$> ev) l).
Proof.
  revert m l. induction ev as [|x ev IH]; intros m l Hi H; simpl.
  - apply (pools_ok_same t t m); [lia| |done]. by apply same_set.
  - pose proof (pools_ok_evict t m l k x (ev ++ rest) Hi H) as H'.
    apply IH in H'; [|by pool_simpl].
    rewrite iter_drop_set, set_pool_twice in H'. autorewrite with pool_at in H'.
    rewrite decide_True in H' by done.
    by rewrite <-Nat.iter_succ_r in H'.
Qed.

Lemma lookup_forget ss l s :
  forget ss l !! s = if decide (s ∈ ss) then None else l !! s.
Proof.
  revert l. induction ss as [|x ss IH]; intros l; [done|].
  change (forget (x :: ss) l) with (forget ss (delete x l)). rewrite IH. repeat case_decide; rewrite ?elem_of_cons in *; try naive_solver.
  - destruct (decide (s = x)) as [->|]; [by rewrite lookup_delete_eq|naive_solver].
  - rewrite lookup_delete_ne; naive_solver.
Qed.

Lemma pop_idle_ok c t m k m' o l :
  pop_idle c t m k = (m', o) → pools_ok t m l →
  let l' := forget (evicted c t (idle (pool_at m k))) l in
  match o with
  | Some s => l' !! s = Some (InPool k) ∧ ∀ tid, pools_ok t m' (<[s := HeldBy k tid]> l')
  | None => pools_ok t m' l'
  end.
Proof.
  unfold pop_idle, evicted. intros E H. destruct (pop_scan_split c t (idle (pool_at m k))) as (Hl & _ & Hr).
  destruct (pop_scan c t (idle (pool_at m k))) as [[n q] r] eqn:Eq. simpl in Hl, Hr |- *.
  pose proof (pop_scan_length c t (idle (pool_at m k))) as Hn. rewrite Eq in Hn. simpl in Hn.
  pose proof (pools_ok_evict_all t _ _ _ _ _ Hl H) as H'. rewrite Hn in H'.
  destruct q as [x|]; simplify_eq/=.
  - set (m1 := set_pool _ k _) in H'.
    assert (Hi : idle (pool_at m1 k) = x :: r) by (subst m1; pool_simpl).
    split; [apply (idle_head _ _ _ _ _ _ Hi H')|].
    intros tid. apply (pools_ok_take t m1 _ _ k x r); try done. subst m1. split; pool_simpl.
  - apply H'.
Qed.

(** ** Preservation: tasks against places *)

Lemma task_place_inv tid t s p :
  task_place tid t = Some (s, p) →
  (∃ k, t = Holding k s ∧ p = HeldBy k tid) ∨ (∃ k, t = Resetting k s ∧ p = ResetBy k tid).
Proof. destruct t; naive_solver. Qed.
Definition owner (p : place) : option nat :=
  match p with HeldBy _ tid | ResetBy _ tid => Some tid | _ => None end.
Lemma task_place_owner_eq tid t s p : task_place tid t = Some (s, p) → owner p = Some tid.
Proof. by intros [(?&?&->)|(?&?&->)]%task_place_inv. Qed.

(** One task and the stream it has, had, or gets. *)
Lemma tasks_ok_upd ts ts' l l' tid s :
  tasks_ok ts l →
  (∀ i, i ≠ tid → ts' !! i = ts !! i) → (∀ j, j ≠ s → l' !! j = l !! j) →
  (∀ t s' p, ts !! tid = Some t → task_place tid t = Some (s', p) → s' = s) →
  (∀ t s' p, ts' !! tid = Some t → task_place tid t = Some (s', p) → s' = s) →
  (∀ p i, l !! s = Some p → owner p = Some i → i = tid) →
  (∀ p i, l' !! s = Some p → owner p = Some i → i = tid) →
  (∀ t p, task_place tid t = Some (s, p) → (ts' !! tid = Some t ↔ l' !! s = Some p)) →
  tasks_ok ts' l'.
Proof.
  intros H Ht Hl C1 C2 C3 C4 C5 tid' t s' p Hp. pose proof (task_place_owner_eq _ _ _ _ Hp) as Ho.
  destruct (decide (tid' = tid)) as [->|Hi], (decide (s' = s)) as [->|Hs].
  - by apply C5.
  - rewrite Hl, <-(H _ _ _ _ Hp) by done. split; intros; exfalso; apply Hs; eauto.
  - rewrite Ht, (H _ _ _ _ Hp) by done. split; intros; exfalso; apply Hi; eauto.
  - rewrite Ht, Hl by done. by apply H.
Qed.

(** A task without a stream goes on without one. *)
Lemma tasks_ok_plain ts l tid t :
  tasks_ok ts l → (∀ t0, ts !! tid = Some t0 → task_place tid t0 = None) → task_place tid t = None →
  tasks_ok (<[tid := t]> ts) l.
Proof.
  intros H Hold Hnew tid' t' s p Hp. destruct (decide (tid' = tid)) as [->|Hi].
  - rewrite lookup_insert_eq, <-(H _ _ _ _ Hp). split; [naive_solver|].
    intros E. specialize (Hold _ E). congruence.
  - rewrite lookup_insert_ne by done. by apply H.
Qed.

Lemma tasks_ok_wake ts l o : tasks_ok ts l → tasks_ok (wake o ts) l.
Proof.
  intros H. destruct o as [tid|]; [|done]. simpl. repeat case_match; try done.
  apply tasks_ok_plain; naive_solver.
Qed.

Lemma tasks_ok_forget ts l ss :
  tasks_ok ts l → (∀ s, s ∈ ss → ∃ k, l !! s = Some (InPool k)) → tasks_ok ts (forget ss l).
Proof.
  intros H Hss tid t s p Hp. rewrite lookup_forget, (H _ _ _ _ Hp). case_decide as Hs; [|done].
  destruct (Hss _ Hs) as [k Hk]. apply task_place_inv in Hp. naive_solver.
Qed.

(** A task takes a stream nobody owns. *)
Lemma tasks_ok_gain ts l tid k s :
  tasks_ok ts l → (∀ t0, ts !! tid = Some t0 → task_place tid t0 = None) →
  (∀ p, l !! s = Some p → owner p = None) →
  tasks_ok (<[tid := Holding k s]> ts) (<[s := HeldBy k tid]> l).
Proof.
  intros H Hold Hs.
  apply (tasks_ok_upd ts _ l _ tid s H); intros;
    rewrite ?lookup_insert_eq, ?lookup_insert_ne in * by done; simplify_eq/=; try naive_solver.
  match goal with Hp : task_place _ _ = _ |- _ => apply task_place_inv in Hp end; naive_solver.
Qed.

(** The owner of a stream moves on, with the stream or without it. *)
Lemma tasks_ok_own ts l tid t t' s p p' :
  tasks_ok ts l → ts !! tid = Some t → task_place tid t = Some (s, p) →
  match p' with
  | Some q => task_place tid t' = Some (s, q) ∨ task_place tid t' = None ∧ owner q = None
  | None => task_place tid t' = None
  end →
  tasks_ok (<[tid := t']> ts) (partial_alter (λ _, p') s l).
Proof.
  intros H Ht Hp Hp'. pose proof (proj1 (H _ _ _ _ Hp) Ht) as Hl.
  pose proof (task_place_owner_eq _ _ _ _ Hp) as Ho.
  apply (tasks_ok_upd ts _ l _ tid s H).
  - intros i Hi. by rewrite lookup_insert_ne.
  - intros j Hj. by rewrite lookup_partial_alter_ne.
  - naive_solver.
  - intros t0 s' q. rewrite lookup_insert_eq. destruct p'; naive_solver.
  - naive_solver.
  - intros q i. rewrite lookup_partial_alter_eq. intros -> Ho'. destruct Hp' as [Hq|[_ Hq]]; [|congruence].
    apply task_place_owner_eq in Hq. congruence.
  - intros t0 q Hq. rewrite lookup_insert_eq, lookup_partial_alter_eq.
    destruct p' as [q'|]; [destruct Hp' as [Hq'|[Hq' Hno]]|]; split; intros E; simplify_eq; try done.
    + apply task_place_inv in Hq as [(?&->&->)|(?&->&->)], Hq' as [(?&->&[=])|(?&->&[=])]; by subst.
    + apply task_place_owner_eq in Hq. congruence.
Qed.

(** ** Every step preserves the invariant *)

(** Pools are never removed. *)
Definition grows (m m' : PoolManager) : Prop :=
  ∀ k, is_Some (pools m !! k) → is_Some (pools m' !! k).
Lemma grows_refl m : grows m m.
Proof. by intros k. Qed.
Lemma grows_set m m0 k p : pools m0 = pools m → grows m (set_pool m0 k p).
Proof. intros E k' H. simpl. rewrite E, lookup_insert. case_decide; eauto. Qed.
Lemma grows_set2 m k p k' p' : grows m (set_pool (set_pool m k p) k' p').
Proof. intros k0 H. simpl. rewrite !lookup_insert. repeat case_decide; eauto. Qed.
Lemma iter_drop_pools n m : pools (Nat.iter n drop_connection m) = pools m.
Proof. by induction n. Qed.
Lemma pool_entry_grows m k : grows m (pool_entry m k).
Proof. unfold pool_entry. case_match; [apply grows_refl|by apply grows_set]. Qed.
Lemma pop_idle_grows c t m k : grows m (pop_idle c t m k).1.
Proof.
  unfold pop_idle. repeat case_match; simpl; apply grows_set, iter_drop_pools.
Qed.
Lemma await_notified_grows m k t : grows m (await_notified m k t).1.
Proof. unfold await_notified. case_match; by apply grows_set. Qed.
Lemma release_ok_grows t m k s : grows m (release_ok t m k s).1.
Proof. unfold release_ok. case_match; by apply grows_set. Qed.
Lemma release_begin_grows m k : grows m (release_begin m k).1.
Proof. unfold release_begin. case_match; [by apply grows_set|by intros k0]. Qed.
Lemma acquire_timeout_grows m m' k : grows m m' → grows m (acquire_timeout m' k).
Proof. intros H k' Hk. by apply (grows_set m' m' k _ eq_refl), H. Qed.
Lemma drop_notified_grows m k : grows m (drop_notified m k).1.
Proof. unfold drop_notified. case_match; by apply grows_set. Qed.
Lemma start_connect_grows m : grows m (start_connect m).
Proof. by intros k. Qed.
Lemma connect_err_grows m k : grows m (connect_err m k).
Proof. apply (grows_set m m k _ eq_refl). Qed.
Lemma drop_waiting_grows m k t : grows m (drop_waiting m k t).
Proof. by apply grows_set. Qed.
End pop.

#[export] Hint Resolve start_connect_grows connect_err_grows drop_waiting_grows : pgmux.
#[export] Hint Resolve grows_refl grows_set grows_set2 pool_entry_grows pop_idle_grows await_notified_grows
  release_ok_grows release_begin_grows acquire_timeout_grows drop_notified_grows : pgmux.

Section preserved.
Context {Nt : Notify}.


(** No place appears for a stream that had none, and none changes its key. *)
Definition narrows (l l' : gmap Z place) : Prop :=
  ∀ s p, l' !! s = Some p → ∃ q, l !! s = Some q ∧ place_key p = place_key q.
Lemma narrows_refl l : narrows l l.
Proof. intros s p. eauto. Qed.
Lemma narrows_forget ss l : narrows l (forget ss l).
Proof. intros s p. rewrite lookup_forget. case_decide; [done|eauto]. Qed.
Lemma narrows_alter l l0 s q q' :
  narrows l l0 → l0 !! s = Some q → place_key q' = place_key q → narrows l (<[s := q']> l0).
Proof.
  intros H Hq Hk s' p. rewrite lookup_insert. case_decide; [|apply H].
  intros [= <-]. subst. destruct (H _ _ Hq) as (q0 & ? & ?). exists q0. split; congruence.
Qed.
Lemma narrows_delete l s : narrows l (delete s l).
Proof. intros s' p. rewrite lookup_delete. case_decide; [done|eauto]. Qed.

Lemma pinv_step pw pw' m ts t n l o m' ts' t' l' :
  pinv (mk_psys pw m ts t n l o) →
  pools_ok t' m' l' → tasks_ok ts' l' → grows m m' → narrows l l' →
  pinv (mk_psys pw' m' ts' t' n l' o).
Proof.
  intros [_ _ Hf Ho Hk] Hp Ht Hg Hn. simpl in *. split; simpl; try done.
  - intros s [p Hs]. destruct (Hn _ _ Hs) as (q & Hq & _). eauto.
  - intros s p Hs. destruct (Hn _ _ Hs) as (q & Hq & ->). auto.
  - intros s p Hs. destruct (Hn _ _ Hs) as (q & Hq & ->). eauto.
Qed.

(** Steps of a task without a stream that leave the idle lists alone. *)
Lemma pinv_plain pw pw' m ts t n l o m' tid tk t' :
  pinv (mk_psys pw m ts t n l o) → t ≤ t' →
  (∀ t0, ts !! tid = Some t0 → task_place tid t0 = None) → task_place tid tk = None →
  same m m' → grows m m' →
  pinv (mk_psys pw' m' (<[tid := tk]> ts) t' n l o).
Proof.
  intros H Ht Hold Hnew Hs Hg. pose proof H as [Hp Hts _ _ _]. simpl in *.
  eapply pinv_step; [exact H| | |done|apply narrows_refl].
  - by eapply pools_ok_same.
  - by apply tasks_ok_plain.
Qed.

Lemma pinv_init : pinv psys_new.
Proof.
  split; simpl.
  - split; intros; simpl; unfold streams, pool_at; simpl; rewrite ?lookup_empty in *; simpl in *;
      rewrite ?cnt_empty; try done; try set_solver. apply NoDup_nil_2.
  - intros tid t s p _. by rewrite !lookup_empty.
  - intros s [p Hp]. by rewrite lookup_empty in Hp.
  - intros s p Hp. by rewrite lookup_empty in Hp.
  - intros s p Hp. by rewrite lookup_empty in Hp.
Qed.

Lemma evicted_in_pool c t t' m l k s :
  pools_ok t' m l → s ∈ evicted c t (idle (pool_at m k)) → l !! s = Some (InPool k).
Proof.
  intros Hp Hs. apply (po_idle _ _ _ Hp). unfold evicted in Hs. rewrite fmap_take in Hs.
  apply elem_of_take in Hs as (i & Hi & _). by eapply list_elem_of_lookup_2.
Qed.

Lemma pinv_pop c pw m ts t n l o tid k d m' q tk :
  pinv (mk_psys pw m ts t n l o) → ts !! tid = Some (Popping k d) → pop_idle c t m k = (m', q) →
  match q with Some s => tk = Holding k s | None => tk = Checking k d end →
  let l' := forget (evicted c t (idle (pool_at m k))) l in
  pinv (mk_psys pw m' (<[tid := tk]> ts) t n (match q with Some s => <[s := HeldBy k tid]> l' | None => l' end) o).
Proof.
  intros H Ht E Htk. pose proof H as [Hp Hts _ _ _]. simpl in *.
  pose proof (pop_idle_ok _ _ _ _ _ _ _ E Hp) as Hpop. simpl in Hpop.
  assert (Hts' : tasks_ok ts (forget (evicted c t (idle (pool_at m k))) l)).
  { apply tasks_ok_forget; [done|]. intros s Hs. exists k. by eapply evicted_in_pool. }
  assert (Hg : grows m m') by (pose proof (pop_idle_grows c t m k) as Hg; by rewrite E in Hg).
  destruct q as [s|]; subst tk.
  - destruct Hpop as [Hs Hpop]. eapply pinv_step; [exact H|done| |done|].
    + apply tasks_ok_gain; [done| |]; naive_solver.
    + eapply narrows_alter; [apply narrows_forget|exact Hs|done].
  - eapply pinv_step; [exact H|done| |done|apply narrows_forget]. apply tasks_ok_plain; naive_solver.
Qed.

Lemma pinv_connected pw m ts t n l o tid k :
  pinv (mk_psys pw m ts t n l o) → ts !! tid = Some (Connecting k) →
  pinv (mk_psys pw (connect_ok m k) (<[tid := Holding k n]> ts) t (n + 1) (<[n := HeldBy k tid]> l) (<[n := k]> o)).
Proof.
  intros [Hp Hts Hf Ho Hk] Ht. simpl in *.
  assert (Hn : l !! n = None).
  { destruct (l !! n) eqn:E; [|done]. specialize (Hf n (ex_intro _ _ E)). lia. }
  split; simpl.
  - by apply pools_ok_connect.
  - apply tasks_ok_gain; [done|naive_solver|]. by rewrite Hn.
  - intros s. rewrite lookup_insert. case_decide; [lia|]. intros Hs. specialize (Hf _ Hs). lia.
  - intros s p. rewrite !lookup_insert. case_decide; [naive_solver|]. apply Ho.
  - intros s p. rewrite !lookup_insert. case_decide; [intros [= <-]; simpl; case_decide; naive_solver|].
    intros Hs. case_decide; eauto.
Qed.

(** Steps of the owner of a stream. *)
Lemma pinv_own pw m ts t n l o m' tid tk tk' s p p' :
  pinv (mk_psys pw m ts t n l o) → ts !! tid = Some tk → task_place tid tk = Some (s, p) →
  match p' with
  | Some q => (task_place tid tk' = Some (s, q) ∨ task_place tid tk' = None ∧ owner q = None)
              ∧ place_key q = place_key p
  | None => task_place tid tk' = None
  end →
  grows m m' →
  (l !! s = Some p → pools_ok t m l → pools_ok t m' (partial_alter (λ _, p') s l)) →
  pinv (mk_psys pw m' (<[tid := tk']> ts) t n (partial_alter (λ _, p') s l) o).
Proof.
  intros H Ht Hp Hq Hg Hpo. pose proof H as [Hpools Hts _ _ _]. simpl in *.
  pose proof (proj1 (Hts _ _ _ _ Hp) Ht) as Hl.
  eapply pinv_step; [exact H|auto| |done|].
  - eapply tasks_ok_own; [done..|]. destruct p'; naive_solver.
  - destruct p'; [|apply narrows_delete].
    eapply narrows_alter; [apply narrows_refl|exact Hl|naive_solver].
Qed.

Ltac plain_step :=
  eapply pinv_plain; eauto with pgmux;
  first [ lia | naive_solver | idtac ].
(** The streams of [tid] are not known to the pools: the task owns [s]. *)
Ltac own_step H q :=
  eapply (pinv_own _ _ _ _ _ _ _ _ _ _ _ _ _ q H); [eassumption|reflexivity| | |].

Lemma pinv_woken_timeout pw m ts t n l o tid k d :
  pinv (mk_psys pw m ts t n l o) → ts !! tid = Some (Woken k d) →
  pinv (mk_psys pw (acquire_timeout (drop_notified m k).1 k) (wake (drop_notified m k).2 (<[tid := Finished]> ts)) t n l o).
Proof.
  intros H Ht. pose proof H as [Hp Hts _ _ _]. simpl in *.
  eapply pinv_step; [exact H| | |eauto with pgmux|apply narrows_refl].
  - apply (pools_ok_same t t m); [done|eauto with pgmux|exact Hp].
  - apply tasks_ok_wake, tasks_ok_plain; naive_solver.
Qed.

Lemma pinv_returned pw m ts t n l o tid k s :
  pinv (mk_psys pw m ts t n l o) → ts !! tid = Some (Resetting k s) →
  pinv (mk_psys pw (release_ok t m k s).1 (wake (release_ok t m k s).2 (<[tid := Finished]> ts)) t n
          (<[s := InPool k]> l) o).
Proof.
  intros H Ht.
  assert (H' : pinv (mk_psys pw (release_ok t m k s).1 (<[tid := Finished]> ts) t n (<[s := InPool k]> l) o)).
  { own_step H (Some (InPool k)); [by split; [right|]|apply release_ok_grows|].
    intros Hl Hp. by eapply pools_ok_return. }
  pose proof H' as [Hp' Hts' _ _ _]. simpl in *.
  eapply pinv_step; [exact H'|done|by apply tasks_ok_wake|apply grows_refl|apply narrows_refl].
Qed.

(** A held connection is always returned to an existing pool. *)
Lemma release_begin_known pw m ts t n l o tid k s :
  pinv (mk_psys pw m ts t n l o) → ts !! tid = Some (Holding k s) →
  release_begin m k
  = (set_pool m k (set_active (pool_at m k) (fetch_sub1 (active_count (pool_at m k)))), true)
  ∧ pools m !! k = Some (pool_at m k) ∧ l !! s = Some (HeldBy k tid).
Proof.
  intros [_ Hts _ _ Hk] Ht. simpl in *.
  pose proof (proj1 (Hts tid (Holding k s) s _ eq_refl) Ht) as Hl.
  destruct (Hk _ _ Hl) as [p Hp]. simpl in Hp.
  unfold release_begin, pool_at. by rewrite Hp.
Qed.

Lemma pinv_preserved c acc σ σ' : pstep c acc σ σ' → pinv σ → pinv σ'.
Proof.
  intros Hst H. destruct Hst.
  - plain_step.
  - exact (pinv_pop _ _ _ _ _ _ _ _ _ _ _ _ (Some s) _ H ltac:(eassumption) ltac:(eassumption) eq_refl).
  - exact (pinv_pop _ _ _ _ _ _ _ _ _ _ _ _ None _ H ltac:(eassumption) ltac:(eassumption) eq_refl).
  - plain_step.
  - plain_step.
  - plain_step. unfold after_await. by case_match.
  - plain_step.
  - plain_step.
  - by eapply pinv_woken_timeout.
  - by eapply pinv_connected.
  - plain_step.
  - plain_step.
  - destruct (release_begin_known _ _ _ _ _ _ _ _ _ _ H ltac:(eassumption)) as (E & Hk & _).
    rewrite E in *. simplify_eq. own_step H (Some (ResetBy k tid)); [by split; [left|]|by apply grows_set|].
    intros. by eapply pools_ok_begin.
  - destruct (release_begin_known _ _ _ _ _ _ _ _ _ _ H ltac:(eassumption)) as (E & Hk & _). congruence.
  - own_step H (Some (Leaked k)); [by split; [right|]|apply grows_refl|]. intros. by eapply pools_ok_leak.
  - by apply pinv_returned.
  - own_step H (@None place); [done|by intros ?|]. intros. by eapply pools_ok_close.
  - pose proof H as [Hp Hts _ _ _]. simpl in *.
    eapply pinv_step; [exact H| |done|apply grows_refl|apply narrows_refl].
    eapply pools_ok_same; [eassumption|apply same_refl|exact Hp].
Qed.

Lemma reach_pinv c acc σ : preach c acc σ → pinv σ.
Proof.
  intros Hr. unfold preach in Hr. remember psys_new as σ0. revert Heqσ0.
  enough (pinv σ0 → pinv σ) by (intros ->; apply H, pinv_init).
  induction Hr as [|σ1 σ2 σ3 Hs _ IH]; [done|]. intros. apply IH. by eapply pinv_preserved.
Qed.
End preserved.
