(* ===== verification/PoolThms.v ===== *)
(** * What the pool guarantees, and what it does not

    Theorems on the reachable states of PoolSys.v: conservation of connections,
    exclusive ownership, isolation of keys, the global limit under a bound on
    concurrent connection attempts; and runs of the pool that break its
    per-pool limit, its maximal lifetime, its hand-over to waiters and the
    check of passwords. *)

From S2P Require Import Prelude RustStr Config Notify Pool PoolSys.

(** ** Conservation *)

Section conservation.
Context {Nt : Notify}.

Definition in_pool_at (k : PoolKey) (p : place) : bool :=
  match p with InPool k' => bool_decide (k = k') | _ => false end.
Definition is_reset_place (p : place) : bool :=
  match p with ResetBy _ _ => true | _ => false end.
Definition is_resetting (t : task) : bool :=
  match t with Resetting _ _ => true | _ => false end.
Definition is_connecting (t : task) : bool :=
  match t with Connecting _ => true | _ => false end.
Definition is_panicked (t : task) : bool :=
  match t with Panicked => true | _ => false end.

Lemma idle_count t m l k : pools_ok t m l → len (idle (pool_at m k)) = cnt (in_pool_at k) l.
Proof.
  intros H. rewrite (cnt_list _ _ (streams (pool_at m k))).
  - unfold streams, len. by rewrite length_fmap.
  - apply H.
  - intros s. rewrite <-(po_idle _ _ _ H). split; [intros; exists (InPool k); split; [done|]|].
    + simpl. by rewrite bool_decide_eq_true_2.
    + intros ([k'| | |] & Hp & Hk); simpl in Hk; try done. by apply bool_decide_eq_true in Hk as ->.
Qed.

(** Every connection is idle or active under its key, or being reset. *)
Lemma places_by_key (ks : list PoolKey) (l : gmap Z place) :
  NoDup ks → (∀ s p, l !! s = Some p → place_key p ∈ ks) →
  zsum (λ k, cnt (in_pool_at k) l + cnt (active_at k) l) ks + cnt is_reset_place l = cnt anywhere l.
Proof.
  intros Hnd. induction l as [|s p l Hs IH] using map_ind; intros Hk.
  - rewrite !cnt_empty, (zsum_ext _ (λ _, 0)), zsum_zero; [done|].
    intros. by rewrite !cnt_empty.
  - rewrite !cnt_insert_fresh by done.
    rewrite (zsum_ext _ (λ k, (cnt (in_pool_at k) l + cnt (active_at k) l)
                              + (b2z (in_pool_at k p) + b2z (active_at k p)))).
    2: { intros k _. rewrite !cnt_insert_fresh by done. lia. }
    rewrite zsum_add. rewrite <-IH.
    2: { intros s' p' Hp'. apply (Hk s'). rewrite lookup_insert_ne; congruence. }
    assert (Hp : place_key p ∈ ks) by (apply (Hk s); by rewrite lookup_insert_eq).
    pose proof (zsum_one _ _ Hnd Hp) as H1.
    assert (Hz : zsum (λ k, b2z (in_pool_at k p) + b2z (active_at k p)) ks + b2z (is_reset_place p) = 1).
    { destruct p; simpl in *; rewrite ?zsum_zero; [..|done|]; try done;
        rewrite (zsum_ext _ (λ x, b2z (bool_decide (x = k)))) by (intros; simpl; by case_bool_decide); lia. }
    simpl. lia.
Qed.

(** Tasks with a stream are as many as the places they own. *)
Lemma owned_count (f : task → bool) (g : place → bool) ts l :
  tasks_ok ts l →
  (∀ i t, f t = true → ∃ s p, task_place i t = Some (s, p) ∧ g p = true) →
  (∀ s p, g p = true → ∃ i t, task_place i t = Some (s, p) ∧ f t = true) →
  cnt f ts = cnt g l.
Proof.
  intros H Hf Hg.
  set (st := λ kt : nat * task, from_option fst 0 (task_place kt.1 kt.2)).
  rewrite (cnt_list g l (st <$> map_to_list (filter (λ ka, f ka.2 = true) ts))).
  - unfold cnt, len. rewrite length_fmap. f_equal. symmetry. apply length_map_to_list.
  - apply NoDup_fmap_2_strong; [|apply NoDup_map_to_list].
    intros [i t] [j u]. rewrite !elem_of_map_to_list, !map_lookup_filter_Some. simpl.
    intros [Hi Hti] [Hj Huj]. unfold st. simpl.
    destruct (Hf i t Hti) as (s & p & Hp & _), (Hf j u Huj) as (s' & q & Hq & _). rewrite Hp, Hq. simpl. intros <-.
    pose proof (proj1 (H _ _ _ _ Hp) Hi) as Hl. pose proof (proj1 (H _ _ _ _ Hq) Hj) as Hl'.
    apply task_place_owner_eq in Hp, Hq. simplify_eq. congruence.
  - intros s. rewrite list_elem_of_fmap. split.
    + intros ([i t] & -> & Hi%elem_of_map_to_list). apply map_lookup_filter_Some in Hi as [Hi Ht].
      destruct (Hf i t Ht) as (s & p & Hp & Hgp). exists p. split; [|done].
      unfold st. simpl. rewrite Hp. by apply (H _ _ _ _ Hp).
    + intros (p & Hl & Hgp). destruct (Hg s p Hgp) as (i & t & Hp & Hft). exists (i, t).
      unfold st. simpl. rewrite Hp. split; [done|].
      apply elem_of_map_to_list, map_lookup_filter_Some. split; [|done]. by apply (H _ _ _ _ Hp).
Qed.

Lemma resetting_count ts l : tasks_ok ts l → cnt is_resetting ts = cnt is_reset_place l.
Proof.
  intros H. apply (owned_count _ _ _ _ H).
  - intros i [] ?; simplify_eq/=; eauto.
  - intros s [] ?; simplify_eq/=. exists tid, (Resetting k s). done.
Qed.

Lemma reach_conservation c acc σ :
  preach c acc σ → cnt anywhere (loc σ) < 2^64 →
  total_connections (mgr σ)
  = zsum (λ st, ps_idle st + ps_active st) (get_stats (mgr σ)) + cnt is_resetting (tasks σ).
Proof.
  intros [Hp Ht _ _ Hk]%reach_pinv Hb.
  assert (Hc : ∀ f, cnt f (loc σ) ≤ cnt anywhere (loc σ)) by (intros; by apply cnt_le).
  rewrite (resetting_count _ _ Ht). unfold total_connections. rewrite (po_total _ _ _ Hp).
  rewrite u64_wrap_small by (split; [apply cnt_nonneg|done]).
  rewrite <-(places_by_key (map_to_list (pools (mgr σ))).*1 (loc σ)).
  - f_equal. unfold get_stats. rewrite !zsum_fmap. apply zsum_ext. intros [k p] Hkp.
    apply elem_of_map_to_list in Hkp. simpl.
    assert (Hpk : pool_at (mgr σ) k = p) by (unfold pool_at; by rewrite Hkp). subst p.
    rewrite (idle_count _ _ _ _ Hp), (po_active _ _ _ Hp). rewrite u64_wrap_small; [done|].
    split; [apply cnt_nonneg|]. specialize (Hc (active_at k)). lia.
  - apply NoDup_fst_map_to_list.
  - intros s p Hs. destruct (Hk _ _ Hs) as [q Hq].
    apply list_elem_of_fmap. exists (place_key p, q). split; [done|]. by apply elem_of_map_to_list.
Qed.

(** C4. Conservation of connections.  In every reachable state of any number
    of concurrent [acquire] and [release] calls, [total_connections] is the sum
    over [get_stats] of the idle and active connections of each pool, plus the
    connections whose reset is under way (as long as fewer than 2^64 are open):
    no connection is counted twice and none is lost, failed resets and
    evictions included. *)
Theorem pool_conservation c acc σ :
  preach c acc σ → cnt anywhere (loc σ) < 2^64 →
  total_connections (mgr σ)
  = zsum (λ st, ps_idle st + ps_active st) (get_stats (mgr σ)) + cnt is_resetting (tasks σ).
Proof. apply reach_conservation. Qed.

End conservation.

(** ** Example runs *)

#[local] Existing Instance fifo_notify.
#[local] Existing Instance fifo_laws.

Definition demo_cfg (per_pool total : Z) : PoolConfig := mk_PoolConfig per_pool total 5000 300 30 1000 3600.
Definition demo_key : PoolKey := mk_PoolKey (lit "db1") 5432 (lit "app") (lit "alice").
Definition demo_key2 : PoolKey := mk_PoolKey (lit "db1") 5432 (lit "shop") (lit "bob").
Definition demo_accepts (k : PoolKey) (w : str) : bool := bool_decide (w = lit "right").

(** [acquire] by a new task, up to the outcome of the limit checks. *)
Definition ask (tid : nat) (k : PoolKey) (w : str) : list action := [AStart tid k w; APop tid; ACheck tid].
(** [acquire] that opens a connection; [release] with a clean reset. *)
Definition open_new (tid : nat) (k : PoolKey) : list action := ask tid k (lit "right") ++ [AConnect tid ConnectOk].
Definition give_back (tid : nat) : list action := [ARelease tid; AReset tid true].

Definition demo_run (c : PoolConfig) (l : list action) : psys := default psys_new (run c demo_accepts l psys_new).

Lemma run_app {Nt : Notify} c acc l l' σ : run c acc (l ++ l') σ = run c acc l σ ≫= run c acc l'.
Proof.
  revert σ. induction l as [|a l IH]; intros σ; [done|]. simpl. destruct (exec c acc a σ); [apply IH|done].
Qed.
Definition ran {A} (o : option A) : bool := if o is Some _ then true else false.

Lemma demo_reach c l : ran (run c demo_accepts l psys_new) = true → preach c demo_accepts (demo_run c l).
Proof.
  unfold demo_run. destruct (run c demo_accepts l psys_new) eqn:H; [|done]. intros _. by eapply run_sound.
Qed.
Lemma demo_extend c l l' :
  ran (run c demo_accepts (l ++ l') psys_new) = true →
  rtc (pstep c demo_accepts) (demo_run c l) (demo_run c (l ++ l')).
Proof.
  unfold demo_run. rewrite run_app. destruct (run c demo_accepts l psys_new) as [σ|]; [|done]. simpl.
  destruct (run c demo_accepts l' σ) eqn:H; [|done]. intros _. by eapply run_sound.
Qed.

(** One connection idle, one being reset, one held, one failed. *)
Definition demo_mixed : list action :=
  open_new 0 demo_key ++ give_back 0 ++ open_new 1 demo_key2 ++ open_new 2 demo_key2 ++ [ARelease 1]
  ++ ask 3 demo_key2 (lit "wrong") ++ [AConnect 3 ConnectErr].

Lemma pool_conservation_witness :
  let σ := demo_run PoolConfig_default demo_mixed in
  total_connections (mgr σ) = 3
  ∧ total_connections (mgr σ)
    = zsum (λ st, ps_idle st + ps_active st) (get_stats (mgr σ)) + cnt is_resetting (tasks σ).
Proof.
  split; [by vm_compute|].
  apply (pool_conservation PoolConfig_default demo_accepts); [|by vm_compute].
  apply demo_reach. by vm_compute.
Defined.

(** ** Ownership *)

Section ownership.
Context {Nt : Notify}.

(** A task uses a stream: it holds it or resets it. *)
Definition uses (t : task) (s : Z) : Prop :=
  match t with Holding _ s' | Resetting _ s' => s' = s | _ => False end.
Definition task_key (t : task) : option PoolKey :=
  match t with
  | Popping k _ | Checking k _ | WaitingFor k _ | Woken k _ | Connecting k | Holding k _ | Resetting k _ => Some k
  | Finished | Panicked => None
  end.

Lemma uses_place tid t s : uses t s → ∃ p, task_place tid t = Some (s, p) ∧ task_key t = Some (place_key p).
Proof. destruct t; simpl; try done; intros ->; eauto. Qed.

(** C2. Exclusive ownership.  In every reachable state, a backend connection
    used by one session (held, or being reset after it) is used by no other
    session and is in no pool's idle queue, and no connection is queued twice
    or in two pools. *)
Theorem pool_exclusive c acc σ :
  preach c acc σ →
  (∀ i j t u s, tasks σ !! i = Some t → tasks σ !! j = Some u → uses t s → uses u s → i = j)
  ∧ (∀ i t s k, tasks σ !! i = Some t → uses t s → s ∉ streams (pool_at (mgr σ) k))
  ∧ (∀ k, NoDup (streams (pool_at (mgr σ) k)))
  ∧ (∀ k k' s, s ∈ streams (pool_at (mgr σ) k) → s ∈ streams (pool_at (mgr σ) k') → k = k').
Proof.
  intros [Hp Ht _ _ _]%reach_pinv. split_and!.
  - intros i j t u s Hi Hj (p & Hpi & _)%(uses_place i) (q & Hqj & _)%(uses_place j).
    apply (Ht _ _ _ _ Hpi) in Hi. apply (Ht _ _ _ _ Hqj) in Hj.
    apply task_place_owner_eq in Hpi, Hqj. congruence.
  - intros i t s k Hi (p & Hpi & _)%(uses_place i) Hin. apply (Ht _ _ _ _ Hpi) in Hi.
    apply (po_idle _ _ _ Hp) in Hin. apply task_place_owner_eq in Hpi. naive_solver.
  - apply Hp.
  - intros k k' s Hs Hs'. apply (po_idle _ _ _ Hp) in Hs, Hs'. congruence.
Qed.

End ownership.

Lemma pool_exclusive_witness :
  let σ := demo_run PoolConfig_default demo_mixed in
  streams (pool_at (mgr σ) demo_key) = [0] ∧ NoDup (streams (pool_at (mgr σ) demo_key)).
Proof.
  split; [by vm_compute|].
  apply (pool_exclusive PoolConfig_default demo_accepts). apply demo_reach. by vm_compute.
Defined.

Section isolation.
Context {Nt : Notify}.

(** Tenant isolation.  In every reachable state, the connection a session
    uses, and every connection waiting in a pool, was opened for exactly that
    session's or pool's host, port, database and user. *)
Theorem pool_isolation c acc σ :
  preach c acc σ →
  (∀ i t s k, tasks σ !! i = Some t → task_key t = Some k → uses t s → origin σ !! s = Some k)
  ∧ (∀ k s, s ∈ streams (pool_at (mgr σ) k) → origin σ !! s = Some k).
Proof.
  intros [Hp Ht _ Ho _]%reach_pinv. split.
  - intros i t s k Hi Hk (p & Hpi & Hkp)%(uses_place i). apply (Ht _ _ _ _ Hpi) in Hi.
    rewrite (Ho _ _ Hi). congruence.
  - intros k s Hs. apply (po_idle _ _ _ Hp) in Hs. apply (Ho _ _ Hs).
Qed.

End isolation.

Lemma pool_isolation_witness :
  let σ := demo_run PoolConfig_default demo_mixed in origin σ !! 0 = Some demo_key.
Proof.
  apply (pool_isolation PoolConfig_default demo_accepts); [|vm_compute; apply list_elem_of_here].
  apply demo_reach. by vm_compute.
Defined.

(** ** The global limit *)

Section limit.
Context {Nt : Notify}.

Lemma connecting_wake o ts : cnt is_connecting (wake o ts) = cnt is_connecting ts.
Proof.
  destruct o as [i|]; [|done]. simpl. repeat case_match; try done.
  rewrite cnt_insert. simplify_option_eq. lia.
Qed.
Lemma forget_le ss l : cnt anywhere (forget ss l) ≤ cnt anywhere l.
Proof.
  apply cnt_subseteq, map_subseteq_spec. intros s p. rewrite lookup_forget. by case_decide.
Qed.
Lemma anywhere_known (l : gmap Z place) s p q : l !! s = Some q → cnt anywhere (<[s := p]> l) = cnt anywhere l.
Proof. intros H. rewrite (cnt_update _ _ _ _ _ H). simpl. lia. Qed.
Lemma anywhere_delete (l : gmap Z place) s : cnt anywhere (delete s l) ≤ cnt anywhere l.
Proof. apply cnt_subseteq, delete_subseteq. Qed.

Lemma owned_known σ tid t s : pinv σ → tasks σ !! tid = Some t → uses t s →
  from_option (λ _ : place, 1) 0 (loc σ !! s) = 1.
Proof.
  intros Hi Ht (p & Hp & _)%(uses_place tid). apply (pi_tasks _ Hi _ _ _ _ Hp) in Ht. by rewrite Ht.
Qed.

(** A step never increases the number of open connections plus attempts,
    except for a new attempt, made below the limit. *)
Lemma step_load c acc σ σ' :
  pinv σ → pstep c acc σ σ' →
  cnt anywhere (loc σ') + cnt is_connecting (tasks σ') ≤ cnt anywhere (loc σ) + cnt is_connecting (tasks σ)
  ∨ cnt anywhere (loc σ') = cnt anywhere (loc σ)
    ∧ total_server_connections (mgr σ) < max_total_connections c.
Proof.
  intros Hinv Hst.
  destruct Hst; simpl; rewrite ?connecting_wake, ?cnt_insert; simplify_option_eq;
    try (left; lia); try (left; pose proof (anywhere_delete l s); lia);
    try (left; pose proof (forget_le (evicted c t (idle (pool_at m k))) l); lia).
  - left. pose proof (pop_idle_ok _ _ _ _ _ _ _ ltac:(eassumption) (pi_pools _ Hinv)) as [Hs _].
    simpl in Hs. rewrite Hs. pose proof (forget_le (evicted c t (idle (pool_at m k))) l). simpl. lia.
  - right. split; [done|].
    match goal with E : check_limits _ _ _ = CanCreate |- _ => unfold check_limits in E end.
    repeat case_match; simplify_eq. lia.
  - left. unfold after_await. case_match; simpl; lia.
  - left. destruct (l !! n); simpl; lia.
  - left. pose proof (owned_known _ tid _ s Hinv ltac:(eassumption) eq_refl) as Hs. simpl in Hs. lia.
  - left. pose proof (owned_known _ tid _ s Hinv ltac:(eassumption) eq_refl) as Hs. simpl in Hs. lia.
  - left. pose proof (owned_known _ tid _ s Hinv ltac:(eassumption) eq_refl) as Hs. simpl in Hs. lia.
Qed.

(** Runs in which at most [K] connection attempts are under way at any time. *)
Definition paced (K : Z) (c : PoolConfig) (acc : PoolKey → str → bool) (σ : psys) : Prop :=
  rtc (λ σ σ', pstep c acc σ σ' ∧ cnt is_connecting (tasks σ') ≤ K) psys_new σ.

Lemma rtc_inv {A} (R : A → A → Prop) (P : A → Prop) x y :
  (∀ a b, P a → R a b → P b) → P x → rtc R x y → P y.
Proof. intros HR Hx H. induction H; eauto. Qed.

Lemma paced_load K c acc σ :
  1 ≤ K → 1 ≤ max_total_connections c → max_total_connections c + K ≤ 2^64 →
  paced K c acc σ →
  pinv σ ∧ cnt anywhere (loc σ) + cnt is_connecting (tasks σ) ≤ max_total_connections c - 1 + K.
Proof.
  intros HK Hm Hb.
  apply (rtc_inv _ (λ σ, pinv σ ∧ cnt anywhere (loc σ) + cnt is_connecting (tasks σ)
                                   ≤ max_total_connections c - 1 + K)); clear σ.
  - intros σ σ' [Hi Hl] [Hst Hc]. split; [by eapply pinv_preserved|].
    destruct (step_load _ _ _ _ Hi Hst) as [H|[H1 H2]]; [lia|].
    rewrite (po_total _ _ _ (pi_pools _ Hi)) in H2.
    pose proof (cnt_nonneg anywhere (loc σ)). pose proof (cnt_nonneg is_connecting (tasks σ)).
    rewrite u64_wrap_small in H2 by lia. lia.
  - split; [apply pinv_init|]. simpl. rewrite !cnt_empty. lia.
Qed.

(** C18. The global limit.  If at most [K] connection attempts are under way
    at any time, [total_connections] never exceeds [max_total_connections]
    by more than [K - 1]: with attempts made one at a time the configured
    limit holds in every reachable state. *)
Theorem pool_global_limit K c acc σ :
  1 ≤ K → 1 ≤ max_total_connections c → max_total_connections c + K ≤ 2^64 →
  paced K c acc σ →
  total_connections (mgr σ) ≤ max_total_connections c - 1 + K.
Proof.
  intros HK Hm Hb H. destruct (paced_load _ _ _ _ HK Hm Hb H) as [Hi Hl].
  unfold total_connections. rewrite (po_total _ _ _ (pi_pools _ Hi)).
  pose proof (cnt_nonneg is_connecting (tasks σ)).
  rewrite u64_wrap_small by (split; [apply cnt_nonneg|lia]). lia.
Qed.

Fixpoint run_paced (K : Z) (c : PoolConfig) (acc : PoolKey → str → bool) (l : list action) (σ : psys) : option psys :=
  match l with
  | [] => Some σ
  | a :: r => exec c acc a σ ≫= λ σ', if cnt is_connecting (tasks σ') <=? K then run_paced K c acc r σ' else None
  end.
Lemma run_paced_sound K c acc l σ0 σ :
  run_paced K c acc l σ0 = Some σ →
  rtc (λ σ σ', pstep c acc σ σ' ∧ cnt is_connecting (tasks σ') ≤ K) σ0 σ.
Proof.
  revert σ0. induction l as [|a l IH]; intros σ0; simpl; [intros [= ->]; apply rtc_refl|].
  destruct (exec c acc a σ0) as [σ1|] eqn:E; [|done]. simpl. case_match; [|done]. intros H'.
  eapply rtc_l; [split; [by eapply exec_sound|lia]|by apply IH].
Qed.

End limit.

Lemma demo_paced K c l :
  ran (run_paced K c demo_accepts l psys_new) = true → paced K c demo_accepts (demo_run c l).
Proof.
  destruct (run_paced K c demo_accepts l psys_new) as [σ|] eqn:H; [|done]. intros _.
  assert (E : demo_run c l = σ); [|rewrite E; by eapply run_paced_sound].
  unfold demo_run. enough (run c demo_accepts l psys_new = Some σ) as -> by done.
  revert H. generalize psys_new. induction l as [|a l IH]; intros σ0; [done|]. simpl.
  destruct (exec c demo_accepts a σ0); [|done]. simpl. case_match; [apply IH|done].
Qed.

Lemma pool_global_limit_witness :
  total_connections (mgr (demo_run (demo_cfg 5 2) (open_new 0 demo_key ++ open_new 1 demo_key2))) ≤ 2.
Proof.
  apply (pool_global_limit 1 (demo_cfg 5 2) demo_accepts); [by vm_compute..|].
  apply demo_paced. by vm_compute.
Defined.

(** Without such a bound the limits are not limits: the check and the
    count are separated by the connection attempt.  With a limit of one
    connection, two sessions that arrive together both connect. *)
Theorem pool_limit_race :
  ∃ σ, preach (demo_cfg 1 1) demo_accepts σ
       ∧ total_connections (mgr σ) = 2 ∧ active_count (pool_at (mgr σ) demo_key) = 2.
Proof.
  exists (demo_run (demo_cfg 1 1) (ask 0 demo_key (lit "right") ++ ask 1 demo_key (lit "right")
                                   ++ [AConnect 0 ConnectOk; AConnect 1 ConnectOk])).
  split; [|by vm_compute]. apply demo_reach. by vm_compute.
Qed.

(** A connection that is being reset is counted by neither
    [active_count] nor [idle]: even with attempts made one at a time, a pool
    limited to one connection ends with two idle ones. *)
Theorem pool_reset_window :
  ∃ σ, paced 1 (demo_cfg 1 500) demo_accepts σ ∧ len (idle (pool_at (mgr σ) demo_key)) = 2.
Proof.
  set (l := open_new 0 demo_key ++ [ARelease 0] ++ open_new 1 demo_key ++ [AReset 0 true] ++ give_back 1).
  exists (demo_run (demo_cfg 1 500) l). split; [|by vm_compute].
  apply demo_paced. by vm_compute.
Qed.

(** ** Reuse *)

Section reuse.
Context {Nt : Notify}.

(** The evictions, one after the other. *)
Lemma iter_drop_counters n m :
  total_connections (Nat.iter n drop_connection m) = Nat.iter n fetch_sub1 (total_connections m)
  ∧ pm_metrics (Nat.iter n drop_connection m)
    = mk_PoolMetrics (server_connections_total (pm_metrics m))
        (Nat.iter n (λ g, i64_wrap (g - 1)) (server_connections_active (pm_metrics m)))
        (server_connection_errors_total (pm_metrics m)) (pool_hits_total (pm_metrics m))
        (pool_misses_total (pm_metrics m)) (pool_timeouts_total (pm_metrics m)).
Proof.
  unfold total_connections. induction n as [|n [IH1 IH2]]; simpl; [by destruct (pm_metrics m)|].
  by rewrite IH1, IH2.
Qed.

(** C29. What [acquire] takes from the idle queue.  The oldest connections
    past their lifetime or idle timeout are evicted, each lowering the total and
    the gauge of active connections by one; the first connection that is neither
    is returned, counted once as active, as acquired and as a pool hit; the ones
    behind it stay queued in order; every other counter of the pool and of the
    metrics keeps its value and other pools are untouched.  [None] is returned
    exactly when every idle connection had expired. *)
Theorem pop_idle_correct c t m k :
  let '(m', o) := pop_idle c t m k in
  let p := pool_at m k in
  let mx := pm_metrics m in
  ∃ ev x rest,
    let hit (z : Z) := if x is Some _ then fetch_add1 z else z in
    idle p = ev ++ option_list x ++ rest
    ∧ Forall (λ y, expired c t y = true) ev
    ∧ (∀ y, x = Some y → expired c t y = false) ∧ (x = None → rest = [])
    ∧ o = pc_stream <$> x
    ∧ pool_at m' k = mk_Pool rest (hit (active_count p)) (waiters p) (hit (total_acquired p)) (total_errors p)
    ∧ total_connections m' = Nat.iter (length ev) fetch_sub1 (total_connections m)
    ∧ pm_metrics m'
      = mk_PoolMetrics (server_connections_total mx)
          (Nat.iter (length ev) (λ g, i64_wrap (g - 1)) (server_connections_active mx))
          (server_connection_errors_total mx) (hit (pool_hits_total mx)) (pool_misses_total mx) (pool_timeouts_total mx)
    ∧ ∀ k', k' ≠ k → pools m' !! k' = pools m !! k'.
Proof.
  unfold pop_idle.
  pose proof (pop_scan_split c t (idle (pool_at m k))) as (Hl & He & Hx).
  pose proof (pop_scan_length c t (idle (pool_at m k))) as Hn.
  destruct (pop_scan c t (idle (pool_at m k))) as [[n x] r]. simpl in Hl, He, Hx, Hn. cbv zeta.
  destruct (iter_drop_counters n m) as (Ht & Hm).
  assert (Ho : ∀ p k', k' ≠ k → pools (set_pool (Nat.iter n drop_connection m) k p) !! k' = pools m !! k').
  { intros p k' Hk. simpl. rewrite lookup_insert_ne by done. by rewrite iter_drop_pools. }
  destruct x as [x|]; exists (take n (idle (pool_at m k))); [exists (Some x)|exists None]; exists r;
    rewrite Hn; split_and!; try done; try (by apply Forall_forall); try naive_solver.
  - autorewrite with pool_at. by rewrite decide_True.
  - cbn [set_metrics pm_metrics]. change (pm_metrics (set_pool ?y _ _)) with (pm_metrics y). by rewrite Hm.
  - autorewrite with pool_at. by rewrite decide_True.
Qed.

(** The lifetime of a connection is not what bounds its reuse.  In every
    reachable state an idle connection is evicted exactly when the time since
    it was last returned exceeds the smaller of [max_connection_lifetime_secs]
    and [idle_timeout_secs]: the time since it was opened plays no role. *)
Theorem lifetime_not_measured c acc σ k x :
  preach c acc σ → x ∈ idle (pool_at (mgr σ) k) →
  expired c (now σ) x
  = (Z.min (secs (max_connection_lifetime_secs c)) (secs (idle_timeout_secs c)) <? now σ - last_used x).
Proof.
  intros Hi%reach_pinv Hx. destruct (po_stamp _ _ _ (pi_pools _ Hi) _ _ Hx) as [E _].
  unfold expired. rewrite E. lia.
Qed.

End reuse.

(** A connection opened at time 0, used and returned every minute. *)
Fixpoint minutes (n : nat) (tid : nat) (t : Z) : list action :=
  match n with
  | O => []
  | S n => [ATick (secs t)] ++ [AStart tid demo_key (lit "right"); APop tid] ++ give_back tid
           ++ minutes n (S tid) (t + 60)
  end.

Lemma lifetime_not_measured_witness :
  let σ := demo_run (demo_cfg 5 5) (open_new 0 demo_key ++ give_back 0 ++ minutes 100 1 60) in
  secs (max_connection_lifetime_secs (demo_cfg 5 5)) < now σ
  ∧ (λ x, pc_stream x) <$> idle (pool_at (mgr σ) demo_key) = [0]
  ∧ expired (demo_cfg 5 5) (now σ) (mk_PooledConnection 0 (secs 6000) (secs 6000)) = false.
Proof.
  split; [by vm_compute|]. split; [by vm_compute|].
  rewrite (lifetime_not_measured (demo_cfg 5 5) demo_accepts _ demo_key).
  - by vm_compute.
  - apply demo_reach. by vm_compute.
  - vm_compute. apply list_elem_of_here.
Defined.

(** A pooled connection is handed out without looking at the password:
    a session whose password the server rejects gets a connection another
    session authenticated. *)
Theorem pool_password_bypass :
  ∃ σ w s, preach PoolConfig_default demo_accepts σ
    ∧ passwords σ !! 1%nat = Some w ∧ demo_accepts demo_key w = false
    ∧ tasks σ !! 1%nat = Some (Holding demo_key s).
Proof.
  exists (demo_run PoolConfig_default
            (open_new 0 demo_key ++ give_back 0 ++ [AStart 1 demo_key (lit "wrong"); APop 1])).
  exists (lit "wrong"), 0. split; [|by vm_compute]. apply demo_reach. by vm_compute.
Qed.

(** ** Waiting *)

(** A failed reset frees a connection but notifies nobody: with a limit
    of one, the session that waited for it keeps waiting although no
    connection is open, no other call is under way and no permit is stored, so
    nothing but its timeout can end the wait. *)
Theorem waiter_stranded :
  ∃ σ d, preach (demo_cfg 1 1) demo_accepts σ
    ∧ total_connections (mgr σ) = 0
    ∧ tasks σ = {[0%nat := Finished; 1%nat := WaitingFor demo_key d]}
    ∧ permit (waiters (pool_at (mgr σ) demo_key)) = false
    ∧ now σ < d.
Proof.
  exists (demo_run (demo_cfg 1 1)
            (open_new 0 demo_key ++ ask 1 demo_key (lit "right") ++ [ARelease 0; AReset 0 false])).
  exists (millis 5000). split; [|by vm_compute]. apply demo_reach. by vm_compute.
Qed.

Section waiting.
Context {Nt : Notify} {Laws : NotifyLaws}.

(** The queue of a pool's [Notify] is the set of tasks that wait on it, and a
    permit is stored only while nobody waits. *)
Definition queue_of (m : PoolManager) (k : PoolKey) : list nat := queue (waiters (pool_at m k)).
Record waits_ok (m : PoolManager) (ts : gmap nat task) : Prop := {
  wo_nodup : ∀ k, NoDup (queue_of m k);
  wo_queue : ∀ k i, i ∈ queue_of m k ↔ ∃ d, ts !! i = Some (WaitingFor k d);
  wo_permit : ∀ k, permit (waiters (pool_at m k)) = true → queue_of m k = []
}.

Definition same_waiters (m m' : PoolManager) : Prop :=
  ∀ k, waiters (pool_at m' k) = waiters (pool_at m k).
Definition waiting_for (t : task) : option PoolKey :=
  match t with WaitingFor k _ => Some k | _ => None end.

Lemma same_waiters_set m k p : waiters p = waiters (pool_at m k) → same_waiters m (set_pool m k p).
Proof. intros H k'. rewrite pool_at_set. by case_decide; subst. Qed.
Lemma same_waiters_pop c t m k : same_waiters m (pop_idle c t m k).1.
Proof.
  unfold pop_idle. destruct (pop_scan c t _) as [[n [x|]] l]; intros k'; simpl; autorewrite with pool_at;
    by case_decide; subst.
Qed.
Lemma same_waiters_entry m k : same_waiters m (pool_entry m k).
Proof.
  unfold pool_entry. destruct (pools m !! k) eqn:E; [by intros k'|].
  apply same_waiters_set. unfold pool_at. by rewrite E.
Qed.
Lemma same_waiters_begin m k : same_waiters m (release_begin m k).1.
Proof.
  unfold release_begin. destruct (pools m !! k) eqn:E; [|by intros k'].
  apply same_waiters_set. unfold pool_at. by rewrite E.
Qed.
Lemma same_waiters_refl m : same_waiters m m.
Proof. by intros k. Qed.
Lemma same_waiters_timeout m k : same_waiters m (acquire_timeout m k).
Proof. by apply (same_waiters_set m k). Qed.
Lemma same_waiters_err m k : same_waiters m (connect_err m k).
Proof. by apply (same_waiters_set m k). Qed.
Lemma same_waiters_ok m k : same_waiters m (connect_ok m k).
Proof. intros k'. unfold connect_ok. autorewrite with pool_at. by case_decide; subst. Qed.
#[local] Hint Resolve same_waiters_pop same_waiters_entry same_waiters_begin same_waiters_refl
  same_waiters_timeout same_waiters_err same_waiters_ok : pgmux.

Lemma waits_ok_same m m' ts : same_waiters m m' → waits_ok m ts → waits_ok m' ts.
Proof.
  intros Hs [H1 H2 H3]. unfold queue_of in *. split; unfold queue_of; intros; rewrite ?Hs in *; auto.
Qed.

(** A task moves between two states in which it does not wait. *)
Lemma waits_ok_task m ts i t :
  (∀ u, ts !! i = Some u → waiting_for u = None) → waiting_for t = None →
  waits_ok m ts → waits_ok m (<[i := t]> ts).
Proof.
  intros Hu Ht [H1 H2 H3]. split; auto. intros k j. rewrite H2.
  destruct (decide (i = j)) as [->|]; [|by rewrite lookup_insert_ne].
  rewrite lookup_insert_eq. split; intros [d Hd]; [by specialize (Hu _ Hd)|by simplify_eq].
Qed.

(** The queue of [k] becomes [q], and the only task that changed is [i]. *)
Lemma waits_ok_queue m m' ts ts' k i w :
  waits_ok m ts →
  waiters (pool_at m' k) = w → (∀ k', k' ≠ k → waiters (pool_at m' k') = waiters (pool_at m k')) →
  NoDup (queue w) → (permit w = true → queue w = []) →
  (∀ j, j ≠ i → ts' !! j = ts !! j) →
  (∀ j, j ≠ i → j ∈ queue w ↔ j ∈ queue_of m k) →
  (i ∈ queue w ↔ ∃ d, ts' !! i = Some (WaitingFor k d)) →
  (∀ k' d, k' ≠ k → ts !! i ≠ Some (WaitingFor k' d) ∧ ts' !! i ≠ Some (WaitingFor k' d)) →
  waits_ok m' ts'.
Proof.
  intros [H1 H2 H3] Hw Ho Hnd Hp Hts Hq Hi Hk. unfold queue_of in *. split; unfold queue_of.
  - intros k'. destruct (decide (k' = k)) as [->|]; [by rewrite Hw|]. rewrite Ho; auto.
  - intros k' j. destruct (decide (k' = k)) as [->|Hk'].
    + rewrite Hw. destruct (decide (j = i)) as [->|]; [done|]. rewrite Hq, Hts by done. apply H2.
    + rewrite Ho by done. destruct (decide (j = i)) as [->|]; [|rewrite Hts by done; apply H2].
      rewrite H2. split; intros [d Hd]; by destruct (Hk k' d Hk').
  - intros k'. destruct (decide (k' = k)) as [->|]; [by rewrite Hw|]. rewrite Ho by done. apply H3.
Qed.

Lemma waits_ok_notify m m' ts k w :
  waits_ok m ts → waiters (pool_at m' k) = w →
  queue w = queue (notify_one (waiters (pool_at m k))).1 → permit w = permit (notify_one (waiters (pool_at m k))).1 →
  (∀ k', k' ≠ k → waiters (pool_at m' k') = waiters (pool_at m k')) →
  waits_ok m' (wake (notify_one (waiters (pool_at m k))).2 ts).
Proof.
  intros H Hw Eq Ep Ho. pose proof (wo_nodup _ _ H k) as Hnd. pose proof (wo_queue _ _ H k) as Hq.
  pose proof (wo_permit _ _ H k) as Hp. unfold queue_of in *.
  destruct (queue (waiters (pool_at m k))) as [|i r] eqn:E.
  - destruct (notify_nobody _ E) as (-> & Eq' & _). rewrite Eq' in Eq.
    destruct H as [H1 H2 H3]. unfold queue_of in *. split; unfold queue_of; intros k'.
    + destruct (decide (k' = k)) as [->|]; [rewrite Hw, Eq; apply NoDup_nil_2|]. rewrite Ho; auto.
    + destruct (decide (k' = k)) as [->|]; [rewrite Hw, Eq; apply Hq|]. rewrite Ho; auto.
    + destruct (decide (k' = k)) as [->|]; [by rewrite Hw, Eq|]. rewrite Ho; auto.
  - destruct (notify_first _ _ _ E) as (-> & Eq' & Ep'). rewrite Eq' in Eq. rewrite Ep' in Ep.
    apply NoDup_cons in Hnd as [Hi Hnd].
    destruct (proj1 (Hq i) (list_elem_of_here _ _)) as [d Hd]. simpl. rewrite Hd.
    apply (waits_ok_queue m m' ts _ k i _ H Hw Ho); rewrite ?Eq, ?Ep; try done.
    + intros E'. by specialize (Hp E').
    + intros j Hj. by rewrite lookup_insert_ne.
    + intros j Hj. unfold queue_of. rewrite E, elem_of_cons. naive_solver.
    + rewrite lookup_insert_eq. naive_solver.
    + intros k' d' Hk'. rewrite Hd, lookup_insert_eq. naive_solver.
Qed.

Lemma waits_ok_await m ts k i d :
  waits_ok m ts → ts !! i = Some (Checking k d) →
  waits_ok (await_notified m k i).1 (<[i := after_await k d (await_notified m k i).2]> ts).
Proof.
  intros H Hi.
  assert (Hni : i ∉ queue_of m k) by (intros [d' Hd']%(wo_queue _ _ H); congruence).
  pose proof (wo_nodup _ _ H k) as Hnd. pose proof (wo_permit _ _ H k) as Hp. unfold queue_of in *.
  pose proof (notified_now (waiters (pool_at m k)) i) as Hnow.
  pose proof (notified_later (waiters (pool_at m k)) i) as Hlater.
  unfold await_notified. destruct (notified (waiters (pool_at m k)) i) as [w now'] eqn:En.
  assert (Hts : ∀ t j, j ≠ i → <[i := t]> ts !! j = ts !! j) by (intros; by rewrite lookup_insert_ne).
  destruct (permit (waiters (pool_at m k))) eqn:E;
    [destruct Hnow as (En2 & Eq & Ep); [done|]|destruct Hlater as (En2 & Eq & Ep); [done|]]; simpl in *; subst now';
    apply (waits_ok_queue m _ ts _ k i w H); rewrite ?Eq, ?Ep; auto;
    try (rewrite pool_at_set, decide_True by done; reflexivity);
    try (intros k' Hk'; by rewrite pool_at_set, decide_False by done);
    try (intros k' d' Hk'; rewrite Hi, lookup_insert_eq; naive_solver).
  - rewrite lookup_insert_eq. naive_solver.
  - apply NoDup_app. split_and!; [done| |apply NoDup_singleton]. by intros j Hj ->%list_elem_of_singleton.
  - done.
  - intros j Hj. unfold queue_of. rewrite elem_of_app, list_elem_of_singleton. naive_solver.
  - rewrite lookup_insert_eq, elem_of_app, list_elem_of_singleton. naive_solver.
Qed.

Lemma waits_ok_drop m ts k i d :
  waits_ok m ts → ts !! i = Some (WaitingFor k d) →
  waits_ok (drop_waiting m k i) (<[i := Finished]> ts).
Proof.
  intros H Hi. pose proof (wo_nodup _ _ H k) as Hnd. pose proof (wo_permit _ _ H k) as Hp. unfold queue_of in *.
  destruct (withdraw_queue (waiters (pool_at m k)) i) as [Eq Ep].
  eapply (waits_ok_queue m _ ts _ k i _ H); unfold drop_waiting;
    [rewrite pool_at_set, decide_True by done; reflexivity
    |intros k' Hk'; by rewrite pool_at_set, decide_False by done|..]; simpl; rewrite ?Eq, ?Ep.
  - by apply NoDup_filter.
  - intros E. by rewrite Hp.
  - intros j Hj. by rewrite lookup_insert_ne.
  - intros j Hj. unfold queue_of. rewrite list_elem_of_filter. naive_solver.
  - rewrite lookup_insert_eq, list_elem_of_filter. naive_solver.
  - intros k' d' Hk'. rewrite Hi, lookup_insert_eq. naive_solver.
Qed.

Lemma drop_notified_eq m k :
  (drop_notified m k).2 = (notify_one (waiters (pool_at m k))).2
  ∧ queue (waiters (pool_at (drop_notified m k).1 k)) = queue (notify_one (waiters (pool_at m k))).1
  ∧ permit (waiters (pool_at (drop_notified m k).1 k)) = permit (notify_one (waiters (pool_at m k))).1
  ∧ ∀ k', k' ≠ k → waiters (pool_at (drop_notified m k).1 k') = waiters (pool_at m k').
Proof.
  destruct (hand_over_notifies (waiters (pool_at m k))) as (E1 & E2 & E3). unfold drop_notified.
  destruct (hand_over _) as [w o]. simpl in *.
  split_and!; [done|pool_simpl..].
Qed.
Lemma release_ok_eq t m k s :
  (release_ok t m k s).2 = (notify_one (waiters (pool_at m k))).2
  ∧ waiters (pool_at (release_ok t m k s).1 k) = (notify_one (waiters (pool_at m k))).1
  ∧ ∀ k', k' ≠ k → waiters (pool_at (release_ok t m k s).1 k') = waiters (pool_at m k').
Proof.
  unfold release_ok. simpl. destruct (notify_one _) as [w o]. simpl. split_and!; [done|pool_simpl..].
Qed.

Lemma waits_preserved c acc σ σ' : pstep c acc σ σ' → waits_ok (mgr σ) (tasks σ) → waits_ok (mgr σ') (tasks σ').
Proof.
  destruct 1; simpl; intros H';
    try match goal with E : _ = (?m', _) |- _ => apply (f_equal fst) in E; simpl in E; subst m' end;
    try (eapply waits_ok_same; [|apply waits_ok_task; [..|exact H']]; [by eauto with pgmux|naive_solver|done]).
  - by apply waits_ok_await.
  - eapply waits_ok_same; [apply same_waiters_timeout|]. by eapply waits_ok_drop.
  - eapply waits_ok_same; [apply same_waiters_timeout|]. destruct (drop_notified_eq m k) as (-> & Eq & Ep & Ho).
    eapply (waits_ok_notify m); [apply waits_ok_task; naive_solver|reflexivity|done..].
  - destruct (release_ok_eq t m k s) as (-> & Ew & Ho).
    eapply (waits_ok_notify m); [apply waits_ok_task; naive_solver|exact Ew|done..].
  - done.
Qed.

Lemma reach_waits c acc σ : preach c acc σ → waits_ok (mgr σ) (tasks σ).
Proof.
  apply (rtc_inv _ (λ σ, waits_ok (mgr σ) (tasks σ))).
  - intros a b H Hst. by eapply waits_preserved.
  - split; unfold queue_of, pool_at; simpl; intros; rewrite ?lookup_empty; simpl; rewrite ?queue_new; try done.
    + apply NoDup_nil_2.
    + split; [by intros ?%not_elem_of_nil|naive_solver].
Qed.

(** C30. No session waits unseen: in every reachable state, if a session waits
    for a connection to a key and a connection to that key is given back with a
    clean reset, the session first in the queue of waiters is woken while the
    connection is in the idle queue. *)
Theorem release_wakes c acc σ tid k s i d :
  preach c acc σ → tasks σ !! tid = Some (Resetting k s) → tasks σ !! i = Some (WaitingFor k d) →
  ∃ σ' j d',
    exec c acc (AReset tid true) σ = Some σ'
    ∧ head (queue_of (mgr σ) k) = Some j ∧ tasks σ !! j = Some (WaitingFor k d')
    ∧ tasks σ' !! j = Some (Woken k d') ∧ s ∈ streams (pool_at (mgr σ') k).
Proof.
  intros Hr Ht Hi. pose proof (reach_waits _ _ _ Hr) as Hw.
  pose proof (proj2 (wo_queue _ _ Hw k i) (ex_intro _ _ Hi)) as Hin.
  destruct σ as [pw m ts t n l o]. simpl in *. rewrite Ht.
  pose proof (proj1 (wo_queue _ _ Hw k (default 0%nat (head (queue_of m k))))) as Hhead.
  unfold queue_of in *. destruct (queue (waiters (pool_at m k))) as [|j r] eqn:E; [by apply not_elem_of_nil in Hin|].
  destruct (Hhead (list_elem_of_here _ _)) as [d' Hd']. simpl in Hd'.
  assert (Hne : j ≠ tid) by congruence. destruct (notify_first _ _ _ E) as (Ew & _).
  eexists _, j, d'. split_and!; [reflexivity|done|done| |].
  - simpl. destruct (release_ok_eq t m k s) as (-> & _). rewrite Ew. simpl.
    rewrite lookup_insert_ne, Hd', lookup_insert_eq by done. done.
  - simpl. unfold release_ok, streams. simpl. destruct (notify_one _) as [w o']. simpl.
    rewrite pool_at_set, decide_True by done. simpl. rewrite fmap_app, elem_of_app. right. apply list_elem_of_here.
Qed.

End waiting.

Lemma release_wakes_witness :
  let σ := demo_run (demo_cfg 1 1) (open_new 0 demo_key ++ ask 1 demo_key (lit "right") ++ [ARelease 0]) in
  ∃ σ' j d', exec (demo_cfg 1 1) demo_accepts (AReset 0 true) σ = Some σ'
    ∧ head (queue_of (mgr σ) demo_key) = Some j ∧ tasks σ !! j = Some (WaitingFor demo_key d')
    ∧ tasks σ' !! j = Some (Woken demo_key d') ∧ 0 ∈ streams (pool_at (mgr σ') demo_key).
Proof.
  apply (release_wakes (demo_cfg 1 1) demo_accepts _ 0 demo_key 0 1 (millis 5000));
    [apply demo_reach; by vm_compute|by vm_compute..].
Defined.

(** ** Sessions that end without release *)

Section leaks.
Context {Nt : Notify}.

Definition is_leaked (p : place) : bool := match p with Leaked _ => true | _ => false end.

Lemma owned_at σ tid t s p : pinv σ → tasks σ !! tid = Some t → task_place tid t = Some (s, p) → loc σ !! s = Some p.
Proof. intros Hi Ht Hp. by apply (pi_tasks _ Hi _ _ _ _ Hp). Qed.

Lemma leaked_step c acc σ σ' s k :
  pinv σ → pstep c acc σ σ' → loc σ !! s = Some (Leaked k) → loc σ' !! s = Some (Leaked k).
Proof.
  intros Hi Hst Hs. destruct Hst; simpl in *; try done;
    try (match goal with Ho : _ !! ?i = Some ?t |- _ => pose proof (owned_at _ i t _ _ Hi Ho eq_refl) as Hown end;
         simpl in Hown;
         first [rewrite lookup_insert_ne by congruence | rewrite lookup_delete_ne by congruence]; done).
  - destruct (pop_idle_ok _ _ _ _ _ _ _ ltac:(eassumption) (pi_pools _ Hi)) as [Hin _]. simpl in Hin.
    rewrite lookup_insert_ne; [|intros <-; rewrite lookup_forget in Hin; case_decide; congruence].
    rewrite lookup_forget. case_decide as Hev; [|done].
    apply (evicted_in_pool _ _ _ _ _ _ _ (pi_pools _ Hi)) in Hev. simpl in Hev. congruence.
  - rewrite lookup_forget. case_decide as Hev; [|done].
    apply (evicted_in_pool _ _ _ _ _ _ _ (pi_pools _ Hi)) in Hev. simpl in Hev. congruence.
  - rewrite lookup_insert_ne; [done|]. intros <-. pose proof (pi_fresh _ Hi n (ex_intro _ _ Hs)). simpl in *. lia.
Qed.

Lemma leaked_forever c acc σ σ' s k :
  pinv σ → rtc (pstep c acc) σ σ' → loc σ !! s = Some (Leaked k) → loc σ' !! s = Some (Leaked k).
Proof.
  intros Hi Hr Hs.
  apply (rtc_inv (pstep c acc) (λ σ, pinv σ ∧ loc σ !! s = Some (Leaked k)) σ σ'); [|done..].
  intros a b [Ha Hb] Hst. split; [by eapply pinv_preserved|by eapply leaked_step].
Qed.

(** C34. A connection whose session ends without [release] (an I/O error in
    the proxy loop) is counted for ever.  Once [max_total_connections] sessions
    have ended that way, every later check of every key finds the pool full,
    whatever happens afterwards. *)
Theorem leaks_exhaust_pool c acc σ σ' k :
  preach c acc σ → rtc (pstep c acc) σ σ' →
  max_total_connections c ≤ cnt is_leaked (loc σ) → cnt anywhere (loc σ') < 2^64 →
  check_limits c (mgr σ') k = GlobalFull.
Proof.
  intros Hr Hr' Hm Hb. pose proof (reach_pinv _ _ _ Hr) as Hi.
  assert (Hi' : pinv σ') by exact (reach_pinv _ _ _ (rtc_trans _ _ _ Hr Hr')).
  assert (Hle : cnt is_leaked (loc σ) ≤ cnt anywhere (loc σ')).
  { unfold cnt. apply inj_le, map_subseteq_size, map_subseteq_spec.
    intros s p. rewrite !map_lookup_filter_Some. intros [Hs Hl]. simpl in *.
    destruct p; try done. split; [|done]. eauto using leaked_forever. }
  unfold check_limits. rewrite (po_total _ _ _ (pi_pools _ Hi')), u64_wrap_small by (split; [apply cnt_nonneg|done]).
  rewrite (proj2 (Z.leb_le _ _)) by lia. done.
Qed.

End leaks.

(** Two sessions dropped, then a third one asks. *)
Lemma leaks_exhaust_pool_witness :
  check_limits (demo_cfg 5 2)
    (mgr (demo_run (demo_cfg 5 2) ((open_new 0 demo_key ++ open_new 1 demo_key ++ [ADrop 0; ADrop 1])
                                   ++ ask 2 demo_key2 (lit "right")))) demo_key = GlobalFull.
Proof.
  apply (leaks_exhaust_pool (demo_cfg 5 2) demo_accepts
           (demo_run (demo_cfg 5 2) (open_new 0 demo_key ++ open_new 1 demo_key ++ [ADrop 0; ADrop 1])));
    [apply demo_reach; by vm_compute| |by vm_compute..].
  apply demo_extend. by vm_compute.
Defined.
