(* ===== verification/PoolLife.v ===== *)
(** * The pool over its lifetime

    What the counters of the pool mean in every reachable state (the exact
    active counts, and the books that tie the metrics to the statistics of the
    pools), that the loop of [acquire] ends, and that the table of pools only
    grows. *)

From S2P Require Import Prelude RustStr Config Notify Pool PoolSys PoolThms.

#[local] Existing Instance fifo_notify.
#[local] Existing Instance fifo_laws.

(** ** Active connections *)

Definition holds_for (k : PoolKey) (t : task) : bool :=
  match t with Holding k' _ => bool_decide (k = k') | _ => false end.
Definition leaked_at (k : PoolKey) (p : place) : bool :=
  match p with Leaked k' => bool_decide (k = k') | _ => false end.
Definition held_at (k : PoolKey) (p : place) : bool :=
  match p with HeldBy k' _ => bool_decide (k = k') | _ => false end.

Lemma active_split k (l : gmap Z place) : cnt (active_at k) l = cnt (held_at k) l + cnt (leaked_at k) l.
Proof.
  induction l as [|s p l Hs IH] using map_ind; [by rewrite !cnt_empty|].
  rewrite !cnt_insert_fresh, IH by done. destruct p; simpl; try case_bool_decide; simpl; lia.
Qed.

Section active.
Context {Nt : Notify}.

(** C14. What [active_count] counts.  In every reachable state (with fewer than
    2^64 connections open) the active count of a pool is the number of sessions
    that hold a connection of its key, plus the number of connections of that
    key whose session ended without [release]; and [total_connections] is the
    number of all open connections and leaked ones. *)
Theorem active_count_exact c acc σ k :
  preach c acc σ → cnt anywhere (loc σ) < 2^64 →
  active_count (pool_at (mgr σ) k) = cnt (holds_for k) (tasks σ) + cnt (leaked_at k) (loc σ)
  ∧ total_connections (mgr σ) = cnt anywhere (loc σ).
Proof.
  intros [Hp Ht _ _ _]%reach_pinv Hb. split.
  - rewrite (po_active _ _ _ Hp), u64_wrap_small.
    + rewrite active_split. f_equal. symmetry. apply (owned_count _ _ _ _ Ht).
      * intros i [] ?; simplify_eq/=; eauto.
      * intros s [] ?; simplify_eq/=. exists tid, (Holding k0 s). done.
    + split; [apply cnt_nonneg|]. eapply Z.le_lt_trans; [by apply cnt_le|exact Hb].
  - unfold total_connections. rewrite (po_total _ _ _ Hp), u64_wrap_small; [done|].
    split; [apply cnt_nonneg|exact Hb].
Qed.
End active.

(** One connection held, one leaked. *)
Lemma active_count_exact_witness :
  let σ := demo_run (demo_cfg 5 5) (open_new 0 demo_key ++ open_new 1 demo_key ++ [ADrop 1]) in
  active_count (pool_at (mgr σ) demo_key) = 2
  ∧ active_count (pool_at (mgr σ) demo_key) = cnt (holds_for demo_key) (tasks σ) + cnt (leaked_at demo_key) (loc σ).
Proof.
  split; [by vm_compute|]. apply (active_count_exact (demo_cfg 5 5) demo_accepts).
  - apply demo_reach. by vm_compute.
  - by vm_compute.
Defined.

Definition is_i64 (z : Z) : Prop := -2^63 ≤ z < 2^63.
Lemma i64_wrap_range z : is_i64 (i64_wrap z).
Proof. unfold is_i64, i64_wrap. pose proof (Z.mod_pos_bound (z + 2^63) (2^64) ltac:(lia)). lia. Qed.
Lemma cong64_i64 z : i64_wrap z ≡₆₄ z.
Proof.
  unfold cong64, i64_wrap. rewrite Zminus_mod, Zmod_mod, <-Zminus_mod. f_equal. lia.
Qed.

(** ** The books: metrics against the statistics of the pools *)

(** A goal about the result of an operation named by an equation. *)
Ltac fst_eq :=
  try match goal with E : _ = (?m', _) |- _ => apply (f_equal fst) in E; simpl in E; subst m' end.

Section books.
Context {Nt : Notify}.

Lemma msum_put (f : Pool → Z) m k p :
  f Pool_new = 0 → msum f (<[k := p]> (pools m)) = msum f (pools m) - f (pool_at m k) + f p.
Proof. intros H. rewrite msum_insert. unfold pool_at. destruct (pools m !! k); simpl; lia. Qed.

(** An operation keeps the books; [d] is the change of the number of
    connection attempts under way. *)
Record balanced (d : Z) (m m' : PoolManager) : Prop := {
  bl_gauge : server_connections_active (pm_metrics m') - total_server_connections m'
             ≡₆₄ server_connections_active (pm_metrics m) - total_server_connections m;
  bl_acquired : pool_hits_total (pm_metrics m') + server_connections_total (pm_metrics m')
                - msum total_acquired (pools m')
                ≡₆₄ pool_hits_total (pm_metrics m) + server_connections_total (pm_metrics m)
                - msum total_acquired (pools m);
  bl_errors : pool_timeouts_total (pm_metrics m') + server_connection_errors_total (pm_metrics m')
              - msum total_errors (pools m')
              ≡₆₄ pool_timeouts_total (pm_metrics m) + server_connection_errors_total (pm_metrics m)
              - msum total_errors (pools m);
  bl_misses : pool_misses_total (pm_metrics m') - server_connections_total (pm_metrics m')
              - server_connection_errors_total (pm_metrics m')
              ≡₆₄ pool_misses_total (pm_metrics m) - server_connections_total (pm_metrics m)
              - server_connection_errors_total (pm_metrics m) + d
}.

Lemma balanced_trans d m m' m'' : balanced 0 m m' → balanced d m' m'' → balanced d m m''.
Proof.
  intros [H1 H2 H3 H4] [H1' H2' H3' H4'].
  split; [by rewrite H1'|by rewrite H2'|by rewrite H3'|rewrite H4', H4]. by apply cong64_eq; lia.
Qed.

(** Normalises the counters of an operation and closes its four equations. *)
Ltac balance :=
  split; simpl; rewrite ?msum_put by done; autorewrite with pool_at; simpl; unfold fetch_add1, fetch_sub1;
  rewrite ?cong64_i64, ?cong64_u64; apply cong64_eq; lia.

Lemma balanced_refl m : balanced 0 m m.
Proof. balance. Qed.
Lemma balanced_drop m : balanced 0 m (drop_connection m).
Proof. balance. Qed.

Lemma balanced_set m k p :
  total_acquired p = total_acquired (pool_at m k) → total_errors p = total_errors (pool_at m k) →
  balanced 0 m (set_pool m k p).
Proof. intros H1 H2. split; simpl; rewrite ?msum_put, ?H1, ?H2 by done; apply cong64_eq; lia. Qed.
Lemma balanced_entry m k : balanced 0 m (pool_entry m k).
Proof.
  unfold pool_entry. destruct (pools m !! k) eqn:E; [apply balanced_refl|].
  apply balanced_set; unfold pool_at; by rewrite E.
Qed.
Lemma balanced_timeout m k : balanced 0 m (acquire_timeout m k).
Proof. balance. Qed.
Lemma balanced_start m : balanced 1 m (start_connect m).
Proof. balance. Qed.
Lemma balanced_connect_ok m k : balanced (-1) m (connect_ok m k).
Proof. balance. Qed.
Lemma balanced_connect_err m k : balanced (-1) m (connect_err m k).
Proof. balance. Qed.
Lemma balanced_iter n m : balanced 0 m (Nat.iter n drop_connection m).
Proof. induction n as [|n IH]; [apply balanced_refl|]. eapply balanced_trans; [exact IH|apply balanced_drop]. Qed.
Lemma balanced_pop c t m k : balanced 0 m (pop_idle c t m k).1.
Proof.
  unfold pop_idle. destruct (pop_scan c t _) as [[n [x|]] l]; simpl;
    (eapply balanced_trans; [apply (balanced_iter n)|]);
    pose proof (iter_drop_pool_at n m k) as E; revert E; generalize (Nat.iter n drop_connection m); intros m' <-;
    balance.
Qed.
Lemma balanced_begin m k : balanced 0 m (release_begin m k).1.
Proof.
  unfold release_begin. destruct (pools m !! k) eqn:E; [|apply balanced_drop].
  apply balanced_set; unfold pool_at; by rewrite E.
Qed.
Lemma balanced_release_ok t m k s : balanced 0 m (release_ok t m k s).1.
Proof. unfold release_ok. case_match. by apply balanced_set. Qed.
Lemma balanced_drop_notified m k : balanced 0 m (drop_notified m k).1.
Proof. unfold drop_notified. case_match. by apply balanced_set. Qed.
Lemma balanced_await m k i : balanced 0 m (await_notified m k i).1.
Proof. unfold await_notified. case_match; by apply balanced_set. Qed.
Lemma balanced_drop_waiting m k i : balanced 0 m (drop_waiting m k i).
Proof. by apply balanced_set. Qed.
#[local] Hint Resolve balanced_refl balanced_drop balanced_entry balanced_timeout balanced_start balanced_connect_ok
  balanced_connect_err balanced_pop balanced_begin balanced_release_ok balanced_drop_notified balanced_await
  balanced_drop_waiting : pgmux.

Lemma balanced_eq d d' m m' : balanced d m m' → d = d' → balanced d' m m'.
Proof. by intros H <-. Qed.
(** An attempt to connect that is counted as a miss and as nothing else. *)
Definition unsettled (t : task) : bool := is_connecting t || is_panicked t.
Lemma unsettled_split (ts : gmap nat task) : cnt unsettled ts = cnt is_connecting ts + cnt is_panicked ts.
Proof.
  induction ts as [|i t ts Hi IH] using map_ind; [by rewrite !cnt_empty|].
  rewrite !cnt_insert_fresh, IH by done. destruct t; simpl; lia.
Qed.
Lemma unsettled_wake o ts : cnt unsettled (wake o ts) = cnt unsettled ts.
Proof.
  destruct o as [i|]; [|done]. simpl. repeat case_match; try done.
  rewrite cnt_insert. simplify_option_eq. lia.
Qed.
Lemma unsettled_insert (ts : gmap nat task) i t u :
  ts !! i = Some u → cnt unsettled (<[i := t]> ts)
                     = cnt unsettled ts - b2z (unsettled u) + b2z (unsettled t).
Proof. apply cnt_update. Qed.

Lemma balanced_step c acc σ σ' :
  pstep c acc σ σ' → balanced (cnt unsettled (tasks σ') - cnt unsettled (tasks σ)) (mgr σ) (mgr σ').
Proof.
  destruct 1; simpl; fst_eq;
    try (eapply balanced_eq; [solve [auto 2 with pgmux]|];
         rewrite ?unsettled_wake; first [erewrite unsettled_insert by eassumption; simpl; lia | idtac]).
  - rewrite cnt_insert_fresh by done. simpl. lia.
  - erewrite unsettled_insert by eassumption. unfold after_await. case_match; simpl; lia.
  - eapply balanced_eq; [eapply balanced_trans; [apply balanced_drop_waiting|apply balanced_timeout]|].
    erewrite unsettled_insert by eassumption. simpl. lia.
  - eapply balanced_eq; [eapply balanced_trans; [apply balanced_drop_notified|apply balanced_timeout]|].
    rewrite unsettled_wake. erewrite unsettled_insert by eassumption. simpl. lia.
  - lia.
Qed.

(** The books of a reachable state. *)
Definition books_ok (σ : psys) : Prop :=
  balanced (cnt unsettled (tasks σ)) PoolManager_new (mgr σ).

Lemma reach_books c acc σ : preach c acc σ → books_ok σ.
Proof.
  apply (rtc_inv _ books_ok); unfold books_ok.
  - intros a b [H1 H2 H3 H4] [H1' H2' H3' H4']%balanced_step.
    split; [by rewrite H1'|by rewrite H2'|by rewrite H3'|]. rewrite H4', H4. apply cong64_eq. lia.
  - apply balanced_refl.
Qed.

Lemma stats_sum (f : Pool → Z) (g : PoolStats → Z) m :
  (∀ k p, g (mk_PoolStats k (len (idle p)) (active_count p) (total_acquired p) (total_errors p)) = f p) →
  zsum g (get_stats m) = msum f (pools m).
Proof. intros H. unfold get_stats, msum. rewrite zsum_fmap. apply zsum_ext. intros [k p] _. apply H. Qed.

(** C15. The books balance.  In every reachable state (all counters read
    modulo 2^64): the gauge of active server connections is
    [total_connections]; every connection handed out was a pool hit or a new
    connection, so hits plus creations are the [total_acquired] of all pools
    together; timeouts plus connection errors are their [total_errors]; and
    every miss is a creation, a connection error, an attempt still under
    way or one that ended in a panic (which no other counter shows). *)
Theorem pool_books_balance c acc σ :
  preach c acc σ →
  let x := pm_metrics (mgr σ) in
  server_connections_active x ≡₆₄ total_connections (mgr σ)
  ∧ pool_hits_total x + server_connections_total x ≡₆₄ zsum ps_acquired (get_stats (mgr σ))
  ∧ pool_timeouts_total x + server_connection_errors_total x ≡₆₄ zsum ps_errors (get_stats (mgr σ))
  ∧ pool_misses_total x ≡₆₄ server_connections_total x + server_connection_errors_total x
                            + cnt is_connecting (tasks σ) + cnt is_panicked (tasks σ).
Proof.
  intros [H1 H2 H3 H4]%reach_books. simpl in *. rewrite msum_empty in *. rewrite unsettled_split in H4.
  rewrite (stats_sum total_acquired ps_acquired), (stats_sum total_errors ps_errors) by done.
  unfold total_connections. split_and!.
  - apply cong64_move in H1. rewrite H1. apply cong64_eq. lia.
  - apply cong64_move in H2. rewrite H2. apply cong64_eq. lia.
  - apply cong64_move in H3. rewrite H3. apply cong64_eq. lia.
  - apply cong64_move, cong64_move in H4. rewrite H4. apply cong64_eq. lia.
Qed.

End books.

(** The last attempt ends in a panic. *)
Definition demo_panic : list action := demo_mixed ++ ask 4 demo_key2 (lit "right") ++ [AConnect 4 ConnectPanic].

Lemma pool_books_balance_witness :
  let σ := demo_run PoolConfig_default demo_panic in
  let x := pm_metrics (mgr σ) in
  (pool_misses_total x, server_connections_total x, server_connection_errors_total x) = (5, 3, 1)
  ∧ pool_misses_total x ≡₆₄ server_connections_total x + server_connection_errors_total x
                            + cnt is_connecting (tasks σ) + cnt is_panicked (tasks σ).
Proof.
  split; [by vm_compute|]. apply (pool_books_balance PoolConfig_default demo_accepts). apply demo_reach. by vm_compute.
Defined.

(** ** The loop of [acquire] ends *)

Section loop.
Context {Nt : Notify}.

(** The deadline of a task inside the loop, and the number of its own steps
    that can still keep it there once the deadline has passed. *)
Definition loop_deadline (t : task) : option Z :=
  match t with
  | Popping _ d | Checking _ d | WaitingFor _ d | Woken _ d => Some d
  | _ => None
  end.
Definition loop_rank (t : task) : nat :=
  match t with WaitingFor _ _ | Woken _ _ => 3 | Popping _ _ => 2 | Checking _ _ => 1 | _ => 0 end.

(** The task an action runs. *)
Definition actor (a : action) : option nat :=
  match a with
  | AStart tid _ _ | APop tid | ACheck tid | AResume tid | ATimeout tid | AConnect tid _
  | ARelease tid | ADrop tid | AReset tid _ => Some tid
  | ATick _ => None
  end.
Definition own_steps (tid : nat) (l : list action) : nat :=
  length (filter (λ a, actor a = Some tid) l).

Lemma wake_lookup o ts tid :
  wake o ts !! tid = ts !! tid
  ∨ ∃ k d, ts !! tid = Some (WaitingFor k d) ∧ wake o ts !! tid = Some (Woken k d).
Proof.
  destruct o as [i|]; simpl; [|by left]. destruct (ts !! i) as [[]|] eqn:E; try by left.
  destruct (decide (i = tid)) as [->|]; [right; rewrite lookup_insert_eq; eauto|].
  left. by rewrite lookup_insert_ne.
Qed.

(** A step of another task leaves a task where it is, or wakes it up. *)
Lemma exec_other c acc a σ σ' tid t :
  exec c acc a σ = Some σ' → actor a ≠ Some tid → tasks σ !! tid = Some t →
  ∃ t', tasks σ' !! tid = Some t' ∧ loop_deadline t' = loop_deadline t ∧ loop_rank t' = loop_rank t.
Proof.
  intros H Hne Ht. assert (Hsame : tasks σ' !! tid = tasks σ !! tid
    ∨ ∃ k d, tasks σ !! tid = Some (WaitingFor k d) ∧ tasks σ' !! tid = Some (Woken k d)).
  { destruct σ as [pw m ts tm n l o], a; simpl in *; repeat case_match; simplify_eq/=;
      rewrite ?lookup_insert_ne by congruence; try (by left);
      match goal with |- context [wake ?w (<[?i := ?x]> ?s)] => destruct (wake_lookup w (<[i := x]> s) tid) as [E|E];
        rewrite ?lookup_insert_ne in E by congruence; [by left|by right] end. }
  destruct Hsame as [E|(k & d & Ew & E)]; rewrite E; [by eauto|]. rewrite Ew in Ht. simplify_eq. eauto.
Qed.

Lemma exec_now c acc a σ σ' : exec c acc a σ = Some σ' → now σ ≤ now σ'.
Proof. destruct σ as [pw m ts tm n l o], a; simpl; intros; repeat case_match; simplify_eq/=; lia. Qed.

(** Past its deadline, an own step of a task brings it closer to the exit. *)
Lemma exec_own c acc a σ σ' tid t :
  exec c acc a σ = Some σ' → actor a = Some tid → tasks σ !! tid = Some t →
  (∀ d, loop_deadline t = Some d → d ≤ now σ) →
  ∃ t', tasks σ' !! tid = Some t' ∧ (loop_rank t' ≤ loop_rank t - 1)%nat
    ∧ ∀ d, loop_deadline t' = Some d → d ≤ now σ.
Proof.
  intros H Ha Ht Hd.
  destruct σ as [pw m ts tm n l o], a; simpl in *; simplify_eq; rewrite Ht in H; repeat case_match; simplify_eq/=;
    rewrite ?lookup_insert_eq; try (eexists; split_and!; [reflexivity|simpl; lia|by eauto]).
  all: try (specialize (Hd _ eq_refl); lia).
  all: match goal with |- context [wake ?w (<[?i := ?x]> ?s)] => destruct (wake_lookup w (<[i := x]> s) i) as [E|(? & ? & E & _)];
         rewrite lookup_insert_eq in E; [|done]; rewrite E; eexists; split_and!; [reflexivity|simpl; lia|done] end.
Qed.

Lemma run_rank c acc l σ σ' tid t :
  run c acc l σ = Some σ' → tasks σ !! tid = Some t → (∀ d, loop_deadline t = Some d → d ≤ now σ) →
  ∃ t', tasks σ' !! tid = Some t' ∧ (loop_rank t' ≤ loop_rank t - own_steps tid l)%nat.
Proof.
  revert σ t. induction l as [|a l IH]; intros σ t; simpl.
  { intros [= <-] Ht _. exists t. split; [done|]. unfold own_steps. simpl. lia. }
  destruct (exec c acc a σ) as [σ1|] eqn:E; [|done]. simpl. intros Hl Ht Hd.
  pose proof (exec_now _ _ _ _ _ E) as Hnow. unfold own_steps. rewrite filter_cons.
  destruct (decide (actor a = Some tid)) as [Ha|Ha].
  - destruct (exec_own _ _ _ _ _ _ _ E Ha Ht Hd) as (t1 & H1 & Hr1 & Hd1).
    destruct (IH _ _ Hl H1) as (t' & Ht' & Hr'); [intros d Hd'; specialize (Hd1 d Hd'); lia|].
    exists t'. split; [done|]. unfold own_steps in Hr'. simpl. lia.
  - destruct (exec_other _ _ _ _ _ _ _ E Ha Ht) as (t1 & H1 & Hd1 & Hr1).
    destruct (IH _ _ Hl H1) as (t' & Ht' & Hr').
    { intros d Hd'. rewrite Hd1 in Hd'. specialize (Hd d Hd'). lia. }
    exists t'. split; [done|]. unfold own_steps in Hr'. lia.
Qed.

(** C13. [acquire] ends.  Once the deadline of a session waiting in the loop of
    [acquire] has passed, the session can always make a step, and after at
    most three steps of its own, however they interleave with those of others
    (which may take every connection given back in between), it has left the
    loop: with a connection, with an error, or on to opening a connection. *)
Theorem acquire_terminates c acc σ tid t d :
  tasks σ !! tid = Some t → loop_deadline t = Some d → d ≤ now σ →
  (∃ a σ', actor a = Some tid ∧ exec c acc a σ = Some σ')
  ∧ ∀ l σ', run c acc l σ = Some σ' → (3 ≤ own_steps tid l)%nat →
      ∃ t', tasks σ' !! tid = Some t' ∧ loop_deadline t' = None.
Proof.
  intros Ht Hd Hnow. split.
  - destruct σ as [pw m ts tm n l o]; simpl in *.
    destruct t; simplify_eq/=;
      [exists (APop tid)|exists (ACheck tid)|exists (ATimeout tid)|exists (AResume tid)]; simpl; rewrite Ht;
      repeat case_match; try (eexists; split; [done|reflexivity]); lia.
  - intros l σ' Hl Hn. destruct (run_rank _ _ _ _ _ _ _ Hl Ht) as (t' & Ht' & Hr); [intros ? ?; congruence|].
    exists t'. split; [done|]. assert (Hz : loop_rank t' = 0%nat) by (destruct t; simpl in *; lia).
    by destruct t'.
Qed.

End loop.

(** A session that waits while another one keeps the only connection. *)
Definition demo_waiting : list action :=
  open_new 0 demo_key ++ ask 1 demo_key (lit "right") ++ [ATick (millis 5000)].

Lemma acquire_terminates_witness :
  let σ := demo_run (demo_cfg 1 1) demo_waiting in
  tasks σ !! 1%nat = Some (WaitingFor demo_key (millis 5000))
  ∧ ∀ l σ', run (demo_cfg 1 1) demo_accepts l σ = Some σ' → (3 ≤ own_steps 1 l)%nat →
      ∃ t', tasks σ' !! 1%nat = Some t' ∧ loop_deadline t' = None.
Proof.
  split; [by vm_compute|].
  apply (acquire_terminates (demo_cfg 1 1) demo_accepts _ 1 (WaitingFor demo_key (millis 5000)) (millis 5000));
    [by vm_compute|done|by vm_compute].
Defined.

(** ** The table of pools *)

Section table.
Context {Nt : Notify}.

Lemma step_grows c acc σ σ' : pstep c acc σ σ' → grows (mgr σ) (mgr σ').
Proof.
  destruct 1; simpl; fst_eq; try apply grows_refl; try apply start_connect_grows; try by apply grows_set.
  all: try first [apply pool_entry_grows | apply pop_idle_grows | apply await_notified_grows | apply release_ok_grows
    | apply release_begin_grows | apply connect_err_grows | apply acquire_timeout_grows].
  all: try first [apply grows_refl | apply drop_waiting_grows | apply drop_notified_grows].
Qed.

Definition pool_keys (m : PoolManager) : list PoolKey := ps_key <$> get_stats m.
Lemma pool_keys_spec m k : k ∈ pool_keys m ↔ is_Some (pools m !! k).
Proof.
  unfold pool_keys, get_stats. rewrite <-list_fmap_compose, list_elem_of_fmap. split.
  - intros ([k' p] & -> & Hin%elem_of_map_to_list). simpl. eauto.
  - intros [p Hp]. exists (k, p). split; [done|]. by apply elem_of_map_to_list.
Qed.

(** One refused login for a key that has no pool yet: four steps. *)
Lemma refused_login c σ k :
  1 ≤ max_total_connections c → 1 ≤ max_connections_per_pool c →
  pools (mgr σ) !! k = None → total_server_connections (mgr σ) = 0 →
  ∃ σ' tid, rtc (pstep c (λ _ _, false)) σ σ'
    ∧ pools (mgr σ') = <[k := set_errors Pool_new 1]> (pools (mgr σ)) ∧ total_server_connections (mgr σ') = 0
    ∧ tasks σ !! tid = None ∧ tasks σ' = <[tid := Finished]> (tasks σ) ∧ loc σ' = loc σ.
Proof.
  intros Ht Hp Hk H0. destruct σ as [pw m ts tm n l o]. simpl in *.
  set (tid := fresh (dom ts)). assert (Hfresh : ts !! tid = None) by (apply not_elem_of_dom, is_fresh).
  eexists _, tid. split.
  { apply (run_sound _ _ [AStart tid k []; APop tid; ACheck tid; AConnect tid ConnectErr]). simpl. rewrite Hfresh. simpl.
    rewrite lookup_insert_eq. unfold pool_entry. rewrite Hk.
    unfold pop_idle. rewrite pool_at_set, decide_True by done. simpl.
    rewrite lookup_insert_eq. unfold check_limits. simpl. rewrite H0.
    rewrite (proj2 (Z.leb_gt _ _)) by lia. rewrite !pool_at_set, !decide_True by done. simpl.
    change (u64_wrap (0 + len [])) with 0. rewrite (proj2 (Z.leb_gt _ _)) by lia. simpl.
    rewrite lookup_insert_eq. simpl. reflexivity. }
  unfold connect_err, start_connect. simpl. rewrite !insert_insert_eq. split_and!; try done.
  by rewrite !pool_at_metrics, !pool_at_set, !decide_True by done.
Qed.

Lemma pool_keys_nodup m : NoDup (pool_keys m).
Proof.
  unfold pool_keys, get_stats. rewrite <-list_fmap_compose.
  rewrite (list_fmap_ext _ fst); [apply NoDup_fst_map_to_list|done].
Qed.

Lemma reach_grows c acc σ σ' : rtc (pstep c acc) σ σ' → grows (mgr σ) (mgr σ').
Proof.
  intros H. apply (rtc_inv (pstep c acc) (λ σ', grows (mgr σ) (mgr σ')) σ σ'); [|apply grows_refl|done].
  intros a b Ha Hst%step_grows k Hk. by apply Hst, Ha.
Qed.

(** C33. Refused logins grow the table of pools.  [acquire] enters the key into
    the table before anything is known of the password: for any set of user and
    database names, clients none of whose logins succeeds leave exactly one
    pool per name (shown on the dashboard with its name), no connection is ever
    opened for them and every session is over; and no pool is ever removed
    again. *)
Theorem refused_logins_grow_pools c (ks : list PoolKey) :
  1 ≤ max_total_connections c → 1 ≤ max_connections_per_pool c → NoDup ks →
  ∃ σ, preach c (λ _ _, false) σ ∧ loc σ = ∅ ∧ (∀ tid t, tasks σ !! tid = Some t → t = Finished)
    ∧ pool_keys (mgr σ) ≡ₚ ks
    ∧ ∀ acc σ', rtc (pstep c acc) σ σ' → ks ⊆ pool_keys (mgr σ').
Proof.
  intros Ht Hp Hnd.
  assert (∃ σ, preach c (λ _ _, false) σ ∧ loc σ = ∅ ∧ (∀ tid t, tasks σ !! tid = Some t → t = Finished)
    ∧ (∀ k, is_Some (pools (mgr σ) !! k) ↔ k ∈ ks) ∧ total_server_connections (mgr σ) = 0)
    as (σ & Hr & Hl & Hts & Hk & _).
  { induction Hnd as [|k ks Hk Hnd IH].
    - exists psys_new. split_and!; try done; [apply rtc_refl|]. intros k. simpl.
      rewrite lookup_empty. split; [intros [? ?]; done|by intros ?%not_elem_of_nil].
    - destruct IH as (σ & Hr & Hl & Hts & Hks & H0).
      destruct (refused_login c σ k Ht Hp) as (σ' & tid & Hst & Hpo & H0' & Hnew & Hta & Hlo); [|done|].
      { apply eq_None_not_Some. by rewrite Hks. }
      exists σ'. split_and!; [by eapply rtc_trans|congruence| | |done].
      + intros i t. rewrite Hta, lookup_insert_Some. naive_solver.
      + intros k'. rewrite Hpo, lookup_insert, elem_of_cons, <-Hks. case_decide; naive_solver. }
  assert (Hperm : pool_keys (mgr σ) ≡ₚ ks).
  { apply NoDup_Permutation; [apply pool_keys_nodup|done|]. intros k. by rewrite pool_keys_spec. }
  exists σ. split_and!; try done. intros acc σ' Hst k Hin. apply pool_keys_spec, (reach_grows _ _ _ _ Hst).
  by apply Hk.
Qed.

End table.

Lemma refused_logins_grow_pools_witness :
  ∃ σ, preach PoolConfig_default (λ _ _, false) σ ∧ pool_keys (mgr σ) ≡ₚ [demo_key; demo_key2].
Proof.
  destruct (refused_logins_grow_pools PoolConfig_default [demo_key; demo_key2]) as (σ & Hr & _ & _ & Hk & _);
    [by vm_compute|by vm_compute| |by exists σ].
  apply NoDup_cons_2; [|apply NoDup_singleton]. intros H%list_elem_of_singleton. discriminate H.
Defined.
