(* ===== verification/MonitorRun.v ===== *)
(** * The monitor task (src/monitor/mod.rs, [run])

    The timer loop around [check_all_sizes]: when the checks take place.  The
    timer is tokio's; the class [Interval] has the two calls the loop makes of
    it and [IntervalLaws] what tokio documents of them.  [mexec] are the steps
    of the task as a function of the environment's choices, for its composition
    with the sessions. *)

From S2P Require Import Prelude RustStr Config Monitor Pool.

(** ** The timer *)

(** [interval period] at a time ([None] is a panic) and [tick]: the time at
    which the call made at a time completes.  Times are in nanoseconds. *)
Class Interval := {
  ticker : Type;
  interval : Z → Z → option ticker;
  tick : ticker → Z → Z * ticker
}.

(** tokio: a zero period panics; the first tick is due at once, the next ones
    at multiples of the period from the start; a tick that is already due
    completes at once (the default [MissedTickBehavior::Burst]). *)
Class IntervalLaws `{Interval} := {
  due : ticker → Z;
  period : ticker → Z;
  interval_zero : ∀ t, interval 0 t = None;
  interval_pos : ∀ p t, 0 < p → ∃ k, interval p t = Some k ∧ due k = t ∧ period k = p;
  tick_completes : ∀ k t, (tick k t).1 = Z.max t (due k);
  tick_next : ∀ k t, due (tick k t).2 = due k + period k ∧ period (tick k t).2 = period k
}.

Section run.
Context `{Interval}.

(** The loop: [durations] are the times its calls of [check_all_sizes] take;
    the result is the start and the end of each of them. *)
Fixpoint check_loop (k : ticker) (now : Z) (durations : list Z) : list (Z * Z) :=
  match durations with
  | [] => []
  | d :: ds =>
      let '(t, k) := tick k now in
      (t, t + d) :: check_loop k (t + d) ds
  end.

(** [run], started at a time; [None]: the task panics. *)
Definition run (c : MonitorConfig) (start : Z) (durations : list Z) : option (list (Z * Z)) :=
  match interval (secs (check_interval_secs c)) start with
  | None => None
  | Some k => Some (check_loop k (start + secs 5) durations)
  end.

Context `{!IntervalLaws}.

(** The specification of the schedule: check [i] begins as soon as the one
    before it (or the initial wait) is over and its own multiple of the period
    has come. *)
Fixpoint schedule (p due free : Z) (durations : list Z) : list (Z * Z) :=
  match durations with
  | [] => []
  | d :: ds => let s := Z.max free due in (s, s + d) :: schedule p (due + p) (s + d) ds
  end.

Lemma check_loop_schedule ds k now :
  check_loop k now ds = schedule (period k) (due k) now ds.
Proof using Type*.
  revert k now. induction ds as [|d ds IH]; intros k now; simpl; [done|].
  pose proof (tick_completes k now) as E. destruct (tick_next k now) as [Hd Hp].
  destruct (tick k now) as [t k'] eqn:Et. simpl in *. subst t. by rewrite IH, Hd, Hp.
Qed.

Lemma schedule_bounds p ds du free i s e :
  Forall (λ d, 0 ≤ d) ds → schedule p du free ds !! i = Some (s, e) →
  free ≤ s ∧ du + Z.of_nat i * p ≤ s ∧ s ≤ e.
Proof using Type.
  revert du free i. induction ds as [|d ds IH]; intros du free i Hd; [done|]. apply Forall_cons in Hd as [Hd0 Hd].
  destruct i as [|i]; simpl; [intros [= <- <-]; lia|]. intros Hi. apply IH in Hi; [|done]. lia.
Qed.
Lemma schedule_next p ds du free i s e s' e' :
  schedule p du free ds !! i = Some (s, e) → schedule p du free ds !! S i = Some (s', e') →
  s' = Z.max e (du + Z.of_nat (S i) * p).
Proof using Type.
  revert du free i. induction ds as [|d ds IH]; intros du free i; [done|].
  destruct i as [|i]; cbn [schedule lookup list_lookup].
  - intros [= <- <-]. destruct ds; simpl; [done|]. intros [= <- _]. f_equal. lia.
  - intros Hi Hi'. rewrite (IH _ _ _ Hi Hi'). f_equal. lia.
Qed.

(** C35. The schedule of the size checks.  With a positive interval [p] the
    task never panics, makes every check one after the other, the first one
    five seconds after its start, and check [i + 1] begins when check [i] is
    over, but not before its own multiple of [p] since the start: checks never
    overlap and the schedule does not drift (after a long check the missed ones
    follow at once).  With [check_interval_secs = 0], which the configuration
    accepts, the task panics at its start and no size is ever measured. *)
Theorem monitor_schedule c start ds :
  0 ≤ check_interval_secs c → Forall (λ d, 0 ≤ d) ds →
  (check_interval_secs c = 0 → run c start ds = None)
  ∧ (0 < check_interval_secs c → ∃ checks, run c start ds = Some checks ∧ length checks = length ds
      ∧ ∀ i s e, checks !! i = Some (s, e) →
          start + secs 5 ≤ s ≤ e ∧ (i = O → s = start + secs 5)
          ∧ ∀ s' e', checks !! S i = Some (s', e') →
              s' = Z.max e (start + Z.of_nat (S i) * secs (check_interval_secs c))).
Proof using Type*.
  intros Hp Hd. unfold run. split; [by intros ->; rewrite interval_zero|].
  intros Hpos. destruct (interval_pos (secs (check_interval_secs c)) start) as (k & -> & Hdue & Hper);
    [unfold secs; lia|].
  eexists. split; [reflexivity|]. rewrite check_loop_schedule, Hdue, Hper. split.
  - generalize start at 1, (start + secs 5). induction ds as [|d ds IH]; intros; simpl; [done|].
    apply Forall_cons in Hd as [_ Hd]. by rewrite IH.
  - intros i s e Hi. destruct (schedule_bounds _ _ _ _ _ _ _ Hd Hi) as (H1 & H2 & H3).
    split_and!; [lia|lia| |].
    + intros ->. destruct ds; simpl in Hi; [done|]. injection Hi as <- _. unfold secs. lia.
    + intros s' e' Hi'. exact (schedule_next _ _ _ _ _ _ _ _ _ Hi Hi').
Qed.
End run.

(** A timer that keeps its laws: the period and the next due time. *)
#[local] Instance demo_interval : Interval := {
  ticker := Z * Z;
  interval p t := if p =? 0 then None else Some (p, t);
  tick k t := (Z.max t k.2, (k.1, k.2 + k.1))
}.
#[local] Instance demo_interval_laws : IntervalLaws.
Proof.
  refine {| due := snd; period := fst |}; simpl; try done.
  intros p t Hp. rewrite (proj2 (Z.eqb_neq _ _)) by lia. eauto.
Defined.

(** Checks every two seconds that take one second: three in a row at first. *)
Lemma monitor_schedule_witness :
  run (mk_MonitorConfig 2 0 true) 0 [secs 1; secs 1; secs 1; secs 1]
    = Some [(secs 5, secs 6); (secs 6, secs 7); (secs 7, secs 8); (secs 8, secs 9)]
  ∧ run (mk_MonitorConfig 0 0 true) 0 [secs 1] = None.
Proof.
  split; [by vm_compute|].
  apply (monitor_schedule (mk_MonitorConfig 0 0 true) 0 [secs 1]); [done|by repeat constructor|done].
Defined.

(** ** The steps of the task, by the choices of the environment *)

(** The order in which the two maps are iterated, the outcome of the connection
    and the answers of the queries. *)
Inductive maction :=
  | MBegin (dbs : list str)
  | MConnect (connected : bool)
  | MSize (row : option Z)
  | MFlags (ids : list Z)
  | MFlag
  | MDone.

Definition mexec (c : Config) (a : maction) (st : DbSizeMonitor * phase) : option (DbSizeMonitor * phase) :=
  let '(m, p) := st in
  match a, p with
  | MBegin dbs, Waiting => if decide (dbs ≡ₚ tracked m ∧ dbs ≠ []) then Some (m, Dialing dbs) else None
  | MConnect connected, Dialing dbs => Some (m, if connected then Sizing dbs else Waiting)
  | MSize row, Sizing (db :: rest) => Some (check_one c m db row, Sizing rest)
  | MFlags ids, Sizing [] => if decide (pass_over m ids) then Some (m, Flagging ids) else None
  | MFlag, Flagging (id :: rest) => Some (visit m id, Flagging rest)
  | MDone, Flagging [] => Some (m, Waiting)
  | _, _ => None
  end.

Lemma mexec_sound c a st st' : mexec c a st = Some st' → mstep c st st'.
Proof.
  destruct st as [m [|dbs|[|db dbs]|[|id ids]]], a as [dbs'|[]|row|ids'| |]; simpl; try done; try case_decide;
    intros E; simplify_eq;
    first [by apply step_begin; naive_solver | by apply step_connected | by apply step_failed | by apply step_size
          | by apply step_flags | apply step_flag | apply step_done].
Qed.

(** The task's own steps leave registrations and the counter alone. *)
Lemma mexec_frame c a m p m' p' :
  mexec c a (m, p) = Some (m', p') →
  sessions m' = sessions m ∧ session_id_counter m' = session_id_counter m ∧ length (flags m') = length (flags m).
Proof.
  destruct p as [|dbs|[|db dbs]|[|id ids]], a as [dbs'|[]|row|ids'| |]; simpl; try done; try case_decide;
    intros E; simplify_eq; try done.
  - by destruct (check_one_frame c m db row) as (_ & -> & -> & -> & _).
  - unfold visit. destruct (sessions m !! id) as [x|]; [|done].
    destruct (update_flag_frame m x) as (_ & _ & -> & ->).
    split; [done|]. split; [unfold update_flag; by repeat case_match|]. case_match; [by rewrite length_insert|done].
Qed.
