(* ===== verification/Io.v ===== *)
(** * Sockets as the program sees them

    An [async fn] that talks to one peer is a state that waits for the next
    read.  The environment decides what each read returns (any cut of the
    peer's bytes, end of file, or an error) and after how many writes the
    socket fails; [run_reads] feeds a script of reads to the function. *)

From S2P Require Import Prelude RustStr Messages.

(** The result of [stream.read_buf(&mut buf).await]; [RdData []] is [Ok(0)]. *)
Inductive rd :=
  | RdErr
  | RdData (chunk : bytes).

(** The writing half: what was sent, and how many more writes succeed
    ([None]: all of them). *)
Record sink := mk_sink { sent : bytes; writes_left : option nat }.

(** [stream.write_all(b).await?] *)
Definition send (w : sink) (b : bytes) : outcome sink :=
  match writes_left w with
  | None => Ok (mk_sink (sent w ++ b) None)
  | Some O => Err IoError
  | Some (S n) => Ok (mk_sink (sent w ++ b) (Some n))
  end.

Inductive progress (S R : Type) :=
  | Waiting (s : S)
  | Done (r : outcome R).
Arguments Waiting {S R} s.
Arguments Done {S R} r.

(** The function after each of the given reads (or other events), and the ones
    it did not take. *)
Fixpoint run_reads {E S R} (on_read : S → E → progress S R) (s : S) (l : list E)
    : progress S R * list E :=
  match l with
  | [] => (Waiting s, [])
  | r :: l' =>
      match on_read s r with
      | Waiting s' => run_reads on_read s' l'
      | Done x => (Done x, l')
      end
  end.

(** An outcome in the middle of a function: errors and panics leave it. *)
Definition andthen {A S R} (m : outcome A) (k : A → progress S R) : progress S R :=
  match m with Ok a => k a | Err e => Done (Err e) | Panic => Done Panic end.
Notation "x '<~' m ; k" := (andthen m (λ x, k))
  (at level 20, m at level 100, k at level 200, right associativity) : pgmux_scope.

Lemma andthen_Ok {A S R} (m : outcome A) (k : A → progress S R) r :
  andthen m k = Done (Ok r) → ∃ a, m = Ok a ∧ k a = Done (Ok r).
Proof. destruct m; simpl; intros; simplify_eq; eauto. Qed.
Lemma andthen_Waiting {A S R} (m : outcome A) (k : A → progress S R) s :
  andthen m k = Waiting s → ∃ a, m = Ok a ∧ k a = Waiting s.
Proof. destruct m; simpl; intros; simplify_eq; eauto. Qed.

(** ** Draining as a total function *)

(** [while let Some((msg, raw)) = try_read_message_with_raw(&mut buf)? { body }];
    the fuel of [drain] is always enough ([drain_total]). *)
Definition drain_raw {St R} (body : St → PgMessage → bytes → outcome (St + R)) (s : St) (buf : bytes)
    : outcome ((St + R) * bytes) :=
  default Panic (drain body s buf).

Section drain_raw.
Context {St R : Type} (body : St → PgMessage → bytes → outcome (St + R)).

Lemma drain_raw_wire s m rest :
  msg_fits m →
  drain_raw body s (wire m ++ rest) =
    match body s m (wire m) with
    | Ok (inl s') => drain_raw body s' rest
    | Ok (inr r) => Ok (inr r, rest)
    | Err e => Err e
    | Panic => Panic
    end.
Proof using Type.
  intros Hm. unfold drain_raw. rewrite drain_wire by done. by destruct (body s m (wire m)) as [[]| |].
Qed.

(** The recursion equation of the loop. *)
Lemma drain_raw_eq s buf :
  drain_raw body s buf =
    match try_read_message_with_raw buf with
    | Ok (None, buf) => Ok (inl s, buf)
    | Ok (Some (m, raw), buf) =>
        match body s m raw with
        | Ok (inl s') => drain_raw body s' buf
        | Ok (inr r) => Ok (inr r, buf)
        | Err e => Err e
        | Panic => Panic
        end
    | Err e => Err e
    | Panic => Panic
    end.
Proof using Type.
  unfold drain_raw. rewrite drain_unfold. unfold drain_body.
  destruct (try_read_message_with_raw buf) as [[[[m raw]|] rest]| |]; simpl; try done.
  by destruct (body s m raw) as [[]| |].
Qed.

Lemma drain_raw_app s b1 b2 :
  drain_raw body s (b1 ++ b2) =
    match drain_raw body s b1 with
    | Ok (inl s', rest) => drain_raw body s' (rest ++ b2)
    | Ok (inr r, rest) => Ok (inr r, rest ++ b2)
    | o => o
    end.
Proof using Type.
  unfold drain_raw. rewrite drain_app.
  destruct (drain_total body s b1) as [o Ho]. rewrite Ho. simpl. by destruct o as [[[]]| |].
Qed.

(** What is left over holds no complete message. *)
Lemma drain_raw_stuck s b s' rest :
  drain_raw body s b = Ok (inl s', rest) → drain_raw body s' rest = Ok (inl s', rest).
Proof using Type.
  intros E. pose proof (drain_raw_app s b []) as H. rewrite E, !app_nil_r in H. congruence.
Qed.

Lemma drain_raw_nil s : drain_raw body s [] = Ok (inl s, []).
Proof using Type. by rewrite drain_raw_eq. Qed.

(** Induction over the messages a drain takes. *)
Lemma drain_raw_inv (I : St → bytes → Prop) (Q : R → bytes → Prop) s buf :
  (∀ s m rest s', msg_fits m → I s (wire m ++ rest) → body s m (wire m) = Ok (inl s') → I s' rest) →
  (∀ s m rest r, msg_fits m → I s (wire m ++ rest) → body s m (wire m) = Ok (inr r) → Q r rest) →
  I s buf →
  match drain_raw body s buf with
  | Ok (inl s', rest) => I s' rest
  | Ok (inr r, rest) => Q r rest
  | _ => True
  end.
Proof using Type.
  intros H1 H2. pattern s, buf. apply drain_ind. clear s buf. intros s buf IH Hs.
  rewrite drain_raw_eq.
  destruct (try_read_message_with_raw buf) as [[[[m raw]|] rest]| |] eqn:E; try done.
  - pose proof (read_raw_Some _ _ _ _ E) as (-> & -> & Hm).
    destruct (body s m (wire m)) as [[s'|r]| |] eqn:Eb; try done; [|by eapply H2].
    eapply (IH s' m); eauto.
  - by apply read_raw_None in E as ->.
Qed.

Lemma drain_raw_no_panic s buf :
  (∀ s m, msg_fits m → body s m (wire m) ≠ Panic) → drain_raw body s buf ≠ Panic.
Proof using Type.
  intros Hb. pattern s, buf. apply drain_ind. clear s buf. intros s buf IH. rewrite drain_raw_eq.
  pose proof (read_raw_inv buf) as Hr.
  destruct (try_read_message_with_raw buf) as [[[[m raw]|] rest]| |] eqn:E; try done.
  destruct Hr as (-> & -> & Hm). specialize (Hb s m Hm).
  destruct (body s m (wire m)) as [[s'|r]| |]; try done. by eapply (IH s' m).
Qed.

(** A function that appends each read to a buffer and drains it behaves as one
    drain of everything read, however it is cut. *)
Lemma chunks_drain {T O} (embed : St → bytes → T) (ev : bytes → O)
    {X} (step : T → O → progress T X) (exit : R → bytes → progress T X) s buf chunks :
  (∀ s buf c, c ≠ [] → step (embed s buf) (ev c)
     = andthen (drain_raw body s (buf ++ c))
         (λ x, match x with (inl s', rest) => Waiting (embed s' rest) | (inr r, rest) => exit r rest end)) →
  Forall (λ c, c ≠ []) chunks → drain_raw body s buf = Ok (inl s, buf) →
  ∀ s' rest, drain_raw body s (buf ++ concat chunks) = Ok (inl s', rest) →
  run_reads step (embed s buf) (ev <$> chunks) = (Waiting (embed s' rest), []).
Proof using Type.
  intros Hst Hc. revert s buf. induction Hc as [|c cs Hne _ IH]; intros s buf Hbuf s' rest E.
  - simpl in *. rewrite app_nil_r in E. rewrite Hbuf in E. by simplify_eq.
  - simpl in E |- *. rewrite Hst by done. rewrite (assoc_L (++)), drain_raw_app in E.
    destruct (drain_raw body s (buf ++ c)) as [[[s1|r] rest1]| |] eqn:E1; simplify_eq/=.
    eapply IH; [exact (drain_raw_stuck _ _ _ _ E1)|done].
Qed.
End drain_raw.

(** [while let Some(msg) = try_read_message(&mut buf, false)? { body }] *)
Definition drain_msgs {St R} (body : St → PgMessage → outcome (St + R)) (s : St) (buf : bytes)
    : outcome ((St + R) * bytes) :=
  drain_raw (λ s m _, body s m) s buf.

Section drain_msgs.
Context {St R : Type} (body : St → PgMessage → outcome (St + R)).

(** The same loop with the plain reader. *)
Lemma drain_msgs_eq s buf :
  drain_msgs body s buf =
    match try_read_message buf false with
    | Ok (None, buf) => Ok (inl s, buf)
    | Ok (Some m, buf) =>
        match body s m with
        | Ok (inl s') => drain_msgs body s' buf
        | Ok (inr r) => Ok (inr r, buf)
        | Err e => Err e
        | Panic => Panic
        end
    | Err e => Err e
    | Panic => Panic
    end.
Proof using Type.
  rewrite readers_agree. unfold drain_msgs. rewrite drain_raw_eq.
  by destruct (try_read_message_with_raw buf) as [[[[m raw]|] rest]| |].
Qed.

Lemma drain_msgs_wire s m rest :
  msg_fits m →
  drain_msgs body s (wire m ++ rest) =
    match body s m with
    | Ok (inl s') => drain_msgs body s' rest
    | Ok (inr r) => Ok (inr r, rest)
    | Err e => Err e
    | Panic => Panic
    end.
Proof using Type. apply drain_raw_wire. Qed.

Lemma drain_msgs_app s b1 b2 :
  drain_msgs body s (b1 ++ b2) =
    match drain_msgs body s b1 with
    | Ok (inl s', rest) => drain_msgs body s' (rest ++ b2)
    | Ok (inr r, rest) => Ok (inr r, rest ++ b2)
    | o => o
    end.
Proof using Type. apply drain_raw_app. Qed.

Lemma drain_msgs_stuck s b s' rest :
  drain_msgs body s b = Ok (inl s', rest) → drain_msgs body s' rest = Ok (inl s', rest).
Proof using Type. apply drain_raw_stuck. Qed.

Lemma drain_msgs_nil s : drain_msgs body s [] = Ok (inl s, []).
Proof using Type. apply drain_raw_nil. Qed.
End drain_msgs.

(** ** A function that only drains

    A read appends to the buffer and the loop drains it: its behaviour depends
    on the bytes read, not on how they were cut into reads. *)
Section feed.
Context {St R : Type} (body : St → PgMessage → outcome (St + R)) (eof : error).

Definition feed (sb : St * bytes) (r : rd) : progress (St * bytes) R :=
  match r with
  | RdErr => Done (Err IoError)
  | RdData [] => Done (Err eof)
  | RdData chunk =>
      x <~ drain_msgs body sb.1 (sb.2 ++ chunk);
      match x with
      | (inl s, rest) => Waiting (s, rest)
      | (inr r, _) => Done (Ok r)
      end
  end.

(** One drain of everything, on the reads that arrive one by one. *)
Lemma feed_chunks s buf chunks :
  Forall (λ c, c ≠ []) chunks → drain_msgs body s buf = Ok (inl s, buf) →
  (run_reads feed (s, buf) (RdData <$> chunks)).1 =
    x <~ drain_msgs body s (buf ++ concat chunks);
    match x with
    | (inl s, rest) => Waiting (s, rest)
    | (inr r, _) => Done (Ok r)
    end.
Proof using Type.
  intros Hc. revert s buf. induction Hc as [|c cs Hne _ IH]; intros s buf Hbuf; simpl.
  - by rewrite app_nil_r, Hbuf.
  - destruct c as [|b c]; [done|]. cbn [feed fst snd].
    rewrite (assoc_L (++)), (drain_msgs_app body s (buf ++ b :: c)).
    destruct (drain_msgs body s (buf ++ b :: c)) as [[[s'|r] rest]| |] eqn:E; simpl; try done.
    apply IH. eapply drain_msgs_stuck, E.
Qed.
End feed.
