(* ===== verification/Backend.v ===== *)
(** * Backend connections (src/protocol/backend.rs)

    [connect_backend] as a machine that waits for reads: the phases are the
    places of its [read_buf().await]s (top of the authentication loop, the two
    SCRAM loops, the loop after authentication).  [reset_connection] and
    [parse_error_fields].  The functions of the postgres-protocol crate are the
    operations of the class [PgProto]. *)

From S2P Require Import Prelude RustStr Messages Startup Pool Io.

(** ** [parse_error_fields] *)

(** One iteration of the field loop. *)
Definition fields_body (payload : bytes) (st : nat * str) : ctrl (nat * str) (outcome str) :=
  let '(pos, msg) := st in
  match payload !! pos with
  | None => Break (Ok msg)
  | Some field_type =>
      if decide (field_type = x00) then Break (Ok msg) else
      let pos := S pos in
      let start := pos in
      let pos := skip_to_nul payload pos in
      if decide (field_type = "M"%byte) then
        match slice payload start pos with
        | None => Break Panic
        | Some s => Continue (S pos, match from_utf8 s with Some s => s | None => msg end)
        end
      else Continue (S pos, msg)
  end.

Definition fields_loop (payload : bytes) (st : nat * str) : option (outcome str) :=
  loop (2 + length payload) (fields_body payload) st.

(** [parse_error_fields]; its loop never runs out of fuel ([fields_loop_total])
    and never slices out of range ([fields_no_panic]). *)
Definition parse_error_fields (payload : bytes) : str :=
  match fields_loop payload (O, []) with
  | Some (Ok []) => lit "unknown error"
  | Some (Ok msg) => msg
  | _ => []
  end.

(** ** The postgres-protocol crate *)

Class PgProto := {
  (** a [ScramSha256] in progress *)
  scram : Type;
  password_message : bytes → outcome bytes;
  md5_hash : bytes → bytes → bytes → str;
  (** [ScramSha256::new] with the nonce it draws *)
  scram_new : bytes → scram;
  scram_message : scram → bytes;
  scram_update : scram → bytes → outcome scram;
  scram_finish : scram → bytes → outcome unit;
  sasl_initial_response : str → bytes → outcome bytes;
  sasl_response : bytes → outcome bytes
}.

(** ** [connect_backend] *)

(** [payload.split(|&b| b == 0)] *)
Fixpoint split_nul (p : bytes) : list bytes :=
  match p with
  | [] => [[]]
  | b :: r => if decide (b = x00) then [] :: split_nul r
              else match split_nul r with
                   | s :: ss => (b :: s) :: ss
                   | [] => [[b]]
                   end
  end.

(** [mechanisms.contains(&"SCRAM-SHA-256")] *)
Definition offers_scram (p : bytes) : bool :=
  existsb (λ s, match s with
                | [] => false
                | _ => bool_decide (from_utf8 s = Some (lit "SCRAM-SHA-256"))
                end) (split_nul p).

Section connect.
Context `{PgProto}.
Context (key : PoolKey) (password : str) (extra_params : list (str * str)).

Inductive phase :=
  | AuthPhase                            (* read at line 35 *)
  | ScramFirst (s : scram) (auth : bool) (* read at line 109 *)
  | ScramFinal (s : scram) (auth : bool) (* read at line 141 *)
  | ReadyPhase.                          (* read at line 198 *)

(** How the inner loop of the authentication phase ends early. *)
Inductive auth_exit :=
  | Connected (w : sink)
  | StartScram (s : scram) (auth : bool) (w : sink).

Definition backend_error (what : str) (p : bytes) : error :=
  Bail (what ++ parse_error_fields p).

(** One authentication request ([b'R']). *)
Definition on_auth_request (auth : bool) (w : sink) (p : bytes) : outcome ((bool * sink) + auth_exit) :=
  if len p <? 4 then Err (Bail (lit "Invalid auth message")) else
  auth_type ← unwrap (get_i32 p);
  if auth_type =? 0 then Ok (inl (true, w))
  else if auth_type =? 3 then
    pw_buf ← password_message (as_bytes password);
    w ← send w pw_buf;
    Ok (inl (auth, w))
  else if auth_type =? 5 then
    if len p <? 8 then Err (Bail (lit "Invalid MD5 auth message")) else
    salt ← unwrap (slice p 4 8);
    let hashed := md5_hash (as_bytes (pk_user key)) (as_bytes password) salt in
    pw_buf ← password_message (as_bytes hashed);
    w ← send w pw_buf;
    Ok (inl (auth, w))
  else if auth_type =? 10 then
    mechanisms ← unwrap (slice_from p 4);
    if negb (offers_scram mechanisms)
    then Err (Bail (lit "Server requires SASL but doesn't support SCRAM-SHA-256")) else
    let s := scram_new (as_bytes password) in
    sasl_buf ← sasl_initial_response (lit "SCRAM-SHA-256") (scram_message s);
    w ← send w sasl_buf;
    Ok (inr (StartScram s auth w))
  else Err (Bail (lit "Unsupported auth type: " ++ fmt_int auth_type)).

(** The body of the inner loop of the authentication phase. *)
Definition auth_body (st : bool * sink) (m : PgMessage) : outcome ((bool * sink) + auth_exit) :=
  let '(auth, w) := st in
  if decide (msg_type m = "R"%byte) then on_auth_request auth w (payload m)
  else if decide (msg_type m = "E"%byte) then Err (backend_error (lit "Backend error: ") (payload m))
  else if decide (msg_type m = "Z"%byte) then Ok (inr (Connected w))
  else Ok (inl st).

Abbreviation conn_progress := (progress (phase * bytes * sink) sink).

(** The inner loop, and what follows it when it ends. *)
Definition auth_drain (auth : bool) (w : sink) (buf : bytes) : conn_progress :=
  x <~ drain_msgs auth_body (auth, w) buf;
  match x with
  | (inl (true, w), buf) => Waiting (ReadyPhase, buf, w)
  | (inl (false, w), buf) => Waiting (AuthPhase, buf, w)
  | (inr (Connected w), _) => Done (Ok w)
  | (inr (StartScram s auth w), buf) => Waiting (ScramFirst s auth, buf, w)
  end.

(** The body of the loop for SASLContinue. *)
Definition scram_first (s : scram) (auth : bool) (buf : bytes) (w : sink) : conn_progress :=
  x <~ try_read_message buf false;
  match x with
  | (None, buf) => Waiting (ScramFirst s auth, buf, w)
  | (Some m, buf) =>
      if decide (msg_type m = "R"%byte) then
        at_ <~ unwrap (get_i32 (payload m));
        if at_ =? 11 then
          server_first <~ unwrap (slice_from (payload m) 4);
          s <~ scram_update s server_first;
          resp_buf <~ sasl_response (scram_message s);
          w <~ send w resp_buf;
          Waiting (ScramFinal s auth, buf, w)
        else Done (Err (Bail (lit "Unexpected auth type during SCRAM: " ++ fmt_int at_)))
      else if decide (msg_type m = "E"%byte)
      then Done (Err (backend_error (lit "Backend error during SCRAM: ") (payload m)))
      else Waiting (ScramFirst s auth, buf, w)
  end.

(** The body of the loop for SASLFinal; its [break] resumes the inner loop of
    the authentication phase. *)
Definition scram_final (s : scram) (auth : bool) (buf : bytes) (w : sink) : conn_progress :=
  x <~ try_read_message buf false;
  match x with
  | (None, buf) => Waiting (ScramFinal s auth, buf, w)
  | (Some m, buf) =>
      if decide (msg_type m = "R"%byte) then
        at_ <~ unwrap (get_i32 (payload m));
        if at_ =? 12 then
          server_final <~ unwrap (slice_from (payload m) 4);
          _u <~ scram_finish s server_final;
          auth_drain auth w buf
        else if at_ =? 0 then auth_drain auth w buf
        else Done (Err (Bail (lit "Unexpected auth type in SCRAM final: " ++ fmt_int at_)))
      else if decide (msg_type m = "E"%byte)
      then Done (Err (backend_error (lit "Backend error during SCRAM: ") (payload m)))
      else Waiting (ScramFinal s auth, buf, w)
  end.

(** The body of the loop after authentication. *)
Definition ready_body (u : unit) (m : PgMessage) : outcome (unit + unit) :=
  if decide (msg_type m = "Z"%byte) then Ok (inr tt)
  else if decide (msg_type m = "E"%byte) then Err (backend_error (lit "Backend error after auth: ") (payload m))
  else Ok (inl tt).

Definition eof_error (ph : phase) : error :=
  Bail (match ph with
        | AuthPhase => lit "Backend disconnected during auth"
        | ScramFirst _ _ => lit "Backend disconnected during SCRAM"
        | ScramFinal _ _ => lit "Backend disconnected during SCRAM final"
        | ReadyPhase => lit "Backend disconnected after auth"
        end).

(** From one [read_buf().await] to the next. *)
Definition connect_read (st : phase * bytes * sink) (r : rd) : conn_progress :=
  let '(ph, buf, w) := st in
  match r with
  | RdErr => Done (Err IoError)
  | RdData [] => Done (Err (eof_error ph))
  | RdData chunk =>
      let buf := buf ++ chunk in
      match ph with
      | AuthPhase => auth_drain false w buf
      | ScramFirst s auth => scram_first s auth buf w
      | ScramFinal s auth => scram_final s auth buf w
      | ReadyPhase =>
          x <~ drain_msgs ready_body tt buf;
          match x with
          | (inl _, buf) => Waiting (ReadyPhase, buf, w)
          | (inr _, _) => Done (Ok w)
          end
      end
  end.

(** [connect_backend]: [dial] is the result of [TcpStream::connect] and
    [set_nodelay], [writes] the fate of the writes, [reads] what the socket
    delivers.  [Ok w] is [Ok(stream)], with what was sent on it. *)
Definition connect_backend (dial : outcome unit) (writes : option nat) (reads : list rd)
    : conn_progress * list rd :=
  match dial with
  | Ok _ =>
      match send (mk_sink [] writes) (build_startup_message (pk_user key) (pk_database key) extra_params) with
      | Ok w => run_reads connect_read (AuthPhase, [], w) reads
      | Err e => (Done (Err e), reads)
      | Panic => (Done Panic, reads)
      end
  | Err e => (Done (Err e), reads)
  | Panic => (Done Panic, reads)
  end.
End connect.

(** ** [reset_connection] *)

Definition discard_all : bytes :=
  let query := blit "DISCARD ALL" ++ [x00] in
  ["Q"%byte] ++ put_i32 (i32_wrap (len query + 4)) ++ query.

Definition reset_body (u : unit) (m : PgMessage) : outcome (unit + unit) :=
  if decide (msg_type m = "Z"%byte) then Ok (inr tt)
  else if decide (msg_type m = "E"%byte) then Err (backend_error (lit "Reset failed: ") (payload m))
  else Ok (inl tt).

(** The result, the writing half, and the reads left in the socket. *)
Definition reset_connection (w : sink) (reads : list rd)
    : progress (unit * bytes) unit * option sink * list rd :=
  match send w discard_all with
  | Ok w =>
      let '(p, l) := run_reads (feed reset_body (Bail (lit "Backend disconnected during reset"))) (tt, []) reads in
      (p, Some w, l)
  | Err e => (Done (Err e), None, reads)
  | Panic => (Done Panic, None, reads)
  end.

(** ** The field loop *)

Lemma fields_body_decreases p st st' :
  fields_body p st = Continue st' → (1 + length p - st'.1 < 1 + length p - st.1)%nat.
Proof.
  destruct st as [pos msg]. unfold fields_body, skip_to_nul.
  destruct (p !! pos) as [t|] eqn:E; [|done]. apply lookup_lt_Some in E.
  repeat case_match; intros; simplify_eq/=; lia.
Qed.

Lemma fields_loop_unfold p st :
  fields_loop p st =
    match fields_body p st with Break r => Some r | Continue st' => fields_loop p st' end.
Proof.
  unfold fields_loop.
  rewrite (loop_unfold _ (λ st, (1 + length p - st.1)%nat) (fields_body_decreases p)) by (simpl; lia).
  destruct (fields_body p st) as [st'|r]; [|done].
  destruct (loop_total _ (λ st, (1 + length p - st.1)%nat) (fields_body_decreases p)
              (S (1 + length p - st'.1)) st') as [r Hr]; [lia|].
  rewrite Hr. symmetry. eapply loop_mono; [exact Hr|lia].
Qed.

(** The loop ends, and its slices are in range. *)
Lemma fields_loop_total p st : ∃ msg, fields_loop p st = Some (Ok msg).
Proof.
  remember (1 + length p - st.1)%nat as n eqn:Hn. revert st Hn.
  induction n as [n IH] using lt_wf_ind. intros st Hn. rewrite fields_loop_unfold.
  destruct (fields_body p st) as [st'|r] eqn:E.
  - apply fields_body_decreases in E. eapply IH; [|done]. lia.
  - destruct st as [pos msg]. unfold fields_body in E.
    destruct (p !! pos) as [t|] eqn:Et; [|naive_solver]. apply lookup_lt_Some in Et.
    repeat case_match; simplify_eq; try (by eauto).
    exfalso. unfold slice, skip_to_nul in *. case_decide as Hd; [done|]. apply Hd.
    assert (nul_run (drop (S pos) p) ≤ length (drop (S pos) p))%nat by apply nul_run_le.
    rewrite length_drop in *. lia.
Qed.

(** One field. *)
Lemma fields_loop_field pre t v post msg :
  t ≠ x00 → x00 ∉ v →
  fields_loop (pre ++ (t :: v ++ [x00]) ++ post) (length pre, msg)
  = fields_loop (pre ++ (t :: v ++ [x00]) ++ post)
      (length (pre ++ (t :: v ++ [x00])),
       if decide (t = "M"%byte) then match from_utf8 v with Some s => s | None => msg end else msg).
Proof.
  intros Ht Hv. rewrite fields_loop_unfold. unfold fields_body at 1.
  assert (Hlk : (pre ++ (t :: v ++ [x00]) ++ post) !! length pre = Some t) by by apply list_lookup_middle.
  rewrite Hlk, decide_False by done. clear Hlk.
  assert (Hskip : skip_to_nul (pre ++ (t :: v ++ [x00]) ++ post) (S (length pre)) = (S (length pre) + length v)%nat).
  { unfold skip_to_nul. replace (pre ++ (t :: v ++ [x00]) ++ post) with ((pre ++ [t]) ++ v ++ x00 :: post)
      by (simpl; by rewrite <-!(assoc_L (++))).
    replace (S (length pre)) with (length (pre ++ [t])) by (rewrite length_app; simpl; lia).
    rewrite drop_app_length. by rewrite nul_run_app. }
  rewrite Hskip.
  replace (length (pre ++ t :: v ++ [x00])) with (S (S (length pre) + length v)) by
    (rewrite !length_app; simpl; rewrite length_app; simpl; lia).
  case_decide as HM; [|done].
  assert (Hsl : slice (pre ++ (t :: v ++ [x00]) ++ post) (S (length pre)) (S (length pre) + length v) = Some v).
  { replace (pre ++ (t :: v ++ [x00]) ++ post) with ((pre ++ [t]) ++ v ++ ([x00] ++ post))
      by (simpl; by rewrite <-!(assoc_L (++))).
    replace (S (length pre)) with (length (pre ++ [t])) by (rewrite length_app; simpl; lia).
    apply slice_mid. }
  by rewrite Hsl.
Qed.

Lemma fields_loop_end pre post msg : fields_loop (pre ++ x00 :: post) (length pre, msg) = Some (Ok msg).
Proof.
  rewrite fields_loop_unfold. unfold fields_body. by rewrite list_lookup_middle by done.
Qed.

(** Error reports survive the round trip: the text [parse_error_fields]
    extracts from the payload of a response built with
    [build_error_response] is the response's message, or the fallback text when
    that is empty, for all texts without NUL characters. *)
Theorem error_message_roundtrip (severity code message : str) :
  str_ok severity → str_ok code → str_ok message →
  0 ∉ severity → 0 ∉ code → 0 ∉ message →
  parse_error_fields (response_fields severity code message)
  = if decide (message = []) then lit "unknown error" else message.
Proof.
  intros Hs Hc Hm Ns Nc Nm. unfold parse_error_fields.
  pose proof (as_bytes_no_nul _ Hs Ns) as Bs. pose proof (as_bytes_no_nul _ Hc Nc) as Bc.
  pose proof (as_bytes_no_nul _ Hm Nm) as Bm.
  assert (E : fields_loop (response_fields severity code message) (O, []) = Some (Ok message)).
  { set (f1 := "S"%byte :: as_bytes severity ++ [x00]). set (f2 := "V"%byte :: as_bytes severity ++ [x00]).
    set (f3 := "C"%byte :: as_bytes code ++ [x00]). set (f4 := "M"%byte :: as_bytes message ++ [x00]).
    replace (response_fields severity code message) with (f1 ++ f2 ++ f3 ++ f4 ++ [x00])
      by (subst f1 f2 f3 f4; unfold response_fields; simpl; by rewrite <-!(assoc_L (++))).
    etrans; [apply (fields_loop_field [] "S"%byte _ (f2 ++ f3 ++ f4 ++ [x00])); done|]. fold f1.
    etrans; [apply (fields_loop_field f1 "V"%byte _ (f3 ++ f4 ++ [x00])); done|]. fold f2.
    rewrite (assoc_L (++) f1).
    etrans; [apply (fields_loop_field (f1 ++ f2) "C"%byte _ (f4 ++ [x00])); done|]. fold f3.
    rewrite (assoc_L (++) (f1 ++ f2)).
    etrans; [apply (fields_loop_field ((f1 ++ f2) ++ f3) "M"%byte _ [x00]); done|]. fold f4.
    rewrite (assoc_L (++) ((f1 ++ f2) ++ f3)). rewrite fields_loop_end.
    rewrite decide_True by done. by rewrite from_utf8_as_bytes. }
  rewrite E. by destruct message.
Qed.

Lemma error_message_roundtrip_witness :
  parse_error_fields (response_fields (lit "FATAL") (lit "28P01") (lit "password authentication failed"))
  = lit "password authentication failed".
Proof.
  apply (error_message_roundtrip (lit "FATAL") (lit "28P01") (lit "password authentication failed")); str_literal.
Defined.

(** ** Reset *)

(** What the first ReadyForQuery or ErrorResponse among the messages says. *)
Fixpoint reset_verdict (ms : list PgMessage) : progress (unit * bytes) unit :=
  match ms with
  | [] => Waiting (tt, [])
  | m :: r =>
      if decide (msg_type m = "Z"%byte) then Done (Ok tt)
      else if decide (msg_type m = "E"%byte) then Done (Err (backend_error (lit "Reset failed: ") (payload m)))
      else reset_verdict r
  end.

Lemma reset_drain ms :
  Forall msg_fits ms →
  (x <~ drain_msgs reset_body tt (concat (wire <$> ms));
   match x with (inl s, rest) => Waiting (s, rest) | (inr r, _) => Done (Ok r) end) = reset_verdict ms.
Proof.
  induction 1 as [|m ms Hm _ IH]; cbn [fmap list_fmap concat]; [by rewrite drain_msgs_nil|].
  rewrite drain_msgs_wire by done. unfold reset_body at 1. simpl.
  by repeat (case_decide; [done|]).
Qed.

(** C28. [reset_connection] sends exactly one [DISCARD ALL] and then returns
    what the first ReadyForQuery or ErrorResponse of the server's messages
    says: success or the server's error text; without either it keeps waiting.
    This holds for every way the bytes are cut into reads. *)
Theorem reset_connection_correct (w : sink) (ms : list PgMessage) (chunks : list bytes) :
  writes_left w = None → Forall msg_fits ms → Forall (λ c, c ≠ []) chunks →
  concat chunks = concat (wire <$> ms) →
  (reset_connection w (RdData <$> chunks)).1
  = (reset_verdict ms, Some (mk_sink (sent w ++ discard_all) None)).
Proof.
  intros Hw Hms Hc E. unfold reset_connection, send. rewrite Hw.
  pose proof (feed_chunks reset_body (Bail (lit "Backend disconnected during reset")) tt [] chunks Hc
                (drain_msgs_nil _ _)) as H.
  destruct (run_reads _ _ _) as [p l]. simpl in *. rewrite H, E. by rewrite reset_drain.
Qed.

(** Answers to [DISCARD ALL]. *)
Definition command_complete : PgMessage := mk_PgMessage "C"%byte (blit "DISCARD ALL" ++ [x00]).
Definition ready_msg : PgMessage := mk_PgMessage "Z"%byte ["I"%byte].

Lemma reset_connection_correct_witness :
  (reset_connection (mk_sink [] None)
     (RdData <$> [take 7 (wire command_complete);
                  drop 7 (wire command_complete) ++ take 3 (wire ready_msg); drop 3 (wire ready_msg)])).1
  = (Done (Ok tt), Some (mk_sink discard_all None)).
Proof.
  rewrite (reset_connection_correct (mk_sink [] None) [command_complete; ready_msg]); [done..| | |done].
  - repeat constructor; by vm_compute.
  - repeat constructor; by vm_compute.
Defined.

(** The reset stops at the first ReadyForQuery it sees, also when that
    belongs to an earlier query of the session: the answer to [DISCARD ALL]
    then stays unread in the socket of a connection that goes back to the
    pool, for the next session to receive. *)
Theorem reset_stale_reply (w : sink) (status : byte) (answer : list rd) :
  writes_left w = None →
  reset_connection w (RdData (build_ready_for_query status) :: answer)
  = (Done (Ok tt), Some (mk_sink (sent w ++ discard_all) None), answer).
Proof.
  intros Hw. unfold reset_connection, send. rewrite Hw.
  assert (E : feed reset_body (Bail (lit "Backend disconnected during reset")) (tt, [])
                (RdData (build_ready_for_query status)) = Done (Ok tt)); [|cbn [run_reads]; by rewrite E].
  unfold feed, build_ready_for_query. cbn [app fst snd].
  change (drain_msgs reset_body () ("Z"%byte :: put_i32 5 ++ [status]))
    with (drain_msgs reset_body () (wire (mk_PgMessage "Z"%byte [status]) ++ [])).
  rewrite drain_msgs_wire; [done|]. unfold msg_fits. by vm_compute.
Qed.

Lemma reset_stale_reply_witness :
  reset_connection (mk_sink [] None)
    [RdData (build_ready_for_query "I"%byte); RdData (wire command_complete ++ wire ready_msg)]
  = (Done (Ok tt), Some (mk_sink discard_all None), [RdData (wire command_complete ++ wire ready_msg)]).
Proof. by apply (reset_stale_reply (mk_sink [] None)). Defined.

(** ** Authentication without SASL *)

Section flow.
Context `{PgProto}.
Context (key : PoolKey) (password : str) (extra_params : list (str * str)).

Abbreviation body := (auth_body key password).

(** [auth_body] on the messages on which the loop before and the loop after
    authentication agree; anything else is ruled out by [Panic]. *)
Definition calm_body (st : bool * sink) (m : PgMessage) : outcome ((bool * sink) + auth_exit) :=
  if st.1 && (bool_decide (msg_type m = "R"%byte) || bool_decide (msg_type m = "E"%byte)) then Panic
  else match body st m with Ok (inr (StartScram _ _ _)) => Panic | x => x end.

Lemma drain_msgs_refine {St R} (I : St → Prop) (b1 b2 : St → PgMessage → outcome (St + R)) s buf :
  (∀ s m, I s → b1 s m ≠ Panic → b2 s m = b1 s m) →
  (∀ s m s', I s → b1 s m = Ok (inl s') → I s') → I s →
  drain_msgs b1 s buf ≠ Panic → drain_msgs b2 s buf = drain_msgs b1 s buf.
Proof using Type.
  intros Hb HI. pattern s, buf. apply drain_ind. clear s buf. intros s buf IH Hs.
  rewrite (drain_msgs_eq b1 s buf), (drain_msgs_eq b2 s buf). rewrite readers_agree.
  destruct (try_read_message_with_raw buf) as [[[[m raw]|] rest]| |] eqn:E; simpl; try done.
  intros Hn. rewrite Hb by (by destruct (b1 s m) || done).
  destruct (b1 s m) as [[s'|r]| |] eqn:Eb; try done.
  pose proof (read_raw_Some _ _ _ _ E) as (-> & -> & Hm). eapply IH; eauto.
Qed.

Lemma calm_auth st m : calm_body st m ≠ Panic → body st m = calm_body st m.
Proof using Type. unfold calm_body. by repeat case_match. Qed.

(** The loop after authentication, with the authentication loop's states. *)
Definition ready_body' (w : sink) (st : bool * sink) (m : PgMessage) : outcome ((bool * sink) + auth_exit) :=
  match ready_body tt m with
  | Ok (inl _) => Ok (inl st)
  | Ok (inr _) => Ok (inr (Connected w))
  | Err e => Err e
  | Panic => Panic
  end.

Lemma ready_drain w buf :
  (x <~ drain_msgs ready_body tt buf;
   match x with (inl _, buf) => Waiting (ReadyPhase, buf, w) | (inr _, _) => Done (Ok w) end)
  = (x <~ drain_msgs (ready_body' w) (true, w) buf;
     match x with
     | (inl _, buf) => Waiting (ReadyPhase, buf, w)
     | (inr (Connected w'), _) => Done (Ok w')
     | (inr (StartScram _ _ _), _) => Done Panic
     end).
Proof using Type.
  pattern tt, buf. apply drain_ind. clear buf. intros [] buf IH.
  rewrite (drain_msgs_eq ready_body), (drain_msgs_eq (ready_body' w)), readers_agree.
  destruct (try_read_message_with_raw buf) as [[[[m raw]|] rest]| |] eqn:E; simpl; try done.
  unfold ready_body' at 1. destruct (ready_body tt m) as [[[]|[]]| |]; try done.
  pose proof (read_raw_Some _ _ _ _ E) as (-> & -> & Hm). by eapply (IH tt).
Qed.

Lemma calm_ready w m : calm_body (true, w) m ≠ Panic → ready_body' w (true, w) m = calm_body (true, w) m.
Proof using Type.
  unfold calm_body, ready_body', ready_body. simpl.
  destruct (bool_decide (msg_type m = "R"%byte)) eqn:ER; [done|].
  destruct (bool_decide (msg_type m = "E"%byte)) eqn:EE; [done|]. simpl.
  apply bool_decide_eq_false in ER, EE. rewrite !(decide_False (P := msg_type m = "E"%byte)) by done.
  rewrite decide_False by done. intros _. by case_decide.
Qed.

Lemma drain_msgs_inv {St R} (I : St → Prop) (b : St → PgMessage → outcome (St + R)) s buf s' rest :
  (∀ s m s', I s → b s m = Ok (inl s') → I s') → I s → drain_msgs b s buf = Ok (inl s', rest) → I s'.
Proof using Type.
  intros HI. pattern s, buf. apply drain_ind. clear s buf. intros s buf IH Hs.
  rewrite (drain_msgs_eq b s buf), readers_agree.
  destruct (try_read_message_with_raw buf) as [[[[m raw]|] rest']| |] eqn:E; simpl; try naive_solver.
  destruct (b s m) as [[s1|r]| |] eqn:Eb; try done.
  pose proof (read_raw_Some _ _ _ _ E) as (-> & -> & Hm). eapply IH; eauto.
Qed.

Lemma calm_no_scram st buf s a w rest : drain_msgs calm_body st buf ≠ Ok (inr (StartScram s a w), rest).
Proof using Type.
  pattern st, buf. apply drain_ind. clear st buf. intros st buf IH.
  rewrite drain_msgs_eq, readers_agree.
  destruct (try_read_message_with_raw buf) as [[[[m raw]|] rest']| |] eqn:E; simpl; try done.
  destruct (calm_body st m) as [[st'|r]| |] eqn:Eb; try done.
  - pose proof (read_raw_Some _ _ _ _ E) as (-> & -> & Hm). eapply IH; eauto.
  - intros [= -> ->]. unfold calm_body in Eb. by repeat case_match; simplify_eq.
Qed.

Lemma calm_stays w st m st' : st = (true, w) → calm_body st m = Ok (inl st') → st' = (true, w).
Proof using Type.
  intros ->. unfold calm_body, auth_body. simpl.
  destruct (bool_decide (msg_type m = "R"%byte)) eqn:ER; [done|]. apply bool_decide_eq_false in ER.
  repeat case_match; intros; simplify_eq; done.
Qed.

Definition phase_of (auth : bool) : phase := if auth then ReadyPhase else AuthPhase.

(** On calm streams, one read of [connect_backend] is one drain of [calm_body]. *)
Lemma calm_read auth w buf b c x :
  drain_msgs calm_body (auth, w) (buf ++ b :: c) = Ok x →
  connect_read key password (phase_of auth, buf, w) (RdData (b :: c))
  = match x with
    | (inl (auth', w'), rest) => Waiting (phase_of auth', rest, w')
    | (inr (Connected w'), _) => Done (Ok w')
    | (inr (StartScram s a w'), rest) => Waiting (ScramFirst s a, rest, w')
    end.
Proof using Type.
  intros E. destruct auth; cbn [phase_of connect_read].
  - rewrite ready_drain.
    rewrite (drain_msgs_refine (λ st, st = (true, w)) calm_body (ready_body' w)); [|..|done|by rewrite E].
    + rewrite E. cbn [andthen]. destruct x as [[[a w']|[w'|? ? ?]] rest]; try done.
      * by apply (drain_msgs_inv (λ st, st = (true, w))) in E; [simplify_eq|intros ? ? ?; apply calm_stays|].
      * exfalso. by apply calm_no_scram in E.
    + intros st m ->. apply calm_ready.
    + intros ? ? ?. apply calm_stays.
  - unfold auth_drain. rewrite (drain_msgs_refine (λ _, True) calm_body); try done; [|by intros; apply calm_auth|by rewrite E].
    rewrite E. cbn [andthen]. by destruct x as [[[[] w']|[w'|? ? ?]] rest].
Qed.

Lemma calm_run auth w buf chunks w' rest :
  Forall (λ c, c ≠ []) chunks →
  drain_msgs calm_body (auth, w) buf = Ok (inl (auth, w), buf) →
  drain_msgs calm_body (auth, w) (buf ++ concat chunks) = Ok (inr (Connected w'), rest) →
  (run_reads (connect_read key password) (phase_of auth, buf, w) (RdData <$> chunks)).1 = Done (Ok w').
Proof using Type.
  intros Hc. revert auth w buf. induction Hc as [|c cs Hne _ IH]; intros auth w buf Hb E; simpl in E.
  - rewrite app_nil_r in E. congruence.
  - destruct c as [|b c]; [done|]. rewrite (assoc_L (++)), drain_msgs_app in E.
    cbn [fmap list_fmap run_reads].
    destruct (drain_msgs calm_body (auth, w) (buf ++ b :: c)) as [x| |] eqn:E1; try done.
    rewrite (calm_read _ _ _ _ _ _ E1). destruct x as [[[a w1]|r] rest1]; simplify_eq; [|done].
    apply IH; [|done]. by eapply drain_msgs_stuck.
Qed.

(** The password requests of a server, and what the client answers. *)
Inductive auth_req :=
  | Cleartext
  | Md5 (salt : bytes).
Definition req_ok (r : auth_req) : Prop := match r with Cleartext => True | Md5 salt => length salt = 4%nat end.
Definition req_msg (r : auth_req) : PgMessage :=
  mk_PgMessage "R"%byte (match r with Cleartext => put_i32 3 | Md5 salt => put_i32 5 ++ salt end).
Definition answer (r : auth_req) : outcome bytes :=
  match r with
  | Cleartext => password_message (as_bytes password)
  | Md5 salt => password_message (as_bytes (md5_hash (as_bytes (pk_user key)) (as_bytes password) salt))
  end.
Definition auth_ok_msg : PgMessage := mk_PgMessage "R"%byte (put_i32 0).
Definition rfq (status : byte) : PgMessage := mk_PgMessage "Z"%byte [status].
(** Messages both loops skip: parameter status, key data, notices, ... *)
Definition skipped (m : PgMessage) : Prop :=
  msg_fits m ∧ msg_type m ≠ "R"%byte ∧ msg_type m ≠ "E"%byte ∧ msg_type m ≠ "Z"%byte.

Lemma req_fits r : req_ok r → msg_fits (req_msg r).
Proof using Type.
  unfold msg_fits, MAX_MESSAGE_SIZE. destruct r as [|salt]; intros Hr; cbn -[Z.mul];
    rewrite ?len_app, ?len_put_i32; unfold len; simpl in *; lia.
Qed.

Lemma calm_req st r b :
  st.1 = false → writes_left st.2 = None → req_ok r → answer r = Ok b →
  calm_body st (req_msg r) = Ok (inl (false, mk_sink (sent st.2 ++ b) None)).
Proof using Type.
  destruct st as [a [o wl]]. simpl. intros -> -> Hr Ha. unfold calm_body, auth_body. cbn [fst andb req_msg msg_type].
  rewrite decide_True by done. unfold on_auth_request.
  destruct r as [|salt]; cbn [payload req_msg]; simpl in Hr, Ha.
  - change (len (put_i32 3) <? 4) with false. cbv iota. change (get_i32 (put_i32 3)) with (Some 3). simpl.
    by rewrite Ha.
  - assert (E : len (put_i32 5 ++ salt) = 8) by (rewrite len_app, len_put_i32; unfold len; lia).
    assert (Eg : get_i32 (put_i32 5 ++ salt) = Some 5) by (apply get_put_i32; unfold is_i32; lia).
    assert (Es : slice (put_i32 5 ++ salt) 4 8 = Some salt).
    { unfold slice. rewrite decide_True by (rewrite length_app, put_i32_length; lia).
      change (take (8 - 4) (drop 4 (put_i32 5 ++ salt))) with (take 4 salt).
      f_equal. apply take_ge. lia. }
    revert E Eg Es. generalize (put_i32 5 ++ salt). intros p E Eg Es.
    rewrite E, Eg. simpl. rewrite Es. simpl. by rewrite Ha.
Qed.

Lemma calm_skips st m : skipped m → calm_body st m = Ok (inl st).
Proof using Type.
  intros (_ & HR & HE & HZ). unfold calm_body, auth_body. destruct st as [a w].
  rewrite !bool_decide_eq_false_2, !decide_False by done. by rewrite andb_false_r.
Qed.

Lemma calm_transcript reqs replies tail status w :
  Forall2 (λ r b, answer r = Ok b) reqs replies → Forall req_ok reqs → Forall skipped tail →
  writes_left w = None →
  drain_msgs calm_body (false, w)
    (concat (wire <$> ((req_msg <$> reqs) ++ [auth_ok_msg] ++ tail ++ [rfq status])))
  = Ok (inr (Connected (mk_sink (sent w ++ concat replies) None)), []).
Proof using Type.
  intros HF. revert w. induction HF as [|r b rs bs Hr _ IH]; intros w Hok Htail Hw; cbn [fmap list_fmap app concat].
  - rewrite drain_msgs_wire by (unfold msg_fits; by vm_compute).
    change (calm_body (false, w) auth_ok_msg) with (Ok (A := (bool * sink) + auth_exit) (inl (true, w))). cbv iota.
    rewrite app_nil_r. destruct w as [o wl]. simpl in Hw. subst wl. cbn [sent].
    induction Htail as [|m tail Hm _ IH]; cbn [fmap list_fmap app concat].
    + rewrite app_nil_r. rewrite <-(app_nil_r (wire (rfq status))).
      rewrite drain_msgs_wire by (unfold msg_fits; by vm_compute). done.
    + rewrite drain_msgs_wire by apply Hm. by rewrite calm_skips.
  - apply Forall_cons in Hok as [Hok1 Hok]. rewrite drain_msgs_wire by by apply req_fits.
    rewrite (calm_req _ r b) by done. cbv iota. cbn [snd fst]. rewrite IH by done. simpl. by rewrite <-(assoc_L (++)).
Qed.

(** C12. Password authentication.  Whatever password requests (cleartext or
    MD5 with its salt) the server makes, and whatever parameter, key-data and
    notice messages follow its AuthenticationOk up to ReadyForQuery,
    [connect_backend] returns the connection, having sent the startup message
    and exactly one answer per request, in order; for every way the server's
    bytes are cut into reads. *)
Theorem connect_password_flow reqs replies tail status chunks :
  Forall2 (λ r b, answer r = Ok b) reqs replies → Forall req_ok reqs → Forall skipped tail →
  Forall (λ c, c ≠ []) chunks →
  concat chunks = concat (wire <$> ((req_msg <$> reqs) ++ [auth_ok_msg] ++ tail ++ [rfq status])) →
  (connect_backend key password extra_params (Ok tt) None (RdData <$> chunks)).1
  = Done (Ok (mk_sink (build_startup_message (pk_user key) (pk_database key) extra_params ++ concat replies) None)).
Proof using Type.
  intros HF Hok Htail Hc E. unfold connect_backend, send. cbn [writes_left sent app].
  apply (calm_run false _ [] chunks _ []); [done|by rewrite drain_msgs_nil|].
  cbn [app]. rewrite E. by rewrite (calm_transcript reqs replies).
Qed.
End flow.

(** A stand-in for the postgres-protocol crate, to run the model on. *)
#[local] Instance demo_proto : PgProto := {|
  scram := bytes;
  password_message b := Ok (frame "p"%byte (b ++ [x00]));
  md5_hash u p salt := lit "md5" ++ (byte_Z <$> (p ++ u ++ salt));
  scram_new p := p;
  scram_message s := s;
  scram_update s m := Ok (s ++ m);
  scram_finish s m := if decide (m = s) then Ok tt else Err (ExtError (lit "invalid server signature"));
  sasl_initial_response mech m := Ok (frame "p"%byte (as_bytes mech ++ [x00] ++ m));
  sasl_response m := Ok (frame "p"%byte m)
|}.
Definition demo_conn_key : PoolKey := mk_PoolKey (lit "db1") 5432 (lit "app") (lit "alice").

Lemma connect_password_flow_witness :
  (connect_backend demo_conn_key (lit "pw") [] (Ok tt) None
     (RdData <$> [wire (req_msg Cleartext); wire auth_ok_msg ++ [x53]; drop 1 (build_parameter_status (lit "a") (lit "b"));
                  wire (rfq "I"%byte)])).1
  = Done (Ok (mk_sink (build_startup_message (lit "alice") (lit "app") [] ++ frame "p"%byte (blit "pw" ++ [x00])) None)).
Proof.
  rewrite (connect_password_flow demo_conn_key (lit "pw") [] [Cleartext] [frame "p"%byte (blit "pw" ++ [x00])]
             [mk_PgMessage "S"%byte (blit "a" ++ [x00] ++ blit "b" ++ [x00])] "I"%byte).
  - cbn [concat]. rewrite app_nil_r. reflexivity.
  - repeat constructor.
  - repeat constructor.
  - repeat constructor; by vm_compute.
  - repeat constructor; by vm_compute.
  - vm_compute. reflexivity.
Defined.

(** ** SCRAM *)

(** A reader that stopped inside a message. *)
Lemma read_raw_prefix m buf more :
  msg_fits m → buf ++ more = wire m → more ≠ [] → try_read_message_with_raw buf = Ok (None, buf).
Proof.
  intros Hm E Hmore. pose proof (read_raw_wire m [] Hm) as Hw. rewrite app_nil_r, <-E in Hw.
  destruct (try_read_message_with_raw buf) as [[[[m' raw]|] rest]|e|] eqn:Er.
  - rewrite (read_raw_app_Some _ more _ _ _ Er) in Hw. injection Hw as _ _ Hr. by apply app_eq_nil in Hr as [_ ?].
  - by rewrite (read_raw_None _ _ Er).
  - by rewrite (read_raw_app_Err _ more _ Er) in Hw.
  - pose proof (read_raw_inv buf) as H. by rewrite Er in H.
Qed.

(** The first of the chunks that completes a prefix of what they bring. *)
Lemma cut_prefix cs (a tail : bytes) :
  Forall (λ c, c ≠ []) cs → concat cs = a ++ tail → a ≠ [] →
  ∃ pre c post t more, cs = pre ++ c :: post ∧ concat pre ++ c = a ++ t ∧ tail = t ++ concat post
    ∧ more ≠ [] ∧ a = concat pre ++ more.
Proof.
  intros Hcs. revert a. induction Hcs as [|c cs Hc _ IH]; intros a E Ha; simpl in E.
  { symmetry in E. by apply app_eq_nil in E as [? _]. }
  destruct (decide (length a ≤ length c)%nat) as [Hl|Hl].
  - exists [], c, cs, (drop (length a) c), a. simpl.
    assert (Ec : c = a ++ drop (length a) c).
    { rewrite <-(take_drop (length a) c) at 1. f_equal.
      apply (f_equal (take (length a))) in E. by rewrite take_app_le, take_app_length in E by lia. }
    split_and!; try done. rewrite Ec in E at 1. rewrite <-(assoc_L (++)) in E. by apply (inj (a ++.)) in E.
  - assert (Ea : a = c ++ drop (length c) a).
    { rewrite <-(take_drop (length c) a) at 1. f_equal.
      apply (f_equal (take (length c))) in E. by rewrite take_app_length, take_app_le in E by lia. }
    rewrite Ea, <-(assoc_L (++)) in E. apply (inj (c ++.)) in E.
    destruct (IH _ E) as (pre & c' & post & t & more & -> & Hp & Ht & Hm & Hd).
    { intros Hn. apply (f_equal length) in Hn. rewrite length_drop in Hn. simpl in Hn. lia. }
    exists (c :: pre), c', post, t, more. cbn [concat app]. rewrite <-!(assoc_L (++)), Hp, <-Hd, (assoc_L (++)), <-Ea.
    done.
Qed.

Section scram.
Context `{PgProto}.
Context (key : PoolKey) (password : str) (extra_params : list (str * str)).
Context (mechs server_first client_first client_final : bytes) (s' : scram).

(** A request with a type word. *)
Definition auth_msg (z : Z) (p : bytes) : PgMessage := mk_PgMessage "R"%byte (put_i32 z ++ p).

Lemma slice_from_put z r : slice_from (put_i32 z ++ r) 4 = Some r.
Proof using Type. unfold slice_from. by rewrite decide_True by (simpl; lia). Qed.

Hypothesis Hmechs : offers_scram mechs = true ∧ msg_fits (auth_msg 10 mechs).
Hypothesis Hfirst : msg_fits (auth_msg 11 server_first).
Hypothesis Hinit : sasl_initial_response (lit "SCRAM-SHA-256") (scram_message (scram_new (as_bytes password)))
                   = Ok client_first.
Hypothesis Hupdate : scram_update (scram_new (as_bytes password)) server_first = Ok s'.
Hypothesis Hresp : sasl_response (scram_message s') = Ok client_final.

Definition startup_sent : bytes := build_startup_message (pk_user key) (pk_database key) extra_params.

(** A read that leaves the buffer inside a message changes nothing else. *)
Lemma connect_read_more ph buf w c :
  ph ≠ ReadyPhase → c ≠ [] → try_read_message_with_raw (buf ++ c) = Ok (None, buf ++ c) →
  match ph with AuthPhase | ScramFirst _ _ | ScramFinal _ _ =>
    connect_read key password (ph, buf, w) (RdData c) = Waiting (ph, buf ++ c, w) | ReadyPhase => True end.
Proof using Type.
  intros _ Hc E. destruct c as [|b c]; [done|].
  destruct ph as [|s auth|s auth|]; cbn [connect_read]; [| | |done].
  - unfold auth_drain. by rewrite drain_msgs_eq, readers_agree, E.
  - unfold scram_first. by rewrite readers_agree, E.
  - unfold scram_final. by rewrite readers_agree, E.
Qed.

(** Waiting for one message, however it is cut: the last read that belongs to
    it may bring bytes of what follows. *)
Lemma connect_read_cut ph w m tail cs later :
  ph ≠ ReadyPhase → msg_fits m → Forall (λ c, c ≠ []) cs → concat cs = wire m ++ tail →
  ∃ buf c t post, c ≠ [] ∧ buf ++ c = wire m ++ t ∧ tail = t ++ concat post ∧ Forall (λ c, c ≠ []) post ∧
    run_reads (connect_read key password) (ph, [], w) ((RdData <$> cs) ++ later)
    = run_reads (connect_read key password) (ph, buf, w) (RdData c :: (RdData <$> post) ++ later).
Proof using Type.
  intros Hph Hm Hcs E.
  destruct (cut_prefix cs (wire m) tail Hcs E) as (pre & c & post & t & more & -> & Hc & Ht & Hmore & Hw).
  { pose proof (len_wire m). pose proof (len_nonneg (payload m)). intros Hn. rewrite Hn in *. unfold len in *. simpl in *. lia. }
  apply Forall_app in Hcs as [Hpre [Hcne Hpost]%Forall_cons].
  exists (concat pre), c, t, post. split_and!; try done.
  rewrite fmap_app, <-(assoc_L (++)). cbn [fmap list_fmap app].
  assert (Hgen : ∀ buf l, (buf ++ concat pre) ++ more = wire m →
    run_reads (connect_read key password) (ph, buf, w) ((RdData <$> pre) ++ l)
    = run_reads (connect_read key password) (ph, buf ++ concat pre, w) l); [|apply (Hgen []); by symmetry].
  clear Hc Hw E Hcne Hpost Ht. induction Hpre as [|c1 pre Hc1 _ IH]; intros buf l Hb; cbn [fmap list_fmap app concat] in *.
  { by rewrite app_nil_r. }
  rewrite (assoc_L (++)) in Hb |- *. cbn [run_reads].
  pose proof (connect_read_more ph buf w c1 Hph Hc1 (read_raw_prefix m (buf ++ c1) (concat pre ++ more) Hm
    ltac:(by rewrite (assoc_L (++))) ltac:(by intros [_ ?]%app_eq_nil))) as Hr.
  destruct ph; try done; rewrite Hr; by apply IH.
Qed.

Lemma read_auth_msg z p r :
  msg_fits (auth_msg z p) → try_read_message (wire (auth_msg z p) ++ r) false = Ok (Some (auth_msg z p), r).
Proof using Type. intros Hf. rewrite readers_agree, read_raw_wire by done. done. Qed.

(** Nothing is left when the stream is one message. *)
Lemma no_tail (t : bytes) post : [] = t ++ concat post → Forall (λ c, c ≠ []) post → t = [] ∧ post = [].
Proof using Type.
  intros [-> Hp]%eq_sym%app_eq_nil Hf. destruct Hf as [|c cs Hc]; [done|]. simpl in Hp. by apply app_eq_nil in Hp as [? _].
Qed.

(** The server offers SCRAM. *)
Lemma connect_offer cs later :
  Forall (λ c, c ≠ []) cs → concat cs = wire (auth_msg 10 mechs) →
  connect_backend key password extra_params (Ok tt) None ((RdData <$> cs) ++ later)
  = run_reads (connect_read key password)
      (ScramFirst (scram_new (as_bytes password)) false, [], mk_sink (startup_sent ++ client_first) None) later.
Proof using Hmechs Hinit.
  intros Hcs E. unfold connect_backend, send. cbn [writes_left sent app]. fold startup_sent.
  destruct Hmechs as [Ho Hf]. rewrite <-(app_nil_r (wire _)) in E.
  destruct (connect_read_cut AuthPhase (mk_sink startup_sent None) _ [] cs later ltac:(done) Hf Hcs E)
    as (buf & c & t & post & Hc & Hb & Ht & Hpost & ->).
  destruct (no_tail _ _ Ht Hpost) as [-> ->]. rewrite app_nil_r in Hb. cbn [fmap list_fmap app run_reads].
  destruct c as [|b0 c]; [done|]. cbn [connect_read]. rewrite Hb.
  unfold auth_drain. rewrite <-(app_nil_r (wire _)), drain_msgs_wire by done.
  assert (Eb : auth_body key password (false, mk_sink startup_sent None) (auth_msg 10 mechs)
    = Ok (inr (StartScram (scram_new (as_bytes password)) false (mk_sink (startup_sent ++ client_first) None))));
    [|by rewrite Eb].
  unfold auth_body, auth_msg. cbn [msg_type payload]. rewrite decide_True by done. unfold on_auth_request.
  pose proof (slice_from_put 10 mechs) as Es. pose proof (get_put_i32 10 mechs ltac:(unfold is_i32; lia)) as Eg.
  assert (El : (len (put_i32 10 ++ mechs) <? 4) = false) by (rewrite len_app, len_put_i32; pose proof (len_nonneg mechs); lia).
  revert Es Eg El. generalize (put_i32 10 ++ mechs). intros p Es Eg El.
  rewrite El, Eg. simpl. rewrite Es. simpl. rewrite Ho. simpl. by rewrite Hinit.
Qed.

(** The server's challenge is answered. *)
Lemma connect_challenge w cs later :
  writes_left w = None → Forall (λ c, c ≠ []) cs → concat cs = wire (auth_msg 11 server_first) →
  run_reads (connect_read key password) (ScramFirst (scram_new (as_bytes password)) false, [], w)
    ((RdData <$> cs) ++ later)
  = run_reads (connect_read key password)
      (ScramFinal s' false, [], mk_sink (sent w ++ client_final) None) later.
Proof using Hfirst Hupdate Hresp.
  intros Hw Hcs E. rewrite <-(app_nil_r (wire _)) in E.
  destruct (connect_read_cut (ScramFirst (scram_new (as_bytes password)) false) w _ [] cs later ltac:(done) Hfirst Hcs E)
    as (buf & c & t & post & Hc & Hb & Ht & Hpost & ->).
  destruct (no_tail _ _ Ht Hpost) as [-> ->]. rewrite app_nil_r in Hb. cbn [fmap list_fmap app run_reads].
  destruct c as [|b0 c]; [done|]. cbn [connect_read]. rewrite Hb. unfold scram_first.
  rewrite <-(app_nil_r (wire _)), read_auth_msg by done. cbn [andthen auth_msg msg_type payload].
  rewrite decide_True by done. rewrite get_put_i32 by (unfold is_i32; lia). rewrite slice_from_put.
  cbn [andthen unwrap]. change (11 =? 11) with true. cbv iota. cbn [andthen]. rewrite Hupdate. cbn [andthen].
  rewrite Hresp. cbn [andthen]. unfold send. rewrite Hw. done.
Qed.

(** What is sent during the exchange. *)
Definition scram_sent : bytes := (startup_sent ++ client_first) ++ client_final.

Lemma scram_end cs1 cs2 later :
  Forall (λ c, c ≠ []) cs1 → Forall (λ c, c ≠ []) cs2 →
  concat cs1 = wire (auth_msg 10 mechs) → concat cs2 = wire (auth_msg 11 server_first) →
  connect_backend key password extra_params (Ok tt) None ((RdData <$> cs1) ++ (RdData <$> cs2) ++ later)
  = run_reads (connect_read key password) (ScramFinal s' false, [], mk_sink scram_sent None) later.
Proof using Hmechs Hfirst Hinit Hupdate Hresp.
  intros Hc1 Hc2 E1 E2. rewrite connect_offer by done. by rewrite connect_challenge.
Qed.

(** How the server ends the exchange. *)
Inductive scram_ending :=
  | SaslFinal (server_final : bytes)   (* SASLFinal with its signature, AuthenticationOk *)
  | AuthOkInstead.                     (* AuthenticationOk at once *)
Definition ending_first (e : scram_ending) : PgMessage :=
  match e with SaslFinal f => auth_msg 12 f | AuthOkInstead => auth_ok_msg end.
Definition ending_rest (e : scram_ending) : list PgMessage :=
  match e with SaslFinal _ => [auth_ok_msg] | AuthOkInstead => [] end.
Definition ending_verdict (e : scram_ending) : outcome unit :=
  match e with SaslFinal f => scram_finish s' f | AuthOkInstead => Ok tt end.

(** What the authentication loop does after the exchange. *)
Lemma calm_ending e tail status w :
  Forall skipped tail → writes_left w = None →
  drain_msgs (calm_body key password) (false, w) (concat (wire <$> (ending_rest e ++ tail ++ [rfq status])))
  = Ok (inr (Connected w), []).
Proof using Type.
  intros Htail Hw. destruct e as [f|].
  - rewrite (calm_transcript key password [] [] tail status w); [|done..].
    destruct w as [o wl]. simpl in Hw. subst wl. simpl. by rewrite app_nil_r.
  - cbn [ending_rest app]. induction Htail as [|m tail Hm _ IH]; cbn [fmap list_fmap app concat].
    + rewrite drain_msgs_wire by (unfold msg_fits; by vm_compute). done.
    + rewrite drain_msgs_wire by apply Hm. by rewrite calm_skips.
Qed.

Lemma ending_run t post e tail status w :
  writes_left w = None → Forall skipped tail → Forall (λ c, c ≠ []) post →
  t ++ concat post = concat (wire <$> (ending_rest e ++ tail ++ [rfq status])) →
  (match auth_drain key password false w t with
   | Waiting st => run_reads (connect_read key password) st (RdData <$> post)
   | Done x => (Done x, RdData <$> post)
   end).1 = Done (Ok w).
Proof using Type.
  intros Hw Htail Hpost E.
  assert (Hrun : ∀ chunks, Forall (λ c, c ≠ []) chunks →
    concat chunks = concat (wire <$> (ending_rest e ++ tail ++ [rfq status])) →
    (run_reads (connect_read key password) (phase_of false, [], w) (RdData <$> chunks)).1 = Done (Ok w)).
  { intros chunks Hc Ec. apply (calm_run key password false w [] chunks w []); [done|by rewrite drain_msgs_nil|].
    cbn [app]. rewrite Ec. by apply calm_ending. }
  destruct t as [|b t].
  - unfold auth_drain. rewrite drain_msgs_nil. cbn [andthen]. by apply Hrun.
  - pose proof (Hrun ((b :: t) :: post) ltac:(by constructor) E) as H1. cbn [fmap list_fmap run_reads phase_of connect_read app] in H1.
    by destruct (auth_drain key password false w (b :: t)).
Qed.

(** C27. SCRAM, for every way each of the server's three answers is cut into
    reads.  After the client-first and client-final messages (nothing more is
    sent), if the server ends with SASLFinal, the connection is returned exactly
    when the crate accepts the signature in it, else the crate's error is
    returned; but a server that sends AuthenticationOk instead of SASLFinal is
    accepted without any verdict of the crate.  Messages such as ParameterStatus
    may follow up to ReadyForQuery. *)
Theorem scram_checks_signature (ending : scram_ending) tail status cs1 cs2 cs3 :
  msg_fits (ending_first ending) → Forall skipped tail →
  Forall (λ c, c ≠ []) cs1 → Forall (λ c, c ≠ []) cs2 → Forall (λ c, c ≠ []) cs3 →
  concat cs1 = wire (auth_msg 10 mechs) → concat cs2 = wire (auth_msg 11 server_first) →
  concat cs3 = wire (ending_first ending) ++ concat (wire <$> (ending_rest ending ++ tail ++ [rfq status])) →
  (connect_backend key password extra_params (Ok tt) None
     ((RdData <$> cs1) ++ (RdData <$> cs2) ++ (RdData <$> cs3))).1
  = match ending_verdict ending with
    | Ok _ => Done (Ok (mk_sink scram_sent None))
    | Err e => Done (Err e)
    | Panic => Done Panic
    end.
Proof using Hmechs Hfirst Hinit Hupdate Hresp.
  intros Hf Htail Hc1 Hc2 Hc3 E1 E2 E3. rewrite scram_end by done.
  destruct (connect_read_cut (ScramFinal s' false) (mk_sink scram_sent None) _ _ cs3 [] ltac:(done) Hf Hc3 E3)
    as (buf & c & t & post & Hc & Hb & Ht & Hpost & E).
  rewrite !app_nil_r in E. rewrite E. clear E. symmetry in Ht.
  pose proof (ending_run t post ending tail status (mk_sink scram_sent None) eq_refl Htail Hpost Ht) as Hr.
  destruct c as [|b0 c]; [done|]. cbn [run_reads connect_read]. rewrite Hb. unfold scram_final.
  destruct ending as [f|]; cbn [ending_first ending_verdict] in *.
  - rewrite read_auth_msg by done. cbn [andthen auth_msg msg_type payload].
    rewrite decide_True by done. rewrite get_put_i32 by (unfold is_i32; lia). rewrite slice_from_put.
    cbn [andthen unwrap]. change (12 =? 12) with true. cbv iota. cbn [andthen].
    destruct (scram_finish s' f) as [[]| |]; cbn [andthen]; [|done..].
    by destruct (auth_drain key password false (mk_sink scram_sent None) t).
  - change auth_ok_msg with (auth_msg 0 []) in *. rewrite read_auth_msg by done.
    cbn [andthen auth_msg msg_type payload]. rewrite decide_True by done.
    change (unwrap (get_i32 (put_i32 0 ++ []))) with (Ok 0). cbn [andthen].
    change (0 =? 12) with false. change (0 =? 0) with true. cbv iota.
    by destruct (auth_drain key password false (mk_sink scram_sent None) t).
Qed.

(** An authentication message of fewer than four bytes during the SCRAM
    exchange panics the session's task: [&msg.payload[0..4]] is unchecked
    there, unlike in the authentication loop. *)
Theorem scram_short_panics p later :
  (length p < 4)%nat →
  (connect_backend key password extra_params (Ok tt) None
    (RdData (wire (auth_msg 10 mechs)) :: RdData (wire (mk_PgMessage "R"%byte p)) :: later)).1
  = Done Panic.
Proof using Hmechs Hinit.
  intros Hp.
  assert (E1 := connect_offer [wire (auth_msg 10 mechs)] (RdData (wire (mk_PgMessage "R"%byte p)) :: later)
                  ltac:(by repeat constructor) (app_nil_r _)). cbn [fmap list_fmap app] in E1. rewrite E1. cbn [run_reads].
  assert (Hf : msg_fits (mk_PgMessage "R"%byte p)) by (unfold msg_fits, MAX_MESSAGE_SIZE; cbn -[Z.mul]; unfold len; lia).
  change (wire (mk_PgMessage "R"%byte p)) with ("R"%byte :: drop 1 (wire (mk_PgMessage "R"%byte p))).
  cbn [connect_read app]. change ("R"%byte :: drop 1 (wire (mk_PgMessage "R"%byte p))) with (wire (mk_PgMessage "R"%byte p)).
  rewrite <-(app_nil_r (wire (mk_PgMessage _ _))). unfold scram_first.
  rewrite readers_agree, read_raw_wire by done. cbn [forget_raw]. simpl.
  assert (E : get_i32 p = None) by (destruct p as [|? [|? [|? [|? ?]]]]; simpl in *; try done; lia).
  by rewrite E.
Qed.
End scram.

Definition demo_mechs : bytes := blit "SCRAM-SHA-256" ++ [x00; x00].
Lemma demo_scram :
  offers_scram demo_mechs = true ∧ msg_fits (auth_msg 10 demo_mechs) ∧ msg_fits (auth_msg 11 (blit "r=1,s=2,i=1")).
Proof. split_and!; by vm_compute. Qed.

Definition demo_challenge : bytes := blit "r=1,s=2,i=1".

Lemma scram_checks_signature_witness :
  (connect_backend demo_conn_key (lit "pw") [] (Ok tt) None
     ((RdData <$> [take 3 (wire (auth_msg 10 demo_mechs)); drop 3 (wire (auth_msg 10 demo_mechs))])
      ++ (RdData <$> [wire (auth_msg 11 demo_challenge)])
      ++ (RdData <$> [wire (auth_msg 12 (blit "v=wrong")) ++ take 6 (wire auth_ok_msg);
                      drop 6 (wire auth_ok_msg) ++ wire (rfq "I"%byte)]))).1
  = Done (Err (ExtError (lit "invalid server signature"))).
Proof.
  destruct demo_scram as (H1 & H2 & H3).
  apply (scram_checks_signature (H := demo_proto) demo_conn_key (lit "pw") [] demo_mechs demo_challenge
           (frame "p"%byte (blit "SCRAM-SHA-256" ++ [x00] ++ blit "pw"))
           (frame "p"%byte (blit "pw" ++ demo_challenge)) (blit "pw" ++ demo_challenge) ltac:(done) ltac:(done)
           ltac:(done) ltac:(done) ltac:(done) (SaslFinal (blit "v=wrong")) [] "I"%byte
           [take 3 (wire (auth_msg 10 demo_mechs)); drop 3 (wire (auth_msg 10 demo_mechs))]
           [wire (auth_msg 11 demo_challenge)]
           [wire (auth_msg 12 (blit "v=wrong")) ++ take 6 (wire auth_ok_msg);
            drop 6 (wire auth_ok_msg) ++ wire (rfq "I"%byte)]).
  - by vm_compute.
  - done.
  - by repeat constructor.
  - by repeat constructor.
  - by repeat constructor.
  - reflexivity.
  - reflexivity.
  - reflexivity.
Defined.

Lemma scram_short_panics_witness :
  (connect_backend demo_conn_key (lit "pw") [] (Ok tt) None
    [RdData (wire (auth_msg 10 demo_mechs)); RdData (wire (mk_PgMessage "R"%byte [x00]))]).1
  = Done Panic.
Proof.
  destruct demo_scram as (H1 & H2 & H3).
  apply (scram_short_panics demo_conn_key (lit "pw") [] demo_mechs
           (frame "p"%byte (blit "SCRAM-SHA-256" ++ [x00] ++ blit "pw"))); [done|done|]. simpl. lia.
Defined.
