(* ===== verification/Proxy.v ===== *)
(** * The proxy loops (src/protocol/frontend.rs)

    [fast_proxy_loop] and [slow_proxy_loop] as functions from one event of
    their [select!] to the next, and the loop of [handle_client] that alternates
    them.  An event is a read of the client or of the server, with the values
    that the over-limit flag and the database size have while it is handled. *)

From S2P Require Import Prelude RustStr Messages Scanner Config Io.

(** [ProxyBuffers], the scanner and the writing halves of the two sockets. *)
Record proxy := mk_proxy {
  px_client : sink;
  px_server : sink;
  client_buf : bytes;
  server_buf : bytes;
  px_scanner : MessageBoundaryScanner
}.

Inductive ProxyLoopExit := ClientDisconnected | SwitchToSlow | SwitchToFast.

Inductive side := FromClient | FromServer.
Record pevent := mk_pevent {
  ev_side : side;
  ev_read : rd;
  ev_over_limit : bool;
  ev_db_size : option Z
}.

(** ** [fast_proxy_loop] *)

(** One branch of the [select!]; the state is [transition_pending] and the proxy. *)
Definition fast_step (st : bool * proxy) (ev : pevent) : progress (bool * proxy) (ProxyLoopExit * proxy) :=
  let '(transition_pending, px) := st in
  match ev_read ev with
  | RdErr => Done (Err IoError)
  | RdData [] => Done (Ok (ClientDisconnected, px))
  | RdData chunk =>
      match ev_side ev with
      | FromClient =>
          let buf := client_buf px ++ chunk in
          let transition_pending := transition_pending || ev_over_limit ev in
          server <~ send (px_server px) buf;
          Waiting (transition_pending, mk_proxy (px_client px) server [] (server_buf px) (px_scanner px))
      | FromServer =>
          let buf := server_buf px ++ chunk in
          x <~ unwrap (scan (px_scanner px) buf);
          let '(scanner, saw_idle) := x in
          client <~ send (px_client px) buf;
          let px := mk_proxy client (px_server px) (client_buf px) [] scanner in
          if transition_pending && saw_idle then Done (Ok (SwitchToSlow, px))
          else Waiting (transition_pending, px)
      end
  end.

(** ** [slow_proxy_loop] *)

Section slow.
Context `{UnicodeUpper}.
(** [cfg.monitor], [startup_info.max_db_size] and [pool_key.database]. *)
Context (cfg : MonitorConfig) (max_db_size : option Z) (database : str).

(** The limit of the session: its own, or the configured default. *)
Definition session_limit : option Z :=
  match max_db_size with
  | Some n => Some n
  | None => if 0 <? default_max_db_size_bytes cfg then Some (default_max_db_size_bytes cfg) else None
  end.

Definition should_inject (size : option Z) : bool :=
  match session_limit with
  | Some limit => match size with Some size => limit <? size | None => false end
  | None => false
  end.

Definition limit_notice : bytes :=
  build_notice_response (lit "WARNING") (lit "53400")
    (lit "Database '" ++ database
     ++ lit "' has exceeded its size limit. Write operations are restricted. DELETE/TRUNCATE are still allowed.").

Definition read_only_prefix : str := lit "SET TRANSACTION READ ONLY; ".
Definition wrapped_query (query_text : str) : PgMessage :=
  PgMessage_new "Q"%byte (as_bytes (read_only_prefix ++ query_text) ++ [x00]).

(** What one message of the client does; the state is
    [transaction_read_only_injected] and the two writing halves. *)
Definition slow_client_msg (size : option Z) (st : bool * sink * sink) (m : PgMessage) (raw : bytes)
    : outcome (bool * sink * sink + Empty_set) :=
  let '(injected, client, server) := st in
  if decide (msg_type m ≠ "Q"%byte ∧ msg_type m ≠ "P"%byte) then
    server ← send server raw; Ok (inl (false, client, server))
  else if negb (should_inject size) then
    server ← send server raw; Ok (inl (false, client, server))
  else
    let is_shrink := match extract_query_text m with Some q => is_shrink_operation q | None => false end in
    if is_shrink && allow_shrink_operations_when_overlimit cfg then
      server ← send server raw; Ok (inl (injected, client, server))
    else if decide (msg_type m = "Q"%byte) then
      match extract_query_text m with
      | Some query_text =>
          '(injected, client) ← (if injected then Ok (injected, client)
                                 else client ← send client limit_notice; Ok (true, client));
          server ← send server (encode (wrapped_query query_text) []);
          Ok (inl (injected, client, server))
      | None => Ok (inl st)
      end
    else
      server ← send server raw; Ok (inl (injected, client, server)).

(** What one message of the server does; the state is the scanner and the
    client's writing half, [inr] is [SwitchToFast]. *)
Definition slow_server_msg (over_limit : bool) (st : MessageBoundaryScanner * sink) (m : PgMessage) (raw : bytes)
    : outcome ((MessageBoundaryScanner * sink) + (MessageBoundaryScanner * sink)) :=
  let '(scanner, client) := st in
  raw0 ← unwrap (raw !! 0%nat);
  if decide (raw0 = "Z"%byte ∧ length raw = 6%nat) then
    status ← unwrap (raw !! 5%nat);
    let scanner := mk_scanner (remaining_skip scanner) (header_buf scanner) (header_len scanner) status in
    client ← send client raw;
    if bool_decide (status = "I"%byte) && negb over_limit then Ok (inr (scanner, client))
    else Ok (inl (scanner, client))
  else
    client ← send client raw; Ok (inl (scanner, client)).

Definition slow_step (st : bool * proxy) (ev : pevent) : progress (bool * proxy) (ProxyLoopExit * proxy) :=
  let '(injected, px) := st in
  match ev_read ev with
  | RdErr => Done (Err IoError)
  | RdData [] => Done (Ok (ClientDisconnected, px))
  | RdData chunk =>
      match ev_side ev with
      | FromClient =>
          x <~ drain_raw (slow_client_msg (ev_db_size ev)) (injected, px_client px, px_server px) (client_buf px ++ chunk);
          match x with
          | (inl (injected, client, server), buf) =>
              Waiting (injected, mk_proxy client server buf (server_buf px) (px_scanner px))
          | (inr r, _) => match r with end
          end
      | FromServer =>
          x <~ drain_raw (slow_server_msg (ev_over_limit ev)) (px_scanner px, px_client px) (server_buf px ++ chunk);
          match x with
          | (inl (scanner, client), buf) =>
              Waiting (injected, mk_proxy client (px_server px) (client_buf px) buf scanner)
          | (inr (scanner, client), buf) =>
              Done (Ok (SwitchToFast, mk_proxy client (px_server px) (client_buf px) buf scanner))
          end
      end
  end.

(** ** Phase 4 of [handle_client] *)

Inductive mode :=
  | Fast (transition_pending : bool)
  | Slow (transaction_read_only_injected : bool).

(** The loop that alternates the two; it ends when the client (or the server)
    disconnects or with an error. *)
Definition proxy_step (st : mode * proxy) (ev : pevent) : progress (mode * proxy) proxy :=
  match st.1 with
  | Fast b =>
      match fast_step (b, st.2) ev with
      | Waiting (b, px) => Waiting (Fast b, px)
      | Done (Ok (ClientDisconnected, px)) => Done (Ok px)
      | Done (Ok (SwitchToSlow, px)) => Waiting (Slow false, px)
      | Done (Ok (SwitchToFast, _)) => Done Panic
      | Done (Err e) => Done (Err e)
      | Done Panic => Done Panic
      end
  | Slow b =>
      match slow_step (b, st.2) ev with
      | Waiting (b, px) => Waiting (Slow b, px)
      | Done (Ok (ClientDisconnected, px)) => Done (Ok px)
      | Done (Ok (SwitchToFast, px)) => Waiting (Fast false, px)
      | Done (Ok (SwitchToSlow, _)) => Done Panic
      | Done (Err e) => Done (Err e)
      | Done Panic => Done Panic
      end
  end.
End slow.

(** ** Nothing is lost, duplicated or reordered *)

Definition chunk (sd : side) (ev : pevent) : bytes :=
  match ev_side ev, sd, ev_read ev with
  | FromClient, FromClient, RdData c | FromServer, FromServer, RdData c => c
  | _, _, _ => []
  end.
(** The bytes one side sent during a sequence of events. *)
Definition received (sd : side) (evs : list pevent) : bytes := concat (chunk sd <$> evs).

(** What a proxy has taken from the client (the server): the bytes passed on,
    then those in the buffer. *)
Definition taken (sd : side) (px : proxy) : bytes :=
  match sd with
  | FromClient => sent (px_server px) ++ client_buf px
  | FromServer => sent (px_client px) ++ server_buf px
  end.

Lemma send_sent w b w' : send w b = Ok w' → sent w' = sent w ++ b.
Proof. unfold send. by repeat case_match; intros; simplify_eq. Qed.

(** Inverts the binds and sends of a step that went on. *)
Ltac sends :=
  repeat match goal with
  | H : (_ ≫= _) = Ok _ |- _ => apply bind_Ok in H as (? & ? & H)
  | H : send _ _ = Ok _ |- _ => apply send_sent in H
  | x : _ * _ |- _ => destruct x
  end; simplify_eq/=.

Section lossless.
Context `{UnicodeUpper}.
Context (cfg : MonitorConfig) (max_db_size : option Z) (database : str).

(** Read-only mode is not enforced while the event is handled. *)
Definition quiet (ev : pevent) : Prop := should_inject cfg max_db_size (ev_db_size ev) = false.

Lemma fast_lossless b px ev :
  match fast_step (b, px) ev with
  | Waiting (_, px') | Done (Ok (_, px')) => ∀ sd, taken sd px' = taken sd px ++ chunk sd ev
  | _ => True
  end.
Proof using Type.
  unfold fast_step, chunk. destruct (ev_read ev) as [|[|c0 c]]; [done|by intros []; destruct (ev_side ev); rewrite app_nil_r|].
  destruct (ev_side ev).
  - destruct (send _ _) as [w'| |] eqn:E; simpl; try done. apply send_sent in E.
    intros []; simpl; rewrite ?app_nil_r; [|done]. by rewrite E, (assoc_L (++)).
  - destruct (scan _ _) as [[sc i]|]; simpl; [|done].
    destruct (send _ _) as [w'| |] eqn:E; simpl; try done. apply send_sent in E.
    destruct (b && i); intros []; simpl; rewrite ?app_nil_r; try done; by rewrite E, (assoc_L (++)).
Qed.

Lemma slow_lossless b px ev :
  quiet ev →
  match slow_step cfg max_db_size database (b, px) ev with
  | Waiting (_, px') | Done (Ok (_, px')) => ∀ sd, taken sd px' = taken sd px ++ chunk sd ev
  | _ => True
  end.
Proof using Type.
  intros Hq. unfold slow_step, chunk.
  destruct (ev_read ev) as [|[|c0 c]]; [done|by intros []; destruct (ev_side ev); rewrite app_nil_r|].
  destruct (ev_side ev).
  - unshelve epose proof (drain_raw_inv (slow_client_msg cfg max_db_size database (ev_db_size ev))
      (λ st b, st.1.2 = px_client px ∧ sent st.2 ++ b = sent (px_server px) ++ client_buf px ++ c0 :: c)
      (λ _ _, True) (b, px_client px, px_server px) (client_buf px ++ c0 :: c) _ _ _) as Hd; [|done|done|].
    + intros [[i cl'] sv'] m r [[i2 cl2] sv2] Hm [Hc Hs] E. simpl in Hc, Hs |- *.
      unfold slow_client_msg in E. rewrite Hq in E. simpl in E.
      case_decide; apply bind_Ok in E as (w' & Esend%send_sent & E); simplify_eq;
        by rewrite Esend, <-(assoc_L (++)).
    + destruct (drain_raw _ _ _) as [[[[[b' cl] sv]|[]] rest]| |]; simpl; try done.
      destruct Hd as [Hc Hs]. simpl in *. subst cl.
      intros []; simpl; rewrite ?app_nil_r; [|done]. rewrite Hs. by rewrite (assoc_L (++)).
  - assert (Hmsg : ∀ st m r x, sent st.2 ++ wire m ++ r = sent (px_client px) ++ server_buf px ++ c0 :: c →
      slow_server_msg (ev_over_limit ev) st m (wire m) = Ok x →
      ∀ st', x = inl st' ∨ x = inr st' → sent st'.2 ++ r = sent (px_client px) ++ server_buf px ++ c0 :: c).
    { intros [sc cl] m r x Hs E st' Hx. unfold slow_server_msg in E.
      apply bind_Ok in E as (raw0 & _ & E). case_decide; [apply bind_Ok in E as (status & _ & E)|];
        apply bind_Ok in E as (cl' & Es%send_sent & E); repeat case_match; destruct Hx; simplify_eq/=;
        by rewrite Es, <-(assoc_L (++)). }
    pose proof (drain_raw_inv (slow_server_msg (ev_over_limit ev))
      (λ st b, sent st.2 ++ b = sent (px_client px) ++ server_buf px ++ c0 :: c)
      (λ st b, sent st.2 ++ b = sent (px_client px) ++ server_buf px ++ c0 :: c)
      (px_scanner px, px_client px) (server_buf px ++ c0 :: c)
      (λ s m rest s' _ Hs E, Hmsg s m rest _ Hs E s' (or_introl eq_refl))
      (λ s m rest s' _ Hs E, Hmsg s m rest _ Hs E s' (or_intror eq_refl)) eq_refl) as Hd.
    destruct (drain_raw _ _ _) as [[[[sc cl]|[sc cl]] rest]| |]; simpl; try done.
    all: intros []; simpl in *; rewrite ?app_nil_r; [done|]; rewrite Hd; by rewrite (assoc_L (++)).
Qed.

Lemma step_lossless m px ev :
  quiet ev →
  match proxy_step cfg max_db_size database (m, px) ev with
  | Waiting (_, px') | Done (Ok px') => ∀ sd, taken sd px' = taken sd px ++ chunk sd ev
  | _ => True
  end.
Proof using Type.
  intros Hq. unfold proxy_step. destruct m as [b|b]; cbn [fst snd].
  - pose proof (fast_lossless b px ev) as Hl. by destruct (fast_step _ _) as [[]|[[[]]| |]].
  - pose proof (slow_lossless b px ev Hq) as Hl. by destruct (slow_step _ _ _ _ _) as [[]|[[[]]| |]].
Qed.

(** C3. Losslessness across modes.  While read-only mode is not enforced, any
    run of the proxy, through any number of switches between the fast and the
    slow loop and any interleaving and cutting of the two streams, has passed on
    exactly the bytes it read, in order and unchanged, except for a tail that is
    still in the shared buffer of that direction. *)
Theorem proxy_lossless m px evs res rest :
  Forall quiet evs →
  run_reads (proxy_step cfg max_db_size database) (m, px) evs = (res, rest) →
  ∃ used, evs = used ++ rest
    ∧ ∀ m' px', res = Waiting (m', px') ∨ res = Done (Ok px') →
        ∀ sd, taken sd px' = taken sd px ++ received sd used.
Proof using Type.
  intros Hq. revert m px. induction Hq as [|ev evs Hev _ IH]; intros m px; simpl.
  - intros [= <- <-]. exists []. split; [done|]. intros m' px' [|] sd; simplify_eq. by rewrite app_nil_r.
  - pose proof (step_lossless m px ev Hev) as Hl.
    destruct (proxy_step _ _ _ _ _) as [[m1 px1]|[px1| |]].
    + intros E. destruct (IH m1 px1 E) as (used & -> & Hu). exists (ev :: used). split; [done|].
      intros m' px' Hres sd. rewrite (Hu m' px' Hres sd), Hl. unfold received. simpl. by rewrite (assoc_L (++)).
    + intros [= <- <-]. exists [ev]. split; [done|]. intros m' px' [|] sd; simplify_eq.
      rewrite Hl. unfold received. simpl. by rewrite app_nil_r.
    + intros [= <- <-]. exists [ev]. split; [done|]. naive_solver.
    + intros [= <- <-]. exists [ev]. split; [done|]. naive_solver.
Qed.
End lossless.

(** ** Read-only enforcement *)

Section enforcement.
Context `{UnicodeUpper}.
Context (cfg : MonitorConfig) (max_db_size : option Z) (database : str).

(** The query the slow loop wraps, for a database over its limit. *)
Definition restricted (m : PgMessage) : option str :=
  if decide (msg_type m = "Q"%byte) then
    match extract_query_text m with
    | Some q => if is_shrink_operation q && allow_shrink_operations_when_overlimit cfg then None else Some q
    | None => None
    end
  else None.

(** The bytes the server receives for a message of the client. *)
Definition forwarded (m : PgMessage) : bytes :=
  match restricted m with
  | Some q => wire (wrapped_query q)
  | None => if decide (msg_type m = "Q"%byte ∧ extract_query_text m = None) then [] else wire m
  end.

(** [transaction_read_only_injected] after the message. *)
Definition injected_after (injected : bool) (m : PgMessage) : bool :=
  if decide (msg_type m ≠ "Q"%byte ∧ msg_type m ≠ "P"%byte) then false
  else match restricted m with Some _ => true | None => injected end.

Fixpoint warnings (injected : bool) (ms : list PgMessage) : bytes :=
  match ms with
  | [] => []
  | m :: r =>
      (if restricted m is Some _ then if injected then [] else limit_notice database else [])
      ++ warnings (injected_after injected m) r
  end.

Lemma extract_none_not_Q m : msg_type m ≠ "Q"%byte → extract_query_text m = None.
Proof using Type. intros Hm. unfold extract_query_text. by rewrite decide_False. Qed.

Lemma slow_client_msg_spec size injected client server m :
  should_inject cfg max_db_size size = true →
  writes_left client = None → writes_left server = None →
  slow_client_msg cfg max_db_size database size (injected, client, server) m (wire m)
  = Ok (inl (injected_after injected m,
             mk_sink (sent client ++ (if restricted m is Some _ then if injected then [] else limit_notice database
                                      else [])) None,
             mk_sink (sent server ++ forwarded m) None)).
Proof using Type.
  intros Hs Hc Hw. destruct client as [oc wc], server as [os ws]. simpl in Hc, Hw. subst wc ws.
  unfold slow_client_msg, injected_after, forwarded, restricted. rewrite Hs. cbn [negb].
  destruct (decide (msg_type m = "Q"%byte)) as [HQ|HQ].
  - repeat rewrite (decide_False (P := msg_type m ≠ "Q"%byte ∧ msg_type m ≠ "P"%byte)) by naive_solver.
    destruct (extract_query_text m) as [q|] eqn:Eq.
    + destruct (is_shrink_operation q && _) eqn:Esh.
      * rewrite (decide_False (P := msg_type m = "Q"%byte ∧ Some q = None)) by naive_solver.
        simpl. by rewrite app_nil_r.
      * rewrite encode_wire by done. by destruct injected; simpl; rewrite ?app_nil_r.
    + rewrite (decide_True (P := msg_type m = "Q"%byte ∧ None = None)) by naive_solver. simpl. by rewrite !app_nil_r.
  - rewrite (decide_False (P := msg_type m = "Q"%byte ∧ extract_query_text m = None)) by naive_solver.
    rewrite extract_none_not_Q by done. simpl.
    case_decide; simpl; by rewrite app_nil_r.
Qed.

Lemma slow_client_drain size ms :
  should_inject cfg max_db_size size = true → Forall msg_fits ms →
  ∀ injected client server, writes_left client = None → writes_left server = None →
  drain_raw (slow_client_msg cfg max_db_size database size) (injected, client, server) (concat (wire <$> ms))
  = Ok (inl (foldl injected_after injected ms, mk_sink (sent client ++ warnings injected ms) None,
             mk_sink (sent server ++ concat (forwarded <$> ms)) None), []).
Proof using Type.
  intros Hs Hms. induction Hms as [|m ms Hm _ IH]; intros injected client server Hc Hw;
    cbn [fmap list_fmap concat foldl warnings].
  - rewrite drain_raw_nil, !app_nil_r. destruct client, server; simpl in *; by subst.
  - rewrite drain_raw_wire, slow_client_msg_spec by done. rewrite IH by done. simpl.
    by rewrite <-!(assoc_L (++)).
Qed.

(** C9. The slow loop over its limit.  For any messages of the client, cut
    into reads in any way, the server receives exactly the [forwarded] bytes of
    each message in order: queries wrapped in read-only mode, shrinking queries
    and other messages as they were, queries that are not valid UTF-8 or not
    terminated dropped; and the client receives one warning per run of
    restricted queries. *)
Theorem slow_loop_rewrites size flag injected px ms chunks :
  should_inject cfg max_db_size size = true → Forall msg_fits ms →
  writes_left (px_client px) = None → writes_left (px_server px) = None → client_buf px = [] →
  Forall (λ c, c ≠ []) chunks → concat chunks = concat (wire <$> ms) →
  run_reads (slow_step cfg max_db_size database) (injected, px)
    ((λ c, mk_pevent FromClient (RdData c) flag size) <$> chunks)
  = (Waiting (foldl injected_after injected ms,
              mk_proxy (mk_sink (sent (px_client px) ++ warnings injected ms) None)
                       (mk_sink (sent (px_server px) ++ concat (forwarded <$> ms)) None)
                       [] (server_buf px) (px_scanner px)), []).
Proof using Type.
  intros Hs Hms Hc Hw Hb Hne E.
  assert (Epx : (injected, px) = (injected, mk_proxy (px_client px) (px_server px) [] (server_buf px) (px_scanner px)))
    by (destruct px; simpl in *; by subst).
  rewrite Epx.
  apply (chunks_drain (slow_client_msg cfg max_db_size database size)
           (λ st buf, (st.1.1, mk_proxy st.1.2 st.2 buf (server_buf px) (px_scanner px)))
           (λ c, mk_pevent FromClient (RdData c) flag size)
           (slow_step cfg max_db_size database) (λ r _, match r : Empty_set with end)
           (injected, px_client px, px_server px) [] chunks) with
    (s' := (foldl injected_after injected ms, mk_sink (sent (px_client px) ++ warnings injected ms) None,
            mk_sink (sent (px_server px) ++ concat (forwarded <$> ms)) None)); try done.
  - intros [[i cl] sv] buf [|b c] Hn; [done|]. unfold slow_step. simpl.
    by destruct (drain_raw _ _ _) as [[[[[? ?] ?]|[]] ?]| |].
  - simpl. rewrite E. by rewrite slow_client_drain.
Qed.
End enforcement.

(** A restricted query as the server reads it. *)
Lemma wrapped_query_text q : str_ok q → 0 ∉ q → extract_query_text (wrapped_query q) = Some (read_only_prefix ++ q).
Proof.
  intros Hq Hn. unfold extract_query_text, wrapped_query. cbn [PgMessage_new msg_type payload].
  rewrite decide_True by done.
  assert (Hok : str_ok (read_only_prefix ++ q)).
  { assert (str_ok read_only_prefix) by str_literal. by apply Forall_app. }
  assert (Hno : x00 ∉ as_bytes (read_only_prefix ++ q)).
  { apply as_bytes_no_nul; [done|]. intros [Hin|Hin]%elem_of_app; [|done]. revert Hin. vm_compute. set_solver. }
  rewrite position_nul_app by done. rewrite take_app_length. by apply from_utf8_as_bytes.
Qed.

Lemma extracted_text m q : extract_query_text m = Some q → msg_type m = "Q"%byte ∧ str_ok q ∧ 0 ∉ q.
Proof.
  unfold extract_query_text. case_decide as HQ; [|done].
  destruct (position_nul (payload m)) as [n|] eqn:En; [|done]. intros E.
  destruct (from_utf8_sound _ _ E) as [Hb Hok]. split_and!; [done..|].
  intros Hin. apply (position_nul_take _ _ En). rewrite <-Hb. by apply nul_as_bytes.
Qed.

(** What the server may get for one message of the client in the slow loop,
    over the limit: a simple query is passed on unchanged only as a shrinking
    operation that the configuration allows, else it reaches the server behind
    [SET TRANSACTION READ ONLY], or not at all when it has no text; any other
    message is passed on unchanged. *)
Definition enforced (cfg : MonitorConfig) `{UnicodeUpper} (m : PgMessage) (out : option PgMessage) : Prop :=
  match extract_query_text m with
  | Some q => ∃ m', out = Some m' ∧
      ((m' = m ∧ is_shrink_operation q = true ∧ allow_shrink_operations_when_overlimit cfg = true)
       ∨ (msg_type m' = "Q"%byte ∧ extract_query_text m' = Some (read_only_prefix ++ q)))
  | None => out = (if decide (msg_type m = "Q"%byte) then None else Some m)
  end.
Definition out_bytes (out : option PgMessage) : bytes :=
  match out with Some m => wire m | None => [] end.

Lemma forwarded_enforced `{UnicodeUpper} (cfg : MonitorConfig) (m : PgMessage) :
  ∃ out, forwarded cfg m = out_bytes out ∧ enforced cfg m out.
Proof.
  unfold forwarded, restricted, enforced. destruct (decide (msg_type m = "Q"%byte)) as [HQ|HQ].
  - destruct (extract_query_text m) as [q|] eqn:Eq; [|exists None; by rewrite decide_True].
    destruct (is_shrink_operation q && _) eqn:Es.
    + apply andb_true_iff in Es as [? ?]. exists (Some m). rewrite decide_False by naive_solver. eauto 10.
    + exists (Some (wrapped_query q)). split; [done|]. exists (wrapped_query q). split; [done|]. right.
      destruct (extracted_text _ _ Eq) as (_ & ? & ?). split; [done|by apply wrapped_query_text].
  - exists (Some m). rewrite decide_False by naive_solver. split; [done|]. by rewrite extract_none_not_Q.
Qed.

(** What the server gets for one message, whenever the writes succeed. *)
Lemma slow_client_msg_sent `{UnicodeUpper} cfg lim db size injected client server m st' :
  should_inject cfg lim size = true →
  slow_client_msg cfg lim db size (injected, client, server) m (wire m) = Ok (inl st') →
  sent st'.2 = sent server ++ forwarded cfg m.
Proof.
  intros Hs. unfold slow_client_msg, forwarded, restricted. rewrite Hs. cbn [negb].
  destruct (decide (msg_type m = "Q"%byte)) as [HQ|HQ].
  - repeat rewrite (decide_False (P := msg_type m ≠ "Q"%byte ∧ msg_type m ≠ "P"%byte)) by naive_solver.
    destruct (extract_query_text m) as [q|] eqn:Eq.
    + destruct (is_shrink_operation q && _) eqn:Esh.
      * rewrite (decide_False (P := msg_type m = "Q"%byte ∧ Some q = None)) by naive_solver.
        intros (w' & Hw%send_sent & E)%bind_Ok. by simplify_eq/=.
      * rewrite encode_wire by done. intros ([i c] & _ & E)%bind_Ok.
        apply bind_Ok in E as (w' & Hw%send_sent & E). by simplify_eq/=.
    + rewrite (decide_True (P := msg_type m = "Q"%byte ∧ None = None)) by naive_solver.
      simpl. intros [= <-]. simpl. by rewrite app_nil_r.
  - rewrite (decide_False (P := msg_type m = "Q"%byte ∧ extract_query_text m = None)) by naive_solver.
    rewrite extract_none_not_Q by done. simpl.
    case_decide; intros (w' & Hw%send_sent & E)%bind_Ok; by simplify_eq/=.
Qed.

(** One event in the slow loop, over the limit: the messages it took from the
    client and what it sent for each. *)
Lemma slow_step_enforced `{UnicodeUpper} cfg lim db injected px ev injected' px' :
  should_inject cfg lim (ev_db_size ev) = true →
  slow_step cfg lim db (injected, px) ev = Waiting (injected', px') →
  ∃ ms outs, client_buf px ++ chunk FromClient ev = concat (wire <$> ms) ++ client_buf px'
    ∧ Forall2 (enforced cfg) ms outs
    ∧ sent (px_server px') = sent (px_server px) ++ concat (out_bytes <$> outs).
Proof.
  intros Hs. unfold slow_step, chunk. destruct (ev_read ev) as [|[|c0 c]]; try done.
  destruct (ev_side ev).
  - set (buf := client_buf px ++ c0 :: c).
    unshelve epose proof (drain_raw_inv (slow_client_msg cfg lim db (ev_db_size ev))
      (λ st b, ∃ ms outs, buf = concat (wire <$> ms) ++ b ∧ Forall2 (enforced cfg) ms outs
                 ∧ sent st.2 = sent (px_server px) ++ concat (out_bytes <$> outs))
      (λ _ _, True) (injected, px_client px, px_server px) buf _ _ _) as Hd; [|done| |].
    + intros [[i cl] sv] m r st' _ (ms & outs & -> & Hf & Hsent) E.
      destruct (forwarded_enforced cfg m) as (out & Hout & He).
      exists (ms ++ [m]), (outs ++ [out]). rewrite !fmap_app, !concat_app. cbn [fmap list_fmap concat].
      rewrite !app_nil_r, <-!(assoc_L (++)). split; [done|]. split; [by apply Forall2_app; repeat constructor|].
      rewrite (slow_client_msg_sent _ _ _ _ _ _ _ _ _ Hs E), Hout. cbn [snd] in Hsent.
      by rewrite Hsent, <-(assoc_L (++)).
    + exists [], []. simpl. by rewrite app_nil_r.
    + destruct (drain_raw _ _ _) as [[[[[i cl] sv]|[]] rest]| |]; simpl; try done.
      intros [= <- <-]. exact Hd.
  - destruct (drain_raw _ _ _) as [[[[sc cl]|[sc cl]] rest]| |]; simpl; try done.
    intros [= <- <-]. exists [], []. cbn. by rewrite !app_nil_r.
Qed.

(** C5. Read-only enforcement in the slow loop.  While a session is in the slow
    loop and its database is over the limit, whatever the buffers hold and however
    both peers' bytes arrive, the proxy takes the client's bytes message by
    message, and what the server receives is, in order, one output per message:
    for a simple query the query behind [SET TRANSACTION READ ONLY], or the
    unchanged query when it is a shrinking operation and the configuration
    allows these, or nothing when it has no text; every other message (the
    extended protocol too) unchanged.  The fast loop enforces nothing: a session
    enters the slow loop at the first idle ReadyForQuery after the flag is seen. *)
Theorem read_only_enforced `{UnicodeUpper} cfg lim db injected px evs injected' px' rest :
  Forall (λ ev, should_inject cfg lim (ev_db_size ev) = true) evs →
  run_reads (slow_step cfg lim db) (injected, px) evs = (Waiting (injected', px'), rest) →
  ∃ ms outs, client_buf px ++ received FromClient evs = concat (wire <$> ms) ++ client_buf px'
    ∧ Forall2 (enforced cfg) ms outs
    ∧ sent (px_server px') = sent (px_server px) ++ concat (out_bytes <$> outs).
Proof.
  intros Hevs. revert injected px. induction Hevs as [|ev evs Hev _ IH]; intros injected px; cbn [run_reads].
  { intros [= <- <- _]. exists [], []. cbn. by rewrite !app_nil_r. }
  destruct (slow_step _ _ _ _ ev) as [[i1 px1]|] eqn:E1; [|done]. intros E.
  destruct (slow_step_enforced _ _ _ _ _ _ _ _ Hev E1) as (ms1 & o1 & Hb1 & Hf1 & Hs1).
  destruct (IH _ _ E) as (ms2 & o2 & Hb2 & Hf2 & Hs2).
  exists (ms1 ++ ms2), (o1 ++ o2). rewrite !fmap_app, !concat_app, Hs2, Hs1, <-!(assoc_L (++)).
  split; [|split; [by apply Forall2_app|done]].
  change (received FromClient (ev :: evs)) with (chunk FromClient ev ++ received FromClient evs).
  by rewrite (assoc_L (++)), Hb1, <-(assoc_L (++)), Hb2.
Qed.

(** ** Mode switches *)

Lemma send_no_panic w b : send w b ≠ Panic.
Proof. unfold send. by repeat case_match. Qed.

Lemma bind_send_no_panic {A} w b (k : sink → outcome A) :
  (∀ w', k w' ≠ Panic) → (send w b ≫= k) ≠ Panic.
Proof. intros Hk. pose proof (send_no_panic w b). destruct (send w b); [apply Hk|done|done]. Qed.

Lemma slow_server_msg_no_panic over st m : slow_server_msg over st m (wire m) ≠ Panic.
Proof.
  destruct st as [sc cl]. unfold slow_server_msg.
  intros [Hp|(raw0 & _ & Hp)]%bind_Panic; [done|]. case_decide as Hz.
  - destruct (lookup_lt_is_Some_2 (wire m) 5) as [b Hb]; [lia|]. rewrite Hb in Hp.
    apply bind_Panic in Hp as [Hp|(st & _ & Hp)]; [done|]. revert Hp.
    apply bind_send_no_panic. intros w'. by case_match.
  - revert Hp. by apply bind_send_no_panic.
Qed.

Lemma slow_client_msg_no_panic `{UnicodeUpper} cfg lim db size st m raw :
  slow_client_msg cfg lim db size st m raw ≠ Panic.
Proof.
  destruct st as [[i c] s]. unfold slow_client_msg.
  repeat case_match; try done; try (by apply bind_send_no_panic).
  simpl. pose proof (send_no_panic c (limit_notice db)).
  destruct (send c (limit_notice db)); simpl; try done. by apply bind_send_no_panic.
Qed.

(** C39. The proxy never panics: no event, in no state of either loop, reaches
    an out-of-range index or one of the two [unreachable!] arms. *)
Theorem proxy_never_panics `{UnicodeUpper} cfg lim db (st : mode * proxy) (ev : pevent) :
  proxy_step cfg lim db st ev ≠ Done Panic.
Proof.
  destruct st as [[b|b] px]; unfold proxy_step; cbn [fst snd].
  - unfold fast_step. destruct (ev_read ev) as [|[|]]; try done. destruct (ev_side ev).
    + pose proof (send_no_panic (px_server px) (client_buf px ++ b0 :: l)). by destruct (send _ _).
    + destruct (scan_terminates (px_scanner px) (server_buf px ++ b0 :: l)) as [[sc i] ->]. simpl.
      pose proof (send_no_panic (px_client px) (server_buf px ++ b0 :: l)).
      destruct (send _ _); try done. simpl. by destruct (b && i).
  - unfold slow_step. destruct (ev_read ev) as [|[|]]; try done. destruct (ev_side ev).
    + pose proof (drain_raw_no_panic (slow_client_msg cfg lim db (ev_db_size ev)) (b, px_client px, px_server px)
        (client_buf px ++ b0 :: l) ltac:(intros; apply slow_client_msg_no_panic)).
      by destruct (drain_raw _ _ _) as [[[[[]]|[]]]| |].
    + pose proof (drain_raw_no_panic (slow_server_msg (ev_over_limit ev)) (px_scanner px, px_client px)
        (server_buf px ++ b0 :: l) ltac:(intros; apply slow_server_msg_no_panic)).
      by destruct (drain_raw _ _ _) as [[[[]|[]]]| |].
Qed.

(** The one message that ends the slow loop. *)
Lemma slow_switch_msg over st m st' :
  slow_server_msg over st m (wire m) = Ok (inr st') →
  over = false ∧ transaction_status st'.1 = "I"%byte
  ∧ wire m = build_ready_for_query "I"%byte ∧ sent st'.2 = sent st.2 ++ wire m.
Proof.
  destruct st as [sc cl]. unfold slow_server_msg.
  intros (raw0 & Hr%unwrap_Ok & E)%bind_Ok. case_decide as Hz; [|apply bind_Ok in E as (? & _ & E); done].
  apply bind_Ok in E as (status & Hs%unwrap_Ok & E). apply bind_Ok in E as (cl' & Hc%send_sent & E).
  destruct (bool_decide (status = "I"%byte)) eqn:Ei; simpl in E; [|done].
  apply bool_decide_eq_true in Ei as ->. destruct over; simplify_eq/=. split_and!; try done.
  destruct Hz as [Hz Hl]. destruct m as [t p]. unfold wire, frame in *. simpl in *. simplify_eq.
  destruct p as [|x [|y p]]; simpl in *; try done. by simplify_eq.
Qed.

Lemma slow_server_msg_sent over st m x :
  slow_server_msg over st m (wire m) = Ok x →
  sent (match x with inl st' | inr st' => st' end).2 = sent st.2 ++ wire m.
Proof.
  destruct st as [sc cl]. unfold slow_server_msg.
  intros (raw0 & _ & E)%bind_Ok. case_decide; [apply bind_Ok in E as (status & _ & E)|];
    apply bind_Ok in E as (cl' & Es%send_sent & E); repeat case_match; by simplify_eq/=.
Qed.

(** The way out of the fast loop. *)
Lemma fast_switch b px px' ev :
  scanner_wf (px_scanner px) →
  fast_step (b, px) ev = Done (Ok (SwitchToSlow, px')) →
  b = true ∧ ev_side ev = FromServer
  ∧ last (frun (abs (px_scanner px)) (server_buf px ++ chunk FromServer ev)).2 = Some "I"%byte
  ∧ transaction_status (px_scanner px') = "I"%byte
  ∧ sent (px_client px') = sent (px_client px) ++ server_buf px ++ chunk FromServer ev
  ∧ server_buf px' = [] ∧ px_server px' = px_server px ∧ client_buf px' = client_buf px.
Proof.
  intros Hwf. unfold fast_step, chunk. destruct (ev_read ev) as [|[|c0 c]]; try done. destruct (ev_side ev).
  { by destruct (send _ _). }
  destruct (scan_spec _ (server_buf px ++ c0 :: c) Hwf) as (s' & Es & _ & _ & Hst). rewrite Es. simpl.
  destruct (send _ _) eqn:Esend; simpl; try done. apply send_sent in Esend. destruct b; simpl; [|done].
  unfold idle_after. destruct (last _) as [x|] eqn:El; [|done].
  destruct (bool_decide (x = "I"%byte)) eqn:Ei; [|done]. intros [= <-]. simpl.
  apply bool_decide_eq_true in Ei as ->. rewrite Hst. unfold status_after. by rewrite El.
Qed.

(** The way out of the slow loop. *)
Lemma slow_switch `{UnicodeUpper} cfg lim db b px px' ev :
  slow_step cfg lim db (b, px) ev = Done (Ok (SwitchToFast, px')) →
  ev_over_limit ev = false ∧ ev_side ev = FromServer
  ∧ transaction_status (px_scanner px') = "I"%byte
  ∧ (∃ before, sent (px_client px') = before ++ build_ready_for_query "I"%byte)
  ∧ sent (px_client px') ++ server_buf px' = sent (px_client px) ++ server_buf px ++ chunk FromServer ev
  ∧ px_server px' = px_server px ∧ client_buf px' = client_buf px.
Proof.
  unfold slow_step, chunk. destruct (ev_read ev) as [|[|c0 c]]; try done. destruct (ev_side ev).
  { by destruct (drain_raw _ _ _) as [[[[[]]|[]]]| |]. }
  set (all := sent (px_client px) ++ server_buf px ++ c0 :: c).
  unshelve epose proof (drain_raw_inv (slow_server_msg (ev_over_limit ev)) (λ st b, sent st.2 ++ b = all)
    (λ st b, ev_over_limit ev = false ∧ transaction_status st.1 = "I"%byte
             ∧ (∃ before, sent st.2 = before ++ build_ready_for_query "I"%byte) ∧ sent st.2 ++ b = all)
    (px_scanner px, px_client px) (server_buf px ++ c0 :: c) _ _ eq_refl) as Hd.
  - intros st m r st' _ Hall E%slow_server_msg_sent. cbn beta. by rewrite E, <-(assoc_L (++)).
  - intros st m r st' _ Hall E. destruct (slow_switch_msg _ _ _ _ E) as (-> & Hi & Hw & Hsent).
    cbn beta. rewrite Hsent, <-(assoc_L (++)). split_and!; [done..|exists (sent st.2); by rewrite Hw|done].
  - destruct (drain_raw _ _ _) as [[[[]|[sc cl]] rest]| |]; simpl; try done.
    intros [= <-]. simpl. naive_solver.
Qed.

(** C22. Modes change only between transactions, and nothing is held back.  The
    fast loop hands over to the slow one only after it saw the over-limit flag,
    on a server read whose last reported ReadyForQuery is idle; then everything
    buffered and read has been sent to the client, also the bytes that follow
    that ReadyForQuery in the read.  The slow loop hands over only with the flag
    cleared, right after sending an idle ReadyForQuery: what the client got and
    what stays in the server buffer is exactly what came in, cut after that
    message.  In both cases the recorded transaction status is idle, and nothing
    changes on the way from the client to the server. *)
Theorem switch_only_idle `{UnicodeUpper} cfg lim db b px px' ev :
  scanner_wf (px_scanner px) →
  (fast_step (b, px) ev = Done (Ok (SwitchToSlow, px')) →
     b = true ∧ ev_side ev = FromServer
     ∧ last (frun (abs (px_scanner px)) (server_buf px ++ chunk FromServer ev)).2 = Some "I"%byte
     ∧ transaction_status (px_scanner px') = "I"%byte
     ∧ sent (px_client px') = sent (px_client px) ++ server_buf px ++ chunk FromServer ev
     ∧ server_buf px' = [] ∧ px_server px' = px_server px ∧ client_buf px' = client_buf px)
  ∧ (slow_step cfg lim db (b, px) ev = Done (Ok (SwitchToFast, px')) →
     ev_over_limit ev = false ∧ ev_side ev = FromServer
     ∧ transaction_status (px_scanner px') = "I"%byte
     ∧ (∃ before, sent (px_client px') = before ++ build_ready_for_query "I"%byte)
     ∧ sent (px_client px') ++ server_buf px' = sent (px_client px) ++ server_buf px ++ chunk FromServer ev
     ∧ px_server px' = px_server px ∧ client_buf px' = client_buf px).
Proof. intros Hwf. split; [by apply fast_switch|by apply slow_switch]. Qed.

(** ** Example runs *)

#[local] Existing Instance upper_id.
Definition demo_monitor_cfg : MonitorConfig := mk_MonitorConfig 60 0 true.
Definition new_proxy : proxy := mk_proxy (mk_sink [] None) (mk_sink [] None) [] [] scanner_new.
Definition query (q : string) : PgMessage := mk_PgMessage "Q"%byte (blit q ++ [x00]).
Definition from (sd : side) (b : bytes) (flag : bool) (size : option Z) : pevent := mk_pevent sd (RdData b) flag size.

Lemma switch_only_idle_witness :
  ∃ px', fast_step (true, new_proxy) (from FromServer (build_ready_for_query "I"%byte) true None)
         = Done (Ok (SwitchToSlow, px'))
    ∧ transaction_status (px_scanner px') = "I"%byte
    ∧ sent (px_client px') = build_ready_for_query "I"%byte.
Proof.
  eexists. split; [vm_compute; reflexivity|].
  destruct (proj1 (switch_only_idle demo_monitor_cfg None [] true new_proxy _
    (from FromServer (build_ready_for_query "I"%byte) true None) scanner_new_wf) eq_refl)
    as (_ & _ & _ & Hi & Hs & _).
  split; [exact Hi|exact Hs].
Defined.

Lemma read_only_enforced_witness :
  let ev := from FromClient (wire (query "insert into t values (1)") ++ ["Q"%byte; x00]) true (Some 200) in
  let server := mk_sink (wire (wrapped_query (lit "insert into t values (1)"))) None in
  ∃ ms outs, [] ++ received FromClient [ev] = concat (wire <$> ms) ++ ["Q"%byte; x00]
    ∧ Forall2 (enforced demo_monitor_cfg) ms outs
    ∧ sent server = [] ++ concat (out_bytes <$> outs).
Proof.
  apply (read_only_enforced demo_monitor_cfg (Some 100) (lit "app") false new_proxy
           [from FromClient (wire (query "insert into t values (1)") ++ ["Q"%byte; x00]) true (Some 200)]
           true (mk_proxy (mk_sink (limit_notice (lit "app")) None)
                          (mk_sink (wire (wrapped_query (lit "insert into t values (1)"))) None)
                          ["Q"%byte; x00] [] scanner_new) []).
  - repeat constructor.
  - vm_compute. reflexivity.
Defined.

(** A query cut into two reads, its answer cut into two, a switch in between. *)
Definition demo_events : list pevent :=
  [from FromClient (take 9 (wire (query "select 1"))) false None;
   from FromClient (drop 9 (wire (query "select 1"))) true None;
   from FromServer (wire (mk_PgMessage "C"%byte (blit "SELECT 1" ++ [x00])) ++ build_ready_for_query "I"%byte) true None;
   from FromClient (take 4 (wire (query "select 2"))) true None].

Lemma proxy_lossless_witness :
  ∃ used, demo_events = used ++ []
    ∧ ∀ m' px', (run_reads (proxy_step demo_monitor_cfg None []) (Fast false, new_proxy) demo_events).1 = Waiting (m', px')
                ∨ (run_reads (proxy_step demo_monitor_cfg None []) (Fast false, new_proxy) demo_events).1 = Done (Ok px') →
        ∀ sd, taken sd px' = taken sd new_proxy ++ received sd used.
Proof.
  apply (proxy_lossless demo_monitor_cfg None [] (Fast false)).
  - repeat constructor.
  - vm_compute. reflexivity.
Defined.

Lemma slow_loop_rewrites_witness :
  run_reads (slow_step demo_monitor_cfg (Some 100) (lit "app")) (false, new_proxy)
    [from FromClient (take 3 (wire (query "insert into t values (1)"))) true (Some 200);
     from FromClient (drop 3 (wire (query "insert into t values (1)")) ++ wire (query "drop table t")) true (Some 200)]
  = (Waiting (true, mk_proxy (mk_sink (limit_notice (lit "app")) None)
                      (mk_sink (wire (wrapped_query (lit "insert into t values (1)")) ++ wire (query "drop table t")) None)
                      [] [] scanner_new), []).
Proof.
  etrans.
  - apply (slow_loop_rewrites demo_monitor_cfg (Some 100) (lit "app") (Some 200) true false new_proxy
             [query "insert into t values (1)"; query "drop table t"]
             [take 3 (wire (query "insert into t values (1)"));
              drop 3 (wire (query "insert into t values (1)")) ++ wire (query "drop table t")]);
      try reflexivity; repeat constructor; by vm_compute.
  - vm_compute. reflexivity.
Defined.

(** The switch to the slow loop ignores bytes after the idle
    ReadyForQuery.  When a server read ends in the first bytes of a further
    message (an asynchronous ParameterStatus here), the slow loop takes the rest
    of that message for a header and ends the session with an error. *)
Theorem switch_mid_message :
  let extra := build_parameter_status (lit "TimeZone") (lit "UTC") in
  ∃ e, (run_reads (proxy_step demo_monitor_cfg (Some 100) (lit "app")) (Fast true, new_proxy)
          [from FromServer (build_ready_for_query "I"%byte ++ take 3 extra) true (Some 200);
           from FromServer (drop 3 extra) true (Some 200)]).1 = Done (Err e).
Proof. eexists. vm_compute. reflexivity. Qed.
