(* ===== verification/Session.v ===== *)
(** * Client sessions (src/protocol/frontend.rs, [handle_client])

    A session is the place of [handle_client]: reading the startup message,
    reading the password, waiting for [acquire], proxying.  A step takes the
    next event there and returns the calls it makes on the pool and the size
    monitor.  [tls], [pid] and [secret] stand for the TLS acceptor, the process
    id and the random key; [order] is the iteration order of a [HashMap]. *)

From S2P Require Import Prelude RustStr Messages Startup Scanner Config Pool Io Proxy.

Record ClientStartupInfo := mk_ClientStartupInfo {
  ci_user : str;
  ci_database : str;
  ci_password : str;
  ci_max_db_size : option Z;
  ci_extra_params : list (str * str)
}.

(** ** Phase 1: the startup message *)

Section startup.
Context `{UnicodeUpper, BuildProfile}.
Context (order : gmap str str → list (str * str)) (tls : bool).

(** The loop over the parts of [options]. *)
Fixpoint options_limit (parts : list str) : outcome (option Z) :=
  match parts with
  | [] => Ok None
  | part :: r =>
      match strip_prefix part (lit "--max_db_size=") with
      | Some val => parse_size_limit val
      | None =>
          match strip_prefix part (lit "-c max_db_size=") with
          | Some val => parse_size_limit val
          | None => options_limit r
          end
      end
  end.

Definition requested_limit (params : gmap str str) : outcome (option Z) :=
  direct ← match params !! lit "max_db_size" with Some v => parse_size_limit v | None => Ok None end;
  match direct with
  | Some n => Ok (Some n)
  | None => match params !! lit "options" with
            | Some opts => options_limit (split_whitespace opts)
            | None => Ok None
            end
  end.

Definition consumed_keys : list str := [lit "user"; lit "database"; lit "max_db_size"; lit "options"].

Definition startup_info (params : gmap str str) : outcome ClientStartupInfo :=
  let user := default [] (params !! lit "user") in
  let database := default user (params !! lit "database") in
  max_db_size ← requested_limit params;
  let extra_params := filter (λ kv, kv.1 ∉ consumed_keys) (order params) in
  Ok (mk_ClientStartupInfo user database [] max_db_size extra_params).

Inductive startup_exit :=
  | GotStartup (info : ClientStartupInfo) (buf : bytes) (w : sink)
  | CancelRequest.

(** The rest of an iteration once the buffer holds a whole message. *)
Definition finish_startup (buf : bytes) (w : sink) : progress (bytes * sink) startup_exit :=
  l32 <~ unwrap (get_i32 buf);
  let msg_len := as_usize l32 in
  if len buf <? msg_len then Waiting (buf, w) else
  buf <~ unwrap (slice_from buf 4);
  x <~ unwrap (split_to buf (msg_len - 4));
  let '(p, buf) := x in
  y <~ default Panic (parse_startup_params p);
  let '(version, params) := y in
  if negb (version =? 196608) then
    let text := lit "Unsupported protocol version: " ++ fmt_int version in
    _w <~ send w (build_error_response (lit "FATAL") (lit "08004") text);
    Done (Err (Bail text))
  else
    info <~ startup_info params;
    Done (Ok (GotStartup info buf w)).

Definition startup_read (st : bytes * sink) (r : rd) : progress (bytes * sink) startup_exit :=
  let '(buf, w) := st in
  match r with
  | RdErr => Done (Err IoError)
  | RdData [] => Done (Err (Bail (lit "Client disconnected before startup")))
  | RdData chunk =>
      let buf := buf ++ chunk in
      if len buf <? 4 then Waiting (buf, w) else
      l32 <~ unwrap (get_i32 buf);
      if i32_wrap (len buf) <? l32 then Waiting (buf, w) else
      if 8 <=? len buf then
        code <~ unwrap (get_i32 (drop 4 buf));
        if code =? SSL_REQUEST_CODE then
          if tls then
            w <~ send w (blit "S");
            Waiting (drop 8 buf, w)
          else
            w <~ send w (blit "N");
            Waiting ([], w)
        else if code =? CANCEL_REQUEST_CODE then Done (Ok CancelRequest)
        else finish_startup buf w
      else finish_startup buf w
  end.

(** ** Phase 2: the password *)

Definition password_read (st : bytes * sink) (r : rd) : progress (bytes * sink) (str * sink) :=
  let '(buf, w) := st in
  match r with
  | RdErr => Done (Err IoError)
  | RdData [] => Done (Err (Bail (lit "Client disconnected during auth")))
  | RdData chunk =>
      x <~ try_read_message (buf ++ chunk) false;
      match x with
      | (None, buf) => Waiting (buf, w)
      | (Some m, _) =>
          if decide (msg_type m = "p"%byte) then
            match position_nul (payload m) with
            | Some null_pos => p <~ utf8_or_err (take null_pos (payload m)); Done (Ok (p, w))
            | None => Done (Err (Bail (lit "Invalid password message")))
            end
          else Done (Err (Bail (lit "Expected password message, got '" ++ [byte_Z (msg_type m)] ++ lit "'")))
      end
  end.
End startup.

(** ** The whole session *)

(** The calls on the pool and the size monitor. *)
Inductive call :=
  | CallAcquire (k : PoolKey) (password : str) (extra_params : list (str * str))
  | CallRegisterLimit (database : str) (limit : Z)
  | CallRegisterSession (database : str) (limit : Z)
  | CallUnregisterSession
  | CallRelease (k : PoolKey).

Inductive session :=
  | InStartup (buf : bytes) (w : sink)
  | InPassword (info : ClientStartupInfo) (buf : bytes) (w : sink)
  | InAcquire (info : ClientStartupInfo) (w : sink)
  | InProxy (info : ClientStartupInfo) (m : mode) (px : proxy).

(** A read before the proxy phase, the result of [acquire] (a connection with
    its writing half, the error and its text, or a panic), an event of the
    proxy. *)
Inductive sevent :=
  | EvRead (r : rd)
  | EvAcquired (server : sink)
  | EvRefused (text : str)
  | EvPanicked
  | EvProxy (e : pevent).

Definition greeting_params : list (str * str) :=
  [(lit "server_version", lit "16.0"); (lit "server_encoding", lit "UTF8");
   (lit "client_encoding", lit "UTF8"); (lit "DateStyle", lit "ISO, MDY"); (lit "TimeZone", lit "UTC");
   (lit "integer_datetimes", lit "on"); (lit "standard_conforming_strings", lit "on")].

(** The messages sent one by one after authentication. *)
Definition greeting (pid secret : Z) : list bytes :=
  [build_auth_ok] ++ ((λ kv, build_parameter_status kv.1 kv.2) <$> greeting_params)
  ++ [build_backend_key_data pid secret; build_ready_for_query "I"%byte].

Fixpoint send_all (w : sink) (bs : list bytes) : outcome sink :=
  match bs with
  | [] => Ok w
  | b :: r => w ← send w b; send_all w r
  end.

Section session.
Context `{UnicodeUpper, BuildProfile}.
Context (order : gmap str str → list (str * str)) (tls : bool) (pid secret : Z) (cfg : Config).

Definition pool_key (info : ClientStartupInfo) : PoolKey :=
  mk_PoolKey (upstream_host cfg) (upstream_port cfg) (ci_database info) (ci_user info).

Definition set_password (info : ClientStartupInfo) (p : str) : ClientStartupInfo :=
  mk_ClientStartupInfo (ci_user info) (ci_database info) p (ci_max_db_size info) (ci_extra_params info).

(** After [acquire] returned a connection. *)
Definition on_acquired (info : ClientStartupInfo) (w server : sink) : progress session unit * list call :=
  let limit_call := match ci_max_db_size info with
                    | Some n => [CallRegisterLimit (ci_database info) n]
                    | None => []
                    end in
  match send_all w (greeting pid secret) with
  | Ok w =>
      let effective_limit := default 0 (session_limit (cfg_monitor cfg) (ci_max_db_size info)) in
      (Waiting (InProxy info (Fast false) (mk_proxy w server [] [] scanner_new)),
       limit_call ++ [CallRegisterSession (ci_database info) effective_limit])
  | Err e => (Done (Err e), limit_call)
  | Panic => (Done Panic, limit_call)
  end.

(** [handle_client] from one suspension point to the next, after
    [session_start]; [None]: the event does not belong to this place. *)
Definition session_step (s : session) (e : sevent) : option (progress session unit * list call) :=
  match s, e with
  | InStartup buf w, EvRead r =>
      match startup_read order tls (buf, w) r with
      | Waiting (buf, w) => Some (Waiting (InStartup buf w), [])
      | Done (Ok CancelRequest) => Some (Done (Ok tt), [])
      | Done (Ok (GotStartup info buf w)) =>
          match send w build_auth_cleartext_request with
          | Ok w => Some (Waiting (InPassword info buf w), [])
          | Err e => Some (Done (Err e), [])
          | Panic => Some (Done Panic, [])
          end
      | Done (Err e) => Some (Done (Err e), [])
      | Done Panic => Some (Done Panic, [])
      end
  | InPassword info buf w, EvRead r =>
      match password_read (buf, w) r with
      | Waiting (buf, w) => Some (Waiting (InPassword info buf w), [])
      | Done (Ok (p, w)) =>
          let info := set_password info p in
          Some (Waiting (InAcquire info w), [CallAcquire (pool_key info) p (ci_extra_params info)])
      | Done (Err e) => Some (Done (Err e), [])
      | Done Panic => Some (Done Panic, [])
      end
  | InAcquire info w, EvAcquired server => Some (on_acquired info w server)
  | InAcquire info w, EvRefused text =>
      match send w (build_error_response (lit "FATAL") (lit "28000") (lit "Backend auth failed: " ++ text)) with
      | Ok _ => Some (Done (Err (Bail (lit "Backend connection failed: " ++ text))), [])
      | Err e => Some (Done (Err e), [])
      | Panic => Some (Done Panic, [])
      end
  | InAcquire _ _, EvPanicked => Some (Done Panic, [])
  | InProxy info m px, EvProxy ev =>
      match proxy_step (cfg_monitor cfg) (ci_max_db_size info) (ci_database info) (m, px) ev with
      | Waiting (m, px) => Some (Waiting (InProxy info m px), [])
      | Done (Ok _) => Some (Done (Ok tt), [CallUnregisterSession; CallRelease (pool_key info)])
      | Done (Err e) => Some (Done (Err e), [])
      | Done Panic => Some (Done Panic, [])
      end
  | _, _ => None
  end.

(** Up to the first read: [nodelay] is whether [set_nodelay] succeeds. *)
Definition session_new (w : sink) : session := InStartup [] w.
Definition session_start (nodelay : bool) (w : sink) : progress session unit :=
  if nodelay then Waiting (session_new w) else Done (Err IoError).

(** A whole run: the final place or result and all calls in order. *)
Fixpoint session_run (s : session) (es : list sevent) : option (progress session unit * list call) :=
  match es with
  | [] => Some (Waiting s, [])
  | e :: r =>
      match session_step s e with
      | None => None
      | Some (Waiting s', cs) => match session_run s' r with
                                 | Some (p, cs') => Some (p, cs ++ cs')
                                 | None => None
                                 end
      | Some (Done x, cs) => Some (Done x, cs)
      end
  end.
End session.

(** ** Startup *)

Lemma drop_grows (a r b c : bytes) :
  b = a ++ r ++ drop (length a + length r) b → b ++ c = a ++ r ++ drop (length a + length r) (b ++ c).
Proof.
  intros E. assert (Hl : (length a + length r ≤ length b)%nat) by (rewrite E, !length_app; lia).
  rewrite drop_app_le by done. rewrite E at 1. by rewrite <-!(assoc_L (++)).
Qed.

Section startup_proofs.
Context `{UnicodeUpper, BuildProfile}.
Context (order : gmap str str → list (str * str)) (tls : bool).

(** A read that leaves the message incomplete. *)
Lemma startup_read_partial buf c w l r :
  c ≠ [] → is_i32 l → put_i32 l ++ r = buf ++ c ++ drop (length (buf ++ c)) (put_i32 l ++ r) →
  len (buf ++ c) < l →
  startup_read order tls (buf, w) (RdData c) = Waiting (buf ++ c, w).
Proof using Type.
  intros Hc Hl E Hlt. destruct c as [|c0 c]; [done|]. unfold startup_read.
  destruct (len (buf ++ c0 :: c) <? 4) eqn:E4; [done|]. apply Z.ltb_ge in E4.
  assert (Hg : get_i32 (buf ++ c0 :: c) = Some l).
  { destruct (get_i32_is_Some (buf ++ c0 :: c)) as [z Hz]; [unfold len in E4; lia|].
    pose proof (get_i32_app _ (drop (length (buf ++ c0 :: c)) (put_i32 l ++ r)) _ Hz) as Hz'.
    rewrite <-(assoc_L (++)), <-E, get_put_i32 in Hz' by done. congruence. }
  rewrite Hg. cbn [unwrap andthen].
  rewrite i32_wrap_small by (unfold is_i32 in *; pose proof (len_nonneg (buf ++ c0 :: c)); lia).
  by rewrite (proj2 (Z.ltb_lt _ _) Hlt).
Qed.

(** The read that completes it. *)
Lemma startup_read_whole buf c w p params info :
  c ≠ [] → len p + 4 < 2^31 → buf ++ c = put_i32 (len p + 4) ++ p → 4 ≤ len p →
  (∀ code, get_i32 p = Some code → code ≠ SSL_REQUEST_CODE ∧ code ≠ CANCEL_REQUEST_CODE) →
  parse_startup_params p = Some (Ok (196608, params)) → startup_info order params = Ok info →
  startup_read order tls (buf, w) (RdData c) = Done (Ok (GotStartup info [] w)).
Proof using Type.
  intros Hc Hb E Hp Hcode Hparse Hinfo. destruct c as [|c0 c]; [done|]. unfold startup_read. rewrite E.
  pose proof (len_nonneg p) as Hnn.
  assert (Hi : is_i32 (len p + 4)) by (unfold is_i32; lia).
  rewrite len_app, len_put_i32. rewrite (proj2 (Z.ltb_ge _ _)) by lia.
  rewrite get_put_i32 by done. cbn [unwrap andthen].
  rewrite i32_wrap_small by (unfold is_i32 in *; lia). rewrite (proj2 (Z.ltb_ge _ _)) by lia.
  rewrite (proj2 (Z.leb_le _ _)) by lia.
  change (drop 4 (put_i32 (len p + 4) ++ p)) with p.
  destruct (get_i32_is_Some p) as [code Hcd]; [unfold len in Hp; lia|]. rewrite Hcd. cbn [unwrap andthen].
  destruct (Hcode _ Hcd) as [H1 H2]. rewrite (proj2 (Z.eqb_neq _ _) H1), (proj2 (Z.eqb_neq _ _) H2).
  unfold finish_startup. rewrite get_put_i32 by done. cbn [unwrap andthen].
  rewrite as_usize_nonneg by lia. rewrite len_app, len_put_i32, (proj2 (Z.ltb_ge _ _)) by lia.
  assert (Es : slice_from (put_i32 (len p + 4) ++ p) 4 = Some p).
  { unfold slice_from. rewrite decide_True by (rewrite length_app, put_i32_length; lia). done. }
  rewrite Es. cbn [unwrap andthen]. replace (len p + 4 - 4) with (len p) by lia.
  pose proof (split_to_app p []) as Hsp. rewrite app_nil_r in Hsp. rewrite Hsp. cbn [unwrap andthen].
  rewrite Hparse. cbn [default from_option id andthen]. change (196608 =? 196608) with true. cbn [negb].
  by rewrite Hinfo.
Qed.

Lemma startup_cut p params info w :
  len p + 4 < 2^31 → 4 ≤ len p →
  (∀ code, get_i32 p = Some code → code ≠ SSL_REQUEST_CODE ∧ code ≠ CANCEL_REQUEST_CODE) →
  parse_startup_params p = Some (Ok (196608, params)) → startup_info order params = Ok info →
  ∀ chunks buf, Forall (λ c, c ≠ []) chunks → buf ++ concat chunks = put_i32 (len p + 4) ++ p →
  len buf < len p + 4 →
  run_reads (startup_read order tls) (buf, w) (RdData <$> chunks) = (Done (Ok (GotStartup info [] w)), []).
Proof using Type.
  intros Hb Hp Hcode Hparse Hinfo chunks. pose proof (len_nonneg p) as Hnn.
  induction chunks as [|c cs IH]; intros buf Hc E Hlt.
  - cbn [concat] in E. rewrite app_nil_r in E. apply (f_equal len) in E. rewrite len_app, len_put_i32 in E. lia.
  - apply Forall_cons in Hc as [Hc Hcs]. cbn [concat] in E. cbn [fmap list_fmap run_reads].
    destruct cs as [|c' cs].
    + cbn [concat] in E. rewrite app_nil_r in E.
      by rewrite (startup_read_whole _ _ _ p params info).
    + assert (Hlen : len (buf ++ c) < len p + 4).
      { apply (f_equal len) in E. apply Forall_cons in Hcs as [Hc' _]. cbn [concat] in E.
        rewrite !len_app, len_put_i32 in E. rewrite len_app.
        destruct c'; [done|]. rewrite len_cons in E. pose proof (len_nonneg c'). pose proof (len_nonneg (concat cs)). lia. }
      assert (El : is_i32 (len p + 4)) by (unfold is_i32; lia).
      assert (Ed : put_i32 (len p + 4) ++ p = buf ++ c ++ drop (length (buf ++ c)) (put_i32 (len p + 4) ++ p)).
      { rewrite <-E. rewrite !(assoc_L (++) buf c), drop_app_length. by rewrite <-(assoc_L (++)). }
      rewrite (startup_read_partial _ _ _ _ _ Hc El Ed Hlen).
      apply IH; [done| |done]. by rewrite <-(assoc_L (++)).
Qed.

(** C26. The startup phase accepts what clients send: a startup message for any
    user, database and extra parameters, cut into reads in any way, ends the
    phase with the information extracted from exactly those parameters, nothing
    left in the buffer and nothing sent. *)
Theorem startup_any_cut user database extra info chunks w :
  str_ok user → 0 ∉ user → str_ok database → 0 ∉ database → Forall param_ok extra →
  len (startup_payload user database extra) + 4 < 2^31 →
  startup_info order (insert_all ∅ ((lit "user", user) :: (lit "database", database) :: extra)) = Ok info →
  Forall (λ c, c ≠ []) chunks → concat chunks = build_startup_message user database extra →
  run_reads (startup_read order tls) ([], w) (RdData <$> chunks) = (Done (Ok (GotStartup info [] w)), []).
Proof using Type.
  intros Hu Hu0 Hd Hd0 He Hlen Hinfo Hc E.
  set (p := startup_payload user database extra) in *.
  assert (Hp : 4 ≤ len p).
  { subst p. unfold startup_payload. rewrite len_app, len_put_i32. pose proof (len_nonneg
      (blit "user" ++ [x00] ++ as_bytes user ++ [x00] ++ blit "database" ++ [x00] ++ as_bytes database ++ [x00] ++
       (extra ≫= cpair) ++ [x00])). lia. }
  apply (startup_cut p (insert_all ∅ ((lit "user", user) :: (lit "database", database) :: extra))); try done.
  - intros code. subst p. unfold startup_payload. rewrite get_put_i32 by (unfold is_i32; lia).
    intros [= <-]. done.
  - by apply startup_payload_parse.
  - cbn [app]. rewrite E. unfold build_startup_message. fold p.
    by rewrite i32_wrap_small by (unfold is_i32; lia).
Qed.

(** A startup length below four panics the session's task: the first
    length word of a new connection is used in [msg_len - 4] unchecked. *)
Theorem startup_short_length_panics l rest w :
  0 ≤ l < 4 → (length rest < 4)%nat →
  startup_read order tls ([], w) (RdData (put_i32 l ++ rest)) = Done Panic.
Proof using Type.
  intros Hl Hr. assert (Hi : is_i32 l) by (unfold is_i32; lia).
  unfold startup_read. change (put_i32 l ++ rest) with (Z_byte (l / 2^24) :: drop 1 (put_i32 l ++ rest)).
  cbn [app]. change (Z_byte (l / 2^24) :: drop 1 (put_i32 l ++ rest)) with (put_i32 l ++ rest).
  assert (El : len (put_i32 l ++ rest) = 4 + len rest) by (by rewrite len_app, len_put_i32).
  assert (Hlr : 0 ≤ len rest < 4) by (unfold len; lia).
  rewrite !El, get_put_i32 by done. cbn [unwrap andthen].
  rewrite i32_wrap_small by (unfold is_i32; lia).
  rewrite !(proj2 (Z.ltb_ge _ _)) by lia. rewrite (proj2 (Z.leb_gt _ _)) by lia.
  unfold finish_startup. rewrite get_put_i32 by done. cbn [unwrap andthen].
  rewrite as_usize_nonneg, El, (proj2 (Z.ltb_ge _ _)) by lia.
  unfold slice_from. rewrite decide_True by (rewrite length_app, put_i32_length; lia). cbn [unwrap andthen].
  unfold split_to. rewrite decide_False by lia. done.
Qed.

Section negative.
Context (l : Z) (rest : bytes) (w : sink).
Hypothesis Hi : is_i32 l.
Hypothesis Hneg : l < 0.
Hypothesis Hcode : ∀ code, get_i32 rest = Some code → code ≠ SSL_REQUEST_CODE ∧ code ≠ CANCEL_REQUEST_CODE.
Hypothesis Hr : (4 ≤ length rest)%nat.

Lemma negative_step b c :
  c ≠ [] → b ++ c = put_i32 l ++ (rest ++ drop (4 + length rest) (b ++ c)) → len (b ++ c) < 2^31 →
  startup_read order tls (b, w) (RdData c) = Waiting (b ++ c, w).
Proof using Hi Hneg Hcode Hr.
  intros Hne E Hb. destruct c as [|c0 c]; [done|]. unfold startup_read.
  revert E Hb. generalize (b ++ c0 :: c). intros buf E Hb.
  assert (Hl : 8 ≤ len buf).
  { rewrite E, !len_app, len_put_i32. pose proof (len_nonneg (drop (4 + length rest) buf)). unfold len in *. lia. }
  assert (Hg : get_i32 buf = Some l) by (rewrite E; by apply get_put_i32).
  assert (Hd : get_i32 (drop 4 buf) = get_i32 rest).
  { rewrite E. change (drop 4 (put_i32 l ++ ?x)) with x.
    destruct (get_i32_is_Some rest Hr) as [z Hz]. rewrite Hz. by apply get_i32_app. }
  rewrite Hg, Hd. rewrite (proj2 (Z.ltb_ge _ _)) by lia. cbn [unwrap andthen].
  rewrite i32_wrap_small by (unfold is_i32; lia). rewrite (proj2 (Z.ltb_ge _ _)) by lia.
  rewrite (proj2 (Z.leb_le _ _)) by lia.
  destruct (get_i32_is_Some rest Hr) as [code Hz]. rewrite Hz. cbn [unwrap andthen].
  destruct (Hcode _ Hz) as [H1 H2]. rewrite (proj2 (Z.eqb_neq _ _) H1), (proj2 (Z.eqb_neq _ _) H2).
  unfold finish_startup. rewrite Hg. cbn [unwrap andthen]. rewrite as_usize_neg by (unfold is_i32 in Hi; lia).
  by rewrite (proj2 (Z.ltb_lt _ _)) by (unfold is_i32 in Hi; lia).
Qed.

Lemma negative_run cs b :
  Forall (λ c, c ≠ []) cs → b = put_i32 l ++ rest ++ drop (4 + length rest) b →
  len (b ++ concat cs) < 2^31 →
  run_reads (startup_read order tls) (b, w) (RdData <$> cs) = (Waiting (b ++ concat cs, w), []).
Proof using Hi Hneg Hcode Hr.
  revert b. induction cs as [|c cs IH]; intros b Hcs E Hb; cbn [fmap list_fmap run_reads concat]; [by rewrite app_nil_r|].
  apply Forall_cons in Hcs as [Hne Hcs]. cbn [concat] in Hb.
  assert (E' : b ++ c = put_i32 l ++ rest ++ drop (4 + length rest) (b ++ c)) by by apply drop_grows.
  rewrite negative_step; [|done|done|].
  - rewrite IH; [by rewrite (assoc_L (++))|done|done|by rewrite <-(assoc_L (++))].
  - rewrite !len_app in *. pose proof (len_nonneg (concat cs)). lia.
Qed.
End negative.

(** A negative startup length is never rejected: as an [i32] it is below
    the number of bytes read, as a [usize] above it, so the loop keeps
    everything the unauthenticated client sends, without bound (up to the 2^31
    bytes at which the comparison itself changes sign). *)
Theorem startup_negative_length_buffers l rest chunks w :
  is_i32 l → l < 0 →
  (∀ code, get_i32 rest = Some code → code ≠ SSL_REQUEST_CODE ∧ code ≠ CANCEL_REQUEST_CODE) →
  (4 ≤ length rest)%nat →
  Forall (λ c, c ≠ []) chunks → len (put_i32 l ++ rest ++ concat chunks) < 2^31 →
  run_reads (startup_read order tls) ([], w) (RdData <$> ((put_i32 l ++ rest) :: chunks))
  = (Waiting (put_i32 l ++ rest ++ concat chunks, w), []).
Proof using Type.
  intros Hi Hneg Hcode Hr Hc Hlen.
  assert (E0 : put_i32 l ++ rest = put_i32 l ++ rest ++ drop (4 + length rest) (put_i32 l ++ rest)).
  { rewrite drop_ge by (rewrite length_app, put_i32_length; lia). by rewrite app_nil_r. }
  cbn [fmap list_fmap run_reads]. rewrite (negative_step l rest w Hi Hneg Hcode Hr); cbn [app]; [|by destruct rest|exact E0|].
  - rewrite (negative_run l rest w Hi Hneg Hcode Hr); [by rewrite <-(assoc_L (++))|done|exact E0|by rewrite <-(assoc_L (++))].
  - rewrite !len_app in *. pose proof (len_nonneg (concat chunks)). lia.
Qed.
End startup_proofs.

(** ** Calls on the pool and the monitor *)

Section calls.
Context `{UnicodeUpper, BuildProfile}.
Context (order : gmap str str → list (str * str)) (tls : bool) (pid secret : Z) (cfg : Config).

Definition acquire_call (info : ClientStartupInfo) : call :=
  CallAcquire (pool_key cfg info) (ci_password info) (ci_extra_params info).
Definition limit_calls (info : ClientStartupInfo) : list call :=
  match ci_max_db_size info with Some n => [CallRegisterLimit (ci_database info) n] | None => [] end.
Definition register_call (info : ClientStartupInfo) : call :=
  CallRegisterSession (ci_database info) (default 0 (session_limit (cfg_monitor cfg) (ci_max_db_size info))).

(** All calls up to the proxy phase, in their order. *)
Definition entry_calls (info : ClientStartupInfo) : list call :=
  acquire_call info :: limit_calls info ++ [register_call info].

(** The calls a session has made when it is at a place. *)
Definition calls_at (s : session) : list call :=
  match s with
  | InStartup _ _ | InPassword _ _ _ => []
  | InAcquire info _ => [acquire_call info]
  | InProxy info _ _ => entry_calls info
  end.

(** The calls of a session that has come to [p]. *)
Definition calls_ok (p : progress session unit) (cs : list call) : Prop :=
  match p with
  | Waiting s => cs = calls_at s
  | Done (Ok _) => cs = [] ∨ ∃ info, cs = entry_calls info ++ [CallUnregisterSession; CallRelease (pool_key cfg info)]
  | Done _ => ∃ info, cs `prefix_of` entry_calls info
  end.

Lemma calls_at_prefix s : ∃ info, calls_at s `prefix_of` entry_calls info.
Proof using Type.
  destruct s as [| |info w|info m px]; simpl.
  - exists (mk_ClientStartupInfo [] [] [] None []). apply prefix_nil.
  - exists info. apply prefix_nil.
  - exists info. apply (prefix_app_r [acquire_call info] [acquire_call info]). done.
  - by exists info.
Qed.

Lemma session_step_calls s e p cs :
  session_step order tls pid secret cfg s e = Some (p, cs) → calls_ok p (calls_at s ++ cs).
Proof using Type.
  pose proof (calls_at_prefix s) as Hs. unfold session_step.
  destruct s as [buf w|info buf w|info w|info m px], e as [r|server|text| |ev]; try done.
  - destruct (startup_read order tls (buf, w) r) as [[]|[[info' buf' w'|]| |]]; intros; simplify_eq/=; auto.
    repeat case_match; simplify_eq/=; auto.
  - destruct (password_read (buf, w) r) as [[]|[[p' w']| |]]; intros; simplify_eq/=; auto.
  - assert (Hl : [acquire_call info] ++ limit_calls info `prefix_of` entry_calls info)
      by (apply (prefix_cons _ (limit_calls info)), prefix_app_r; done).
    unfold on_acquired. destruct (send_all w (greeting pid secret)) as [w'| |]; intros; simplify_eq/=; eauto.
  - repeat case_match; intros; simplify_eq/=; auto.
  - intros. by simplify_eq/=.
  - destruct (proxy_step _ _ _ _ _) as [[]|[| |]]; intros; simplify_eq/=; rewrite ?app_nil_r; eauto.
Qed.

(** C20. The calls of a session.  However a session ends, its calls on the pool
    and the monitor come in one order, each at most once: acquire, the
    registration of the limit if it asked for one, the registration of the
    session.  A session that waits has made exactly the calls of its place; one
    that ends normally has made none (a cancel request) or all of them, followed
    by unregister and by the release of the connection under the key it was
    acquired for; one that ends with an error or a panic has made a prefix of
    them, and neither unregisters nor releases: an I/O error after [acquire]
    leaves the connection counted and the session registered. *)
Theorem session_calls w es p cs :
  session_run order tls pid secret cfg (session_new w) es = Some (p, cs) →
  match p with
  | Waiting s => cs = calls_at s
  | Done (Ok _) => cs = [] ∨ ∃ info, cs = entry_calls info ++ [CallUnregisterSession; CallRelease (pool_key cfg info)]
  | Done _ => ∃ info, cs `prefix_of` entry_calls info
  end.
Proof using Type.
  change (session_run order tls pid secret cfg (session_new w) es = Some (p, cs) → calls_ok p cs).
  enough (Hgen : ∀ s, session_run order tls pid secret cfg s es = Some (p, cs) → calls_ok p (calls_at s ++ cs))
    by apply (Hgen (session_new w)).
  revert p cs. induction es as [|e es IH]; intros p cs s; simpl.
  - intros [= <- <-]. simpl. by rewrite app_nil_r.
  - destruct (session_step order tls pid secret cfg s e) as [[[s'|x] cs1]|] eqn:E; [| |done];
      apply session_step_calls in E.
    + destruct (session_run order tls pid secret cfg s' es) as [[p' cs']|] eqn:Er; [|done].
      intros [= <- <-]. apply IH in Er. simpl in E. rewrite (assoc_L (++)), E. exact Er.
    + by intros [= <- <-].
Qed.
End calls.

(** ** Example sessions *)

#[local] Existing Instance upper_id.
#[local] Existing Instance release_profile.

Definition demo_sink : sink := mk_sink [] None.
Definition demo_info : ClientStartupInfo := mk_ClientStartupInfo (lit "alice") (lit "app") [] (Some 1048576) [].

Lemma startup_any_cut_witness :
  let msg := build_startup_message (lit "alice") (lit "app") [(lit "max_db_size", lit "1MB")] in
  run_reads (startup_read map_to_list false) ([], demo_sink) (RdData <$> [take 2 msg; drop 2 msg])
  = (Done (Ok (GotStartup demo_info [] demo_sink)), []).
Proof.
  apply (startup_any_cut map_to_list false (lit "alice") (lit "app") [(lit "max_db_size", lit "1MB")] demo_info);
    str_literal.
  - by repeat split; cbn [fst snd]; str_literal.
  - vm_compute. done.
  - vm_compute. reflexivity.
  - by vm_compute.
  - by vm_compute.
  - vm_compute. reflexivity.
Defined.

Lemma startup_short_length_panics_witness :
  startup_read map_to_list false ([], demo_sink) (RdData (put_i32 3 ++ [])) = Done Panic.
Proof. apply (startup_short_length_panics map_to_list false 3 [] demo_sink); simpl; lia. Defined.

Lemma startup_negative_length_buffers_witness :
  run_reads (startup_read map_to_list false) ([], demo_sink)
    (RdData <$> [put_i32 (-1) ++ put_i32 196608; blit "aaaa"; blit "bbbb"])
  = (Waiting (put_i32 (-1) ++ put_i32 196608 ++ blit "aaaabbbb", demo_sink), []).
Proof.
  apply (startup_negative_length_buffers map_to_list false (-1) (put_i32 196608) [blit "aaaa"; blit "bbbb"] demo_sink).
  - unfold is_i32. lia.
  - lia.
  - intros code E. change (get_i32 (put_i32 196608)) with (Some 196608) in E. by simplify_eq.
  - simpl. lia.
  - by repeat constructor.
  - by vm_compute.
Defined.

(** A client logs in; its socket fails while it is proxied. *)
Definition demo_session : list sevent :=
  [EvRead (RdData (build_startup_message (lit "alice") (lit "app") []));
   EvRead (RdData (frame "p"%byte (blit "secret" ++ [x00])));
   EvAcquired demo_sink;
   EvProxy (mk_pevent FromClient RdErr false None)].

Lemma session_calls_witness :
  let cs := [CallAcquire (mk_PoolKey (lit "localhost") 5432 (lit "app") (lit "alice")) (lit "secret") [];
             CallRegisterSession (lit "app") 0] in
  session_run map_to_list false 1 2 Config_default (session_new demo_sink) demo_session = Some (Done (Err IoError), cs)
  ∧ ∃ info, cs `prefix_of` entry_calls Config_default info.
Proof.
  assert (E : session_run map_to_list false 1 2 Config_default (session_new demo_sink) demo_session
    = Some (Done (Err IoError),
           [CallAcquire (mk_PoolKey (lit "localhost") 5432 (lit "app") (lit "alice")) (lit "secret") [];
            CallRegisterSession (lit "app") 0])) by (vm_compute; reflexivity).
  split; [exact E|].
  exact (session_calls map_to_list false 1 2 Config_default demo_sink demo_session _ _ E).
Defined.
