(* ===== verification/System.v ===== *)
(** * The whole server: sessions, pool and monitor together (src/main.rs)

    One state for the accept loop of [main], all its session tasks
    ([handle_client] in Session.v), the pool (PoolSys.v) and the size monitor
    (Monitor.v, MonitorRun.v).  A step runs one task to its next suspension
    point; a session's calls change the pool and the monitor, and what it reads
    from them (its over-limit flag, the size of its database, the outcome of
    [acquire]) is what they hold at that moment. *)

From S2P Require Import Prelude RustStr Messages Startup Scanner Config Monitor MonitorRun Notify Pool PoolSys PoolThms PoolLife Io Proxy Session.

(** A spawned task of the accept loop. *)
Inductive client :=
  | Spawned (w : sink)               (* not polled yet *)
  | Running (s : session)            (* inside handle_client *)
  | Returning                        (* handle_client awaits release *)
  | Gone (r : outcome unit)          (* handle_client returned *)
  | Unwound.                         (* the task panicked *)

Section state.
Context {Nt : Notify}.

Record sys := mk_sys {
  listening : bool;                  (* main is in its accept loop *)
  clients : gmap nat client;
  regs : gmap nat (Z * nat);         (* session_id and over_limit_flag of a session *)
  s_pool : psys;
  s_mon : DbSizeMonitor * phase;
  client_connections_total : Z;
  client_connections_active : Z
}.

Definition sys_new : sys := mk_sys true ∅ ∅ psys_new (monitor_new, Monitor.Waiting) 0 0.

Definition with_client (σ : sys) (tid : nat) (c : client) : sys :=
  mk_sys (listening σ) (<[tid := c]> (clients σ)) (regs σ) (s_pool σ) (s_mon σ)
    (client_connections_total σ) (client_connections_active σ).
Definition with_pool (σ : sys) (p : psys) : sys :=
  mk_sys (listening σ) (clients σ) (regs σ) p (s_mon σ)
    (client_connections_total σ) (client_connections_active σ).
Definition with_mon (σ : sys) (m : DbSizeMonitor * phase) : sys :=
  mk_sys (listening σ) (clients σ) (regs σ) (s_pool σ) m
    (client_connections_total σ) (client_connections_active σ).
Definition with_reg (σ : sys) (tid : nat) (r : Z * nat) : sys :=
  mk_sys (listening σ) (clients σ) (<[tid := r]> (regs σ)) (s_pool σ) (s_mon σ)
    (client_connections_total σ) (client_connections_active σ).
Definition with_gauges (σ : sys) (t a : Z) : sys :=
  mk_sys (listening σ) (clients σ) (regs σ) (s_pool σ) (s_mon σ) t a.

End state.

(** What the environment gives a session: a read before the proxy phase, the
    outcome of [acquire] (it panics with [connect_backend]), a read of one of the two sockets while proxying. *)
Inductive input :=
  | InRead (r : rd)
  | InAcquired (server : sink)
  | InRefused (text : str)
  | InPanicked
  | InProxied (sd : side) (r : rd).

Inductive saction :=
  | SAccept (tid : nat) (w : sink)
  | SAcceptFails
  | SBegin (tid : nat) (nodelay : bool)
  | SClient (tid : nat) (i : input)
  | SReturn (tid : nat)
  | SPool (a : action)
  | SMonitor (a : maction).

(** The steps of the pool that are not calls: those of tasks inside [acquire]
    and [release], and the clock. *)
Definition pool_internal (a : action) : bool :=
  match a with AStart _ _ _ | ARelease _ | ADrop _ => false | _ => true end.

Section system.
Context {Nt : Notify} `{UnicodeUpper, BuildProfile}.
Context (order : gmap str str → list (str * str)) (tls : bool) (pid : Z) (secret : nat → Z).
Context (cfg : Config) (accepts : PoolKey → str → bool).

Abbreviation pool_exec := (exec (cfg_pool cfg) accepts).

(** The event a session sees. *)
Definition input_event (σ : sys) (tid : nat) (s : session) (i : input) : option sevent :=
  match i with
  | InRead r => Some (EvRead r)
  | InAcquired w => match tasks (s_pool σ) !! tid with Some (Holding _ _) => Some (EvAcquired w) | _ => None end
  | InRefused text => match tasks (s_pool σ) !! tid with Some Finished => Some (EvRefused text) | _ => None end
  | InPanicked => match tasks (s_pool σ) !! tid with Some Panicked => Some EvPanicked | _ => None end
  | InProxied sd r =>
      match s, regs σ !! tid with
      | InProxy info _ _, Some (_, flag) =>
          Some (EvProxy (mk_pevent sd r (default false (flags (s_mon σ).1 !! flag))
                                   (get_db_size (s_mon σ).1 (ci_database info))))
      | _, _ => None
      end
  end.

(** One call of a session on the pool or the monitor. *)
Definition perform (tid : nat) (σ : sys) (cl : call) : option sys :=
  let '(m, p) := s_mon σ in
  match cl with
  | CallAcquire k password _ => with_pool σ <$> pool_exec (AStart tid k password) (s_pool σ)
  | CallRegisterLimit db n => Some (with_mon σ (register_limit m db n, p))
  | CallRegisterSession db n =>
      let '(m, r) := register_session m db n in Some (with_reg (with_mon σ (m, p)) tid r)
  | CallUnregisterSession => '(id, _) ← regs σ !! tid; Some (with_mon σ (unregister_session m id, p))
  | CallRelease _ => with_pool σ <$> pool_exec (ARelease tid) (s_pool σ)
  end.

Fixpoint perform_all (tid : nat) (σ : sys) (cs : list call) : option sys :=
  match cs with
  | [] => Some σ
  | cl :: r => σ ← perform tid σ cl; perform_all tid σ r
  end.

(** The end of the spawned task: the gauge is lowered when [handle_client]
    returns, not when it panics. *)
Definition end_client (σ : sys) (tid : nat) (r : outcome unit) : sys :=
  match r with
  | Panic => with_client σ tid Unwound
  | _ => with_gauges (with_client σ tid (Gone r)) (client_connections_total σ)
           (i64_wrap (client_connections_active σ - 1))
  end.

(** [handle_client] is over: its variables are dropped, the backend connection
    among them if it was not passed to [release]. *)
Definition leave (σ : sys) (tid : nat) (r : outcome unit) : sys :=
  match tasks (s_pool σ) !! tid with
  | Some (Resetting _ _) => with_client σ tid Returning
  | Some (Holding _ _) => end_client (default σ (with_pool σ <$> pool_exec (ADrop tid) (s_pool σ))) tid r
  | _ => end_client σ tid r
  end.

Definition sexec (a : saction) (σ : sys) : option sys :=
  if negb (listening σ) then None else
  match a with
  | SAccept tid w =>
      match clients σ !! tid with
      | None => Some (with_client σ tid (Spawned w))
      | Some _ => None
      end
  | SAcceptFails => Some (mk_sys false (clients σ) (regs σ) (s_pool σ) (s_mon σ)
                            (client_connections_total σ) (client_connections_active σ))
  | SBegin tid nodelay =>
      match clients σ !! tid with
      | Some (Spawned w) =>
          let σ := with_gauges σ (fetch_add1 (client_connections_total σ)) (i64_wrap (client_connections_active σ + 1)) in
          Some match session_start nodelay w with
               | Io.Waiting s => with_client σ tid (Running s)
               | Done r => leave σ tid r
               end
      | _ => None
      end
  | SClient tid i =>
      match clients σ !! tid with
      | Some (Running s) =>
          e ← input_event σ tid s i;
          '(p, cs) ← session_step order tls pid (secret tid) cfg s e;
          σ ← perform_all tid σ cs;
          Some match p with
               | Io.Waiting s => with_client σ tid (Running s)
               | Done r => leave σ tid r
               end
      | _ => None
      end
  | SReturn tid =>
      match clients σ !! tid, tasks (s_pool σ) !! tid with
      | Some Returning, Some Finished => Some (end_client σ tid (Ok tt))
      | _, _ => None
      end
  | SPool a => if pool_internal a then with_pool σ <$> pool_exec a (s_pool σ) else None
  | SMonitor a => with_mon σ <$> mexec cfg a (s_mon σ)
  end.

Definition sstep (σ σ' : sys) : Prop := ∃ a, sexec a σ = Some σ'.
Definition sreach (σ : sys) : Prop := rtc sstep sys_new σ.

Fixpoint srun (l : list saction) (σ : sys) : option sys :=
  match l with
  | [] => Some σ
  | a :: r => sexec a σ ≫= srun r
  end.
End system.

(** ** Limits are [u64] *)

Section typed_limits.
Context `{UnicodeUpper, BuildProfile}.
Context (order : gmap str str → list (str * str)) (tls : bool).

Lemma options_limit_typed parts o : options_limit parts = Ok o → limit_typed o.
Proof using Type.
  induction parts as [|part r IH]; simpl; [by intros [= <-] n|].
  repeat case_match; eauto using parse_size_limit_typed.
Qed.

Lemma requested_limit_typed params o : requested_limit params = Ok o → limit_typed o.
Proof using Type.
  unfold requested_limit. intros E. apply bind_Ok in E as ([n|] & E1 & E2).
  - simplify_eq. case_match; [by eapply parse_size_limit_typed|done].
  - case_match; [by eapply options_limit_typed|by simplify_eq].
Qed.

Lemma startup_info_typed params info : startup_info order params = Ok info → limit_typed (ci_max_db_size info).
Proof using Type.
  unfold startup_info. cbv zeta. intros E. apply bind_Ok in E as (o & Ho & [= <-]).
  by eapply requested_limit_typed.
Qed.

Lemma finish_startup_typed buf w info b w' :
  finish_startup order buf w = Done (Ok (GotStartup info b w')) → limit_typed (ci_max_db_size info).
Proof using Type.
  unfold finish_startup. intros (l32 & _ & E)%andthen_Ok. case_match; [done|].
  apply andthen_Ok in E as (buf1 & _ & E). apply andthen_Ok in E as ([p buf2] & _ & E).
  apply andthen_Ok in E as ([v params] & _ & E). case_match.
  - by apply andthen_Ok in E as (? & _ & E).
  - apply andthen_Ok in E as (info' & Hi & E). simplify_eq. by eapply startup_info_typed.
Qed.

Lemma startup_read_typed st r info buf w :
  startup_read order tls st r = Done (Ok (GotStartup info buf w)) → limit_typed (ci_max_db_size info).
Proof using Type.
  unfold startup_read. destruct st as [b w0], r as [|[|c0 c]]; try done. case_match; [done|].
  intros (l32 & _ & E)%andthen_Ok. case_match; [done|].
  case_match; [|by eapply finish_startup_typed].
  apply andthen_Ok in E as (code & _ & E).
  case_match; [by destruct tls; apply andthen_Ok in E as (? & _ & E)|].
  case_match; [done|]. by eapply finish_startup_typed.
Qed.
End typed_limits.

(** ** What each session has of the pool and the monitor *)

Section invariant.
Context {Nt : Notify} `{UnicodeUpper, BuildProfile}.
Context (order : gmap str str → list (str * str)) (tls : bool) (pid : Z) (secret : nat → Z).
Context (cfg : Config) (accepts : PoolKey → str → bool).

Abbreviation sexec := (sexec order tls pid secret cfg accepts).
Abbreviation sstep := (sstep order tls pid secret cfg accepts).
Abbreviation sreach := (sreach order tls pid secret cfg accepts).

Definition session_info (s : session) : option ClientStartupInfo :=
  match s with
  | InStartup _ _ => None
  | InPassword info _ _ | InAcquire info _ | InProxy info _ _ => Some info
  end.

Lemma session_step_typed sec s e s' cs :
  session_step order tls pid sec cfg s e = Some (Io.Waiting s', cs) →
  (∀ info, session_info s = Some info → limit_typed (ci_max_db_size info)) →
  ∀ info, session_info s' = Some info → limit_typed (ci_max_db_size info).
Proof using Type.
  unfold session_step. intros E Hi info. destruct s as [buf w|inf buf w|inf w|inf m px], e; try done.
  - destruct (startup_read order tls (buf, w) r) as [[]|[[info' buf' w'|]| |]] eqn:Es; simplify_eq; try done.
    apply startup_read_typed in Es. destruct (send w' _); simplify_eq/=. by intros [= <-].
  - destruct (password_read (buf, w) r) as [[]|[[p w']| |]]; simplify_eq/=; intros [= <-]; by apply (Hi inf).
  - unfold on_acquired in E. destruct (send_all w _); simplify_eq/=. intros [= <-]. by apply Hi.
  - by repeat case_match.
  - destruct (proxy_step _ _ _ _ _) as [[]|[| |]]; simplify_eq/=. intros [= <-]. by apply Hi.
Qed.

(** The place of a session's task in the pool. *)
Definition acquiring (k : PoolKey) (t : task) : bool :=
  match t with
  | Popping k' _ | Checking k' _ | WaitingFor k' _ | Woken k' _ | Connecting k' | Holding k' _ => bool_decide (k' = k)
  | Resetting _ _ => false
  | Finished | Panicked => true
  end.
Definition over (t : task) : bool := match t with Finished | Panicked => true | _ => false end.
Definition returned (t : task) : bool :=
  match t with Resetting _ _ | Finished => true | _ => false end.

Definition pool_link (c : client) (t : option task) : Prop :=
  match c with
  | Spawned _ | Running (InStartup _ _) | Running (InPassword _ _ _) => t = None
  | Running (InAcquire info _) => ∃ u, t = Some u ∧ acquiring (pool_key cfg info) u = true
  | Running (InProxy info _ _) => ∃ s, t = Some (Holding (pool_key cfg info) s)
  | Returning => ∃ u, t = Some u ∧ returned u = true
  | Gone _ | Unwound => ∀ u, t = Some u → over u = true
  end.

(** The session's entry in the monitor's registry: present while the session
    is proxied and after it ended with an error or a panic, removed by a normal
    end. *)
Definition effective_limit (info : ClientStartupInfo) : Z :=
  default 0 (session_limit (cfg_monitor cfg) (ci_max_db_size info)).
Definition mon_link (c : client) (r : option (Z * nat)) (sess : gmap Z SessionLimit) : Prop :=
  match c with
  | Spawned _ | Running (InStartup _ _) | Running (InPassword _ _ _) | Running (InAcquire _ _) => r = None
  | Running (InProxy info _ _) =>
      ∃ id a, r = Some (id, a) ∧ sess !! id = Some (mk_SessionLimit (ci_database info) (effective_limit info) a)
  | Returning | Gone (Ok _) => ∀ id a, r = Some (id, a) → sess !! id = None
  | Gone _ | Unwound => ∀ id a, r = Some (id, a) → ∃ x, sess !! id = Some x ∧ sl_over_limit x = a
  end.

(** A session without a limit has never left the fast loop. *)
Definition plain_link (c : client) : Prop :=
  match c with
  | Running (InProxy info m px) =>
      effective_limit info = 0 → m = Fast false ∧ client_buf px = [] ∧ server_buf px = []
  | _ => True
  end.
Definition type_link (c : client) : Prop :=
  match c with
  | Running s => ∀ info, session_info s = Some info → limit_typed (ci_max_db_size info)
  | _ => True
  end.

Definition link (σ : sys) (tid : nat) (c : client) : Prop :=
  pool_link c (tasks (s_pool σ) !! tid) ∧ mon_link c (regs σ !! tid) (sessions (s_mon σ).1)
  ∧ plain_link c ∧ type_link c.

(** A task counted by the gauge, and by the counter. *)
Definition in_gauge (c : client) : bool :=
  match c with Running _ | Returning | Unwound => true | Spawned _ | Gone _ => false end.
Definition has_begun (c : client) : bool := match c with Spawned _ => false | _ => true end.

(** Ids and flags of all sessions there have been. *)
Record regs_ok (r : gmap nat (Z * nat)) (m : DbSizeMonitor) : Prop := {
  ro_id : ∀ tid id a, r !! tid = Some (id, a) → id < session_id_counter m;
  ro_inj : ∀ i j id a b, r !! i = Some (id, a) → r !! j = Some (id, b) → i = j;
  ro_owner : ∀ id x, sessions m !! id = Some x → ∃ tid, r !! tid = Some (id, sl_over_limit x);
  ro_count : session_id_counter m = 1 + Z.of_nat (size r)
}.
Definition gauges_ok (cs : gmap nat client) (total active : Z) : Prop :=
  total = u64_wrap (cnt has_begun cs) ∧ active = i64_wrap (cnt in_gauge cs).

Record sinv (σ : sys) : Prop := {
  si_pool : preach (cfg_pool cfg) accepts (s_pool σ);
  si_mon : mreach cfg (s_mon σ).1 (s_mon σ).2;
  si_link : ∀ tid c, clients σ !! tid = Some c → link σ tid c;
  si_none : ∀ tid, clients σ !! tid = None → tasks (s_pool σ) !! tid = None ∧ regs σ !! tid = None;
  si_regs : regs_ok (regs σ) (s_mon σ).1;
  si_gauges : gauges_ok (clients σ) (client_connections_total σ) (client_connections_active σ)
}.

Definition is_ok {A} (r : outcome A) : bool := match r with Ok _ => true | _ => false end.

(** How the pool's own steps move a task. *)
Definition moves (o o' : option task) : Prop :=
  match o with
  | None => o' = None
  | Some t => ∃ t', o' = Some t'
      ∧ (∀ k, acquiring k t = true → acquiring k t' = true) ∧ (returned t = true → returned t' = true)
      ∧ (∀ k s, t = Holding k s → t' = t) ∧ (over t = true → over t' = true)
  end.
Lemma moves_refl o : moves o o.
Proof using Type. destruct o as [t|]; simpl; [|done]. exists t. by split_and!. Qed.

Lemma pool_link_moves c o o' : pool_link c o → moves o o' → pool_link c o'.
Proof using Type.
  unfold moves. destruct c as [w|[buf w|info buf w|info w|info m px]| |r|]; simpl; try (by intros ->).
  - intros (u & -> & Hu) (t' & -> & Ha & _). eauto.
  - intros (s & ->) (t' & -> & _ & _ & Hh & _). exists s. by rewrite (Hh _ s eq_refl).
  - intros (u & -> & Hu) (t' & -> & _ & Hr & _). eauto.
  - destruct o as [t|]; [|by intros _ ->]. intros Ho (t' & -> & _ & _ & _ & Hf) u [= <-]. by apply Hf, Ho.
  - destruct o as [t|]; [|by intros _ ->]. intros Ho (t' & -> & _ & _ & _ & Hf) u [= <-]. by apply Hf, Ho.
Qed.

Lemma moves_insert (ts : gmap nat task) i j t u :
  ts !! i = Some u → moves (Some u) (Some t) → moves (ts !! j) (<[i := t]> ts !! j).
Proof using Type.
  intros Hu Hm. destruct (decide (i = j)) as [->|]; [rewrite lookup_insert_eq; by rewrite Hu|].
  rewrite lookup_insert_ne by done. apply moves_refl.
Qed.
Lemma moves_trans o o' o'' : moves o o' → moves o' o'' → moves o o''.
Proof using Type.
  destruct o as [t|]; simpl; [|by intros ->].
  intros (t' & -> & H1 & H2 & H3 & H4) (t'' & -> & H1' & H2' & H3' & H4').
  exists t''. split_and!; auto.
  - intros k s E. specialize (H3 k s E). subst t'. by apply (H3' k s).
Qed.
Lemma moves_wake w ts j : moves (ts !! j) (wake w ts !! j).
Proof using Type.
  destruct (wake_lookup w ts j) as [->|(k & d & E & ->)]; [apply moves_refl|]. rewrite E. simpl.
  exists (Woken k d). by split_and!.
Qed.

Lemma exec_moves c acc a σ σ' j :
  exec c acc a σ = Some σ' → pool_internal a = true → moves (tasks σ !! j) (tasks σ' !! j).
Proof using Type.
  destruct σ as [pw m ts t n l o]. destruct a; simpl; intros E Hi; try done;
    repeat case_match; simplify_eq/=; try apply moves_refl.
  all: try (eapply moves_trans; [|apply moves_wake]).
  all: eapply moves_insert; [eassumption|]; unfold after_await; repeat case_match; eexists; by split_and!.
Qed.

(** ** The steps of a session, by what they ask of the others *)

Inductive sess_case : session → sevent → progress session unit → list call → Prop :=
  | sc_quiet s e p :
      (∀ info w, s ≠ InAcquire info w) → (∀ info m px, s ≠ InProxy info m px) →
      match p with
      | Io.Waiting (InStartup _ _) | Io.Waiting (InPassword _ _ _) | Done _ => True
      | _ => False
      end → sess_case s e p []
  | sc_acquire info buf w r info' w' pw x :
      sess_case (InPassword info buf w) (EvRead r) (Io.Waiting (InAcquire info' w')) [CallAcquire (pool_key cfg info') pw x]
  | sc_refused info w text r :
      is_ok r = false → sess_case (InAcquire info w) (EvRefused text) (Done r) []
  | sc_panicked info w : sess_case (InAcquire info w) EvPanicked (Done Panic) []
  | sc_acquired info w server px :
      client_buf px = [] → server_buf px = [] →
      sess_case (InAcquire info w) (EvAcquired server) (Io.Waiting (InProxy info (Fast false) px))
        (limit_calls info ++ [CallRegisterSession (ci_database info) (effective_limit info)])
  | sc_greet_failed info w server r :
      is_ok r = false → sess_case (InAcquire info w) (EvAcquired server) (Done r) (limit_calls info)
  | sc_proxied info m px ev m' px' :
      proxy_step (cfg_monitor cfg) (ci_max_db_size info) (ci_database info) (m, px) ev = Io.Waiting (m', px') →
      sess_case (InProxy info m px) (EvProxy ev) (Io.Waiting (InProxy info m' px')) []
  | sc_closed info m px ev :
      sess_case (InProxy info m px) (EvProxy ev) (Done (Ok tt)) [CallUnregisterSession; CallRelease (pool_key cfg info)]
  | sc_failed info m px ev r :
      is_ok r = false → sess_case (InProxy info m px) (EvProxy ev) (Done r) [].

Lemma session_step_case sec s e p cs :
  session_step order tls pid sec cfg s e = Some (p, cs) → sess_case s e p cs.
Proof using Type.
  unfold session_step. destruct s as [buf w|info buf w|info w|info m px], e as [r|server|text| |ev]; try done.
  - destruct (startup_read order tls (buf, w) r) as [[]|[[info' buf' w'|]| |]]; intros; simplify_eq;
      try (by apply sc_quiet). case_match; simplify_eq; by apply sc_quiet.
  - destruct (password_read (buf, w) r) as [[]|[[p' w']| |]]; intros; simplify_eq;
      try (by apply sc_quiet). apply sc_acquire.
  - unfold on_acquired. destruct (send_all w (greeting pid sec)) as [w'| |]; intros; simplify_eq;
      [by apply sc_acquired|by apply sc_greet_failed..].
  - repeat case_match; intros; simplify_eq; by apply sc_refused.
  - intros; simplify_eq. apply sc_panicked.
  - destruct (proxy_step _ _ _ _ _) as [[m' px']|[[]| |]] eqn:E; intros; simplify_eq;
      [by apply sc_proxied|apply sc_closed|by apply sc_failed..].
Qed.

(** ** Registrations *)

Lemma regs_ok_same r m m' :
  sessions m' = sessions m → session_id_counter m' = session_id_counter m → regs_ok r m → regs_ok r m'.
Proof using Type. intros E1 E2 [H1 H2 H3 H4]. split; rewrite ?E1, ?E2; auto. Qed.

Lemma regs_ok_unregister r m id : regs_ok r m → regs_ok r (unregister_session m id).
Proof using Type. intros [H1 H2 H3 H4]. split; simpl; auto. intros i x [_ Hx]%lookup_delete_Some. auto. Qed.

Lemma regs_ok_register r m tid db n :
  regs_ok r m → session_id_counter m + 1 < 2^64 → r !! tid = None →
  regs_ok (<[tid := (register_session m db n).2]> r) (register_session m db n).1.
Proof using Type.
  intros [H1 H2 H3 H4] Hb Ht. unfold register_session. cbv zeta. simpl.
  assert (Hc : u64_wrap (session_id_counter m + 1) = session_id_counter m + 1).
  { apply u64_wrap_small. lia. }
  split; simpl; rewrite ?Hc.
  - intros i id a [[_ [= <- _]]|[_ Hi]]%lookup_insert_Some; [lia|]. apply H1 in Hi. lia.
  - intros i j id a b [[<- [= <- _]]|[Hni Hi]]%lookup_insert_Some [[<- E]|[Hnj Hj]]%lookup_insert_Some; try done.
    + apply H1 in Hj. lia.
    + injection E as <- _. apply H1 in Hi. lia.
    + by eapply H2.
  - intros id x [[<- <-]|[_ Hx]]%lookup_insert_Some; simpl; [exists tid; by rewrite lookup_insert_eq|].
    apply H3 in Hx as [i Hi]. exists i. rewrite lookup_insert_ne; [done|congruence].
  - rewrite map_size_insert_None by done. lia.
Qed.

(** Another session's entry is not affected. *)
Lemma register_other r m i id a db n :
  regs_ok r m → r !! i = Some (id, a) →
  sessions (register_session m db n).1 !! id = sessions m !! id.
Proof using Type.
  intros Hr Hi. unfold register_session. cbv zeta. simpl. rewrite lookup_insert_ne; [done|].
  apply (ro_id _ _ Hr) in Hi. lia.
Qed.
Lemma unregister_other r m i j id id' a b :
  regs_ok r m → r !! i = Some (id, a) → r !! j = Some (id', b) → i ≠ j →
  sessions (unregister_session m id) !! id' = sessions m !! id'.
Proof using Type.
  intros Hr Hi Hj Hne. simpl. rewrite lookup_delete_ne; [done|]. intros <-. apply Hne. by eapply (ro_inj _ _ Hr).
Qed.

(** ** Gauges *)

Lemma i64_wrap_add z d : i64_wrap (i64_wrap z + d) = i64_wrap (z + d).
Proof using Type.
  unfold i64_wrap. f_equal. replace ((z + 2^63) mod 2^64 - 2^63 + d + 2^63) with ((z + 2^63) mod 2^64 + d) by lia.
  rewrite Zplus_mod_idemp_l. f_equal. lia.
Qed.

Lemma gauges_ok_insert cs t a tid c :
  gauges_ok cs t a →
  gauges_ok (<[tid := c]> cs)
    (u64_wrap (t - from_option (λ c, b2z (has_begun c)) 0 (cs !! tid) + b2z (has_begun c)))
    (i64_wrap (a - from_option (λ c, b2z (in_gauge c)) 0 (cs !! tid) + b2z (in_gauge c))).
Proof using Type.
  intros [-> ->]. assert (Hr : ∀ x y z : Z, x - y + z = x + (z - y)) by lia.
  split; rewrite cnt_insert, !Hr.
  - apply u64_wrap_add.
  - apply i64_wrap_add.
Qed.

Lemma gauges_ok_range cs t a : gauges_ok cs t a → u64_wrap t = t ∧ i64_wrap a = a.
Proof using Type.
  intros [-> ->]. split.
  - pose proof (u64_wrap_add (cnt has_begun cs) 0) as E. by rewrite !Z.add_0_r in E.
  - pose proof (i64_wrap_add (cnt in_gauge cs) 0) as E. by rewrite !Z.add_0_r in E.
Qed.

Lemma gauges_ok_stay cs t a tid c c' :
  gauges_ok cs t a → cs !! tid = Some c → has_begun c' = has_begun c → in_gauge c' = in_gauge c →
  gauges_ok (<[tid := c']> cs) t a.
Proof using Type.
  intros Hg Hc Hb Hi. pose proof (gauges_ok_insert _ _ _ tid c' Hg) as H'. destruct (gauges_ok_range _ _ _ Hg) as [Et Ea].
  rewrite Hc in H'. simpl in H'. rewrite Hb, Hi in H'.
  replace (t - b2z (has_begun c) + b2z (has_begun c)) with t in H' by lia.
  replace (a - b2z (in_gauge c) + b2z (in_gauge c)) with a in H' by lia. by rewrite Et, Ea in H'.
Qed.

(** ** Preservation *)

Lemma mon_link_same c r sess sess' :
  mon_link c r sess → (∀ id a, r = Some (id, a) → sess' !! id = sess !! id) → mon_link c r sess'.
Proof using Type.
  intros Hl Hs. destruct c as [w|[| | |info m px]| |[]|]; simpl in *; try done.
  1: destruct Hl as (id & a & E & Hx); exists id, a; split; [done|]; by rewrite (Hs _ _ E).
  all: intros i b E; rewrite (Hs _ _ E); eauto.
Qed.

(** A step of one session: the others are moved by the pool at most. *)
Lemma sinv_client σ σ' tid c' :
  sinv σ → clients σ' = <[tid := c']> (clients σ) →
  preach (cfg_pool cfg) accepts (s_pool σ') → mreach cfg (s_mon σ').1 (s_mon σ').2 →
  (∀ j, j ≠ tid → moves (tasks (s_pool σ) !! j) (tasks (s_pool σ') !! j)) →
  (∀ j, j ≠ tid → regs σ' !! j = regs σ !! j) →
  (∀ j id a, j ≠ tid → regs σ !! j = Some (id, a) → sessions (s_mon σ').1 !! id = sessions (s_mon σ).1 !! id) →
  link σ' tid c' → regs_ok (regs σ') (s_mon σ').1 →
  gauges_ok (clients σ') (client_connections_total σ') (client_connections_active σ') →
  sinv σ'.
Proof using Type.
  intros Hi Ec Hp Hm Hts Hr Hs Hl Hro Hg. split; try done.
  - intros j c. rewrite Ec. intros [[<- <-]|[Hne Hj]]%lookup_insert_Some; [done|].
    destruct (si_link _ Hi j c Hj) as (H1 & H2 & H3 & H4). split_and!; try done.
    + eapply pool_link_moves; [exact H1|]. by apply Hts.
    + rewrite Hr by done. eapply mon_link_same; [exact H2|]. intros id a E. by eapply Hs.
  - intros j. rewrite Ec. intros [Hj Hne]%lookup_insert_None. destruct (si_none _ Hi j Hj) as [Ht Hrj].
    specialize (Hts j (not_eq_sym Hne)). rewrite Ht in Hts. rewrite Hr by done. by split.
Qed.

(** A step that leaves the pool and the monitor alone. *)
Lemma sinv_plain σ tid c c' t a :
  sinv σ → clients σ !! tid = Some c →
  (pool_link c (tasks (s_pool σ) !! tid) → pool_link c' (tasks (s_pool σ) !! tid)) →
  (mon_link c (regs σ !! tid) (sessions (s_mon σ).1) → mon_link c' (regs σ !! tid) (sessions (s_mon σ).1)) →
  plain_link c' → type_link c' →
  gauges_ok (<[tid := c']> (clients σ)) t a →
  sinv (with_gauges (with_client σ tid c') t a).
Proof using Type.
  intros Hi Hc Hpl Hml Hpn Hty Hg. destruct (si_link _ Hi tid c Hc) as (H1 & H2 & _ & _).
  apply (sinv_client σ _ tid c'); try done;
    try exact (si_pool _ Hi); try exact (si_mon _ Hi); try exact (si_regs _ Hi).
  - intros j _. apply moves_refl.
  - split_and!; simpl; auto.
Qed.

Lemma exec_preach a σ p' :
  sinv σ → exec (cfg_pool cfg) accepts a (s_pool σ) = Some p' → preach (cfg_pool cfg) accepts p'.
Proof using Type. intros Hi E. eapply rtc_r; [apply (si_pool _ Hi)|]. by eapply exec_sound. Qed.

Lemma sinv_pool_step σ a p' :
  sinv σ → pool_internal a = true → exec (cfg_pool cfg) accepts a (s_pool σ) = Some p' → sinv (with_pool σ p').
Proof using Type.
  intros Hi Ha E. pose proof (exec_preach _ _ _ Hi E) as Hr.
  split; simpl; try done; try exact (si_mon _ Hi); try exact (si_regs _ Hi); try exact (si_gauges _ Hi).
  - intros j c Hj. destruct (si_link _ Hi j c Hj) as (H1 & H2 & H3 & H4). split_and!; try done.
    eapply pool_link_moves; [exact H1|]. by eapply exec_moves.
  - intros j Hj. destruct (si_none _ Hi j Hj) as [Ht Hrj]. split; [|done].
    pose proof (exec_moves _ _ _ _ _ j E Ha) as Hm. by rewrite Ht in Hm.
Qed.

Lemma sinv_mon_step σ a st :
  sinv σ → mexec cfg a (s_mon σ) = Some st → sinv (with_mon σ st).
Proof using Type.
  intros Hi E. destruct st as [m' p']. destruct (s_mon σ) as [m p] eqn:Em.
  pose proof (mexec_frame _ _ _ _ _ _ E) as (E1 & E2 & _). apply mexec_sound in E.
  split; simpl; try exact (si_pool _ Hi); try exact (si_none _ Hi); try exact (si_gauges _ Hi).
  - eapply rtc_r; [|exact E]. pose proof (si_mon _ Hi) as Hm. by rewrite Em in Hm.
  - intros j c Hj. destruct (si_link _ Hi j c Hj) as (H1 & H2 & H3 & H4). split_and!; try done.
    simpl. rewrite E1. by rewrite Em in H2.
  - eapply regs_ok_same; [exact E1|exact E2|]. pose proof (si_regs _ Hi) as Hr. by rewrite Em in Hr.
Qed.

(** The calls on the pool change the caller's task only. *)
Lemma own_exec c acc a tid σ p' :
  exec c acc a σ = Some p' → pool_internal a = false → actor a = Some tid →
  ∃ t, tasks p' = <[tid := t]> (tasks σ)
    ∧ match a with
      | AStart _ k _ => acquiring k t = true
      | ARelease _ => returned t = true
      | _ => t = Finished
      end.
Proof using Type.
  destruct σ as [pw m ts t n l o]. destruct a; simpl; try done; intros E _ [= ->]; repeat case_match; simplify_eq/=;
    eexists; (split; [reflexivity|]); simpl; try done. by rewrite bool_decide_eq_true_2.
Qed.

Lemma tasks_insert_other ts (ts' : gmap nat task) tid t j :
  ts' = <[tid := t]> ts → j ≠ tid → moves (ts !! j) (ts' !! j).
Proof using Type. intros -> Hj. rewrite lookup_insert_ne by done. apply moves_refl. Qed.

Definition ended (r : outcome unit) : client := match r with Panic => Unwound | _ => Gone r end.

Lemma end_client_eq σ tid r :
  end_client σ tid r =
  with_gauges (with_client σ tid (ended r)) (client_connections_total σ)
    (match r with Panic => client_connections_active σ | _ => i64_wrap (client_connections_active σ - 1) end).
Proof using Type. by destruct r. Qed.

Lemma gauges_ok_end cs t a tid c r :
  gauges_ok cs t a → cs !! tid = Some c → in_gauge c = true →
  gauges_ok (<[tid := ended r]> cs) t (match r with Panic => a | _ => i64_wrap (a - 1) end).
Proof using Type.
  intros Hg Hc Hi. assert (Hb : has_begun c = true) by by destruct c.
  destruct (decide (r = Panic)) as [->|Hr]; [by eapply gauges_ok_stay|].
  pose proof (gauges_ok_insert _ _ _ tid (ended r) Hg) as H'. destruct (gauges_ok_range _ _ _ Hg) as [Et _].
  rewrite Hc in H'. simpl in H'. rewrite Hb, Hi in H'. destruct r; try done; simpl in *.
  all: replace (t - 1 + 1) with t in H' by lia; replace (a - 1 + 0) with (a - 1) in H' by lia; by rewrite Et in H'.
Qed.

(** The end of a session that has no connection left. *)
Lemma sinv_end σ tid c r :
  sinv σ → clients σ !! tid = Some c → in_gauge c = true →
  (∀ u, tasks (s_pool σ) !! tid = Some u → over u = true) →
  mon_link (ended r) (regs σ !! tid) (sessions (s_mon σ).1) →
  sinv (end_client σ tid r).
Proof using Type.
  intros Hi Hc Hg Ht Hm. rewrite end_client_eq.
  eapply sinv_plain; [exact Hi|exact Hc| |done| | |].
  - intros _. by destruct r.
  - by destruct r.
  - by destruct r.
  - eapply gauges_ok_end; [apply (si_gauges _ Hi)|done..].
Qed.

(** The end of a session that still holds its connection: it is dropped. *)
Lemma sinv_drop σ tid c r k s :
  sinv σ → clients σ !! tid = Some c → in_gauge c = true →
  tasks (s_pool σ) !! tid = Some (Holding k s) →
  mon_link (ended r) (regs σ !! tid) (sessions (s_mon σ).1) →
  sinv (leave cfg accepts σ tid r).
Proof using Type.
  intros Hi Hc Hg Ht Hm. unfold leave. rewrite Ht.
  destruct (exec (cfg_pool cfg) accepts (ADrop tid) (s_pool σ)) as [p'|] eqn:E.
  2: { destruct (s_pool σ). simpl in *. by rewrite Ht in E. }
  simpl. pose proof (exec_preach _ _ _ Hi E) as Hr.
  destruct (own_exec _ _ _ tid _ _ E eq_refl eq_refl) as (t & Ets & ->).
  rewrite end_client_eq. apply (sinv_client σ _ tid (ended r)); try done.
  - apply (si_mon _ Hi).
  - intros j Hj. by eapply tasks_insert_other.
  - split_and!; simpl; [|done|by destruct r|by destruct r].
    rewrite Ets, lookup_insert_eq. destruct r; by intros u [= <-].
  - apply (si_regs _ Hi).
  - eapply gauges_ok_end; [apply (si_gauges _ Hi)|done..].
Qed.

(** [register_limit] of a session that asked for a limit. *)
Definition after_limit (info : ClientStartupInfo) (m : DbSizeMonitor) : DbSizeMonitor :=
  match ci_max_db_size info with Some n => register_limit m (ci_database info) n | None => m end.
Definition limited (σ : sys) (info : ClientStartupInfo) : sys :=
  with_mon σ (after_limit info (s_mon σ).1, (s_mon σ).2).

Lemma perform_limit_calls tid σ info cs :
  perform_all cfg accepts tid σ (limit_calls info ++ cs)
  = perform_all cfg accepts tid (limited σ info) cs.
Proof using Type.
  unfold limit_calls, limited, after_limit. destruct σ as [b cl r p [m ph] t a].
  by destruct (ci_max_db_size info).
Qed.

Lemma after_limit_frame info m :
  sessions (after_limit info m) = sessions m ∧ session_id_counter (after_limit info m) = session_id_counter m.
Proof using Type. unfold after_limit. by destruct (ci_max_db_size info). Qed.

Lemma sinv_limited σ info : sinv σ → sinv (limited σ info).
Proof using Type.
  intros Hi. destruct (after_limit_frame info (s_mon σ).1) as [E1 E2].
  split; simpl; try exact (si_pool _ Hi); try exact (si_none _ Hi); try exact (si_gauges _ Hi).
  - eapply rtc_trans; [apply (si_mon _ Hi)|]. unfold after_limit.
    destruct (ci_max_db_size info); [apply rtc_once, step_limit|apply rtc_refl].
  - intros j c Hj. destruct (si_link _ Hi j c Hj) as (H1 & H2 & H3 & H4). split_and!; try done. simpl. by rewrite E1.
  - eapply regs_ok_same; [exact E1|exact E2|apply (si_regs _ Hi)].
Qed.

(** The session registers and starts to proxy. *)
Lemma sinv_proxied σ tid info w px s :
  sinv σ → Z.of_nat (size (regs σ)) + 2 < 2^64 → is_u64 (effective_limit info) →
  clients σ !! tid = Some (Running (InAcquire info w)) →
  tasks (s_pool σ) !! tid = Some (Holding (pool_key cfg info) s) →
  client_buf px = [] → server_buf px = [] →
  let '(m', r) := register_session (s_mon σ).1 (ci_database info) (effective_limit info) in
  sinv (with_client (with_reg (with_mon σ (m', (s_mon σ).2)) tid r) tid (Running (InProxy info (Fast false) px))).
Proof using Type.
  intros Hi Hb Hu Hc Ht Hcb Hsb. destruct (si_link _ Hi tid _ Hc) as (_ & Hr & _ & Hty). simpl in Hr.
  pose proof (si_regs _ Hi) as Hro. pose proof (ro_count _ _ Hro) as Hcnt.
  destruct (register_session (s_mon σ).1 (ci_database info) (effective_limit info)) as [m' r] eqn:E.
  pose proof (f_equal fst E) as Em. pose proof (f_equal snd E) as Er. simpl in Em, Er. subst m' r.
  apply (sinv_client σ _ tid (Running (InProxy info (Fast false) px))); try done; simpl.
  - apply (si_pool _ Hi).
  - eapply rtc_r; [apply (si_mon _ Hi)|]. apply step_register; [done|lia].
  - intros j _. apply moves_refl.
  - intros j Hj. by rewrite lookup_insert_ne.
  - intros j id a _ Hj. by eapply register_other.
  - split_and!; simpl; [by eexists| |done|done].
    rewrite lookup_insert_eq. eexists _, _. split; [reflexivity|]. unfold register_session. cbv zeta. simpl.
    by rewrite lookup_insert_eq.
  - apply regs_ok_register; [done|lia|done].
  - eapply gauges_ok_stay; [apply (si_gauges _ Hi)|done..].
Qed.

(** The session has lost its client: it unregisters and releases. *)
Lemma sinv_closed σ tid info m px σ' :
  sinv σ → clients σ !! tid = Some (Running (InProxy info m px)) →
  perform_all cfg accepts tid σ [CallUnregisterSession; CallRelease (pool_key cfg info)] = Some σ' →
  sinv (leave cfg accepts σ' tid (Ok tt)).
Proof using Type.
  intros Hi Hc E. destruct (si_link _ Hi tid _ Hc) as ((s & Ht) & (id & a & Hr & Hs) & _ & _).
  simpl in E. unfold perform in E. destruct (s_mon σ) as [mm ph] eqn:Em. rewrite Hr in E. simpl in E.
  destruct (exec (cfg_pool cfg) accepts (ARelease tid) (s_pool σ)) as [p'|] eqn:Ep; [|done]. simpl in E. simplify_eq.
  pose proof (exec_preach _ _ _ Hi Ep) as Hpr.
  destruct (own_exec _ _ _ tid _ _ Ep eq_refl eq_refl) as (t & Ets & Hret).
  assert (Hmon : mreach cfg (unregister_session mm id) ph).
  { eapply rtc_r; [|apply step_unregister]. pose proof (si_mon _ Hi) as Hm. by rewrite Em in Hm. }
  pose proof (si_regs _ Hi) as Hro. rewrite Em in Hro. simpl in Hro.
  assert (Hgen : ∀ c' tt aa, returned t = true →
    pool_link c' (Some t) → (∀ i b, Some (id, a) = Some (i, b) → delete id (sessions mm) !! i = None) →
    mon_link c' (Some (id, a)) (delete id (sessions mm)) → plain_link c' → type_link c' →
    gauges_ok (<[tid := c']> (clients σ)) tt aa →
    sinv (with_gauges (with_client (with_pool (with_mon σ (unregister_session mm id, ph)) p') tid c') tt aa)).
  { intros c' tt aa _ Hpl _ Hml Hpn Hty Hg.
    apply (sinv_client σ _ tid c'); try done; simpl.
    - intros j Hj. by eapply tasks_insert_other.
    - intros j i b Hj Hij. rewrite Em. simpl. rewrite lookup_delete_ne; [done|]. intros <-. apply Hj. by eapply (ro_inj _ _ Hro).
    - split_and!; try done; simpl; [by rewrite Ets, lookup_insert_eq|by rewrite Hr].
    - by apply regs_ok_unregister. }
  assert (Hnone : ∀ i b, Some (id, a) = Some (i, b) → delete id (sessions mm) !! i = None).
  { intros i b [= <- _]. apply lookup_delete_eq. }
  unfold leave. simpl. rewrite Ets, lookup_insert_eq. destruct t; try done.
  - apply (Hgen Returning); try done.
    + by eexists.
    + eapply gauges_ok_stay; [apply (si_gauges _ Hi)|done..].
  - apply (Hgen (Gone (Ok tt))); try done.
    + by intros u [= <-].
    + apply (gauges_ok_end _ _ _ _ _ (Ok tt) (si_gauges _ Hi) Hc eq_refl).
Qed.

Lemma fast_plain mc mx db px ev m' px' :
  proxy_step mc mx db (Fast false, px) ev = Io.Waiting (m', px') →
  ev_over_limit ev = false → client_buf px = [] → server_buf px = [] →
  m' = Fast false ∧ client_buf px' = [] ∧ server_buf px' = [].
Proof using Type.
  unfold proxy_step, fast_step. cbn [fst snd]. intros E Ho Hc Hs. rewrite Ho in E.
  destruct (ev_read ev) as [|[|c0 c]]; try done. destruct (ev_side ev).
  - destruct (send _ _); simpl in E; simplify_eq; done.
  - destruct (unwrap _) as [[sc i]| |]; simpl in E; try done. destruct (send _ _); simpl in E; simplify_eq; done.
Qed.

Hypothesis Hdefault : is_u64 (default_max_db_size_bytes (cfg_monitor cfg)).

Lemma effective_limit_typed info : limit_typed (ci_max_db_size info) → is_u64 (effective_limit info).
Proof using Hdefault.
  intros Ht. unfold effective_limit, session_limit. destruct (ci_max_db_size info) as [n|] eqn:E; simpl; [by apply Ht|].
  case_match; [done|]. simpl. unfold is_u64. lia.
Qed.

(** The flag a session without a limit sees. *)
Lemma unlimited_flag σ tid info m px id a :
  sinv σ → clients σ !! tid = Some (Running (InProxy info m px)) → effective_limit info = 0 →
  regs σ !! tid = Some (id, a) → flags (s_mon σ).1 !! a = Some false.
Proof using Type.
  intros Hi Hc He Hr. destruct (si_link _ Hi tid _ Hc) as (_ & (id' & a' & Er & Hs) & _). simplify_eq.
  destruct (mreach_inv _ _ _ (si_mon _ Hi)) as [Hinv _].
  apply (inv_nolimit _ Hinv _ _ Hs). done.
Qed.

Lemma sinv_session_step σ tid s i e p cs σ1 :
  sinv σ → Z.of_nat (size (regs σ)) + 2 < 2^64 →
  clients σ !! tid = Some (Running s) → input_event σ tid s i = Some e →
  session_step order tls pid (secret tid) cfg s e = Some (p, cs) →
  perform_all cfg accepts tid σ cs = Some σ1 →
  sinv match p with Io.Waiting s' => with_client σ1 tid (Running s') | Done r => leave cfg accepts σ1 tid r end.
Proof using Hdefault.
  intros Hi Hb Hc He Est Eperf. destruct (si_link _ Hi tid _ Hc) as (Hpl & Hml & Hpn & Hty).
  assert (Hty' : ∀ s', p = Io.Waiting s' → type_link (Running s')).
  { intros s' ->. exact (session_step_typed _ _ _ _ _ Est Hty). }
  destruct (session_step_case _ _ _ _ _ Est) as
    [s e p Ha Hp Hs|info buf w r info' w' pw x|info w text r Hnok|info w|info w server px Hcb Hsb|info w server r Hnok
    |info m px ev m' px' Epx|info m px ev|info m px ev r Hnok].
  - simpl in Eperf. simplify_eq.
    assert (Htn : tasks (s_pool σ1) !! tid = None) by (destruct s; naive_solver).
    assert (Hrn : regs σ1 !! tid = None) by (destruct s; naive_solver).
    destruct p as [s'|r].
    + apply (sinv_plain σ1 tid (Running s) (Running s') _ _ Hi Hc); try by destruct s'. exact (Hty' _ eq_refl).
      by eapply gauges_ok_stay; [apply (si_gauges _ Hi)|..].
    + unfold leave. rewrite Htn. eapply sinv_end; [exact Hi|exact Hc|done|by rewrite Htn|].
      rewrite Hrn. by destruct r.
  - simpl in Eperf, Hpl, Hml. unfold perform in Eperf. destruct (s_mon σ) as [mm ph] eqn:Em.
    destruct (exec (cfg_pool cfg) accepts _ (s_pool σ)) as [p'|] eqn:Ep; [|done]. simpl in Eperf. simplify_eq.
    pose proof (exec_preach _ _ _ Hi Ep) as Hpr.
    destruct (own_exec _ _ _ tid _ _ Ep eq_refl eq_refl) as (t & Ets & Hacq).
    apply (sinv_client σ _ tid (Running (InAcquire info' w'))); try done; simpl; try exact (si_mon _ Hi); try exact (si_regs _ Hi).
    + intros j Hj. by eapply tasks_insert_other.
    + split_and!; simpl; [rewrite Ets, lookup_insert_eq; eauto|done|done|exact (Hty' _ eq_refl)].
    + by eapply gauges_ok_stay; [apply (si_gauges _ Hi)|..].
  - simpl in Eperf. simplify_eq. destruct i; simpl in He; try (by repeat case_match).
    destruct (tasks (s_pool σ1) !! tid) as [[]|] eqn:Et; simplify_eq.
    unfold leave. rewrite Et. eapply sinv_end; [exact Hi|exact Hc|done|by rewrite Et; intros u [= <-]|].
    simpl in Hml. rewrite Hml. by destruct r.
  - simpl in Eperf. simplify_eq. destruct i; simpl in He; try (by repeat case_match).
    destruct (tasks (s_pool σ1) !! tid) as [[]|] eqn:Et; simplify_eq.
    unfold leave. rewrite Et. eapply sinv_end; [exact Hi|exact Hc|done|by rewrite Et; intros u [= <-]|].
    simpl in Hml. by rewrite Hml.
  - rewrite perform_limit_calls in Eperf. simpl in Eperf.
    apply (sinv_limited _ info) in Hi.
    destruct i; simpl in He; try (by repeat case_match).
    destruct (tasks (s_pool σ) !! tid) as [[| | | | |k st| | |]|] eqn:Et; simplify_eq.
    destruct Hpl as (u & Eu & Hacq). simplify_eq. simpl in Hacq. apply bool_decide_eq_true in Hacq as ->.
    pose proof (sinv_proxied (limited σ info) tid info w px st Hi Hb (effective_limit_typed _ (Hty _ eq_refl)) Hc Et Hcb Hsb) as Hgoal.
    exact Hgoal.
  - pose proof (perform_limit_calls tid σ info []) as El. rewrite app_nil_r in El. rewrite El in Eperf. simpl in Eperf.
    simplify_eq. apply (sinv_limited _ info) in Hi.
    destruct i; simpl in He; try (by repeat case_match).
    destruct (tasks (s_pool σ) !! tid) as [[| | | | |k st| | |]|] eqn:Et; simplify_eq.
    eapply sinv_drop; [exact Hi|exact Hc|done|exact Et|]. simpl in Hml |- *. rewrite Hml. by destruct r.
  - simpl in Eperf. simplify_eq.
    apply (sinv_plain σ1 tid (Running (InProxy info m px)) (Running (InProxy info m' px')) _ _ Hi Hc); try done.
    + simpl. intros E0. destruct (Hpn E0) as (-> & Hcb & Hsb). eapply fast_plain; [exact Epx| |done|done].
      destruct Hml as (id & a & Er & _). pose proof (unlimited_flag _ _ _ _ _ _ _ Hi Hc E0 Er) as Hf.
      destruct i; simpl in He; try (by repeat case_match). rewrite Er in He. simplify_eq. simpl. by rewrite Hf.
    + by eapply gauges_ok_stay; [apply (si_gauges _ Hi)|..].
  - by eapply sinv_closed.
  - simpl in Eperf. simplify_eq. destruct Hpl as (st & Et). destruct Hml as (id & a & Er & Hs).
    eapply sinv_drop; [exact Hi|exact Hc|done|exact Et|]. rewrite Er.
    destruct r; try done; simpl; intros i0 b [= <- <-]; eauto.
Qed.

(** Fewer than 2^64 clients so far, so that session ids do not wrap around. *)
Definition few (σ : sys) : Prop := Z.of_nat (size (clients σ)) + 2 < 2^64.

Lemma sinv_init : sinv sys_new.
Proof using Type.
  split; simpl; try apply rtc_refl; try done.
Qed.

Lemma regs_size σ : sinv σ → Z.of_nat (size (regs σ)) ≤ Z.of_nat (size (clients σ)).
Proof using Type.
  intros Hi. apply inj_le. rewrite <-(size_dom (regs σ)), <-(size_dom (clients σ)). apply subseteq_size.
  intros j [r Hr]%elem_of_dom. apply elem_of_dom. destruct (clients σ !! j) as [c|] eqn:E; [by eexists|].
  apply (si_none _ Hi) in E as [_ E]. congruence.
Qed.

(** The task starts: it is counted, and may end at once. *)
Lemma sinv_begin σ tid w nodelay :
  sinv σ → clients σ !! tid = Some (Spawned w) →
  let σ1 := with_gauges σ (fetch_add1 (client_connections_total σ)) (i64_wrap (client_connections_active σ + 1)) in
  sinv match session_start nodelay w with
       | Io.Waiting s => with_client σ1 tid (Running s)
       | Done r => leave cfg accepts σ1 tid r
       end.
Proof using Type.
  intros Hi E σ1.
  assert (Hrun : sinv (with_client σ1 tid (Running (session_new w)))).
  { change (sinv (with_gauges (with_client σ tid (Running (session_new w))) (fetch_add1 (client_connections_total σ))
                    (i64_wrap (client_connections_active σ + 1)))).
    eapply sinv_plain; [exact Hi|exact E|done|done|done|done|].
    pose proof (gauges_ok_insert _ _ _ tid (Running (session_new w)) (si_gauges _ Hi)) as Hg. rewrite E in Hg.
    simpl in Hg. by rewrite !Z.sub_0_r in Hg. }
  destruct nodelay; [exact Hrun|]. simpl session_start. cbv iota.
  destruct (si_link _ Hi tid _ E) as (Ht & Hm & _). simpl in Ht, Hm.
  replace (leave cfg accepts σ1 tid (Err IoError))
    with (end_client (with_client σ1 tid (Running (session_new w))) tid (Err IoError)).
  - eapply sinv_end; [exact Hrun|apply lookup_insert_eq|done|by simpl; rewrite Ht|]. simpl. by rewrite Hm.
  - unfold leave. simpl. rewrite Ht. unfold end_client, with_client, with_gauges. simpl. by rewrite insert_insert_eq.
Qed.

Lemma sinv_step a σ σ' : sinv σ → few σ → sexec a σ = Some σ' → sinv σ'.
Proof using Hdefault.
  intros Hi Hf. pose proof (regs_size _ Hi) as Hsz. unfold few in Hf.
  unfold System.sexec. destruct (negb (listening σ)); [done|]. destruct a as [tid w| |tid nodelay|tid i|tid|a|a].
  - destruct (clients σ !! tid) eqn:E; [done|]. intros [= <-]. destruct (si_none _ Hi _ E) as [Ht Hr].
    apply (sinv_client σ _ tid (Spawned w)); try done; try exact (si_pool _ Hi); try exact (si_mon _ Hi); try exact (si_regs _ Hi).
    + intros j _. apply moves_refl.
    + pose proof (gauges_ok_insert _ _ _ tid (Spawned w) (si_gauges _ Hi)) as Hg.
      destruct (gauges_ok_range _ _ _ (si_gauges _ Hi)) as [Et Ea]. rewrite E in Hg. simpl in *.
      rewrite !Z.sub_0_r, !Z.add_0_r, Et, Ea in Hg. exact Hg.
  - intros [= <-]. destruct Hi as [H1 H2 H3 H4 H5 H6]. by split.
  - destruct (clients σ !! tid) as [[w| | | |]|] eqn:E; try done. intros [= <-].
    by apply (sinv_begin σ tid w).
  - destruct (clients σ !! tid) as [[|s| | |]|] eqn:E; try done.
    destruct (input_event σ tid s i) as [e|] eqn:Ee; [|done]. simpl.
    destruct (session_step _ _ _ _ _ _ _) as [[p cs]|] eqn:Es; [|done]. simpl.
    destruct (perform_all _ _ _ _ _) as [σ1|] eqn:Ep; [|done]. simpl. intros [= <-].
    eapply sinv_session_step; [exact Hi|lia|exact E|exact Ee|exact Es|exact Ep].
  - destruct (clients σ !! tid) as [[| | | |]|] eqn:E; try done.
    destruct (tasks (s_pool σ) !! tid) as [[]|] eqn:Et; try done. intros [= <-].
    apply (sinv_end σ tid Returning (Ok tt)); [exact Hi|exact E|done|by rewrite Et; intros u [= <-]|]. by destruct (si_link _ Hi _ _ E) as (_ & Hm & _).
  - destruct (pool_internal a) eqn:Ea; [|done].
    destruct (exec _ _ _ _) as [p'|] eqn:Ep; [|done]. intros [= <-]. by eapply sinv_pool_step.
  - destruct (mexec cfg a (s_mon σ)) as [st|] eqn:Em; [|done]. intros [= <-]. by eapply sinv_mon_step.
Qed.

Lemma leave_clients σ tid r : clients (leave cfg accepts σ tid r) = <[tid := match tasks (s_pool σ) !! tid with
  Some (Resetting _ _) => Returning | _ => ended r end]> (clients σ).
Proof using Type.
  unfold leave. destruct (tasks (s_pool σ) !! tid) as [[]|]; try (by destruct r).
  destruct (exec _ _ _ _); by destruct r.
Qed.

Lemma perform_clients tid cs σ σ' :
  perform_all cfg accepts tid σ cs = Some σ' → clients σ' = clients σ ∧ listening σ' = listening σ.
Proof using Type.
  revert σ. induction cs as [|cl cs IH]; intros σ; simpl; [by intros [= <-]|].
  destruct (perform cfg accepts tid σ cl) as [σ1|] eqn:E; [|done]. simpl. intros [-> ->]%IH.
  unfold perform in E. destruct (s_mon σ) as [m ph]. destruct cl; repeat case_match; simplify_eq/=; try done.
  - by destruct (exec _ _ _ _); simplify_eq/=.
  - destruct (regs σ !! tid) as [[id a]|]; simplify_eq/=. done.
  - by destruct (exec _ _ _ _); simplify_eq/=.
Qed.

(** A task stays known, and keeps its result once it has one. *)
Lemma step_client a σ σ' j c :
  sexec a σ = Some σ' → clients σ !! j = Some c →
  ∃ c', clients σ' !! j = Some c' ∧ (match c with Gone _ | Unwound => c' = c | _ => True end).
Proof using Type.
  intros E Hj. assert (Hid : ∃ c', clients σ !! j = Some c' ∧ (match c with Gone _ | Unwound => c' = c | _ => True end))
    by (exists c; split; [done|by destruct c]).
  unfold System.sexec in E. destruct (negb (listening σ)); [done|]. destruct a as [tid w| |tid nodelay|tid i|tid|a|a].
  - destruct (clients σ !! tid) eqn:Et; simplify_eq/=. rewrite lookup_insert_ne by congruence. exact Hid.
  - by simplify_eq/=.
  - destruct (clients σ !! tid) as [[w| | | |]|] eqn:Et; simplify_eq/=.
    destruct nodelay; simpl; [|rewrite leave_clients; simpl]; rewrite lookup_insert; (case_decide; [|exact Hid]);
      simplify_eq; eauto.
  - destruct (clients σ !! tid) as [[|s| | |]|] eqn:Et; try done.
    destruct (input_event σ tid s i) as [e|]; [|done]. simpl in E.
    destruct (session_step _ _ _ _ _ _ _) as [[p cs]|]; [|done]. simpl in E.
    destruct (perform_all _ _ _ _ _) as [σ1|] eqn:Ep; [|done]. simpl in E. simplify_eq.
    apply perform_clients in Ep as [Ec _].
    destruct p as [s'|r]; [simpl|rewrite leave_clients]; rewrite Ec, lookup_insert; case_decide; try exact Hid;
      simplify_eq; eauto.
  - destruct (clients σ !! tid) as [[| | | |]|] eqn:Et; try done.
    destruct (tasks (s_pool σ) !! tid) as [[]|]; simplify_eq/=.
    rewrite lookup_insert. case_decide; [|exact Hid]. simplify_eq. eauto.
  - destruct (pool_internal a); [|done]. destruct (exec _ _ _ _); simplify_eq/=. exact Hid.
  - destruct (mexec _ _ _); simplify_eq/=. exact Hid.
Qed.

Lemma step_few a σ σ' : sexec a σ = Some σ' → few σ' → few σ.
Proof using Type.
  intros E. unfold few. enough (size (clients σ) ≤ size (clients σ'))%nat by lia.
  rewrite <-!size_dom. apply subseteq_size. intros j [c Hc]%elem_of_dom.
  destruct (step_client _ _ _ _ _ E Hc) as (c' & Hc' & _). apply elem_of_dom. eauto.
Qed.

Lemma rtc_few σ σ' : rtc sstep σ σ' → few σ' → few σ.
Proof using Type. induction 1 as [|x y z [a E] _ IH]; [done|]. intros Hf. eapply step_few; [exact E|by apply IH]. Qed.

Lemma rtc_sinv σ σ' : sinv σ → rtc sstep σ σ' → few σ' → sinv σ'.
Proof using Hdefault.
  intros Hi Hr. induction Hr as [|x y z [a E] Hr IH]; [done|]. intros Hf. apply IH; [|done].
  pose proof (rtc_few _ _ Hr Hf). eapply sinv_step; [exact Hi|by eapply step_few|exact E].
Qed.
Lemma reach_sinv σ : sreach σ → few σ → sinv σ.
Proof using Hdefault. apply rtc_sinv, sinv_init. Qed.
End invariant.
