(* ===== verification/SystemThms.v ===== *)
(** * What the server guarantees as a whole

    The theorems of the components carried over to the composition of
    System.v.  Sessions rely on the pool and on the monitor through two
    interfaces, [ConnectionLender] and [LimitFlags]; the instances are proved
    from the invariants of the components. *)

From S2P Require Import Prelude RustStr Messages Startup Scanner Config Monitor MonitorRun Notify Pool PoolSys PoolThms PoolLife Io Proxy Session System.

(** ** Interfaces *)

(** Who lends connections: a session holds a connection of a key, alone, and
    the connection was opened for that key. *)
Class ConnectionLender (S : Type) (ok : S → Prop) := {
  lent : S → nat → PoolKey → Z → Prop;
  opened_for : S → Z → option PoolKey;
  lent_once : ∀ σ i j k k' s, ok σ → lent σ i k s → lent σ j k' s → i = j;
  lent_own : ∀ σ i k s, ok σ → lent σ i k s → opened_for σ s = Some k
}.

(** Who raises over-limit flags: every session has a flag of its own, and a
    session without a limit never sees it raised. *)
Class LimitFlags (M : Type) (ok : M → Prop) := {
  watched : M → Z → SessionLimit → Prop;
  raised : M → nat → option bool;
  watched_own : ∀ m i j x y, ok m → watched m i x → watched m j y → i ≠ j → sl_over_limit x ≠ sl_over_limit y;
  watched_clear : ∀ m i x, ok m → watched m i x → sl_limit_bytes x = 0 → raised m (sl_over_limit x) = Some false
}.

#[export] Instance pool_lender {Nt : Notify} c acc : ConnectionLender psys (preach c acc).
Proof.
  refine {| lent σ i k s := tasks σ !! i = Some (Holding k s); opened_for σ s := origin σ !! s |}.
  - intros σ i j k k' s [_ Ht _ _ _]%reach_pinv Hi Hj.
    apply (Ht i (Holding k s) _ _ eq_refl) in Hi. apply (Ht j (Holding k' s) _ _ eq_refl) in Hj. congruence.
  - intros σ i k s [_ Ht _ Ho _]%reach_pinv Hi. apply (Ht i (Holding k s) _ _ eq_refl) in Hi. by apply Ho in Hi.
Defined.

#[export] Instance monitor_flags c : LimitFlags (DbSizeMonitor * phase) (λ st, mreach c st.1 st.2).
Proof.
  refine {| watched st id x := sessions st.1 !! id = Some x; raised st a := flags st.1 !! a |}.
  - intros [m p] i j x y [Hi _]%mreach_inv Hx Hy Hne E. by apply Hne, (inv_inj _ Hi i j x y).
  - intros [m p] i x [Hi _]%mreach_inv Hx Hz. by eapply (inv_nolimit _ Hi).
Defined.

Section theorems.
Context {Nt : Notify} `{UnicodeUpper, BuildProfile}.
Context (order : gmap str str → list (str * str)) (tls : bool) (pid : Z) (secret : nat → Z).
Context (cfg : Config) (accepts : PoolKey → str → bool).
Hypothesis Hdefault : is_u64 (default_max_db_size_bytes (cfg_monitor cfg)).

Abbreviation sexec := (sexec order tls pid secret cfg accepts).
Abbreviation sstep := (sstep order tls pid secret cfg accepts).
Abbreviation sreach := (sreach order tls pid secret cfg accepts).
Abbreviation sinv := (sinv cfg accepts).

(** ** Tenants *)

(** C1. Tenants are isolated end to end.  In every reachable state of the
    server, two sessions being proxied use different backend connections, each
    of them opened for the host, port, database and user of its own session,
    and they watch different over-limit flags, each registered with the
    session's own database and limit. *)
Theorem tenants_isolated σ i j infoi infoj mi mj pxi pxj :
  sreach σ → few σ → i ≠ j →
  clients σ !! i = Some (Running (InProxy infoi mi pxi)) →
  clients σ !! j = Some (Running (InProxy infoj mj pxj)) →
  ∃ si sj fi fj,
    tasks (s_pool σ) !! i = Some (Holding (pool_key cfg infoi) si)
    ∧ tasks (s_pool σ) !! j = Some (Holding (pool_key cfg infoj) sj)
    ∧ si ≠ sj
    ∧ origin (s_pool σ) !! si
      = Some (mk_PoolKey (upstream_host cfg) (upstream_port cfg) (ci_database infoi) (ci_user infoi))
    ∧ origin (s_pool σ) !! sj
      = Some (mk_PoolKey (upstream_host cfg) (upstream_port cfg) (ci_database infoj) (ci_user infoj))
    ∧ fi ≠ fj
    ∧ (∃ id, regs σ !! i = Some (id, fi) ∧ sessions (s_mon σ).1 !! id
             = Some (mk_SessionLimit (ci_database infoi) (effective_limit cfg infoi) fi))
    ∧ (∃ id, regs σ !! j = Some (id, fj) ∧ sessions (s_mon σ).1 !! id
             = Some (mk_SessionLimit (ci_database infoj) (effective_limit cfg infoj) fj)).
Proof using Hdefault.
  intros Hr Hf Hne Hci Hcj. pose proof (reach_sinv _ _ _ _ _ _ Hdefault _ Hr Hf) as Hi.
  destruct (si_link _ _ _ Hi _ _ Hci) as ((si & Hti) & (idi & fi & Hri & Hsi) & _).
  destruct (si_link _ _ _ Hi _ _ Hcj) as ((sj & Htj) & (idj & fj & Hrj & Hsj) & _).
  pose proof (si_pool _ _ _ Hi) as Hp. pose proof (si_mon _ _ _ Hi) as Hm.
  exists si, sj, fi, fj. split_and!; try done; eauto.
  - intros <-. apply Hne. exact (lent_once (s_pool σ) _ _ _ _ _ Hp Hti Htj).
  - exact (lent_own (s_pool σ) _ _ _ Hp Hti).
  - exact (lent_own (s_pool σ) _ _ _ Hp Htj).
  - assert (Hid : idi ≠ idj). { intros <-. apply Hne. by eapply (ro_inj _ _ (si_regs _ _ _ Hi)). }
    exact (watched_own (LimitFlags := monitor_flags cfg) (s_mon σ) _ _ _ _ Hm Hsi Hsj Hid).
Qed.

(** A step of a proxied session on a read, as far as it goes on. *)
Lemma proxied_step σ σ' tid info m px sd r m' px' :
  clients σ !! tid = Some (Running (InProxy info m px)) →
  sexec (SClient tid (InProxied sd r)) σ = Some σ' →
  clients σ' !! tid = Some (Running (InProxy info m' px')) →
  ∃ id a, regs σ !! tid = Some (id, a)
    ∧ proxy_step (cfg_monitor cfg) (ci_max_db_size info) (ci_database info) (m, px)
        (mk_pevent sd r (default false (flags (s_mon σ).1 !! a)) (get_db_size (s_mon σ).1 (ci_database info)))
      = Io.Waiting (m', px').
Proof using Type.
  intros Hc. unfold System.sexec. destruct (negb (listening σ)); [done|]. rewrite Hc. simpl.
  destruct (regs σ !! tid) as [[id a]|]; [|done]. simpl.
  destruct (proxy_step _ _ _ _ _) as [[m1 px1]|[[]| |]] eqn:E; cbn -[perform_all leave].
  1: { intros [= <-]. simpl. rewrite lookup_insert_eq. intros [= <- <-]. eauto. }
  all: destruct (perform_all _ _ _ _ _) as [σ1|]; [|done]; intros [= <-];
    rewrite leave_clients, lookup_insert_eq; by repeat case_match.
Qed.

(** C8. A session without a limit is never touched.  In every reachable state
    a proxied session for which neither the client nor the configuration asked
    for a limit is in the fast loop with nothing buffered, whatever other
    sessions have registered for the same database; and a read of either of its
    sockets passes exactly the bytes read to the other one. *)
Theorem unlimited_transparent σ σ' tid info m px sd c m' px' :
  sreach σ → few σ → effective_limit cfg info = 0 →
  clients σ !! tid = Some (Running (InProxy info m px)) → c ≠ [] →
  sexec (SClient tid (InProxied sd (RdData c))) σ = Some σ' →
  clients σ' !! tid = Some (Running (InProxy info m' px')) →
  m = Fast false ∧ m' = Fast false
  ∧ sent (px_server px') = sent (px_server px) ++ match sd with FromClient => c | FromServer => [] end
  ∧ sent (px_client px') = sent (px_client px) ++ match sd with FromServer => c | FromClient => [] end.
Proof using Hdefault.
  intros Hr Hf He Hc Hne Hst Hc'. pose proof (reach_sinv _ _ _ _ _ _ Hdefault _ Hr Hf) as Hi.
  destruct (si_link _ _ _ Hi _ _ Hc) as (_ & _ & Hpn & _). destruct (Hpn He) as (-> & Hcb & Hsb).
  destruct (proxied_step _ _ _ _ _ _ _ _ _ _ Hc Hst Hc') as (sid & a & Hreg & E).
  pose proof (unlimited_flag _ _ _ _ _ _ _ _ _ Hi Hc He Hreg) as Hfl. rewrite Hfl in E.
  destruct (fast_plain _ _ _ _ _ _ _ E eq_refl Hcb Hsb) as (-> & Hcb' & Hsb').
  pose proof (fast_lossless false px (mk_pevent sd (RdData c) false (get_db_size (s_mon σ).1 (ci_database info)))) as Hl.
  unfold proxy_step in E. cbn [fst snd] in E. change (default false (Some false)) with false in E.
  revert Hl E. destruct (fast_step _ _) as [[b px1]|[[[] px1]| |]]; intros Hl E; simplify_eq.
  pose proof (Hl FromClient) as H1. pose proof (Hl FromServer) as H2. unfold taken, chunk in H1, H2. simpl in H1, H2.
  rewrite Hcb, Hcb', !app_nil_r in H1. rewrite Hsb, Hsb', !app_nil_r in H2. destruct sd; by rewrite H1, H2.
Qed.

(** ** Registrations *)

(** The sessions the monitor still watches. *)
Definition still_watched (c : client) : bool :=
  match c with Running (InProxy _ _ _) | Unwound => true | Gone r => negb (is_ok r) | _ => false end.

Lemma watched_ids σ tid id a c :
  sinv σ → clients σ !! tid = Some c → regs σ !! tid = Some (id, a) →
  (is_Some (sessions (s_mon σ).1 !! id) ↔ still_watched c = true).
Proof using Type.
  intros Hi Hc Hr. destruct (si_link _ _ _ Hi _ _ Hc) as (_ & Hm & _). rewrite Hr in Hm.
  destruct c as [w|[buf w|info buf w|info w|info m px]| |[]|]; simpl in *; try done.
  - destruct Hm as (id' & a' & [= <- <-] & ->). split; [done|by eexists].
  - rewrite (Hm _ _ eq_refl). split; [by intros []|done].
  - rewrite (Hm _ _ eq_refl). split; [by intros []|done].
  - destruct (Hm _ _ eq_refl) as (x & -> & _). split; [done|by eexists].
  - destruct (Hm _ _ eq_refl) as (x & -> & _). split; [done|by eexists].
  - destruct (Hm _ _ eq_refl) as (x & -> & _). split; [done|by eexists].
Qed.

Lemma perform_regs tid cs σ σ' j :
  perform_all cfg accepts tid σ cs = Some σ' → j ≠ tid → regs σ' !! j = regs σ !! j.
Proof using Type.
  intros E Hj. revert σ E. induction cs as [|cl cs IH]; intros σ; simpl; [by intros [= <-]|].
  destruct (perform cfg accepts tid σ cl) as [σ1|] eqn:E; [|done]. simpl. intros ->%IH.
  unfold perform in E. destruct (s_mon σ) as [m ph]. destruct cl; repeat case_match; simplify_eq/=; try done.
  - by destruct (exec _ _ _ _); simplify_eq/=.
  - by rewrite lookup_insert_ne.
  - destruct (regs σ !! tid) as [[id a]|]; simplify_eq/=. done.
  - by destruct (exec _ _ _ _); simplify_eq/=.
Qed.

Lemma leave_regs σ tid r : regs (leave cfg accepts σ tid r) = regs σ.
Proof using Type.
  unfold leave. destruct (tasks (s_pool σ) !! tid) as [[]|]; try (by destruct r).
  destruct (exec _ _ _ _); by destruct r.
Qed.

(** A session that is over keeps its result and its id. *)
Lemma over_step a σ σ' tid c :
  sexec a σ = Some σ' → clients σ !! tid = Some c → (∃ r, c = Gone r) ∨ c = Unwound →
  clients σ' !! tid = Some c ∧ regs σ' !! tid = regs σ !! tid.
Proof using Type.
  intros E Hc Ho. split.
  - destruct (step_client _ _ _ _ _ _ _ _ _ _ _ E Hc) as (c' & -> & Hk). f_equal. destruct Ho as [[r ->]| ->]; exact Hk.
  - unfold System.sexec in E. destruct (negb (listening σ)); [done|]. destruct a as [j w| |j nodelay|j i|j|a|a].
    + by destruct (clients σ !! j); simplify_eq/=.
    + by simplify_eq/=.
    + destruct (clients σ !! j) as [[]|]; simplify_eq/=. destruct nodelay; simpl; [done|]. by rewrite leave_regs.
    + destruct (clients σ !! j) as [[|s| | |]|] eqn:Et; try done.
      assert (tid ≠ j) by (intros <-; naive_solver).
      destruct (input_event σ j s i) as [e|]; [|done]. simpl in E.
      destruct (session_step _ _ _ _ _ _ _) as [[p cs]|]; [|done]. simpl in E.
      destruct (perform_all _ _ _ _ _) as [σ1|] eqn:Ep; [|done]. simpl in E. simplify_eq.
      rewrite <-(perform_regs _ _ _ _ _ Ep) by done. destruct p; simpl; [done|]. by rewrite leave_regs.
    + destruct (clients σ !! j) as [[]|]; try done. by destruct (tasks (s_pool σ) !! j) as [[]|]; simplify_eq/=.
    + destruct (pool_internal a); [|done]. by destruct (exec _ _ _ _); simplify_eq/=.
    + by destruct (mexec _ _ _); simplify_eq/=.
Qed.

(** C16. Who stays registered.  In every reachable state of the server, the
    monitor watches exactly the sessions that are being proxied and those whose
    task ended with an error or a panic after they registered: normal ends
    unregister, and what an error leaves behind stays in the registry in every
    later state. *)
Theorem registrations_exact σ :
  sreach σ → few σ →
  (∀ id, is_Some (sessions (s_mon σ).1 !! id) ↔
     ∃ tid a c, regs σ !! tid = Some (id, a) ∧ clients σ !! tid = Some c ∧ still_watched c = true)
  ∧ ∀ tid id a c σ', regs σ !! tid = Some (id, a) → clients σ !! tid = Some c →
      (∃ e, c = Gone (Err e)) ∨ c = Unwound → rtc sstep σ σ' → few σ' →
      is_Some (sessions (s_mon σ').1 !! id).
Proof using Hdefault.
  intros Hr Hf. pose proof (reach_sinv _ _ _ _ _ _ Hdefault _ Hr Hf) as Hi. split.
  - intros id. split.
    + intros [x Hx]. destruct (ro_owner _ _ (si_regs _ _ _ Hi) _ _ Hx) as [tid Hreg].
      destruct (clients σ !! tid) as [c|] eqn:Hc.
      2: { apply (si_none _ _ _ Hi) in Hc as [_ Hc]. congruence. }
      exists tid, (sl_over_limit x), c. split_and!; try done. by apply (watched_ids _ _ _ _ _ Hi Hc Hreg).
    + intros (tid & a & c & Hreg & Hc & Hw). by apply (watched_ids _ _ _ _ _ Hi Hc Hreg).
  - intros tid id a c σ' Hreg Hc Ho Hst Hf'.
    assert (Ho' : (∃ r, c = Gone r) ∨ c = Unwound) by naive_solver.
    assert (Hk : clients σ' !! tid = Some c ∧ regs σ' !! tid = Some (id, a)).
    { apply (rtc_inv sstep (λ σ, clients σ !! tid = Some c ∧ regs σ !! tid = Some (id, a)) σ σ'); [|done..].
      intros x y [Hx Hx'] [b E]. destruct (over_step _ _ _ _ _ E Hx Ho') as [-> ->]. done. }
    destruct Hk as [Hc' Hreg']. pose proof (rtc_sinv _ _ _ _ _ _ Hdefault _ _ Hi Hst Hf') as Hi'.
    apply (watched_ids _ _ _ _ _ Hi' Hc' Hreg'). destruct Ho as [[e ->]| ->]; done.
Qed.

(** ** Gauges *)

Definition unwound (c : client) : bool := match c with Unwound => true | _ => false end.

(** C17. The client metrics.  In every reachable state
    [client_connections_total] counts the session tasks that have started and
    [client_connections_active] those of them whose [handle_client] has not
    returned; a task that panicked is among the latter for ever, because the
    decrement after [handle_client] is skipped. *)
Theorem client_metrics_exact σ :
  sreach σ → few σ →
  client_connections_total σ = u64_wrap (cnt has_begun (clients σ))
  ∧ client_connections_active σ = i64_wrap (cnt in_gauge (clients σ))
  ∧ ∀ σ', rtc sstep σ σ' → cnt unwound (clients σ) ≤ cnt in_gauge (clients σ').
Proof using Hdefault.
  intros Hr Hf. pose proof (reach_sinv _ _ _ _ _ _ Hdefault _ Hr Hf) as Hi. split_and!; [apply (si_gauges _ _ _ Hi)..|].
  intros σ' Hst. assert (Hk : ∀ tid, clients σ !! tid = Some Unwound → clients σ' !! tid = Some Unwound).
  { intros tid. apply (rtc_inv sstep (λ σ', clients σ !! tid = Some Unwound → clients σ' !! tid = Some Unwound) σ σ'); [|done..].
    intros x y Hx [b E] Hc. specialize (Hx Hc). destruct (over_step _ _ _ _ _ E Hx) as [-> _]; [by right|done]. }
  unfold cnt. apply inj_le, map_subseteq_size, map_subseteq_spec. intros tid c.
  rewrite !map_lookup_filter_Some. intros [Hc Hu]. simpl in *. destruct c; try done. split; [by apply Hk|done].
Qed.

(** ** Enforcement *)

Lemma sexec_proxied σ tid info m px id a sd r m' px' :
  listening σ = true → clients σ !! tid = Some (Running (InProxy info m px)) → regs σ !! tid = Some (id, a) →
  proxy_step (cfg_monitor cfg) (ci_max_db_size info) (ci_database info) (m, px)
    (mk_pevent sd r (default false (flags (s_mon σ).1 !! a)) (get_db_size (s_mon σ).1 (ci_database info)))
  = Io.Waiting (m', px') →
  sexec (SClient tid (InProxied sd r)) σ = Some (with_client σ tid (Running (InProxy info m' px'))).
Proof using Type.
  intros Hl Hc Hr E. unfold System.sexec. rewrite Hl, Hc. simpl. rewrite Hr. simpl. by rewrite E.
Qed.

(** C6. The limit takes effect at the next transaction boundary.  From any
    state of the server in which a proxied session's flag is raised and its
    database is known to be over its limit: if the client sends something and
    the server then reports an idle transaction, the session is in the slow
    loop, and whatever whole messages the client sends next reach the server
    rewritten (queries read-only, shrinking operations as they are), with
    nothing of what was read before lost; the server sees no other bytes. *)
Theorem limit_takes_effect σ tid info b px id a limit size c s sc ms :
  listening σ = true → clients σ !! tid = Some (Running (InProxy info (Fast b) px)) → regs σ !! tid = Some (id, a) →
  flags (s_mon σ).1 !! a = Some true →
  session_limit (cfg_monitor cfg) (ci_max_db_size info) = Some limit →
  get_db_size (s_mon σ).1 (ci_database info) = Some size → limit < size →
  writes_left (px_client px) = None → writes_left (px_server px) = None →
  c ≠ [] → s ≠ [] → scan (px_scanner px) (server_buf px ++ s) = Some (sc, true) →
  Forall msg_fits ms → concat (wire <$> ms) ≠ [] →
  ∃ σ' injected px',
    srun order tls pid secret cfg accepts
      [SClient tid (InProxied FromClient (RdData c)); SClient tid (InProxied FromServer (RdData s));
       SClient tid (InProxied FromClient (RdData (concat (wire <$> ms))))] σ = Some σ'
    ∧ clients σ' !! tid = Some (Running (InProxy info (Slow injected) px'))
    ∧ sent (px_server px') = sent (px_server px) ++ client_buf px ++ c
                             ++ concat (forwarded (cfg_monitor cfg) <$> ms).
Proof using Type.
  intros Hl Hc Hr Hfl Hlim Hsz Hlt Hwc Hws Hcn Hsn Hscan Hms Hmn.
  destruct px as [[oc wc] [os ws] cb sb scn]. simpl in *. subst wc ws.
  assert (Hinj : should_inject (cfg_monitor cfg) (ci_max_db_size info) (Some size) = true).
  { unfold should_inject. rewrite Hlim. lia. }
  set (px1 := mk_proxy (mk_sink oc None) (mk_sink (os ++ cb ++ c) None) [] sb scn).
  set (px2 := mk_proxy (mk_sink (oc ++ sb ++ s) None) (mk_sink (os ++ cb ++ c) None) [] [] sc).
  set (px3 := mk_proxy (mk_sink ((oc ++ sb ++ s) ++ warnings (cfg_monitor cfg) (ci_database info) false ms) None)
                (mk_sink ((os ++ cb ++ c) ++ concat (forwarded (cfg_monitor cfg) <$> ms)) None) [] [] sc).
  eexists _, (foldl (injected_after (cfg_monitor cfg)) false ms), px3. split; [|split].
  - cbn [srun]. rewrite (sexec_proxied σ tid info (Fast b) _ id a _ _ (Fast (b || true)) px1 Hl Hc Hr).
    2: { rewrite Hfl. unfold proxy_step, fast_step. simpl. by destruct c. }
    cbn [mbind option_bind].
    set (σ1 := with_client σ tid _).
    assert (Hc1 : clients σ1 !! tid = Some (Running (InProxy info (Fast (b || true)) px1)))
      by apply lookup_insert_eq.
    rewrite (sexec_proxied σ1 tid info (Fast (b || true)) _ id a _ _ (Slow false) px2 Hl Hc1 Hr).
    2: { unfold proxy_step, fast_step. simpl. destruct s as [|s0 s]; [done|]. rewrite Hscan. simpl.
         by rewrite orb_true_r. }
    cbn [mbind option_bind].
    set (σ2 := with_client σ1 tid _).
    assert (Hc2 : clients σ2 !! tid = Some (Running (InProxy info (Slow false) px2))) by apply lookup_insert_eq.
    rewrite (sexec_proxied σ2 tid info (Slow false) _ id a _ _
               (Slow (foldl (injected_after (cfg_monitor cfg)) false ms)) px3 Hl Hc2 Hr); [reflexivity|].
    change (s_mon σ2) with (s_mon σ). rewrite Hsz. unfold proxy_step, slow_step. cbn [fst snd ev_read ev_side ev_db_size].
    destruct (concat (wire <$> ms)) as [|m0 mr] eqn:Em; [done|]. rewrite <-Em. cbn [client_buf px2 app].
    by rewrite (slow_client_drain _ _ _ _ _ Hinj Hms).
  - apply lookup_insert_eq.
  - simpl. by rewrite <-!(assoc_L (++)).
Qed.
End theorems.

(** ** Runs *)

Lemma srun_sound {Nt : Notify} `{UnicodeUpper, BuildProfile} order tls pid secret cfg acc l σ σ' :
  srun order tls pid secret cfg acc l σ = Some σ' → rtc (sstep order tls pid secret cfg acc) σ σ'.
Proof.
  revert σ. induction l as [|a l IH]; intros σ; simpl; [intros [= ->]; apply rtc_refl|].
  destruct (System.sexec order tls pid secret cfg acc a σ) as [σ1|] eqn:E; [|done]. simpl. intros Hl.
  eapply rtc_l; [by exists a|by apply IH].
Qed.
Lemma srun_app {Nt : Notify} `{UnicodeUpper, BuildProfile} order tls pid secret cfg acc l l' σ :
  srun order tls pid secret cfg acc (l ++ l') σ
  = srun order tls pid secret cfg acc l σ ≫= srun order tls pid secret cfg acc l'.
Proof.
  revert σ. induction l as [|a l IH]; intros σ; [done|]. simpl.
  destruct (System.sexec order tls pid secret cfg acc a σ); [apply IH|done].
Qed.
Lemma srun_one {Nt : Notify} `{UnicodeUpper, BuildProfile} order tls pid secret cfg acc a σ σ' :
  srun order tls pid secret cfg acc [a] σ = Some σ' → System.sexec order tls pid secret cfg acc a σ = Some σ'.
Proof. simpl. destruct (System.sexec _ _ _ _ _ _ _ _); [by intros [= <-]|done]. Qed.

(** ** Example runs *)

#[local] Existing Instance fifo_notify.
#[local] Existing Instance fifo_laws.
#[local] Existing Instance upper_id.
#[local] Existing Instance release_profile.

Abbreviation demo_sreach := (sreach map_to_list false 1 (λ _, 2) Config_default demo_accepts).
Abbreviation demo_srun := (srun map_to_list false 1 (λ _, 2) Config_default demo_accepts).

Definition demo_sys (l : list saction) : sys := default sys_new (demo_srun l sys_new).

Lemma demo_sys_reach l : ran (demo_srun l sys_new) = true → demo_sreach (demo_sys l).
Proof.
  unfold demo_sys. destruct (demo_srun l sys_new) as [σ|] eqn:E; [|done]. intros _. by eapply srun_sound.
Qed.

Lemma demo_sys_extend l l' :
  ran (demo_srun (l ++ l') sys_new) = true → demo_srun l' (demo_sys l) = Some (demo_sys (l ++ l')).
Proof.
  unfold demo_sys. rewrite srun_app. destruct (demo_srun l sys_new) as [σ|]; [|done]. simpl.
  by destruct (demo_srun l' σ).
Qed.

(** A login up to the call of [acquire], and one that opens a connection. *)
Definition knock (tid : nat) (user db : str) (params : list (str * str)) (password : str) : list saction :=
  [SAccept tid demo_sink; SBegin tid true; SClient tid (InRead (RdData (build_startup_message user db params)));
   SClient tid (InRead (RdData (frame "p"%byte (as_bytes password ++ [x00])))); SPool (APop tid)].
Definition login (tid : nat) (user db : str) (params : list (str * str)) (password : str) : list saction :=
  knock tid user db params password
  ++ [SPool (ACheck tid); SPool (AConnect tid ConnectOk); SClient tid (InAcquired demo_sink)].
(** The client closes its socket, the connection goes back into the pool. *)
Definition logout (tid : nat) : list saction :=
  [SClient tid (InProxied FromClient (RdData [])); SPool (AReset tid true); SReturn tid].

Definition demo_two : list saction :=
  login 0 (lit "alice") (lit "app") [(lit "max_db_size", lit "1MB")] (lit "right")
  ++ login 1 (lit "bob") (lit "shop") [] (lit "right").

Definition is_proxied (o : option client) : bool :=
  match o with Some (Running (InProxy _ _ _)) => true | _ => false end.

Example demo_two_runs :
  (ran (demo_srun demo_two sys_new), is_proxied (clients (demo_sys demo_two) !! 0%nat),
   is_proxied (clients (demo_sys demo_two) !! 1%nat)) = (true, true, true).
Proof. vm_compute. reflexivity. Qed.

Definition proxied_px (σ : sys) (tid : nat) : proxy :=
  match clients σ !! tid with
  | Some (Running (InProxy _ _ px)) => px
  | _ => mk_proxy demo_sink demo_sink [] [] scanner_new
  end.
Definition demo_info0 : ClientStartupInfo := mk_ClientStartupInfo (lit "alice") (lit "app") (lit "right") (Some 1048576) [].
Definition demo_info1 : ClientStartupInfo := mk_ClientStartupInfo (lit "bob") (lit "shop") (lit "right") None [].

Lemma demo_client0 :
  clients (demo_sys demo_two) !! 0%nat
  = Some (Running (InProxy demo_info0 (Fast false) (proxied_px (demo_sys demo_two) 0))).
Proof. vm_compute. reflexivity. Qed.
Lemma demo_client1 :
  clients (demo_sys demo_two) !! 1%nat
  = Some (Running (InProxy demo_info1 (Fast false) (proxied_px (demo_sys demo_two) 1))).
Proof. vm_compute. reflexivity. Qed.
Lemma demo_default : is_u64 (default_max_db_size_bytes (cfg_monitor Config_default)).
Proof. vm_compute. split; [discriminate|reflexivity]. Qed.
Lemma demo_two_reach : demo_sreach (demo_sys demo_two).
Proof. apply demo_sys_reach. vm_compute. reflexivity. Qed.
Lemma demo_two_few : few (demo_sys demo_two).
Proof. vm_compute. reflexivity. Qed.
#[local] Hint Resolve demo_default demo_two_reach demo_two_few demo_client0 demo_client1 : pgmux.

Lemma tenants_isolated_witness :
  let σ := demo_sys demo_two in
  ∃ si sj, tasks (s_pool σ) !! 0%nat = Some (Holding (pool_key Config_default demo_info0) si)
    ∧ tasks (s_pool σ) !! 1%nat = Some (Holding (pool_key Config_default demo_info1) sj) ∧ si ≠ sj.
Proof.
  destruct (tenants_isolated map_to_list false 1 (λ _, 2) Config_default demo_accepts demo_default
    (demo_sys demo_two) 0 1 demo_info0 demo_info1 _ _ _ _ demo_two_reach demo_two_few ltac:(discriminate)
    demo_client0 demo_client1) as (si & sj & _ & _ & H0 & H1 & Hne & _).
  exists si, sj. by split_and!.
Defined.

(** Bob, who asked for no limit, sends a query. *)
Definition bob_query : saction := SClient 1 (InProxied FromClient (RdData (blit "select"))).
Definition demo_bob : sys := demo_sys (demo_two ++ [bob_query]).
Lemma bob_step : demo_srun [bob_query] (demo_sys demo_two) = Some demo_bob.
Proof. apply demo_sys_extend. vm_compute. reflexivity. Qed.
Lemma bob_after : clients demo_bob !! 1%nat = Some (Running (InProxy demo_info1 (Fast false) (proxied_px demo_bob 1))).
Proof. vm_compute. reflexivity. Qed.
Lemma bob_unlimited : effective_limit Config_default demo_info1 = 0.
Proof. vm_compute. reflexivity. Qed.
Lemma unlimited_transparent_witness : sent (px_server (proxied_px demo_bob 1)) = [] ++ blit "select".
Proof.
  destruct (unlimited_transparent map_to_list false 1 (λ _, 2) Config_default demo_accepts demo_default
    (demo_sys demo_two) demo_bob 1 demo_info1 (Fast false) (proxied_px (demo_sys demo_two) 1) FromClient (blit "select")
    (Fast false) (proxied_px demo_bob 1) demo_two_reach demo_two_few bob_unlimited demo_client1 ltac:(discriminate)
    (srun_one _ _ _ _ _ _ _ _ _ bob_step) bob_after) as (_ & _ & H & _).
  rewrite H. f_equal.
Defined.

(** Bob's socket fails, then his backend is done. *)
Definition demo_error : list saction := demo_two ++ [SClient 1 (InProxied FromClient RdErr)].
Lemma registrations_exact_witness :
  clients (demo_sys demo_error) !! 1%nat = Some (Gone (Err IoError))
  ∧ is_Some (sessions (s_mon (demo_sys demo_error)).1 !! 2).
Proof.
  split; [vm_compute; reflexivity|].
  apply (registrations_exact map_to_list false 1 (λ _, 2) Config_default demo_accepts demo_default (demo_sys demo_error)).
  - apply demo_sys_reach. vm_compute. reflexivity.
  - vm_compute. reflexivity.
  - exists 1%nat, 1%nat, (Gone (Err IoError)). split_and!; vm_compute; reflexivity.
Defined.

(** A client whose startup length panics the task, between the two others. *)
Definition demo_panic : list saction :=
  demo_two ++ [SAccept 2 demo_sink; SBegin 2 true; SClient 2 (InRead (RdData (put_i32 3)))] ++ logout 0.
Lemma client_metrics_exact_witness :
  clients (demo_sys demo_panic) !! 2%nat = Some Unwound ∧ client_connections_active (demo_sys demo_panic) = 2.
Proof.
  split; [vm_compute; reflexivity|].
  destruct (client_metrics_exact map_to_list false 1 (λ _, 2) Config_default demo_accepts demo_default
    (demo_sys demo_panic)) as (_ & H & _).
  - apply demo_sys_reach. vm_compute. reflexivity.
  - vm_compute. reflexivity.
  - rewrite H. vm_compute. reflexivity.
Defined.

(** Alice's database is measured at 2 MB, over her limit of 1 MB. *)
Definition demo_over : list saction :=
  demo_two ++ [SMonitor (MBegin [lit "app"]); SMonitor (MConnect true); SMonitor (MSize (Some 2097152)); SMonitor (MFlags [1; 2]);
               SMonitor MFlag; SMonitor MFlag; SMonitor MDone].
Definition demo_insert : PgMessage := mk_PgMessage "Q"%byte (blit "insert" ++ [x00]).
Lemma limit_takes_effect_witness :
  ∃ σ' injected px',
    demo_srun [SClient 0 (InProxied FromClient (RdData (blit "x")));
               SClient 0 (InProxied FromServer (RdData (build_ready_for_query "I"%byte)));
               SClient 0 (InProxied FromClient (RdData (wire demo_insert ++ [])))] (demo_sys demo_over) = Some σ'
    ∧ clients σ' !! 0%nat = Some (Running (InProxy demo_info0 (Slow injected) px'))
    ∧ sent (px_server px') = blit "x" ++ wire (wrapped_query (lit "insert")).
Proof.
  destruct (limit_takes_effect map_to_list false 1 (λ _, 2) Config_default demo_accepts (demo_sys demo_over) 0 demo_info0
    false (proxied_px (demo_sys demo_over) 0) 1 0 1048576 2097152 (blit "x") (build_ready_for_query "I"%byte)
    (mk_scanner 0 (["Z"; "000"; "000"; "000"; "005"]%byte) 0 "I"%byte)
    [demo_insert]) as (σ' & i & px' & H1 & H2 & H3);
    [vm_compute; reflexivity..|vm_compute; discriminate|vm_compute; discriminate|vm_compute; reflexivity| | |].
  - by repeat constructor.
  - vm_compute. discriminate.
  - exists σ', i, px'. split; [exact H1|]. split; [exact H2|]. rewrite H3. vm_compute. reflexivity.
Defined.
