(* ===== verification/Login.v ===== *)
(** * Logins

    The steps of one client from its connection to the call of [acquire], and on
    to the proxy loop when the pool has an idle connection for its key. *)

From S2P Require Import Prelude RustStr Messages Startup Scanner Config Monitor Notify Pool PoolSys PoolThms Io Proxy Session System SystemThms.

(** What [handle_client] extracts from a startup message without options. *)
Lemma plain_params_lookup user database k :
  k ≠ lit "user" → k ≠ lit "database" →
  (insert_all ∅ [(lit "user", user); (lit "database", database)] : gmap str str) !! k = None.
Proof.
  intros H1 H2. unfold insert_all. cbn [foldl fst snd].
  rewrite !lookup_insert_ne by congruence. apply lookup_empty.
Qed.

(** The password message is taken as it is. *)
Lemma password_read_plain p w :
  str_ok p → 0 ∉ p → len (as_bytes p) + 5 ≤ MAX_MESSAGE_SIZE →
  password_read ([], w) (RdData (frame "p"%byte (as_bytes p ++ [x00]))) = Done (Ok (p, w)).
Proof.
  intros Hp H0 Hl. set (m := mk_PgMessage "p"%byte (as_bytes p ++ [x00])).
  change (frame "p"%byte (as_bytes p ++ [x00])) with (wire m).
  assert (Hm : msg_fits m) by (unfold msg_fits; subst m; cbn [payload]; rewrite len_app; unfold len in *; simpl; lia).
  pose proof (read_raw_wire m [] Hm) as Hr. rewrite app_nil_r in Hr.
  assert (Hr' : try_read_message ([] ++ wire m) false = Ok (Some m, [])) by (cbn [app]; by rewrite readers_agree, Hr).
  assert (Hne : ∃ b c, wire m = b :: c) by (unfold wire, frame; cbn [msg_type m app]; eauto).
  unfold password_read. destruct Hne as (b & c & E). rewrite E in Hr' |- *. rewrite Hr'. cbn [andthen].
  subst m. cbn [msg_type payload]. rewrite decide_True by done.
  rewrite position_nul_app by by apply as_bytes_no_nul. rewrite take_app_length.
  unfold utf8_or_err. by rewrite from_utf8_as_bytes.
Qed.

(** A writer that never fails takes everything. *)
Lemma send_all_ok o bs : send_all (mk_sink o None) bs = Ok (mk_sink (o ++ concat bs) None).
Proof.
  revert o. induction bs as [|b bs IH]; intros o; simpl; [by rewrite app_nil_r|].
  rewrite IH. by rewrite <-(assoc_L (++)).
Qed.

(** With a usable connection in the queue, the pop loop returns one. *)
Lemma pop_scan_usable c t l :
  Exists (λ x, expired c t x = false) l →
  ∃ n x r, pop_scan c t l = (n, Some x, r) ∧ x ∈ l ∧ expired c t x = false.
Proof.
  induction 1 as [x l Hx|x l _ IH]; simpl.
  - rewrite Hx. exists 0%nat, x, l. split_and!; [done|left|done].
  - destruct (expired c t x) eqn:Ex; [|by exists 0%nat, x, l; split_and!; [|left|]].
    destruct IH as (n & y & r & -> & Hy & He). exists (S n), y, r. split_and!; [done|by right|done].
Qed.

Section login.
Context {Nt : Notify} `{UnicodeUpper, BuildProfile}.
Context (order : gmap str str → list (str * str)) (tls : bool) (pid : Z) (secret : nat → Z).
Context (cfg : Config) (accepts : PoolKey → str → bool).

Abbreviation srun := (srun order tls pid secret cfg accepts).
Abbreviation sexec := (System.sexec order tls pid secret cfg accepts).

Definition plain_info (user database : str) : ClientStartupInfo :=
  mk_ClientStartupInfo user database [] None
    (filter (λ kv, kv.1 ∉ consumed_keys) (order (insert_all ∅ [(lit "user", user); (lit "database", database)]))).

Lemma plain_startup_info user database :
  startup_info order (insert_all ∅ [(lit "user", user); (lit "database", database)]) = Ok (plain_info user database).
Proof using Type.
  unfold startup_info, requested_limit, plain_info.
  rewrite (plain_params_lookup user database (lit "max_db_size")) by (vm_compute; discriminate).
  rewrite (plain_params_lookup user database (lit "options")) by (vm_compute; discriminate). cbn [mbind outcome_bind].
  unfold insert_all. cbn [foldl fst snd].
  rewrite (lookup_insert_ne _ (lit "database") (lit "user")) by (vm_compute; discriminate).
  by rewrite !lookup_insert_eq.
Qed.

(** A client that sends a startup message and a password. *)
Definition fresh : sink := mk_sink [] None.
Definition knock_at (tid : nat) (user database password : str) : list saction :=
  [SAccept tid fresh; SBegin tid true;
   SClient tid (InRead (RdData (build_startup_message user database [])));
   SClient tid (InRead (RdData (frame "p"%byte (as_bytes password ++ [x00]))))].

(** Names and passwords a message can carry. *)
Record sendable (user database password : str) : Prop := {
  sd_user : str_ok user ∧ 0 ∉ user;
  sd_database : str_ok database ∧ 0 ∉ database;
  sd_password : str_ok password ∧ 0 ∉ password;
  sd_startup : len (startup_payload user database []) + 4 < 2^31;
  sd_fits : len (as_bytes password) + 5 ≤ MAX_MESSAGE_SIZE
}.

Lemma sexec_client σ tid s e i s' cs σ1 :
  listening σ = true → clients σ !! tid = Some (Running s) → input_event σ tid s i = Some e →
  session_step order tls pid (secret tid) cfg s e = Some (Io.Waiting s', cs) →
  perform_all cfg accepts tid σ cs = Some σ1 →
  sexec (SClient tid i) σ = Some (with_client σ1 tid (Running s')).
Proof using Type.
  intros Hl Hc Hi Es Ep. unfold System.sexec. rewrite Hl, Hc. simpl. rewrite Hi. simpl. rewrite Es. simpl. by rewrite Ep.
Qed.

Definition auth_asked : sink := mk_sink build_auth_cleartext_request None.

Lemma startup_step user database password sec :
  sendable user database password →
  session_step order tls pid sec cfg (session_new fresh) (EvRead (RdData (build_startup_message user database [])))
  = Some (Io.Waiting (InPassword (plain_info user database) [] auth_asked), []).
Proof using Type.
  intros [[Hu Hu0] [Hd Hd0] _ Hlen _]. set (p := startup_payload user database []) in *.
  assert (Hpay : 4 ≤ len p).
  { subst p. unfold startup_payload. rewrite len_app, len_put_i32.
    match goal with |- context [4 + len ?x] => pose proof (len_nonneg x) end. lia. }
  unfold session_step, session_new.
  rewrite (startup_read_whole order tls [] (build_startup_message user database []) fresh p
             (insert_all ∅ [(lit "user", user); (lit "database", database)]) (plain_info user database)); [reflexivity| | | | | | |].
  - unfold build_startup_message. by destruct (put_i32 _) eqn:E; [apply (f_equal length) in E|].
  - done.
  - unfold build_startup_message. fold p. cbn [app]. pose proof (len_nonneg p).
    by rewrite i32_wrap_small by (unfold is_i32; lia).
  - done.
  - intros code. subst p. unfold startup_payload. rewrite get_put_i32 by (unfold is_i32; lia). by intros [= <-].
  - by apply (startup_payload_parse user database []).
  - apply plain_startup_info.
Qed.

Lemma password_step info password sec :
  str_ok password → 0 ∉ password → len (as_bytes password) + 5 ≤ MAX_MESSAGE_SIZE →
  session_step order tls pid sec cfg (InPassword info [] auth_asked)
    (EvRead (RdData (frame "p"%byte (as_bytes password ++ [x00]))))
  = Some (Io.Waiting (InAcquire (set_password info password) auth_asked),
          [CallAcquire (pool_key cfg info) password (ci_extra_params info)]).
Proof using Type. intros Hp Hp0 Hf. unfold session_step. by rewrite password_read_plain. Qed.

(** Up to [acquire]: the pool has seen one new call, the monitor nothing. *)
Lemma knock_runs σ tid user database password :
  listening σ = true → clients σ !! tid = None → tasks (s_pool σ) !! tid = None →
  sendable user database password →
  ∃ σ', srun (knock_at tid user database password) σ = Some σ'
    ∧ listening σ' = true ∧ s_mon σ' = s_mon σ
    ∧ clients σ' !! tid = Some (Running (InAcquire (set_password (plain_info user database) password) auth_asked))
    ∧ exec (cfg_pool cfg) accepts (AStart tid (pool_key cfg (plain_info user database)) password) (s_pool σ)
      = Some (s_pool σ').
Proof using Type.
  intros Hl Hc Ht Hs. pose proof (startup_step _ _ _ (secret tid) Hs) as Est.
  destruct Hs as [_ _ [Hp Hp0] _ Hf]. pose proof (password_step (plain_info user database) _ (secret tid) Hp Hp0 Hf) as Epw.
  set (σ1 := with_client σ tid (Spawned fresh)).
  set (σ2 := with_client (with_gauges σ1 (fetch_add1 (client_connections_total σ1)) (i64_wrap (client_connections_active σ1 + 1)))
               tid (Running (session_new fresh))).
  set (σ3 := with_client σ2 tid (Running (InPassword (plain_info user database) [] auth_asked))).
  assert (E1 : sexec (SAccept tid fresh) σ = Some σ1) by (unfold System.sexec; by rewrite Hl, Hc).
  assert (E2 : sexec (SBegin tid true) σ1 = Some σ2).
  { unfold System.sexec. subst σ1. cbn [listening with_client clients]. rewrite Hl. by rewrite lookup_insert_eq. }
  assert (E3 : sexec (SClient tid (InRead (RdData (build_startup_message user database [])))) σ2 = Some σ3).
  { eapply (sexec_client σ2); [done|apply lookup_insert_eq|done|exact Est|done]. }
  destruct (exec (cfg_pool cfg) accepts (AStart tid (pool_key cfg (plain_info user database)) password) (s_pool σ)) as [p|] eqn:Ep.
  2:{ destruct (s_pool σ); simpl in Ep, Ht. by rewrite Ht in Ep. }
  set (σ4 := with_client (with_pool σ3 p) tid
               (Running (InAcquire (set_password (plain_info user database) password) auth_asked))).
  exists σ4. split; [|by split_and!; [|done|apply lookup_insert_eq|]].
  assert (E4 : sexec (SClient tid (InRead (RdData (frame "p"%byte (as_bytes password ++ [x00]))))) σ3 = Some σ4).
  { eapply (sexec_client σ3); [done|apply lookup_insert_eq|done|exact Epw|].
    cbn [perform_all]. unfold perform. destruct (s_mon σ3). change (s_pool σ3) with (s_pool σ). by rewrite Ep. }
  unfold knock_at. cbn [System.srun]. rewrite E1. cbn [mbind option_bind]. rewrite E2. cbn [mbind option_bind].
  rewrite E3. cbn [mbind option_bind]. by rewrite E4.
Qed.

(** The rest of a login on a pooled connection. *)
Lemma pop_hit c acc tid k d σ :
  tasks σ !! tid = Some (Popping k d) →
  Exists (λ x, expired c (now σ) x = false) (idle (pool_at (mgr σ) k)) →
  ∃ σ' s, exec c acc (APop tid) σ = Some σ'
    ∧ tasks σ' !! tid = Some (Holding k s) ∧ s ∈ streams (pool_at (mgr σ) k) ∧ next_stream σ' = next_stream σ.
Proof using Type.
  destruct σ as [pw m ts t n l o]. cbn [tasks now mgr next_stream]. intros Ht Hx.
  destruct (pop_scan_usable _ _ _ Hx) as (e & x & r & E & Hin & _). cbn [exec]. rewrite Ht.
  unfold pop_idle. rewrite E. eexists _, (pc_stream x). split; [reflexivity|].
  split_and!; [apply lookup_insert_eq|by apply list_elem_of_fmap_2|done].
Qed.

Lemma pool_entry_at m k k' : pool_at (pool_entry m k) k' = pool_at m k'.
Proof using Type.
  unfold pool_entry. destruct (pools m !! k) eqn:E; [done|]. unfold pool_at, set_pool. cbn [pools].
  destruct (decide (k = k')) as [<-|Hk]; [by rewrite lookup_insert_eq, E|by rewrite lookup_insert_ne].
Qed.

Lemma start_pops c acc tid k w σ σ' :
  exec c acc (AStart tid k w) σ = Some σ' →
  (∃ d, tasks σ' !! tid = Some (Popping k d)) ∧ now σ' = now σ ∧ next_stream σ' = next_stream σ
  ∧ pool_at (mgr σ') k = pool_at (mgr σ) k.
Proof using Type.
  destruct σ as [pw m ts t n l o]. cbn [exec tasks now mgr next_stream]. case_match; [done|]. intros [= <-].
  cbn [tasks now mgr next_stream]. split_and!; [eexists; apply lookup_insert_eq|done|done|by rewrite pool_entry_at].
Qed.

Lemma register_keeps_pool tid σ db n :
  ∃ σ', perform cfg accepts tid σ (CallRegisterSession db n) = Some σ' ∧ s_pool σ' = s_pool σ.
Proof using Type.
  unfold perform. destruct (s_mon σ) as [m ph]. destruct (register_session m db n) as [m' r]. by eexists.
Qed.

(** The pool key of a user and a database. *)
Definition plain_key (user database : str) : PoolKey :=
  mk_PoolKey (upstream_host cfg) (upstream_port cfg) database user.

(** The whole login. *)
Definition login_at (tid : nat) (user database password : str) : list saction :=
  knock_at tid user database password ++ [SPool (APop tid); SClient tid (InAcquired fresh)].

(** C32. A login needs no password while the pool has a usable connection.  In any
    state of the server in which the idle queue of a user and a database holds a
    connection that is not expired, a new client that names that user and that
    database and sends any password at all, also one that the PostgreSQL server
    would reject ([accepts] is arbitrary), is greeted as authenticated and proxied
    on one of these connections: the password goes to no server. *)
Theorem login_without_password σ tid user database password :
  listening σ = true → clients σ !! tid = None → tasks (s_pool σ) !! tid = None →
  sendable user database password →
  Exists (λ x, expired (cfg_pool cfg) (now (s_pool σ)) x = false)
    (idle (pool_at (mgr (s_pool σ)) (plain_key user database))) →
  ∃ σ' s info px,
    srun (login_at tid user database password) σ = Some σ'
    ∧ clients σ' !! tid = Some (Running (InProxy info (Fast false) px))
    ∧ ci_user info = user ∧ ci_database info = database ∧ ci_password info = password
    ∧ tasks (s_pool σ') !! tid = Some (Holding (plain_key user database) s)
    ∧ s ∈ streams (pool_at (mgr (s_pool σ)) (plain_key user database))
    ∧ next_stream (s_pool σ') = next_stream (s_pool σ)
    ∧ sent (px_client px) = build_auth_cleartext_request ++ concat (greeting pid (secret tid)).
Proof using Type.
  intros Hl Hc Ht Hs Hidle.
  destruct (knock_runs σ tid user database password Hl Hc Ht Hs) as (σ1 & Hrun & Hl1 & _ & Hc1 & Hstart).
  change (pool_key cfg (plain_info user database)) with (plain_key user database) in Hstart.
  destruct (start_pops _ _ _ _ _ _ _ Hstart) as ([d Hpop] & Hnow & Hnext & Hat).
  rewrite <-Hat, <-Hnow in Hidle.
  destruct (pop_hit _ accepts _ _ _ _ Hpop Hidle) as (p2 & s & Epop & Hhold & Hin & Hnext2).
  set (info := set_password (plain_info user database) password) in *.
  set (σ2 := with_pool σ1 p2).
  assert (E2 : sexec (SPool (APop tid)) σ1 = Some σ2).
  { unfold System.sexec. rewrite Hl1. simpl. by rewrite Epop. }
  set (px := mk_proxy (mk_sink (build_auth_cleartext_request ++ concat (greeting pid (secret tid))) None) fresh [] []
               scanner_new).
  destruct (register_keeps_pool tid σ2 (ci_database info)
              (default 0 (session_limit (cfg_monitor cfg) (ci_max_db_size info)))) as (σ3 & Ep & Hp3).
  assert (Est : session_step order tls pid (secret tid) cfg (InAcquire info auth_asked) (EvAcquired fresh)
    = Some (Io.Waiting (InProxy info (Fast false) px),
            [CallRegisterSession (ci_database info) (default 0 (session_limit (cfg_monitor cfg) (ci_max_db_size info)))])).
  { unfold session_step, on_acquired, auth_asked. by rewrite send_all_ok. }
  exists (with_client σ3 tid (Running (InProxy info (Fast false) px))), s, info, px. split.
  { unfold login_at. rewrite srun_app, Hrun. cbn [mbind option_bind System.srun]. rewrite E2. cbn [mbind option_bind].
    erewrite (sexec_client σ2 tid _ (EvAcquired fresh) (InAcquired fresh) _ _ σ3 Hl1 Hc1); [reflexivity| |exact Est|].
    - unfold input_event. change (s_pool σ2) with p2. by rewrite Hhold.
    - cbn [perform_all]. by rewrite Ep. }
  split; [apply lookup_insert_eq|]. cbn [s_pool with_client]. rewrite Hp3. change (s_pool σ2) with p2.
  split_and!; [done..|exact Hhold|by rewrite <-Hat|by rewrite Hnext2|done].
Qed.
End login.

(** ** Example *)

#[local] Existing Instance fifo_notify.
#[local] Existing Instance upper_id.
#[local] Existing Instance release_profile.

(** Alice logs in with the right password and leaves; the server accepts
    nothing but that password. *)
Definition demo_left : sys := demo_sys (login 0 (lit "alice") (lit "app") [] (lit "right") ++ logout 0).

Lemma login_without_password_witness :
  demo_sreach demo_left
  ∧ demo_accepts (plain_key Config_default (lit "alice") (lit "app")) (lit "wrong") = false
  ∧ ∃ σ' s info px,
      srun map_to_list false 1 (λ _, 2) Config_default demo_accepts
        (login_at 1 (lit "alice") (lit "app") (lit "wrong")) demo_left = Some σ'
      ∧ clients σ' !! 1%nat = Some (Running (InProxy info (Fast false) px))
      ∧ ci_password info = lit "wrong"
      ∧ tasks (s_pool σ') !! 1%nat = Some (Holding (plain_key Config_default (lit "alice") (lit "app")) s).
Proof.
  split; [apply demo_sys_reach; vm_compute; reflexivity|]. split; [vm_compute; reflexivity|].
  destruct (login_without_password map_to_list false 1 (λ _, 2) Config_default demo_accepts demo_left 1
    (lit "alice") (lit "app") (lit "wrong")) as (σ' & s & info & px & Hr & Hc & _ & _ & Hp & Ht & _).
  - vm_compute. reflexivity.
  - vm_compute. reflexivity.
  - vm_compute. reflexivity.
  - split; [split; str_literal..| |]; vm_compute; [reflexivity|discriminate].
  - apply Exists_exists. eexists. split; [vm_compute; left|]. vm_compute. reflexivity.
  - exists σ', s, info, px. split_and!; [exact Hr|exact Hc|exact Hp|exact Ht].
Defined.
