(* ===== verification/Metrics.v ===== *)
(** * Metrics (src/admin/metrics.rs)

    [Metrics::new] allocates the counters, gauges and families and registers a
    clone of each.  A metric is an [Arc] and a clone shares it, so a metric is
    represented by the number of its allocation; the values are where they are
    counted: the client counters in System.v, the server and pool counters in
    Pool.v, the database gauges in Monitor.v.  The registry of the
    prometheus-client crate is the list of the calls of [register]; its text
    encoder is the class [TextEncoder]. *)

From S2P Require Import Prelude RustStr Config Monitor Notify Pool PoolSys System.

Record DatabaseLabels := mk_DatabaseLabels { database : str }.

Record registration := mk_registration { rg_name : str; rg_help : str; rg_metric : nat }.

Record Metrics := mk_Metrics {
  registry : list registration;
  m_client_connections_total : nat;
  m_client_connections_active : nat;
  m_server_connections_total : nat;
  m_server_connections_active : nat;
  m_server_connection_errors_total : nat;
  m_pool_hits_total : nat;
  m_pool_misses_total : nat;
  m_pool_timeouts_total : nat;
  m_db_size_bytes : nat;
  m_db_size_limit_bytes : nat;
  m_db_over_limit : nat
}.

(** [registry.register(name, help, metric.clone())]. *)
Definition register (r : list registration) (name help : str) (metric : nat) : list registration :=
  r ++ [mk_registration name help metric].

Definition Metrics_new : Metrics :=
  let client_connections_total := 0%nat in
  let client_connections_active := 1%nat in
  let server_connections_total := 2%nat in
  let server_connections_active := 3%nat in
  let server_connection_errors_total := 4%nat in
  let pool_hits_total := 5%nat in
  let pool_misses_total := 6%nat in
  let pool_timeouts_total := 7%nat in
  let db_size_bytes := 8%nat in
  let db_size_limit_bytes := 9%nat in
  let db_over_limit := 10%nat in
  let r := [] in
  let r := register r (lit "pgmux_client_connections_total")
             (lit "Total client connections accepted") client_connections_total in
  let r := register r (lit "pgmux_client_connections_active")
             (lit "Currently active client connections") client_connections_active in
  let r := register r (lit "pgmux_server_connections_total")
             (lit "Total server connections created") server_connections_total in
  let r := register r (lit "pgmux_server_connections_active")
             (lit "Currently active server connections") server_connections_active in
  let r := register r (lit "pgmux_server_connection_errors_total")
             (lit "Total server connection errors") server_connection_errors_total in
  let r := register r (lit "pgmux_pool_hits_total")
             (lit "Connections served from pool") pool_hits_total in
  let r := register r (lit "pgmux_pool_misses_total")
             (lit "Connections that required new backend connection") pool_misses_total in
  let r := register r (lit "pgmux_pool_timeouts_total")
             (lit "Connection acquire timeouts") pool_timeouts_total in
  let r := register r (lit "pgmux_db_size_bytes")
             (lit "Current database size in bytes") db_size_bytes in
  let r := register r (lit "pgmux_db_size_limit_bytes")
             (lit "Configured database size limit in bytes") db_size_limit_bytes in
  let r := register r (lit "pgmux_db_over_limit")
             (lit "Whether database is over its size limit (1=over, 0=ok)") db_over_limit in
  mk_Metrics r client_connections_total client_connections_active server_connections_total
    server_connections_active server_connection_errors_total pool_hits_total pool_misses_total
    pool_timeouts_total db_size_bytes db_size_limit_bytes db_over_limit.

(** ** Values *)

(** What a metric holds; a family has one gauge per label set. *)
Inductive sample :=
  | SCounter (v : Z)
  | SGauge (v : Z)
  | SFamily (gauges : gmap str Z).

Section values.
Context {Nt : Notify}.

(** The fields of the struct with the values of the running server. *)
Definition fields (m : Metrics) (σ : sys) : list (nat * sample) :=
  let x := pm_metrics (mgr (s_pool σ)) in
  [(m_client_connections_total m, SCounter (client_connections_total σ));
   (m_client_connections_active m, SGauge (client_connections_active σ));
   (m_server_connections_total m, SCounter (server_connections_total x));
   (m_server_connections_active m, SGauge (server_connections_active x));
   (m_server_connection_errors_total m, SCounter (server_connection_errors_total x));
   (m_pool_hits_total m, SCounter (pool_hits_total x));
   (m_pool_misses_total m, SCounter (pool_misses_total x));
   (m_pool_timeouts_total m, SCounter (pool_timeouts_total x));
   (m_db_size_bytes m, SFamily (g_db_size_bytes (s_mon σ).1));
   (m_db_size_limit_bytes m, SFamily (g_db_size_limit_bytes (s_mon σ).1));
   (m_db_over_limit m, SFamily (g_db_over_limit (s_mon σ).1))].

(** Reading a metric through its allocation. *)
Fixpoint assoc (i : nat) (l : list (nat * sample)) : option sample :=
  match l with
  | [] => None
  | (j, x) :: r => if decide (i = j) then Some x else assoc i r
  end.

(** What a scrape reads: every registered metric, in the order of
    registration.  The metrics are read one after the other while the server runs:
    [at_ i] is its state when the [i]-th is read. *)
Definition gather (m : Metrics) (at_ : nat → sys) : list (str * str * sample) :=
  omap id (imap (λ i r, (λ x, (rg_name r, rg_help r, x)) <$> assoc (rg_metric r) (fields m (at_ i))) (registry m)).
End values.

(** ** The text encoder *)

Class TextEncoder := {
  text : Type;
  encode_text : list (str * str * sample) → option text    (* [None]: a formatting error *)
}.

(** What prometheus-client documents of the OpenMetrics format: the name of a
    counter's sample is the registered name with [_total] appended, that of a
    gauge the registered name, and a family has one sample per label set. *)
Definition sample_names (x : str * str * sample) : list str :=
  match x with
  | (n, _, SCounter _) => [n ++ lit "_total"]
  | (n, _, SGauge _) => [n]
  | (n, _, SFamily g) => replicate (size g) n
  end.
Class EncoderLaws `{TextEncoder} := {
  exposed : text → list str;                               (* the sample names a scraper reads *)
  encode_ok : ∀ l, is_Some (encode_text l);
  encode_names : ∀ l t, encode_text l = Some t → exposed t = l ≫= sample_names
}.

(** An encoder that keeps the laws: just the names. *)
Definition names_encoder : TextEncoder :=
  {| text := list str; encode_text := λ l, Some (l ≫= sample_names) |}.
Definition names_encoder_laws : @EncoderLaws names_encoder.
Proof.
  refine (@Build_EncoderLaws names_encoder (λ t, t) _ _); [by eexists|by intros l t [= <-]].
Defined.
