(* ===== verification/Admin.v ===== *)
(** * The admin server (src/admin/server.rs)

    The routes and the handlers, as functions of the state of the running
    server.  A JSON value is a tree; serde_json's printer is the class
    [JsonPrinter], the metrics encoder [TextEncoder].  axum decides what it
    answers on other paths and methods. *)

From S2P Require Import Prelude RustStr Config Monitor Notify Pool PoolSys PoolThms System Metrics Dashboard.

(** ** JSON *)

#[warnings="-register-all"]
Inductive json :=
  | JNull
  | JBool (b : bool)
  | JNum (n : Z)
  | JStr (s : str)
  | JArr (l : list json)
  | JObj (l : list (str * json)).    (* the fields, in the order of the source; a printer may sort them *)

(** [serde_json::to_string]; [None] is an error. *)
Class JsonPrinter := { to_string : json → option str }.

(** [impl Serialize] of the two reports; [serialize_pool_key] prints the key. *)
Definition json_of_pool (p : PoolStats) : json :=
  JObj [(lit "key", JStr (display_key (ps_key p))); (lit "idle_connections", JNum (ps_idle p));
        (lit "active_connections", JNum (ps_active p)); (lit "total_acquired", JNum (ps_acquired p));
        (lit "total_errors", JNum (ps_errors p))].
Definition json_opt (o : option Z) : json := from_option JNum JNull o.
Definition json_of_db (d : DbSizeInfo) : json :=
  JObj [(lit "database", JStr (dsi_database d)); (lit "size_bytes", json_opt (size_bytes d));
        (lit "limit_bytes", json_opt (limit_bytes d)); (lit "over_limit", JBool (over_limit d))].

(** ** State and responses *)

(** [AdminState]: the registry and the two shared objects, here with the
    server they belong to.  The server runs while a handler does: [as_server i] is
    its state when the handler reads a shared object for the [i]-th time. *)
Record AdminState {Nt : Notify} := mk_AdminState {
  as_metrics : Metrics;
  as_server : nat → sys
}.
Arguments mk_AdminState {_} _ _.
Definition pool_manager {Nt : Notify} (st : AdminState) (i : nat) : PoolManager := mgr (s_pool (as_server st i)).
Definition size_monitor {Nt : Notify} (st : AdminState) (i : nat) : DbSizeMonitor := (s_mon (as_server st i)).1.

Inductive response `{TextEncoder} :=
  | Json (j : json)
  | Html (page : str)
  | Text (status : Z) (content_type : str) (body : text).

(** ** The dashboard *)

(** [join] of slices. *)
Fixpoint join (sep : str) (l : list str) : str :=
  match l with
  | [] => []
  | [x] => x
  | x :: r => x ++ sep ++ join sep r
  end.

Definition td (s : str) : str := lit "<td>" ++ s ++ lit "</td>".

Definition pool_badge (errors : Z) : str :=
  if 0 <? errors then html "<span class=^badge badge-warn^>errors</span>"
  else html "<span class=^badge badge-ok^>healthy</span>".
Definition pool_row (p : PoolStats) : str :=
  lit "<tr>" ++ td (display_key (ps_key p)) ++ td (fmt_uint (ps_active p)) ++ td (fmt_uint (ps_idle p))
  ++ td (fmt_uint (ps_acquired p)) ++ td (fmt_uint (ps_errors p)) ++ td (pool_badge (ps_errors p)) ++ lit "</tr>".

Definition db_badge (over : bool) : str :=
  if over then html "<span class=^badge badge-danger^>READ-ONLY</span>"
  else html "<span class=^badge badge-ok^>OK</span>".
Definition db_row (d : DbSizeInfo) : str :=
  let size_str := default (lit "-") (format_bytes <$> size_bytes d) in
  let limit_str := default (lit "unlimited") (format_bytes <$> limit_bytes d) in
  let status := db_badge (over_limit d) in
  lit "<tr>" ++ td (dsi_database d) ++ td size_str ++ td limit_str ++ td (lit "-") ++ td status ++ lit "</tr>".

Definition newline : str := [10].

Section admin.
Context {Nt : Notify} `{JsonPrinter, TextEncoder}.
Context (cfg : Config).

Definition generate_dashboard_html (pools : list PoolStats) (databases : list DbSizeInfo)
    (total_connections : Z) : str :=
  let pools_json := default (lit "[]") (to_string (JArr (json_of_pool <$> pools))) in
  let dbs_json := default (lit "[]") (to_string (JArr (json_of_db <$> databases))) in
  html dashboard_head ++ fmt_uint total_connections
  ++ html dashboard_to_pool_count ++ fmt_uint (len pools)
  ++ html dashboard_to_db_count ++ fmt_uint (len databases)
  ++ html dashboard_to_pools ++ join newline (pool_row <$> pools)
  ++ html dashboard_to_databases ++ join newline (db_row <$> databases)
  ++ html dashboard_to_pools_json ++ pools_json
  ++ html dashboard_to_dbs_json ++ dbs_json
  ++ html dashboard_script.

(** ** Handlers *)

Definition health_handler : response := Json (JObj [(lit "status", JStr (lit "ok"))]).

(** [expect]: a failed encoding panics. *)
Definition metrics_handler (st : AdminState) : outcome response :=
  buf ← unwrap (encode_text (gather (as_metrics st) (as_server st)));
  Ok (Text 200 (lit "application/openmetrics-text; version=1.0.0; charset=utf-8") buf).

(** Three reads of the shared objects, one after the other. *)
Definition stats_handler (st : AdminState) : response :=
  let pool_stats := get_stats (pool_manager st 0) in
  let db_info := get_all_db_info cfg (size_monitor st 1) in
  Json (JObj [(lit "total_server_connections", JNum (total_connections (pool_manager st 2)));
              (lit "pools", JArr (json_of_pool <$> pool_stats));
              (lit "databases", JArr (json_of_db <$> db_info))]).

Definition pools_handler (st : AdminState) : response :=
  Json (JArr (json_of_pool <$> get_stats (pool_manager st 0))).

Definition databases_handler (st : AdminState) : response :=
  Json (JArr (json_of_db <$> get_all_db_info cfg (size_monitor st 0))).

Definition dashboard_handler (st : AdminState) : response :=
  let pool_stats := get_stats (pool_manager st 0) in
  let db_info := get_all_db_info cfg (size_monitor st 1) in
  let total_conns := total_connections (pool_manager st 2) in
  Html (generate_dashboard_html pool_stats db_info total_conns).

(** ** Routes: a handler for [GET] of each path *)

Definition routes : list (str * (AdminState → outcome response)) :=
  [(lit "/", λ st, Ok (dashboard_handler st)); (lit "/health", λ _, Ok health_handler);
   (lit "/metrics", metrics_handler); (lit "/api/stats", λ st, Ok (stats_handler st));
   (lit "/api/pools", λ st, Ok (pools_handler st)); (lit "/api/databases", λ st, Ok (databases_handler st))].

Fixpoint find_route (path : str) (l : list (str * (AdminState → outcome response)))
    : option (AdminState → outcome response) :=
  match l with
  | [] => None
  | (p, h) :: r => if decide (path = p) then Some h else find_route path r
  end.

(** What the program answers on a path ([None]: axum answers by itself). *)
Definition get (path : str) (st : AdminState) : option (outcome response) :=
  (λ h, h st) <$> find_route path routes.
End admin.
