(* ===== verification/AdminThms.v ===== *)
(** * What the admin server reports

    The reports of the routes in the reachable states of the server. *)

From S2P Require Import Prelude RustStr Messages Startup Config Monitor MonitorRun Notify Pool PoolSys PoolThms PoolLife Io Proxy Session System SystemThms Login Metrics Dashboard Admin.

(** ** Metrics *)

(** The names a scraper sees.  All eleven metrics of the struct are
    registered, each once and under its own name, and a scrape gives each name
    the value its own field has at the moment it is read; but the counters,
    registered under names that already end in [_total], are exposed with the
    suffix twice, as [pgmux_pool_hits_total_total] and so on. *)
Theorem metrics_exposed {Nt : Notify} `{TextEncoder} `{!EncoderLaws} (st : AdminState) :
  as_metrics st = Metrics_new →
  gather (as_metrics st) (as_server st)
  = imap (λ i r, (rg_name r, rg_help r, (nth i (fields Metrics_new (as_server st i)) (0%nat, SCounter 0)).2))
      (registry Metrics_new)
  ∧ NoDup (rg_name <$> registry Metrics_new)
  ∧ ∃ body, metrics_handler st = Ok (Text 200 (lit "application/openmetrics-text; version=1.0.0; charset=utf-8") body)
      ∧ take 8 (exposed body)
        = lit <$> ["pgmux_client_connections_total_total"; "pgmux_client_connections_active";
                   "pgmux_server_connections_total_total"; "pgmux_server_connections_active";
                   "pgmux_server_connection_errors_total_total"; "pgmux_pool_hits_total_total";
                   "pgmux_pool_misses_total_total"; "pgmux_pool_timeouts_total_total"]%string.
Proof.
  destruct st as [m at_]. cbn [as_metrics]. intros ->. split; [reflexivity|]. split; [apply (bool_decide_unpack _); vm_compute; exact I|].
  unfold metrics_handler. cbn [as_metrics as_server].
  destruct (encode_ok (gather Metrics_new at_)) as [body E].
  exists body. split; [by rewrite E|]. rewrite (encode_names _ _ E). reflexivity.
Qed.

#[local] Existing Instance fifo_notify.
#[local] Existing Instance names_encoder.
#[local] Existing Instance names_encoder_laws.

Lemma metrics_exposed_witness :
  let st := mk_AdminState Metrics_new (λ _, demo_sys demo_two) in
  ∃ body : list str, metrics_handler st
      = Ok (Text 200 (lit "application/openmetrics-text; version=1.0.0; charset=utf-8") body)
    ∧ head body = Some (lit "pgmux_client_connections_total_total").
Proof.
  destruct (metrics_exposed (mk_AdminState Metrics_new (λ _, demo_sys demo_two)) eq_refl)
    as (_ & _ & body & E & Hb).
  exists body. split; [exact E|]. cbn [exposed names_encoder_laws] in Hb. destruct body as [|n body]; [done|].
  simpl in Hb |- *. by injection Hb as ->.
Defined.

(** ** The reports of a reachable server *)

(** A field of an object and the elements of an array. *)
Fixpoint jassoc (name : str) (l : list (str * json)) : json :=
  match l with
  | [] => JNull
  | (n, v) :: r => if decide (name = n) then v else jassoc name r
  end.
Definition jfield (name : str) (j : json) : json := match j with JObj l => jassoc name l | _ => JNull end.
Definition jnum (j : json) : Z := match j with JNum n => n | _ => 0 end.
Definition jelems (j : json) : list json := match j with JArr l => l | _ => [] end.
Definition jstr (j : json) : str := match j with JStr s => s | _ => [] end.

(** The numbers of a pool and of a database in the reports. *)
Lemma json_of_pool_fields p :
  jstr (jfield (lit "key") (json_of_pool p)) = display_key (ps_key p)
  ∧ jnum (jfield (lit "idle_connections") (json_of_pool p)) = ps_idle p
  ∧ jnum (jfield (lit "active_connections") (json_of_pool p)) = ps_active p.
Proof. by split_and!. Qed.

Section reports.
Context {Nt : Notify} `{UnicodeUpper, BuildProfile, JsonPrinter, TextEncoder}.
Context (order : gmap str str → list (str * str)) (tls : bool) (pid : Z) (secret : nat → Z).
Context (cfg : Config) (accepts : PoolKey → str → bool).

Abbreviation sstep := (System.sstep order tls pid secret cfg accepts).

(** The keys of [get_stats]. *)
Lemma listed_keys (m : PoolManager) :
  (λ p, jstr (jfield (lit "key") p)) <$> (json_of_pool <$> get_stats m) ≡ₚ display_key <$> elements (dom (Pool.pools m)).
Proof using Type.
  unfold get_stats. rewrite <-!list_fmap_compose.
  rewrite (list_fmap_ext _ (display_key ∘ fst)) by done.
  rewrite list_fmap_compose. apply fmap_Permutation.
  apply NoDup_Permutation; [apply NoDup_fst_map_to_list|apply NoDup_elements|].
  intros k. rewrite elem_of_elements, elem_of_dom, list_elem_of_fmap. split.
  - intros ([k' p] & -> & Hk%elem_of_map_to_list). by eexists.
  - intros [p Hk]. exists (k, p). split; [done|]. by apply elem_of_map_to_list.
Qed.

(** The idle and active connections a report lists. *)
Definition listed_connections (pools : list json) : Z :=
  zsum (λ p, jnum (jfield (lit "idle_connections") p) + jnum (jfield (lit "active_connections") p)) pools.

(** The steps of the server are steps of its pool. *)
Lemma perform_pool tid cs : ∀ σ σ',
  perform_all cfg accepts tid σ cs = Some σ' → rtc (pstep (cfg_pool cfg) accepts) (s_pool σ) (s_pool σ').
Proof using Type.
  induction cs as [|cl cs IH]; intros σ σ'; cbn [perform_all]; [by intros [= ->]|].
  destruct (perform cfg accepts tid σ cl) as [σ1|] eqn:E; [|done]. cbn [mbind option_bind]. intros Hr%IH.
  etrans; [|exact Hr]. clear Hr. unfold perform in E. destruct (s_mon σ) as [m p].
  destruct cl as [k w ep|db n|db n| |k].
  - destruct (exec _ _ _ _) eqn:Ex; simplify_eq/=. eapply rtc_once, exec_sound. exact Ex.
  - by simplify_eq/=.
  - destruct (register_session m db n). by simplify_eq/=.
  - destruct (regs σ !! tid) as [[]|]; by simplify_eq/=.
  - destruct (exec _ _ _ _) eqn:Ex; simplify_eq/=. eapply rtc_once, exec_sound. exact Ex.
Qed.

Lemma leave_pool σ tid r : rtc (pstep (cfg_pool cfg) accepts) (s_pool σ) (s_pool (leave cfg accepts σ tid r)).
Proof using Type.
  assert (He : ∀ σ0, s_pool (end_client σ0 tid r) = s_pool σ0) by (by intros ?; destruct r).
  unfold leave. destruct (tasks (s_pool σ) !! tid) as [[]|]; rewrite ?He; try done.
  destruct (exec _ _ _ _) eqn:Ex; [|done]. cbn. eapply rtc_once, exec_sound. exact Ex.
Qed.

Lemma step_pool σ σ' : sstep σ σ' → rtc (pstep (cfg_pool cfg) accepts) (s_pool σ) (s_pool σ').
Proof using Type.
  intros [a E]. unfold sexec in E. destruct (negb (listening σ)); [done|]. destruct a as [tid w| |tid nd|tid i|tid|a|a].
  - destruct (clients σ !! tid); by simplify_eq/=.
  - by simplify_eq/=.
  - destruct (clients σ !! tid) as [[]|]; simplify_eq/=. destruct (session_start nd _); [done|]. by rewrite <-leave_pool.
  - destruct (clients σ !! tid) as [[]|]; try done.
    destruct (input_event σ tid s i) as [e|]; [|done]. cbn [mbind option_bind] in E.
    destruct (session_step _ _ _ _ _ _ _) as [[p cs]|]; [|done]. cbn [mbind option_bind] in E.
    destruct (perform_all _ _ _ _ _) as [σ1|] eqn:Ep; [|done]. cbn [mbind option_bind] in E. simplify_eq.
    apply perform_pool in Ep. etrans; [exact Ep|]. destruct p; [done|]. apply leave_pool.
  - destruct (clients σ !! tid) as [[]|], (tasks (s_pool σ) !! tid) as [[]|]; by simplify_eq/=.
  - destruct (pool_internal a); [|done]. destruct (exec _ _ _ _) eqn:Ex; simplify_eq/=. eapply rtc_once, exec_sound. exact Ex.
  - destruct (mexec _ _ _); by simplify_eq/=.
Qed.

Lemma steps_pool σ σ' : rtc sstep σ σ' → rtc (pstep (cfg_pool cfg) accepts) (s_pool σ) (s_pool σ').
Proof using Type. induction 1 as [|σ σ1 σ' Hst _ IH]; [done|]. etrans; [by apply step_pool|done]. Qed.

(** C21. The reports, made while the server goes on.  [/api/stats] reads the pools,
    then the databases, then the total, and any steps of the server may come
    between these reads ([σ0], [σ1] and [σ2] are its states when they happen).
    Every pool there is at [σ0] is listed exactly once and is still there at
    [σ2].  The total is the number of idle and active connections of the pools at
    [σ2] plus those being reset then, and the gauge of the metrics shows the
    same number at [σ2]; so it is the sum of the listed ones plus the resets
    when the pool did not change in between, and need not be otherwise.  The
    databases are sorted, each listed once, and marked over their limit exactly
    when size and limit are known and the size is larger.  [/api/pools] and
    [/api/databases] report the same lists for the moment they read. *)
Theorem admin_reports_agree st :
  let σ0 := as_server st 0 in let σ1 := as_server st 1 in let σ2 := as_server st 2 in
  is_u64 (default_max_db_size_bytes (cfg_monitor cfg)) →
  sreach order tls pid secret cfg accepts σ0 → rtc sstep σ0 σ1 → rtc sstep σ1 σ2 →
  few σ2 → cnt anywhere (loc (s_pool σ2)) < 2^64 →
  ∃ total pools dbs,
    get cfg (lit "/api/stats") st
      = Some (Ok (Json (JObj [(lit "total_server_connections", JNum total); (lit "pools", JArr pools);
                              (lit "databases", JArr dbs)])))
    ∧ get cfg (lit "/api/pools") (mk_AdminState (as_metrics st) (λ _, σ0)) = Some (Ok (Json (JArr pools)))
    ∧ get cfg (lit "/api/databases") (mk_AdminState (as_metrics st) (λ _, σ1)) = Some (Ok (Json (JArr dbs)))
    ∧ (λ p, jstr (jfield (lit "key") p)) <$> pools ≡ₚ display_key <$> elements (dom (Pool.pools (mgr (s_pool σ0))))
    ∧ dom (Pool.pools (mgr (s_pool σ0))) ⊆ dom (Pool.pools (mgr (s_pool σ2)))
    ∧ total = listed_connections (json_of_pool <$> get_stats (mgr (s_pool σ2))) + cnt is_resetting (tasks (s_pool σ2))
    ∧ (∃ g, assoc (m_server_connections_active Metrics_new) (fields Metrics_new σ2) = Some (SGauge g) ∧ g ≡₆₄ total)
    ∧ (s_pool σ0 = s_pool σ2 → total = listed_connections pools + cnt is_resetting (tasks (s_pool σ0)))
    ∧ ∃ infos, dbs = json_of_db <$> infos ∧ StronglySorted info_le infos ∧ NoDup (dsi_database <$> infos)
      ∧ ∀ i, i ∈ infos → (over_limit i = true ↔
          ∃ s l, size_bytes i = Some s ∧ limit_bytes i = Some l ∧ l < s).
Proof using Type.
  intros σ0 σ1 σ2 Hd H0' H1' H2' Hf Hb.
  assert (Hr : sreach order tls pid secret cfg accepts σ2) by (unfold sreach in *; etrans; [exact H0'|]; by etrans).
  pose proof (reach_sinv _ _ _ _ _ _ Hd _ Hr Hf) as Hi. pose proof (si_pool _ _ _ Hi) as Hp.
  assert (Htot : total_connections (mgr (s_pool σ2))
    = listed_connections (json_of_pool <$> get_stats (mgr (s_pool σ2))) + cnt is_resetting (tasks (s_pool σ2))).
  { rewrite (reach_conservation _ _ _ Hp Hb). f_equal. unfold listed_connections. rewrite zsum_fmap. by apply zsum_ext. }
  eexists _, _, _. split; [reflexivity|]. split; [reflexivity|]. split; [reflexivity|]. split_and!.
  - apply listed_keys.
  - assert (Hs : rtc (pstep (cfg_pool cfg) accepts) (s_pool σ0) (s_pool σ2)) by (apply steps_pool; by etrans).
    intros k. rewrite !elem_of_dom. intros Hk. by apply (reach_grows _ _ _ _ Hs).
  - exact Htot.
  - eexists. split; [reflexivity|]. destruct (reach_books _ _ _ Hp) as [Hg _ _ _]. simpl in Hg.
    apply cong64_move in Hg. unfold total_connections, pool_manager. fold σ2. rewrite Hg. apply cong64_eq. simpl. lia.
  - intros E. unfold pool_manager. fold σ0 σ2. rewrite Htot. by rewrite E.
  - destruct (get_all_db_info_correct cfg (s_mon σ1).1) as (Hso & Hnd & _ & Hov).
    eexists. split; [reflexivity|]. split_and!; [exact Hso|exact Hnd|]. intros i Hin. by apply Hov.
Qed.
End reports.

(** Between the read of the pools and the read of the total, Alice's session
    ends and its connection is being reset. *)
Definition demo_reads (i : nat) : sys :=
  match i with
  | 0%nat => demo_sys demo_two
  | _ => demo_sys (demo_two ++ [SClient 0 (InProxied FromClient (RdData []))])
  end.
Lemma demo_reads_step :
  rtc (System.sstep (H := upper_id) (H0 := release_profile) map_to_list false 1 (λ _, 2) Config_default demo_accepts)
    (demo_reads 0) (demo_reads 1).
Proof.
  eapply rtc_once. exists (SClient 0 (InProxied FromClient (RdData []))). apply srun_one.
  apply demo_sys_extend. vm_compute. reflexivity.
Qed.

Lemma admin_reports_agree_witness :
  let st := mk_AdminState Metrics_new demo_reads in
  let get' := get (H := {| to_string _ := None |}) (H0 := names_encoder) Config_default in
  total_connections (pool_manager st 2) = 2
  ∧ listed_connections (json_of_pool <$> get_stats (pool_manager st 2)) = 1
  ∧ ∃ total pools, get' (lit "/api/pools") (mk_AdminState Metrics_new (λ _, demo_reads 0)) = Some (Ok (Json (JArr pools)))
    ∧ total = listed_connections (json_of_pool <$> get_stats (pool_manager st 2))
              + cnt is_resetting (tasks (s_pool (demo_reads 2))).
Proof.
  split; [vm_compute; reflexivity|]. split; [vm_compute; reflexivity|].
  destruct (admin_reports_agree (H := upper_id) (H0 := release_profile) (H1 := {| to_string _ := None |})
    (H2 := names_encoder) map_to_list false 1 (λ _, 2) Config_default demo_accepts (mk_AdminState Metrics_new demo_reads)
    demo_default demo_two_reach demo_reads_step (rtc_refl _ _)) as (total & pools & dbs & _ & Hp & _ & _ & _ & Ht & _).
  - vm_compute. reflexivity.
  - vm_compute. reflexivity.
  - exists total, pools. split; [exact Hp|exact Ht].
Defined.

(** ** What a client can put on the dashboard *)

Definition infix_of (s page : str) : Prop := ∃ a b, page = a ++ s ++ b.

Lemma infix_refl s : infix_of s s.
Proof. exists [], []. by rewrite app_nil_r. Qed.
Lemma infix_app_l s a page : infix_of s page → infix_of s (a ++ page).
Proof. intros (x & y & ->). exists (a ++ x), y. by rewrite <-(assoc_L (++)). Qed.
Lemma infix_app_r s b page : infix_of s page → infix_of s (page ++ b).
Proof. intros (x & y & ->). exists x, (y ++ b). by rewrite <-!(assoc_L (++)). Qed.
Lemma infix_trans s t page : infix_of s t → infix_of t page → infix_of s page.
Proof. intros (x & y & ->) (x' & y' & ->). exists (x' ++ x), (y ++ y'). by rewrite <-!(assoc_L (++)). Qed.
Create HintDb infix.
#[local] Hint Resolve infix_refl infix_app_l infix_app_r : infix.

Lemma join_infix sep l x : x ∈ l → infix_of x (join sep l).
Proof.
  induction l as [|y l IH]; [by intros ?%not_elem_of_nil|].
  intros [->|Hx]%elem_of_cons; simpl.
  - destruct l; auto with infix.
  - destruct l as [|z l]; [by apply not_elem_of_nil in Hx|]. auto with infix.
Qed.

(** Every pool has its row on the page, with its key as it is. *)
Lemma dashboard_row {Nt : Notify} `{JsonPrinter} pools dbs total p :
  p ∈ pools → infix_of (lit "<tr><td>" ++ display_key (ps_key p) ++ lit "</td>") (generate_dashboard_html pools dbs total).
Proof.
  intros Hp. unfold generate_dashboard_html. cbv zeta.
  do 7 apply infix_app_l. apply infix_app_r. eapply infix_trans; [|apply join_infix, list_elem_of_fmap; by exists p].
  unfold pool_row, td. eexists [], _. cbn [app]. rewrite <-!(assoc_L (++)). reflexivity.
Qed.

Section injection.
Context {Nt : Notify} `{UnicodeUpper, BuildProfile, JsonPrinter, TextEncoder}.
Context (order : gmap str str → list (str * str)) (tls : bool) (pid : Z) (secret : nat → Z).
Context (cfg : Config) (accepts : PoolKey → str → bool).

Lemma listed_pool (m : PoolManager) k :
  is_Some (Pool.pools m !! k) → ∃ p, p ∈ get_stats m ∧ ps_key p = k.
Proof using Type.
  intros [p Hp]. unfold get_stats.
  exists (mk_PoolStats k (len (idle p)) (active_count p) (total_acquired p) (total_errors p)). split; [|done].
  apply list_elem_of_fmap. exists (k, p). split; [done|]. by apply elem_of_map_to_list.
Qed.

Lemma start_enters c acc tid k w σ σ' :
  exec c acc (AStart tid k w) σ = Some σ' →
  is_Some (Pool.pools (mgr σ') !! k) ∧ loc σ' = loc σ ∧ next_stream σ' = next_stream σ.
Proof using Type.
  destruct σ as [pw m ts t n l o]. cbn [exec]. case_match; [done|]. intros [= <-]. cbn [mgr loc next_stream].
  split; [|done]. unfold pool_entry. destruct (Pool.pools m !! k) eqn:E; [by rewrite E|].
  unfold set_pool. cbn [Pool.pools]. by rewrite lookup_insert_eq.
Qed.

(** C31. Anybody can write on the dashboard, for ever.  In any state of the
    server, any text a client sends as the name of its database (in a startup
    message with any user name and any password) is part of every page that is
    served at "/" from then on, as it is, tags included.  The PostgreSQL server
    has seen neither the name nor the password: no connection has been opened, and
    no login needs to succeed. *)
Theorem dashboard_injection σ tid user text password :
  listening σ = true → clients σ !! tid = None → tasks (s_pool σ) !! tid = None →
  sendable user text password →
  ∃ σ1, srun order tls pid secret cfg accepts (knock_at tid user text password) σ = Some σ1
    ∧ loc (s_pool σ1) = loc (s_pool σ) ∧ next_stream (s_pool σ1) = next_stream (s_pool σ)
    ∧ ∀ st, rtc (System.sstep order tls pid secret cfg accepts) σ1 (as_server st 0) →
        ∃ page, get cfg (lit "/") st = Some (Ok (Html page))
          ∧ infix_of (lit "<tr><td>" ++ upstream_host cfg ++ lit ":" ++ fmt_uint (upstream_port cfg) ++ lit "/"
                      ++ text ++ lit "@" ++ user ++ lit "</td>") page.
Proof using Type.
  intros Hl Hc Ht Hs.
  destruct (knock_runs order tls pid secret cfg accepts σ tid user text password Hl Hc Ht Hs)
    as (σ1 & Hrun & _ & _ & _ & Hstart).
  destruct (start_enters _ _ _ _ _ _ _ Hstart) as (Hin & Hloc & Hnext).
  exists σ1. split_and!; [exact Hrun|exact Hloc|exact Hnext|]. intros st Hsteps.
  apply (reach_grows _ _ _ _ (steps_pool _ _ _ _ _ _ _ _ Hsteps)) in Hin.
  destruct (listed_pool _ _ Hin) as (p & Hp & Hk).
  eexists. split; [reflexivity|]. eapply infix_trans; [|apply (dashboard_row _ _ _ _ Hp)].
  rewrite Hk. unfold display_key, pool_key, plain_info. cbn [pk_host pk_port pk_database pk_user ci_user ci_database].
  rewrite <-!(assoc_L (++)). apply infix_refl.
Qed.
End injection.

#[local] Existing Instance upper_id.
#[local] Existing Instance release_profile.

Lemma dashboard_injection_witness :
  ∃ σ1 page, get (H := {| to_string _ := None |}) Config_default (lit "/") (mk_AdminState Metrics_new (λ _, σ1)) = Some (Ok (Html page))
    ∧ loc (s_pool σ1) = ∅
    ∧ infix_of (lit "<tr><td>" ++ upstream_host Config_default ++ lit ":" ++ fmt_uint (upstream_port Config_default)
                ++ lit "/" ++ lit "<script>alert(1)</script>" ++ lit "@" ++ lit "nobody" ++ lit "</td>") page.
Proof.
  destruct (dashboard_injection (H := upper_id) (H0 := release_profile) (H1 := {| to_string _ := None |}) map_to_list false 1
    (λ _, 2) Config_default (λ _ _, false) sys_new 0 (lit "nobody") (lit "<script>alert(1)</script>") [])
    as (σ1 & _ & Hloc & _ & Hpage); [reflexivity|reflexivity|reflexivity| |].
  - split; [split; str_literal..| |]; vm_compute; [reflexivity|discriminate].
  - destruct (Hpage (mk_AdminState Metrics_new (λ _, σ1)) (rtc_refl _ _)) as (page & Hget & Hin).
    exists σ1, page. split; [exact Hget|]. split; [exact Hloc|exact Hin].
Defined.

(** ** Keys as they are printed *)

(** A list is cut at the first separator in one way only. *)
Lemma split_at_separator (c : Z) d d' u u' :
  c ∉ d → c ∉ d' → d ++ [c] ++ u = d' ++ [c] ++ u' → d = d' ∧ u = u'.
Proof.
  revert d'. induction d as [|x d IH]; intros [|x' d']; rewrite ?not_elem_of_cons; intros Hd Hd' E; simpl in E.
  - by injection E.
  - injection E as -> _. by destruct Hd'.
  - injection E as -> _. by destruct Hd.
  - injection E as -> E. destruct Hd as [_ Hd], Hd' as [_ Hd']. by destruct (IH d' Hd Hd' E) as [-> ->].
Qed.

(** Printed pool keys.  Two pools of the configured server are printed
    with the same key, on the dashboard and in the API, only if one of their
    database names contains an @; but then they can be: the databases [a] of
    user [b@c] and [a@b] of user [c] are two pools with one printed key. *)
Theorem display_key_ambiguous :
  (∀ k k', pk_host k = pk_host k' → pk_port k = pk_port k' → 64 ∉ pk_database k → 64 ∉ pk_database k' →
     display_key k = display_key k' → k = k')
  ∧ ∃ l, let σ := demo_sys l in
      demo_sreach σ ∧ length (get_stats (mgr (s_pool σ))) = 2%nat
      ∧ ∀ p q, p ∈ get_stats (mgr (s_pool σ)) → q ∈ get_stats (mgr (s_pool σ)) →
          display_key (ps_key p) = display_key (ps_key q).
Proof.
  split.
  - intros [h p d u] [h' p' d' u']. simpl. intros <- <- Hd Hd' E. unfold display_key in E. simpl in E.
    apply (inj (h ++.)) in E. do 1 apply (inj (lit ":" ++.)) in E. apply (inj (fmt_uint p ++.)) in E.
    apply (inj (lit "/" ++.)) in E. change (lit "@" ++ u) with ([64] ++ u) in E. change (lit "@" ++ u') with ([64] ++ u') in E.
    by destruct (split_at_separator 64 d d' u u') as [-> ->].
  - exists (knock 0 (lit "b@c") (lit "a") [] [] ++ knock 1 (lit "c") (lit "a@b") [] []). cbv zeta.
    split; [apply demo_sys_reach; vm_compute; reflexivity|]. split; [vm_compute; reflexivity|].
    assert (Hall : Forall (λ p, display_key (ps_key p) = lit "localhost:5432/a@b@c")
      (get_stats (mgr (s_pool (demo_sys (knock 0 (lit "b@c") (lit "a") [] [] ++ knock 1 (lit "c") (lit "a@b") [] [])))))).
    { vm_compute. repeat constructor. }
    rewrite Forall_forall in Hall. intros p q Hp Hq. by rewrite (Hall p Hp), (Hall q Hq).
Qed.
