(* ===== verification/Tls.v ===== *)
(** * TLS towards clients (src/tls/mod.rs, src/protocol/frontend.rs)

    [build_server_tls_acceptor] over the file system, rustls-pemfile and rustls,
    which are the class [TlsLibrary]; and what a session does with the TLS
    handshake of a client whose SSLRequest it has accepted. *)

From S2P Require Import Prelude RustStr Messages Startup Config Io Proxy Session.

(** The calls: reading a file, the certificates of a PEM text one by one, its
    private key if there is one, and a server configuration without client
    authentication.  [None] is an error of the call. *)
Class TlsLibrary := {
  CertificateDer : Type;
  PrivateKeyDer : Type;
  ServerConfig : Type;
  fs_read : str → option bytes;
  pem_certs : bytes → list (option CertificateDer);
  pem_private_key : bytes → option (option PrivateKeyDer);
  with_single_cert : list CertificateDer → PrivateKeyDer → option ServerConfig
}.

Section acceptor.
Context `{TlsLibrary}.

(** [collect::<Result<Vec<_>, _>>()]: the first error wins. *)
Fixpoint collect {A} (l : list (option A)) : option (list A) :=
  match l with
  | [] => Some []
  | None :: _ => None
  | Some x :: r => cons x <$> collect r
  end.

(** [context(..)] on a failed call. *)
Definition add_context {A} (o : option A) (ctx : str) : outcome A :=
  match o with Some a => Ok a | None => Err (Bail ctx) end.

Definition build_server_tls_acceptor (config : TlsConfig) : outcome ServerConfig :=
  if decide (cert_path config = [] ∨ key_path config = []) then
    Err (Bail (lit "TLS enabled but cert_path or key_path not set"))
  else
    cert_pem ← add_context (fs_read (cert_path config)) (lit "Reading cert: " ++ cert_path config);
    key_pem ← add_context (fs_read (key_path config)) (lit "Reading key: " ++ key_path config);
    certs ← add_context (collect (pem_certs cert_pem)) (lit "Parsing TLS certificates");
    key ← add_context (pem_private_key key_pem) (lit "Parsing TLS private key");
    key ← add_context key (lit "No private key found in key file");
    add_context (with_single_cert certs key) (lit "Building TLS server config").

Lemma add_context_Ok {A} (o : option A) ctx a : add_context o ctx = Ok a ↔ o = Some a.
Proof using Type. destruct o; simpl; split; intros E; simplify_eq; done. Qed.

Lemma collect_Some {A} (l : list (option A)) xs : collect l = Some xs ↔ l = Some <$> xs.
Proof using Type.
  split.
  - revert xs. induction l as [|[x|] l IH]; intros xs; simpl; [by intros [= <-]| |done].
    destruct (collect l) as [ys|]; simpl; [|done]. intros [= <-]. simpl. f_equal. by apply IH.
  - intros ->. induction xs as [|x xs IH]; [done|]. cbn [fmap list_fmap collect] in *. by rewrite IH.
Qed.

(** The TLS acceptor.  It is built exactly when both paths are set and can
    be read, every certificate of the first file parses, the second one holds a
    private key, and rustls accepts the two; in every other case the result is
    an error (the server does not start), never a panic. *)
Theorem tls_acceptor_built config sc :
  (build_server_tls_acceptor config = Ok sc ↔
     cert_path config ≠ [] ∧ key_path config ≠ []
     ∧ ∃ cert_pem key_pem certs key,
         fs_read (cert_path config) = Some cert_pem ∧ fs_read (key_path config) = Some key_pem
         ∧ pem_certs cert_pem = Some <$> certs ∧ pem_private_key key_pem = Some (Some key)
         ∧ with_single_cert certs key = Some sc)
  ∧ build_server_tls_acceptor config ≠ Panic.
Proof using Type.
  unfold build_server_tls_acceptor. case_decide as Hp; [split; [|done]; split; [done|tauto]|]. split.
  - split.
    + intros E. outcome_inv.
      repeat match goal with E : add_context _ _ = Ok _ |- _ => apply add_context_Ok in E end.
      rename select (collect _ = _) into Ec. apply collect_Some in Ec. subst.
      split_and!; [tauto..|]. eexists _, _, _, _. by split_and!.
    + intros (_ & _ & cp & kp & cs & k & -> & -> & Ec & Ek & Es). cbn [add_context mbind outcome_bind].
      rewrite (proj2 (collect_Some _ cs) Ec). cbn [add_context mbind outcome_bind]. rewrite Ek. cbn. by rewrite Es.
  - repeat (match goal with |- context C [add_context ?o ?c] => destruct o end; cbn; try done).
Qed.
End acceptor.

(** ** A TLS handshake after an accepted SSLRequest *)

Section handshake.
Context `{UnicodeUpper, BuildProfile}.
Context (order : gmap str str → list (str * str)).

Definition ssl_request : bytes := put_i32 8 ++ put_i32 SSL_REQUEST_CODE.

(** A message announced as longer than all that comes is only buffered. *)
Lemma announced_too_long tls l r chunks buf w :
  is_i32 l → put_i32 l ++ r = buf ++ concat chunks → len (put_i32 l ++ r) < l →
  Forall (λ c, c ≠ []) chunks →
  run_reads (startup_read order tls) (buf, w) (RdData <$> chunks) = (Waiting (buf ++ concat chunks, w), []).
Proof using Type.
  intros Hl E Hlt Hc. revert buf E. induction Hc as [|c cs Hc Hcs IH]; intros buf E; cbn [fmap list_fmap run_reads concat].
  - by rewrite app_nil_r.
  - cbn [concat] in E. rewrite (startup_read_partial _ _ _ _ _ l r); [|done|done| |].
    + rewrite IH; by rewrite <-(assoc_L (++)).
    + rewrite E. rewrite (assoc_L (++) buf c (concat cs)), drop_app_length. by rewrite <-(assoc_L (++)).
    + apply (f_equal len) in E. rewrite !len_app in E. rewrite !len_app in Hlt. rewrite len_app.
      pose proof (len_nonneg (concat cs)). lia.
Qed.

(** C36. TLS clients hang.  With TLS enabled the server answers an SSLRequest
    with S and goes on reading startup messages in plain text: the first bytes
    of any TLS handshake (a record header 16 03) are taken as a length of more
    than 369 million bytes, so, however the client cuts what it sends, the
    session waits, keeps everything it receives up to that size, and never
    answers again. *)
Theorem tls_client_hangs v h rest chunks w :
  writes_left w = None → Forall (λ c, c ≠ []) chunks → concat chunks = x16 :: x03 :: v :: h :: rest →
  len (concat chunks) < 369295360 →
  run_reads (startup_read order true) ([], w) (RdData <$> (ssl_request :: chunks))
  = (Waiting (concat chunks, mk_sink (sent w ++ blit "S") None), []).
Proof using Type.
  intros Hw Hc E Hlen. destruct w as [o wl]. simpl in Hw. subst wl.
  cbn [fmap list_fmap run_reads].
  assert (Hs : startup_read order true ([], mk_sink o None) (RdData ssl_request)
               = Waiting ([], mk_sink (o ++ blit "S") None)) by reflexivity.
  rewrite Hs. set (l := i32_from_be_bytes x16 x03 v h).
  assert (El : put_i32 l = [x16; x03; v; h]) by apply put_get_i32.
  assert (Hl : is_i32 l ∧ 369295360 ≤ l).
  { subst l. unfold i32_from_be_bytes. pose proof (byte_Z_range v). pose proof (byte_Z_range h).
    change (byte_Z x16) with 22. change (byte_Z x03) with 3.
    rewrite i32_wrap_small by (unfold is_i32; lia). unfold is_i32. lia. }
  apply (announced_too_long true l rest chunks [] _); [apply Hl| | |done].
  - by rewrite El, E.
  - rewrite El. change ([x16; x03; v; h] ++ rest) with (x16 :: x03 :: v :: h :: rest). rewrite <-E. lia.
Qed.
End handshake.

#[local] Existing Instance upper_id.
#[local] Existing Instance release_profile.

(** The start of a ClientHello, in two reads. *)
Lemma tls_client_hangs_witness :
  run_reads (startup_read map_to_list true) ([], demo_sink)
    (RdData <$> [ssl_request; [x16; x03; x01]; [x02; x00; x01; x00]])
  = (Waiting ([x16; x03; x01; x02; x00; x01; x00], mk_sink (blit "S") None), []).
Proof.
  apply (tls_client_hangs map_to_list x01 x02 [x00; x01; x00] [[x16; x03; x01]; [x02; x00; x01; x00]] demo_sink);
    [done|by repeat constructor|done|by vm_compute].
Defined.
