(* ===== verification/Main.v ===== *)
(** * The program (src/main.rs)

    The command line and the start of the server up to its accept loop (which
    is [sexec] of System.v). *)

From S2P Require Import Prelude RustStr Messages Startup Scanner Config Monitor MonitorRun Notify Pool PoolSys PoolThms Io Proxy Session System SystemThms Tls.

(** [Cli], as clap parses it. *)
Record Cli := mk_Cli {
  cli_config : str;
  cli_listen : option str;
  cli_admin_listen : option str
}.
(** Its value without arguments. *)
Definition Cli_default : Cli := mk_Cli (lit "config.toml") None None.

(** The background tasks [main] spawns before it serves. *)
Inductive background := MonitorTask | AdminTask (admin_addr : str).

Section main.
Context `{TlsLibrary}.
(** [TcpListener::bind] of an address. *)
Context (bind : str → bool).

(** [main] up to its loop: the tasks spawned so far, and the configuration and
    the acceptor it serves with, or the error it ends with.  When [main]
    returns, the runtime ends the spawned tasks with it. *)
Definition main_start (e : LoadEnv) (cli : Cli) : list background * outcome (Config * option ServerConfig) :=
  match load e (cli_config cli) (cli_listen cli) (cli_admin_listen cli) with
  | Err err => ([], Err err)
  | Panic => ([], Panic)
  | Ok cfg =>
      ([MonitorTask; AdminTask (admin_listen_addr cfg)],
       tls_acceptor ← (if tls_enabled (cfg_tls cfg)
                       then Some <$> build_server_tls_acceptor (cfg_tls cfg) else Ok None);
       if bind (listen_addr cfg) then Ok (cfg, tls_acceptor) else Err IoError)
  end.

(** [admin::server::run]: an error is only logged. *)
Definition admin_serves (cfg : Config) : bool := bind (admin_listen_addr cfg).

(** When the server starts.  [main] reaches its accept loop exactly when
    the configuration loads, the listening address can be bound and, if TLS is
    enabled, the acceptor can be built; it then has an acceptor exactly if TLS is
    enabled.  The admin server plays no part: if its address is taken, the
    proxy serves without it. *)
Theorem main_serves_iff e cli cfg acceptor :
  (main_start e cli).2 = Ok (cfg, acceptor) ↔
    load e (cli_config cli) (cli_listen cli) (cli_admin_listen cli) = Ok cfg
    ∧ bind (listen_addr cfg) = true
    ∧ match acceptor with
      | Some a => tls_enabled (cfg_tls cfg) = true ∧ build_server_tls_acceptor (cfg_tls cfg) = Ok a
      | None => tls_enabled (cfg_tls cfg) = false
      end.
Proof using Type.
  unfold main_start. destruct (load _ _ _ _) as [c| |]; cbn [snd].
  2-3: split; [done|intros (? & _); done].
  destruct (tls_enabled (cfg_tls c)) eqn:Et.
  - destruct (build_server_tls_acceptor (cfg_tls c)) as [a| |] eqn:Ea; cbn.
    2-3: split; [done|]; intros (E & _ & Ha); simplify_eq; destruct acceptor; [naive_solver congruence|congruence].
    destruct (bind (listen_addr c)) eqn:Eb; split.
    + intros E. simplify_eq. by split_and!.
    + intros (E & _ & Ha). simplify_eq. destruct acceptor; [naive_solver congruence|congruence].
    + done.
    + intros (E & Hb & _). simplify_eq. congruence.
  - cbn. destruct (bind (listen_addr c)) eqn:Eb; split.
    + intros E. simplify_eq. by split_and!.
    + intros (E & _ & Ha). simplify_eq. destruct acceptor; [naive_solver congruence|done].
    + done.
    + intros (E & Hb & _). simplify_eq. congruence.
Qed.
End main.

(** ** Plain text *)

#[local] Existing Instance fifo_notify.

(** With [require_tls] set, the session of a client that never asked for TLS is
    proxied like any other. *)
Example plaintext_served :
  let c := mk_Config (lit "0.0.0.0:5433") (lit "0.0.0.0:9090") (lit "localhost") 5432 PoolConfig_default
             (mk_TlsConfig true (lit "c.pem") (lit "k.pem") true true false) MonitorConfig_default in
  is_proxied (clients (default sys_new (@srun fifo_notify upper_id release_profile map_to_list true 1 (λ _, 2) c demo_accepts
    (login 0 (lit "alice") (lit "app") [] (lit "right")) sys_new)) !! 0%nat) = true.
Proof. vm_compute. reflexivity. Qed.
